(** * bitburner automation scripts: a shallow embedding of the scheduling core

    Embedded sources:
    - [bin.grow.js] ([src/unnamed/part_001]) and the two [bin.weaken.js]
      ([src/bitburner-home/src/bin.weaken.js])        (module [Worker])
    - [lib.helper.js] ([src/unnamed/part_000]): [RingBuffer], [crawler],
      [optimizeServer] with [getWaitTime] and
      [executeOnBot]                                   (modules [RingBuffer], [Helper])
    - [lib.config.js]: [saveToStorage], [loadFromStorage],
      [restoreFromStorage]                             (module [Config]);
      the classes [Settings] and [RunInfo]             (modules [Settings], [RunInfo])
    - [lib.helper.js]: [waitWithProgress] and
      [killAll]                                        (modules [Progress], [KillAll])
    - [lib.format.js] as [src/unnamed/part_001] has it: the string
      functions of the class [Ansi] and the class
      [Table]                                          (modules [Ansi], [Table])
    - [mod.spider.js]: [executeSpider], [peekIntoServer], [make2Bot],
      [deployHackScripts]                              (module [Spider])
    - [lib.format.js] ([src/bitburner-home/src]): [tFormatCustom],
      [formatNumberFixedWidth]                         (module [Format]);
      the class [ProgressBar] and its
      [waitWithProgress]                               (module [ProgressBar]);
      of its class [Table] the column widths and the
      alignment of cells                               (module [Columns])

    JavaScript numbers are modelled by exact rationals ([Q]); thread counts,
    slot counts and process ids, which the code only ever produces through
    [Math.floor], [Math.ceil], [Math.min] and subtraction of integers, are
    modelled by [Z].  The Netscript API object [ns] is an interface: a record
    of oracles over an arbitrary world type, every call of which returns.
    Inside [optimizeServer], [waitWithProgress], the progress bar around
    [ns.sleep], is taken as the wait primitive: a run records that it waited,
    for how long and under which label, and goes on in the world the game has
    made meanwhile.  The function itself is embedded in module [Progress]. *)

From Stdlib Require Import ZArith QArith Qround Qminmax Lia Lqa Ascii String Sorted.
From stdpp Require Import gmap strings list pretty.

Set Warnings "-register-all".
Local Open Scope Z_scope.

(** ** JavaScript arithmetic helpers *)

Module Js.

(** [a < b] on numbers. *)
Definition ltb (a b : Q) : bool :=
  match (a ?= b)%Q with Lt => true | _ => false end.

(** [a <= b] on numbers. *)
Definition leb (a b : Q) : bool :=
  match (a ?= b)%Q with Gt => false | _ => true end.

(** [a > b] on numbers. *)
Definition gtb (a b : Q) : bool := ltb b a.

(** [a === b] on numbers. *)
Definition eqb (a b : Q) : bool :=
  match (a ?= b)%Q with Eq => true | _ => false end.

(** Truthiness of a (finite) number: everything but zero. *)
Definition truthy (a : Q) : bool := negb (eqb a 0).

(** [Math.floor], [Math.ceil], [Math.max]. *)
Definition Math_floor (a : Q) : Z := Qfloor a.
Definition Math_ceil (a : Q) : Z := Qceiling a.
Definition Math_max (a b : Q) : Q := if ltb a b then b else a.

(** [a % b] on integers: the remainder takes the sign of the dividend. *)
Definition rem (a b : Z) : Z := Z.rem a b.

(** A value of type [number]: a finite number, [NaN] or an infinity. *)
Inductive Number := Finite (q : Q) | NaN | PosInf | NegInf.

(** A value of type [T | null | undefined]. *)
Inductive Nullable (T : Type) := Undefined | Null | Val (x : T).
Arguments Undefined {T}.
Arguments Null {T}.
Arguments Val {T} x.

(** Arrays as lists.  [a[i]] reads [undefined] outside the array. *)
Definition array_get {T} (a : list (Nullable T)) (i : Z) : Nullable T :=
  if i <? 0 then Undefined
  else match a !! Z.to_nat i with
       | Some c => c
       | None => Undefined
       end.

(** [a[i] = x]: inside the array the element is replaced; past its end the
    array grows, the gap reading [undefined]; a negative [i] is no array
    index and leaves the elements alone. *)
Definition array_set {T} (a : list (Nullable T)) (i : Z) (x : Nullable T)
  : list (Nullable T) :=
  if i <? 0 then a
  else if i <? Z.of_nat (length a) then <[Z.to_nat i := x]> a
  else a ++ replicate (Z.to_nat i - length a) Undefined ++ [x].

(** The largest length an array can have, [2^32 - 1]. *)
Definition MAX_ARRAY_LENGTH : Z := 4294967295.

End Js.

(** ** The worker scripts [bin.grow.js] and [bin.weaken.js] *)

Module Worker.

Inductive Kind := Grow | Weaken.

(** [const [target, operationTime, endTime] = ns.args]; a missing argument
    is [undefined], here [None].  The dispatcher passes a host name and two
    numbers. *)
Record Args := {
  target : option string;
  operationTime : option Q;
  endTime : option Q
}.

(** What a run of the script does: it throws, returns at once (the
    [--validation] flag of [bin.weaken.js]), or awaits one operation on
    [target], with or without the option [additionalMsec]. *)
Inductive Action :=
  | Threw (msg : string)
  | Validated
  | Op (k : Kind) (tgt : string) (additionalMsec : option Q).

(** [!target] *)
Definition missing (t : option string) : bool :=
  match t with
  | None => true
  | Some s => String.eqb s ""
  end.

(** [operationTime && endTime] as a condition. *)
Definition both_given (a : Args) : option (Q * Q) :=
  match operationTime a, endTime a with
  | Some o, Some e => if Js.truthy o && Js.truthy e then Some (o, e) else None
  | _, _ => None
  end.

(** [Math.floor(Math.max(0, endTime - now - operationTime))] *)
Definition delay (endT now opT : Q) : Q :=
  inject_Z (Js.Math_floor (Js.Math_max 0 (endT - now - opT))).

(** [bin.grow.js], [main]; [now] is the value read from [Date.now()]. *)
Definition grow_main (a : Args) (now : Q) : Action :=
  match target a with
  | Some tgt =>
      if missing (target a) then Threw "Zielserver fehlt"
      else match both_given a with
           | Some (o, e) => Op Grow tgt (Some (delay e now o))
           | None => Op Grow tgt None
           end
  | None => Threw "Zielserver fehlt"
  end.

(** [bin.weaken.js], [main]; [validation] is
    [ns.args.includes("--validation")]. *)
Definition weaken_main (validation : bool) (a : Args) (now : Q) : Action :=
  if validation then Validated
  else match target a with
       | Some tgt =>
           if missing (target a) then Threw "Zielserver fehlt"
           else match both_given a with
                | Some (o, e) => Op Weaken tgt (Some (delay e now o))
                | None => Op Weaken tgt None
                end
       | None => Threw "Zielserver fehlt"
       end.

(** The other [bin.weaken.js] of the sources: [String(args[0])] for the
    target, so that a missing one reads ["undefined"], [performance.now()]
    for [now], and the delay [Math.max(0, endTime - now - operationTime)]
    not rounded down. *)
Definition weaken_plain_main (a : Args) (now : Q) : Action :=
  let tgt := match target a with
             | Some s => s
             | None => "undefined"
             end in
  if String.eqb tgt "" then Threw "Zielserver fehlt"
  else match both_given a with
       | Some (o, e) => Op Weaken tgt (Some (Js.Math_max 0 (e - now - o)))
       | None => Op Weaken tgt None
       end.

(** The three scripts. *)
Inductive Script := BinGrow | BinWeaken | BinWeakenPlain.

Definition main (k : Script) (validation : bool) (a : Args) (now : Q) : Action :=
  match k with
  | BinGrow => grow_main a now
  | BinWeaken => weaken_main validation a now
  | BinWeakenPlain => weaken_plain_main a now
  end.

(** The delay a script works out from its arguments. *)
Definition delay_of (k : Script) (endT now opT : Q) : Q :=
  match k with
  | BinWeakenPlain => Js.Math_max 0 (endT - now - opT)
  | _ => delay endT now opT
  end.

(** The extra delay the game applies to the operation: the option
    [additionalMsec] when the script passes it. *)
Definition dispatched_delay (act : Action) : option Q :=
  match act with
  | Op _ _ d => d
  | _ => None
  end.

(** A grow that cannot meet its target: 3200 ms of work, 1000 ms left. *)
Definition late_grow : Args :=
  {| target := Some "n00dles"; operationTime := Some 3200%Q; endTime := Some 5000%Q |}.

End Worker.

(** ** [RingBuffer] of [lib.helper.js] *)

Module RingBuffer.
Import Js.

Record t (T : Type) := {
  size : Z;
  buffer : list (Nullable T);
  currentIndex : Z;
  count : Z
}.
Arguments size {T} _.
Arguments buffer {T} _.
Arguments currentIndex {T} _.
Arguments count {T} _.

(** [!size] *)
Definition falsy (n : Number) : bool :=
  match n with
  | Finite q => eqb q 0
  | NaN => true
  | PosInf | NegInf => false
  end.

(** [size <= 0] *)
Definition le_zero (n : Number) : bool :=
  match n with
  | Finite q => leb q 0
  | NegInf => true
  | NaN | PosInf => false
  end.

(** [Number.isInteger(size)] *)
Definition isInteger (n : Number) : bool :=
  match n with
  | Finite q => eqb (inject_Z (Qfloor q)) q
  | _ => false
  end.

(** What [new RingBuffer(size)] comes to: the constructor's own error, which
    quotes the [size] it was given, the [RangeError] of [new Array], or the
    buffer. *)
Inductive Constructed (T : Type) :=
  | ThrewError (given : Number)
  | ThrewRangeError
  | Built (rb : t T).
Arguments ThrewError {T} given.
Arguments ThrewRangeError {T}.
Arguments Built {T} rb.

(** [new Array(size).fill(null)] for an integer [n >= 0]: a [RangeError]
    above the largest array length. *)
Definition new_Array_fill_null {T} (n : Z) : option (list (Nullable T)) :=
  if MAX_ARRAY_LENGTH <? n then None
  else Some (replicate (Z.to_nat n) Null).

Definition constructor {T} (sz : Number) : Constructed T :=
  if falsy sz || le_zero sz || negb (isInteger sz)
  then ThrewError sz
  else match sz with
       | Finite q =>
           let n := Qfloor q in
           match new_Array_fill_null n with
           | Some buf =>
               Built {| size := n; buffer := buf; currentIndex := 0; count := 0 |}
           | None => ThrewRangeError
           end
       | _ => ThrewError sz
       end.

(** [add(element)]; the returned value is [element] itself. *)
Definition add {T} (element : T) (rb : t T) : t T :=
  {| size := size rb;
     buffer := array_set (buffer rb) (currentIndex rb) (Val element);
     currentIndex := rem (currentIndex rb + 1) (size rb);
     count := if count rb <? size rb then count rb + 1 else count rb |}.

Definition current {T} (rb : t T) : Nullable T :=
  if count rb =? 0 then Null
  else
    let lastIndex := rem (currentIndex rb - 1 + size rb) (size rb) in
    array_get (buffer rb) lastIndex.

Definition previous {T} (steps : Z) (rb : t T) : Nullable T :=
  if (steps <? 1) || (count rb <? steps) then Null
  else
    let index := rem (currentIndex rb - steps + size rb) (size rb) in
    array_get (buffer rb) index.

Definition isEmpty {T} (rb : t T) : bool := count rb =? 0.

Definition clear {T} (rb : t T) : t T :=
  {| size := size rb;
     buffer := replicate (length (buffer rb)) Null;
     currentIndex := 0;
     count := 0 |}.

(** The operations that change a buffer, and the buffers a program can
    hold: built by the constructor, then changed by [add] and [clear]. *)
Inductive op (T : Type) := OpAdd (x : T) | OpClear.
Arguments OpAdd {T} x.
Arguments OpClear {T}.

Definition apply {T} (rb : t T) (o : op T) : t T :=
  match o with
  | OpAdd x => add x rb
  | OpClear => clear rb
  end.

Definition run {T} (rb : t T) (ops : list (op T)) : t T :=
  fold_left apply ops rb.

(** [sz] is a positive integer. *)
Definition positive_integer (sz : Number) : bool :=
  match sz with
  | Finite q => eqb (inject_Z (Qfloor q)) q && ltb 0 q
  | _ => false
  end.

Definition threw {T} (c : Constructed T) : bool :=
  match c with
  | Built _ => false
  | _ => true
  end.

(** The invariant of a buffer: the array has [size] cells, the counters
    are in range, and the [count] cells behind [currentIndex] hold
    elements. *)
Record wf {T} (rb : t T) : Prop := {
  wf_size : 0 < size rb;
  wf_length : Z.of_nat (length (buffer rb)) = size rb;
  wf_index : 0 <= currentIndex rb < size rb;
  wf_count : 0 <= count rb <= size rb;
  wf_filled : forall steps, 1 <= steps <= count rb ->
    exists x, array_get (buffer rb)
                (rem (currentIndex rb - steps + size rb) (size rb)) = Val x
}.

(** [new RingBuffer(3)] *)
Definition ring3 : t nat :=
  {| size := 3; buffer := [Null; Null; Null]; currentIndex := 0; count := 0 |}.

End RingBuffer.

(** ** Storage helpers of [lib.config.js] *)

Module Config.
Import Js.

(** JavaScript values that can be handed to [saveToStorage].  A plain
    object lists its own enumerable properties in key order, a [Set] its
    elements and a [Map] its entries in insertion order, a [Date] its time
    value ([None] for an invalid date). *)
Inductive Value :=
  | VUndefined
  | VNull
  | VBool (b : bool)
  | VNum (n : Number)
  | VStr (s : string)
  | VArr (items : list Value)
  | VObj (props : list (string * Value))
  | VSet (items : list Value)
  | VMap (entries : list (Value * Value))
  | VDate (time : option Z).

(** The value denoted by a JSON text. *)
Inductive Json :=
  | JNull
  | JBool (b : bool)
  | JNum (q : Q)
  | JStr (s : string)
  | JArr (items : list Json)
  | JObj (props : list (string * Json)).

(** A string held by [localStorage], with what [JSON.parse] makes of it:
    [None] when it throws a [SyntaxError]. *)
Record Text := { raw : string; parsed : option Json }.

(** [localStorage]: [getItem] is lookup, [setItem] is insert, [removeItem]
    is delete. *)
Abbreviation Storage := (gmap string Text).

(** [value.constructor.name] *)
Definition constructor_name (v : Value) : option string :=
  match v with
  | VUndefined | VNull => None
  | VBool _ => Some "Boolean"
  | VNum _ => Some "Number"
  | VStr _ => Some "String"
  | VArr _ => Some "Array"
  | VObj _ => Some "Object"
  | VSet _ => Some "Set"
  | VMap _ => Some "Map"
  | VDate _ => Some "Date"
  end.

(** [JSON.parse] hands out fresh values built from the tree. *)
Fixpoint revive (j : Json) : Value :=
  match j with
  | JNull => VNull
  | JBool b => VBool b
  | JNum q => VNum (Finite q)
  | JStr s => VStr s
  | JArr l => VArr (map revive l)
  | JObj ps => VObj (map (fun p => (fst p, revive (snd p))) ps)
  end.

(** [SameValueZero], the equality of [Set] elements and [Map] keys: by
    value on primitives, by identity on objects.  The objects met here are
    all fresh, hence pairwise different. *)
Definition same_value_zero (a b : Value) : bool :=
  match a, b with
  | VUndefined, VUndefined => true
  | VNull, VNull => true
  | VBool x, VBool y => Bool.eqb x y
  | VNum (Finite x), VNum (Finite y) => eqb x y
  | VNum NaN, VNum NaN => true
  | VNum PosInf, VNum PosInf => true
  | VNum NegInf, VNum NegInf => true
  | VStr x, VStr y => String.eqb x y
  | _, _ => false
  end.

(** [set.add(x)] *)
Definition set_add (s : list Value) (x : Value) : list Value :=
  if existsb (same_value_zero x) s then s else s ++ [x].

(** [map.set(k, x)]: an existing key keeps its place. *)
Fixpoint map_set (m : list (Value * Value)) (k x : Value) : list (Value * Value) :=
  match m with
  | [] => [(k, x)]
  | (k', x') :: rest =>
      if same_value_zero k k' then (k', x) :: rest
      else (k', x') :: map_set rest k x
  end.

(** The elements a string yields when iterated. *)
Fixpoint chars (s : string) : list Value :=
  match s with
  | EmptyString => []
  | String c rest => VStr (String c EmptyString) :: chars rest
  end.

(** A constructor or conversion returns, throws a [TypeError], or is given
    an array-like object, which this model leaves out. *)
Inductive Outcome :=
  | Ret (v : Value)
  | TypeError
  | Unmodelled.

(** [Array.from(data)] *)
Definition Array_from (data : Json) : Outcome :=
  match data with
  | JArr l => Ret (VArr (map revive l))
  | JStr s => Ret (VArr (chars s))
  | JNull => TypeError
  | JBool _ | JNum _ => Ret (VArr [])
  | JObj _ => Unmodelled
  end.

(** [new Set(data)] *)
Definition new_Set (data : Json) : Outcome :=
  match data with
  | JArr l => Ret (VSet (fold_left set_add (map revive l) []))
  | JStr s => Ret (VSet (fold_left set_add (chars s) []))
  | JNull => Ret (VSet [])
  | JBool _ | JNum _ | JObj _ => TypeError
  end.

(** [object[name]] for an own property of a parsed object; [None] when it
    has none of that name. *)
Fixpoint own_property (ps : list (string * Json)) (name : string) : option Json :=
  match ps with
  | [] => None
  | (k, x) :: rest => if String.eqb k name then Some x else own_property rest name
  end.

(** One entry handed to [new Map]: it has to be an object, and its
    properties [0] and [1] are the key and the value. *)
Definition map_entry (e : Json) : option (Value * Value) :=
  match e with
  | JArr (k :: x :: _) => Some (revive k, revive x)
  | JArr [k] => Some (revive k, VUndefined)
  | JArr [] => Some (VUndefined, VUndefined)
  | JObj ps =>
      let prop name := match own_property ps name with
                       | Some x => revive x
                       | None => VUndefined
                       end in
      Some (prop "0", prop "1")
  | _ => None
  end.

Fixpoint map_fill (m : list (Value * Value)) (es : list Json)
  : option (list (Value * Value)) :=
  match es with
  | [] => Some m
  | e :: rest =>
      match map_entry e with
      | Some (k, x) => map_fill (map_set m k x) rest
      | None => None
      end
  end.

(** [new Map(data)] *)
Definition new_Map (data : Json) : Outcome :=
  match data with
  | JArr l => match map_fill [] l with
              | Some m => Ret (VMap m)
              | None => TypeError
              end
  | JStr s => if String.eqb s "" then Ret (VMap []) else TypeError
  | JNull => Ret (VMap [])
  | JBool _ | JNum _ | JObj _ => TypeError
  end.

(** The built-ins of the host that the model takes as given: the text
    [JSON.stringify] prints for a tree, [Date.prototype.toISOString] on a
    time value, and the time value of [new Date(data)] ([None] for an
    invalid date). *)
Record Builtins := {
  JSON_text : Json -> string;
  toISOString : Z -> string;
  new_Date : Json -> option Z
}.

(** Time values range over 100 000 000 days on either side of the epoch. *)
Definition valid_time (t : Z) : Prop :=
  -8640000000000000 <= t <= 8640000000000000.

(** What the language guarantees of the date built-ins: the ISO string of
    a date parses back to the same time value. *)
Definition iso_round_trip (B : Builtins) : Prop :=
  forall t, valid_time t -> new_Date B (JStr (toISOString B t)) = Some t.

Section WithBuiltins.
Context (B : Builtins).

(** The tree [JSON.stringify] serialises a value to; [None] where it
  yields [undefined].  A [Date] goes through its [toJSON], a [Set] or a
  [Map] has no enumerable property of its own. *)
Fixpoint serialize (v : Value) : option Json :=
  match v with
  | VUndefined => None
  | VNull => Some JNull
  | VBool b => Some (JBool b)
  | VNum (Finite q) => Some (JNum q)
  | VNum _ => Some JNull
  | VStr s => Some (JStr s)
  | VArr l =>
      Some (JArr (map (fun x => match serialize x with
                                | Some j => j
                                | None => JNull
                                end) l))
  | VObj ps =>
      Some (JObj (omap (fun p => match serialize (snd p) with
                                 | Some j => Some (fst p, j)
                                 | None => None
                                 end) ps))
  | VSet _ | VMap _ => Some (JObj [])
  | VDate (Some t) => Some (JStr (toISOString B t))
  | VDate None => Some JNull
  end.

(** [JSON.stringify] of an array element: [undefined] prints as [null]. *)
Definition element_json (x : Value) : Json :=
  match serialize x with
  | Some j => j
  | None => JNull
  end.

(** [JSON.stringify(wrapper)] for [wrapper = { type, data }]. *)
Definition stringify_wrapper (type : string) (data : Value) : Text :=
  let j := JObj (("type", JStr type) ::
                 match serialize data with
                 | Some d => [("data", d)]
                 | None => []
                 end) in
  {| raw := JSON_text B j; parsed := Some j |}.

(** [saveToStorage(key, value)] *)
Definition saveToStorage (localStorage : Storage) (key : string) (value : Value)
  : Storage :=
  match constructor_name value with
  | None => delete key localStorage
  | Some name =>
      let data := match value with
                  | VMap es => VArr (map (fun e => VArr [fst e; snd e]) es)
                  | VSet xs => VArr xs
                  | _ => value
                  end in
      <[key := stringify_wrapper name data]> localStorage
  end.

(** [restoreFromStorage(data, type)] *)
Definition restoreFromStorage (data type : Json) : Outcome :=
  match type with
  | JStr t =>
      if String.eqb t "Number" then Ret (revive data)
      else if String.eqb t "String" then Ret (revive data)
      else if String.eqb t "Boolean" then Ret (revive data)
      else if String.eqb t "Date" then Ret (VDate (new_Date B data))
      else if String.eqb t "Array" then Array_from data
      else if String.eqb t "Set" then new_Set data
      else if String.eqb t "Map" then new_Map data
      else Ret (revive data)
  | _ => Ret (revive data)
  end.

(** [loadFromStorage(key)]; [None] only where [restoreFromStorage] meets
  an array-like object. *)
Definition loadFromStorage (localStorage : Storage) (key : string) : option Value :=
  match localStorage !! key with
  | None => Some VNull
  | Some txt =>
      match parsed txt with
      | None => if String.eqb (raw txt) "" then Some VNull else Some (VStr (raw txt))
      | Some JNull => Some (VStr (raw txt))
      | Some (JObj ps) =>
          match own_property ps "type", own_property ps "data" with
          | Some type, Some data =>
              match restoreFromStorage data type with
              | Ret v => Some v
              | TypeError => Some (VStr (raw txt))
              | Unmodelled => None
              end
          | _, _ => Some (revive (JObj ps))
          end
      | Some wrapper => Some (revive wrapper)
      end
  end.

End WithBuiltins.

(** Values that [JSON.stringify] followed by [JSON.parse] gives back as
    they are: [null], booleans, finite numbers, strings, and arrays and
    plain objects of such values. *)
Fixpoint json_plain (v : Value) : bool :=
  match v with
  | VNull | VBool _ | VStr _ | VNum (Finite _) => true
  | VArr l => forallb json_plain l
  | VObj ps => forallb (fun p => json_plain (snd p)) ps
  | _ => false
  end.

(** No two of the values are the same for [SameValueZero]: what the
    elements of a [Set] and the keys of a [Map] are. *)
Fixpoint distinct (l : list Value) : bool :=
  match l with
  | [] => true
  | x :: rest => negb (existsb (same_value_zero x) rest) && distinct rest
  end.

(** The values [saveToStorage] and [loadFromStorage] give back as they
    were: finite numbers, strings, booleans, arrays of JSON values, sets and
    maps of JSON values, and valid dates. *)
Definition storable (v : Value) : bool :=
  match v with
  | VNum (Finite _) | VStr _ | VBool _ => true
  | VArr l => forallb json_plain l
  | VSet l => forallb json_plain l && distinct l
  | VMap es =>
      forallb (fun e => json_plain (fst e) && json_plain (snd e)) es
      && distinct (map fst es)
  | VDate (Some t) => (-8640000000000000 <=? t) && (t <=? 8640000000000000)
  | _ => false
  end.

(** A stand-in host for running the model on examples.  It prints a time
    value as a sign and binary digits, lowest first, and reads that back;
    the ISO 8601 format itself plays no part in the storage helpers. *)
Fixpoint pos_digits (p : positive) : string :=
  match p with
  | xH => EmptyString
  | xO q => String "0"%char (pos_digits q)
  | xI q => String "1"%char (pos_digits q)
  end.

Fixpoint digits_pos (s : string) : positive :=
  match s with
  | EmptyString => xH
  | String c rest =>
      if Ascii.eqb c "0"%char then xO (digits_pos rest) else xI (digits_pos rest)
  end.

Definition stub_toISOString (t : Z) : string :=
  match t with
  | Z0 => "Z"
  | Zpos p => String "+"%char (pos_digits p)
  | Zneg p => String "-"%char (pos_digits p)
  end.

Definition stub_new_Date (data : Json) : option Z :=
  match data with
  | JNull => Some 0
  | JNum q => Some (Qfloor q)
  | JStr (String c rest) =>
      if Ascii.eqb c "Z"%char then Some 0
      else if Ascii.eqb c "+"%char then Some (Zpos (digits_pos rest))
      else if Ascii.eqb c "-"%char then Some (Zneg (digits_pos rest))
      else None
  | _ => None
  end.

Definition stub : Builtins :=
  {| JSON_text := fun _ => "{ }";
     toISOString := stub_toISOString;
     new_Date := stub_new_Date |}.

(** The entry [[k, x]] of a map as [saveToStorage] hands it to
    [JSON.stringify]. *)
Definition entry_value (e : Value * Value) : Value := VArr [fst e; snd e].

(** The map a [RunInfo] keeps, as an example. *)
Definition runInfo_map : Value :=
  VMap
    [(VStr "spider",
      VObj [("lastRun", VNum (Finite 1700000000000)); ("interval", VNum (Finite 100))]);
     (VStr "hacknet",
      VObj [("lastRun", VNum (Finite 1700000000000)); ("interval", VNum (Finite 300000))])].

Section ValueInduction.
Variable P : Value -> Prop.
Hypothesis Hundef : P VUndefined.
Hypothesis Hnull : P VNull.
Hypothesis Hbool : forall b, P (VBool b).
Hypothesis Hnum : forall n, P (VNum n).
Hypothesis Hstr : forall s, P (VStr s).
Hypothesis Harr : forall l, Forall P l -> P (VArr l).
Hypothesis Hobj : forall ps, Forall (fun p => P (snd p)) ps -> P (VObj ps).
Hypothesis Hset : forall l, Forall P l -> P (VSet l).
Hypothesis Hmap : forall es, Forall (fun e => P (fst e) /\ P (snd e)) es -> P (VMap es).
Hypothesis Hdate : forall t, P (VDate t).

(** Induction on values, with the hypothesis for every member of an array,
  an object, a set or a map. *)
Fixpoint Value_nested_ind (v : Value) : P v :=
  match v with
  | VUndefined => Hundef
  | VNull => Hnull
  | VBool b => Hbool b
  | VNum n => Hnum n
  | VStr s => Hstr s
  | VArr l =>
      Harr l ((fix go (l : list Value) : Forall P l :=
                 match l with
                 | [] => @List.Forall_nil _ P
                 | x :: rest =>
                     @List.Forall_cons _ P x rest (Value_nested_ind x) (go rest)
                 end) l)
  | VObj ps =>
      Hobj ps ((fix go (ps : list (string * Value)) : Forall (fun p => P (snd p)) ps :=
                  match ps with
                  | [] => @List.Forall_nil _ (fun p => P (snd p))
                  | (k, x) :: rest =>
                      @List.Forall_cons _ (fun p => P (snd p)) (k, x) rest
                                        (Value_nested_ind x) (go rest)
                  end) ps)
  | VSet l =>
      Hset l ((fix go (l : list Value) : Forall P l :=
                 match l with
                 | [] => @List.Forall_nil _ P
                 | x :: rest =>
                     @List.Forall_cons _ P x rest (Value_nested_ind x) (go rest)
                 end) l)
  | VMap es =>
      Hmap es ((fix go (es : list (Value * Value))
                  : Forall (fun e => P (fst e) /\ P (snd e)) es :=
                  match es with
                  | [] => @List.Forall_nil _ (fun e => P (fst e) /\ P (snd e))
                  | (k, x) :: rest =>
                      @List.Forall_cons _ (fun e => P (fst e) /\ P (snd e)) (k, x) rest
                                        (conj (Value_nested_ind k) (Value_nested_ind x))
                                        (go rest)
                  end) es)
  | VDate t => Hdate t
  end.

End ValueInduction.

End Config.

(** ** [crawler], [optimizeServer] and its helpers, of [lib.helper.js] *)

Module Helper.
Import Js.

(** The Netscript API [ns] and the clock, over a world [W] the scripts do
    not see into.  Queries read the world.  [exec] and [performance.now()]
    also change it (memory is taken, time passes).
    [waitWithProgress] stands for [await waitWithProgress(ns, ms, label)]:
    the script is suspended on [ns.sleep] and finds the world the game has
    made when it resumes. *)
Record NS (W : Type) := {
  serverExists : W -> string -> bool;
  getServerMinSecurityLevel : W -> string -> Q;
  getServerSecurityLevel : W -> string -> Q;
  getServerMaxMoney : W -> string -> Q;
  getServerMoneyAvailable : W -> string -> Q;
  hasRootAccess : W -> string -> bool;
  getServerMaxRam : W -> string -> Q;
  getServerUsedRam : W -> string -> Q;
  getHackTime : W -> string -> Q;
  (** [ns.getRunningScript(pid)] as a condition: [null] when not running *)
  getRunningScript : W -> Z -> bool;
  scan : W -> string -> list string;
  (** [ns.exec(script, host, threads, target, duration, eta)]: the pid, 0
      on failure *)
  exec : W -> string -> string -> Z -> string -> Q -> Q -> Z * W;
  performance_now : W -> Q * W;
  waitWithProgress : W -> Q -> string -> W
}.
Arguments serverExists {W} _.
Arguments getServerMinSecurityLevel {W} _.
Arguments getServerSecurityLevel {W} _.
Arguments getServerMaxMoney {W} _.
Arguments getServerMoneyAvailable {W} _.
Arguments hasRootAccess {W} _.
Arguments getServerMaxRam {W} _.
Arguments getServerUsedRam {W} _.
Arguments getHackTime {W} _.
Arguments getRunningScript {W} _.
Arguments scan {W} _.
Arguments exec {W} _.
Arguments performance_now {W} _.
Arguments waitWithProgress {W} _.

(** What a run does to the outside, in order. *)
Inductive Event :=
  | EExec (script host : string) (threads : Z) (target : string)
        (duration eta : Q) (pid : Z)
  | EPrint (batch : Z) (what : string) (threads remaining : Z) (etaIn : Q)
  | EWait (ms : Q) (label : string).

Record State (W : Type) := { world : W; trace : list Event }.
Arguments world {W} _.
Arguments trace {W} _.

(** Programs over the state. *)
Definition Prog (W A : Type) := State W -> A * State W.

Definition ret {W A} (a : A) : Prog W A := fun s => (a, s).

Definition bind {W A B} (m : Prog W A) (k : A -> Prog W B) : Prog W B :=
  fun s => let (a, s') := m s in k a s'.

Notation "'let*' x ':=' m 'in' k" := (bind m (fun x => k))
  (at level 10, x name, m at level 200, k at level 200,
   format "'[v' 'let*'  x  ':='  m  'in' '/' k ']'").
Notation "'let*' ( x , y ) ':=' m 'in' k" :=
  (bind m (fun p => let (x, y) := p in k))
  (at level 10, x name, y name, m at level 200, k at level 200,
   format "'[v' 'let*'  ( x ,  y )  ':='  m  'in' '/' k ']'").
Notation "'let*' ( x , y , z ) ':=' m 'in' k" :=
  (bind m (fun p => let '(x, y, z) := p in k))
  (at level 10, x name, y name, z name, m at level 200, k at level 200,
   format "'[v' 'let*'  ( x ,  y ,  z )  ':='  m  'in' '/' k ']'").

Definition emit {W} (e : Event) : Prog W unit :=
  fun s => (tt, {| world := world s; trace := trace s ++ [e] |}).

Record Eta := { value : Q; name : string }.
Record Batch := { pid : Z; threads : Z }.

(** [SCRIPT_RAM_COST], [WEAKEN_TIME_MULTIPLIER], [GROW_TIME_MULTIPLIER],
    [TIMING_BUFFER_MS] *)
Definition SCRIPT_RAM_COST : Q := 1.75.
Definition WEAKEN_TIME_MULTIPLIER : Q := 4.
Definition GROW_TIME_MULTIPLIER : Q := 3.2.
Definition TIMING_BUFFER_MS : Q := 20.

(** [Math.ceil(x / 100) * 100] *)
Definition roundUp100 (x : Q) : Q := (inject_Z (Math_ceil (x / 100)) * 100)%Q.

(** A timestamp on a 100 ms boundary. *)
Definition aligned100 (t : Q) : Prop := exists k : Z, (t == inject_Z k * 100)%Q.

(** [Math.ceil(maxSlots / 10)] and [maxSlots - weakThreads] *)
Definition weakThreads (maxSlots : Z) : Z := Math_ceil (inject_Z maxSlots / 10).
Definition growThreads (maxSlots : Z) : Z := maxSlots - weakThreads maxSlots.

(** [Array.prototype.sort(compare)]: a stable sort; [x] moves behind [y]
    only where [compare(x, y) > 0]. *)
Fixpoint sort_insert {A} (compare : A -> A -> Q) (x : A) (l : list A) : list A :=
  match l with
  | [] => [x]
  | y :: rest =>
      if ltb 0 (compare x y) then y :: sort_insert compare x rest
      else x :: y :: rest
  end.

Definition Array_sort {A} (compare : A -> A -> Q) (l : list A) : list A :=
  foldr (sort_insert compare) [] l.

Section WithNS.
Context {W : Type} (ns : NS W).

Definition now : Prog W Q :=
  fun s => let (t, w) := performance_now ns (world s) in
           (t, {| world := w; trace := trace s |}).

Definition read {A} (f : W -> A) : Prog W A := fun s => (f (world s), s).

Definition do_exec (script host : string) (n : Z) (target : string)
           (duration eta : Q) : Prog W Z :=
  fun s => let (p, w) := exec ns (world s) script host n target duration eta in
           (p, {| world := w;
                  trace := trace s ++ [EExec script host n target duration eta p] |}).

Definition do_wait (ms : Q) (label : string) : Prog W unit :=
  fun s => (tt, {| world := waitWithProgress ns (world s) ms label;
                   trace := trace s ++ [EWait ms label] |}).

(** [crawler(ns)]: [visited] in insertion order, [heap] with its top
  (the end of the array) first.  One unit of fuel per turn of the
  [while] loop, [None] when it runs out. *)
Fixpoint crawl (fuel : nat) (w : W) (visited heap : list string)
  : option (list string) :=
  match fuel with
  | O => None
  | S fuel' =>
      match heap with
      | [] => Some visited
      | hostname :: heap' =>
          if decide (hostname ∈ visited) then crawl fuel' w visited heap'
          else crawl fuel' w (visited ++ [hostname])
                     (rev (scan ns w hostname) ++ heap')
      end
  end.

Definition crawler (fuel : nat) (w : W) : option (list string) :=
  crawl fuel w [] ["home"].

(** [Math.floor((ns.getServerMaxRam(bot) - ns.getServerUsedRam(bot)) / SCRIPT_RAM_COST)] *)
Definition slotsOf (w : W) (bot : string) : Z :=
  Math_floor ((getServerMaxRam ns w bot - getServerUsedRam ns w bot) / SCRIPT_RAM_COST).

(** [crawler(ns).filter(...).sort(...)] *)
Definition botnetOf (w : W) (servers : list string) : list string :=
  Array_sort (fun a b => (getServerMaxRam ns w b - getServerMaxRam ns w a)%Q)
             (filter (fun server => hasRootAccess ns w server = true) servers).

(** [getWaitTime(eta)] *)
Definition getWaitTime (eta : Q) : Prog W Q :=
  let* t := now in
  let waitTime := (eta - t)%Q in
  ret (Math_max waitTime 0).

(** [executeOnBot(ns, bot, threads, scriptPath, target, duration, eta, pidArray)]:
  the threads still to start, and [pidArray] as it is afterwards. *)
Definition executeOnBot (bot : string) (threads : Z) (scriptPath target : string)
           (duration eta : Q) (pidArray : list Batch) : Prog W (Z * list Batch) :=
  let* slots := read (fun w => slotsOf w bot) in
  if slots <=? 0 then ret (threads, pidArray)
  else
    let threadsForServer := Z.min threads slots in
    let* p := do_exec scriptPath bot threadsForServer target duration eta in
    if 0 <? p
    then ret (threads - threadsForServer,
              pidArray ++ [{| pid := p; threads := threadsForServer |}])
    else ret (threads, pidArray).

(** [for (const bot of botnet) { if (remainingThreads <= 0) break; ... }] *)
Fixpoint forwardLoop (bots : list string) (remainingThreads : Z)
         (scriptPath target : string) (duration eta : Q) (pidArray : list Batch)
  : Prog W (Z * list Batch) :=
  match bots with
  | [] => ret (remainingThreads, pidArray)
  | bot :: rest =>
      if remainingThreads <=? 0 then ret (remainingThreads, pidArray)
      else
        let* (r, pids) := executeOnBot bot remainingThreads scriptPath target
                                        duration eta pidArray in
        forwardLoop rest r scriptPath target duration eta pids
  end.

(** [for (let i = botnet.length - 1; i >= 0; i--) { if (remainingThreads <= 0) break; ... botnet[i] ... }];
  [n] is [i + 1]. *)
Fixpoint backwardLoop (botnet : list string) (n : nat) (remainingThreads : Z)
         (scriptPath target : string) (duration eta : Q) (pidArray : list Batch)
  : Prog W (Z * list Batch) :=
  match n with
  | O => ret (remainingThreads, pidArray)
  | S i =>
      if remainingThreads <=? 0 then ret (remainingThreads, pidArray)
      else
        match botnet !! i with
        | Some bot =>
            let* (r, pids) := executeOnBot bot remainingThreads scriptPath target
                                            duration eta pidArray in
            backwardLoop botnet i r scriptPath target duration eta pids
        | None => ret (remainingThreads, pidArray)
        end
  end.

(** The variables of [optimizeServer] that live across the turns of its
  loop. *)
Record Vars := {
  minSec : Q;
  actualSec : Q;
  maxMoney : Q;
  actualMoney : Q;
  secDiff : Q;
  moneyDiff : Q;
  pidWeaken : list Batch;
  pidGrow : list Batch;
  etaWeaken : Eta;
  etaGrow : Eta;
  growBatchNumber : Z
}.

(** [pids.reduce((acc, batch) => acc + (ns.getRunningScript(batch.pid) ? batch.threads : 0), 0)] *)
Definition runningThreads (w : W) (pids : list Batch) : Z :=
  fold_left (fun acc batch =>
               acc + (if getRunningScript ns w (pid batch) then threads batch else 0))
            pids 0.

(** [botnet.reduce((acc, server) => acc + Math.floor(...), 0)] *)
Definition freeSlotsOf (w : W) (botnet : list string) : Z :=
  fold_left (fun acc server => acc + slotsOf w server) botnet 0.

(** The wait at the end of a normal turn: lines 446 to 455. *)
Definition waitStep (etaW etaG : Eta) : Prog W unit :=
  let nextEta := if ltb (value etaW) (value etaG) then etaW else etaG in
  let* t := now in
  let nextEta :=
    if ltb (value nextEta) t
    then (if gtb (value etaW) (value etaG) then etaW else etaG)
    else nextEta in
  let* waitTime := getWaitTime (value nextEta) in
  if gtb waitTime 0
  then do_wait waitTime ("Warte auf " ++ name nextEta)
  else do_wait 3000 "fehler: ETAs abgelaufen ...".

Inductive Flow := Break (v : Vars) | Continue (v : Vars).

(** One turn of the [while] loop of [optimizeServer]; [servers] is what
  [crawler(ns)] returned. *)
Definition iteration (target : string) (forceRun : bool) (servers : list string)
           (v : Vars) : Prog W Flow :=
  let* botnet := read (fun w => botnetOf w servers) in
  let* freeSlots := read (fun w => freeSlotsOf w botnet) in
  let maxSlots := freeSlots in
  let* hackTime := read (fun w => getHackTime ns w target) in
  let* runGrows := read (fun w => runningThreads w (pidGrow v)) in
  let* runWeaken := read (fun w => runningThreads w (pidWeaken v)) in
  let* (maxSlots, etaW, pidW) :=
    if 0 <? runWeaken
    then ret (maxSlots + runWeaken, etaWeaken v, pidWeaken v)
    else
      let* t := now in
      let v0 := (t + hackTime * WEAKEN_TIME_MULTIPLIER + TIMING_BUFFER_MS * 2)%Q in
      let v1 := roundUp100 (v0 + TIMING_BUFFER_MS) in
      ret (maxSlots, {| value := v1; name := name (etaWeaken v) |}, [])
  in
  let* (maxSlots, etaG, pidG) :=
    if 0 <? runGrows
    then ret (maxSlots + runGrows, etaGrow v, pidGrow v)
    else
      let* t := now in
      let v0 := (t + hackTime * GROW_TIME_MULTIPLIER + TIMING_BUFFER_MS * 3)%Q in
      let v1 := roundUp100 (v0 + TIMING_BUFFER_MS) in
      ret (maxSlots, {| value := v1; name := name (etaGrow v) |}, [])
  in
  let weakT := weakThreads maxSlots in
  let growT := growThreads maxSlots in
  let* maxMoney1 := read (fun w => getServerMaxMoney ns w target) in
  let* actualMoney1 := read (fun w => getServerMoneyAvailable ns w target) in
  let* (batchNo, pidG) :=
    if (runGrows =? 0) && gtb (moneyDiff v) 0
    then
      let batchNo := growBatchNumber v + 1 in
      let* (remainingThreads, pids) :=
        forwardLoop botnet growT "src/bin.grow.js" target
                    (hackTime * GROW_TIME_MULTIPLIER)
                    (value etaG - TIMING_BUFFER_MS * 3) pidG in
      let* etaIn := getWaitTime (value etaG) in
      let* _ := emit (EPrint batchNo "grows" growT remainingThreads (etaIn / 1000)) in
      ret (batchNo, pids)
    else ret (growBatchNumber v, pidG)
  in
  let* pidW :=
    if runWeaken =? 0
    then
      let* (remainingThreads, pids) :=
        backwardLoop botnet (length botnet) weakT "src/bin.weaken.js" target
                     (hackTime * WEAKEN_TIME_MULTIPLIER)
                     (value etaW - TIMING_BUFFER_MS * 2) pidW in
      let* etaIn := getWaitTime (value etaW) in
      let* _ := emit (EPrint batchNo "weaken" weakT remainingThreads (etaIn / 1000)) in
      ret pids
    else ret pidW
  in
  if forceRun
  then ret (Break {| minSec := minSec v; actualSec := actualSec v;
                     maxMoney := maxMoney1; actualMoney := actualMoney1;
                     secDiff := secDiff v; moneyDiff := moneyDiff v;
                     pidWeaken := pidW; pidGrow := pidG;
                     etaWeaken := etaW; etaGrow := etaG;
                     growBatchNumber := batchNo |})
  else
    let* _ := waitStep etaW etaG in
    let* maxMoney2 := read (fun w => getServerMaxMoney ns w target) in
    let* actualMoney2 := read (fun w => getServerMoneyAvailable ns w target) in
    let moneyDiff2 := (maxMoney2 - actualMoney2)%Q in
    let* _ :=
      if eqb moneyDiff2 0
      then (let* t := now in
            do_wait (value etaW - t) "Warte auf letztes Weaken")
      else ret tt
    in
    let* minSec2 := read (fun w => getServerMinSecurityLevel ns w target) in
    let* actualSec2 := read (fun w => getServerSecurityLevel ns w target) in
    ret (Continue {| minSec := minSec2; actualSec := actualSec2;
                     maxMoney := maxMoney2; actualMoney := actualMoney2;
                     secDiff := (actualSec2 - minSec2)%Q; moneyDiff := moneyDiff2;
                     pidWeaken := pidW; pidGrow := pidG;
                     etaWeaken := etaW; etaGrow := etaG;
                     growBatchNumber := batchNo |}).

(** [while (actualSec > minSec || actualMoney < maxMoney || forceRun)] *)
Definition loopCondition (forceRun : bool) (v : Vars) : bool :=
  gtb (actualSec v) (minSec v) || ltb (actualMoney v) (maxMoney v) || forceRun.

(** The [while] loop: one unit of [fuel] per turn, every crawl with
  [crawlFuel]; [None] when either runs out. *)
Fixpoint loop (fuel crawlFuel : nat) (target : string) (forceRun : bool)
         (v : Vars) (s : State W) : option (Vars * State W) :=
  match fuel with
  | O => None
  | S fuel' =>
      if loopCondition forceRun v
      then
        match crawler crawlFuel (world s) with
        | None => None
        | Some servers =>
            match iteration target forceRun servers v s with
            | (Break v', s') => Some (v', s')
            | (Continue v', s') => loop fuel' crawlFuel target forceRun v' s'
            end
        end
      else Some (v, s)
  end.

(** The last wait, [if (!forceRun) { ... }]. *)
Definition drain (forceRun : bool) (v : Vars) : Prog W unit :=
  if negb forceRun
  then
    let* t := now in
    let waitTime := (Math_max (value (etaWeaken v)) (value (etaGrow v)) - t)%Q in
    if gtb waitTime 0 then do_wait waitTime "Warte auf letztes ETA" else ret tt
  else ret tt.

Inductive Outcome :=
  | Threw (msg : string)
  | Returned (s : State W)
  | OutOfFuel.

(** The variables as the code sets them before the loop. *)
Definition initialVars (w : W) (target : string) : Vars :=
  let minSec0 := getServerMinSecurityLevel ns w target in
  let actualSec0 := getServerSecurityLevel ns w target in
  let maxMoney0 := getServerMaxMoney ns w target in
  let actualMoney0 := getServerMoneyAvailable ns w target in
  {| minSec := minSec0; actualSec := actualSec0;
     maxMoney := maxMoney0; actualMoney := actualMoney0;
     secDiff := (actualSec0 - minSec0)%Q;
     moneyDiff := (maxMoney0 - actualMoney0)%Q;
     pidWeaken := []; pidGrow := [];
     etaWeaken := {| value := 0; name := "Weaken" |};
     etaGrow := {| value := 0; name := "Grow" |};
     growBatchNumber := 0 |}.

(** [optimizeServer(ns, target, forceRun)], started in the world [w]. *)
Definition optimizeServer (fuel : nat) (target : string) (forceRun : bool) (w : W)
  : Outcome :=
  if negb (serverExists ns w target)
  then Threw ("Server '" ++ target ++ "' existiert nicht")
  else
    match loop fuel fuel target forceRun (initialVars w target)
               {| world := w; trace := [] |} with
    | None => OutOfFuel
    | Some (v, s) => Returned (snd (drain forceRun v s))
    end.

(** What one call of [executeOnBot] does, by cases on the free slots of the
    host and on the pid [ns.exec] returns. *)
Inductive launched (bot : string) (n : Z) (script target : string) (duration eta : Q)
          (pids : list Batch) (s : State W) : Z * list Batch * State W -> Prop :=
| launch_skipped :
    slotsOf (world s) bot <= 0 ->
    launched bot n script target duration eta pids s (n, pids, s)
| launch_started p w' :
    0 < slotsOf (world s) bot ->
    exec ns (world s) script bot (Z.min n (slotsOf (world s) bot))
         target duration eta = (p, w') ->
    0 < p ->
    launched bot n script target duration eta pids s
             (n - Z.min n (slotsOf (world s) bot),
              pids ++ [{| pid := p; threads := Z.min n (slotsOf (world s) bot) |}],
              {| world := w';
                 trace := trace s ++ [EExec script bot (Z.min n (slotsOf (world s) bot))
                                            target duration eta p] |})
| launch_failed p w' :
    0 < slotsOf (world s) bot ->
    exec ns (world s) script bot (Z.min n (slotsOf (world s) bot))
         target duration eta = (p, w') ->
    p <= 0 ->
    launched bot n script target duration eta pids s
             (n, pids,
              {| world := w';
                 trace := trace s ++ [EExec script bot (Z.min n (slotsOf (world s) bot))
                                            target duration eta p] |}).

(** What one allocation pass gives each host of [bots]: the host, its free
    slots when the loop reaches it, and the threads it is given, that is the
    fall of [remainingThreads] over its call of [executeOnBot].  A host the
    loop does not reach (it stopped at [remainingThreads <= 0]) is given 0. *)
Fixpoint assignments (bots : list string) (remainingThreads : Z)
         (scriptPath target : string) (duration eta : Q) (pidArray : list Batch)
         (s : State W) : list (string * Z * Z) :=
  match bots with
  | [] => []
  | bot :: rest =>
      if remainingThreads <=? 0
      then (bot, slotsOf (world s) bot, 0)
             :: assignments rest remainingThreads scriptPath target duration eta pidArray s
      else
        let '((r, pids), s') :=
          executeOnBot bot remainingThreads scriptPath target duration eta pidArray s in
        (bot, slotsOf (world s) bot, remainingThreads - r)
          :: assignments rest r scriptPath target duration eta pids s'
  end.

End WithNS.

Arguments Threw {W} msg.
Arguments Returned {W} s.
Arguments OutOfFuel {W}.

(** What is left to do for a crawl over the hosts [universe]: the heap to
    empty, and one visit and its neighbours for every host not yet
    visited.  Every turn of the loop lowers it. *)
Definition unvisited_cost {W} (ns : NS W) (w : W) (universe visited : list string) : nat :=
  fold_right (fun h acc => if decide (h ∈ visited) then acc
                           else (S (length (scan ns w h)) + acc)%nat)
             O universe.

Definition crawl_cost {W} (ns : NS W) (w : W) (universe visited heap : list string) : nat :=
  (length heap + unvisited_cost ns w universe visited)%nat.

(** The hosts of the [ns.exec] calls of a trace, and its waits. *)
Definition exec_hosts (tr : list Event) : list string :=
  omap (fun e => match e with
                 | EExec _ host _ _ _ _ _ => Some host
                 | _ => None
                 end) tr.

Definition waits (tr : list Event) : list (Q * string) :=
  omap (fun e => match e with
                 | EWait ms label => Some (ms, label)
                 | _ => None
                 end) tr.

(** A program that does not wait: it adds no wait to the trace. *)
Definition quiet {W A} (m : Prog W A) : Prop :=
  forall s, waits (trace (snd (m s))) = waits (trace s).

(** A turn that leaves the loop, and one that goes round again. *)
Definition breaks {W} (m : Prog W Flow) : Prop :=
  forall s, exists v, fst (m s) = Break v.

Definition continues {W} (m : Prog W Flow) : Prop :=
  forall s, exists v, fst (m s) = Continue v.

(** The threads an allocation pass gives out in all. *)
Definition assignedTotal (asg : list (string * Z * Z)) : Z :=
  fold_right (fun a acc => snd a + acc) 0 asg.

(** A host is given no more than its free slots, and nothing where it has
    none. *)
Definition within_slots (a : string * Z * Z) : Prop :=
  let '(_, slots, given) := a in
  0 <= given <= Z.max 0 slots /\ (slots <= 0 -> given = 0).

(** The threads recorded in a [pidArray]. *)
Definition totalThreads (pids : list Batch) : Z :=
  fold_right (fun b acc => threads b + acc) 0 pids.

End Helper.

(** ** A small game world, to run the model on *)

Module Toy.
Import Js Helper.

Record Server := {
  hostname : string;
  maxRam : Q;
  usedRam : Q;
  rooted : bool;
  neighbours : list string
}.

(** The servers, the clock and what it advances by on each reading, the next
    process id, and the state of the one target there is. *)
Record World := {
  servers : list Server;
  clock : Q;
  tick : Q;
  nextPid : Z;
  security : Q;
  minSecurity : Q;
  money : Q;
  moneyMax : Q;
  hackTime : Q
}.

Definition find (w : World) (h : string) : option Server :=
  List.find (fun sv => String.eqb (hostname sv) h) (servers w).

Definition ram (f : Server -> Q) (w : World) (h : string) : Q :=
  match find w h with
  | Some sv => f sv
  | None => 0
  end.

(** A launch takes [1.75] GB per thread on the host and fails, with pid 0,
    where the host lacks them. *)
Definition launch (w : World) (h : string) (n : Z) : Z * World :=
  let need := (inject_Z n * 1.75)%Q in
  if (0 <? n) && leb need (ram maxRam w h - ram usedRam w h)
  then (nextPid w,
        {| servers := map (fun sv => if String.eqb (hostname sv) h
                                     then {| hostname := hostname sv;
                                             maxRam := maxRam sv;
                                             usedRam := Qred (usedRam sv + need);
                                             rooted := rooted sv;
                                             neighbours := neighbours sv |}
                                     else sv) (servers w);
           clock := clock w; tick := tick w; nextPid := nextPid w + 1;
           security := security w; minSecurity := minSecurity w;
           money := money w; moneyMax := moneyMax w; hackTime := hackTime w |})
  else (0, w).

Definition advance (w : World) (dt : Q) : World :=
  {| servers := servers w; clock := Qred (clock w + dt); tick := tick w;
     nextPid := nextPid w;
     security := security w; minSecurity := minSecurity w;
     money := money w; moneyMax := moneyMax w; hackTime := hackTime w |}.

Definition ns : NS World :=
  {| serverExists := fun w h => match find w h with Some _ => true | None => false end;
     getServerMinSecurityLevel := fun w _ => minSecurity w;
     getServerSecurityLevel := fun w _ => security w;
     getServerMaxMoney := fun w _ => moneyMax w;
     getServerMoneyAvailable := fun w _ => money w;
     hasRootAccess := fun w h => match find w h with Some sv => rooted sv | None => false end;
     getServerMaxRam := ram maxRam;
     getServerUsedRam := ram usedRam;
     getHackTime := fun w _ => hackTime w;
     getRunningScript := fun w p => (0 <? p) && (p <? nextPid w);
     scan := fun w h => match find w h with Some sv => neighbours sv | None => [] end;
     exec := fun w _ h n _ _ _ => launch w h n;
     performance_now := fun w => (clock w, advance w (tick w));
     waitWithProgress := fun w ms _ => advance w (Math_max ms 0) |}.

(** [home], almost full, and two rooted servers it is linked to. *)
Definition network : list Server :=
  [ {| hostname := "home"; maxRam := 64; usedRam := 60.5; rooted := true;
       neighbours := ["n00dles"; "foodnstuff"] |};
    {| hostname := "n00dles"; maxRam := 4; usedRam := 0; rooted := true;
       neighbours := ["home"] |};
    {| hostname := "foodnstuff"; maxRam := 16; usedRam := 0; rooted := true;
       neighbours := ["home"] |} ].

Definition world0 : World :=
  {| servers := network; clock := 1000; tick := 0; nextPid := 1;
     security := 5; minSecurity := 1; money := 50; moneyMax := 100;
     hackTime := 1000 |}.

Definition start (w : World) : State World := {| world := w; trace := [] |}.

(** The scenario of the specification: 70 grow threads over hosts with 50,
    30, 0 and 20 free slots. *)
Definition scenario_hosts : list Server :=
  [ {| hostname := "a"; maxRam := 87.5; usedRam := 0; rooted := true;
       neighbours := [] |};
    {| hostname := "b"; maxRam := 52.5; usedRam := 0; rooted := true;
       neighbours := [] |};
    {| hostname := "c"; maxRam := 40; usedRam := 40; rooted := true;
       neighbours := [] |};
    {| hostname := "d"; maxRam := 35; usedRam := 0; rooted := true;
       neighbours := [] |} ].

Definition scenario_world : World :=
  {| servers := scenario_hosts; clock := 0; tick := 0; nextPid := 1;
     security := 1; minSecurity := 1; money := 0; moneyMax := 1;
     hackTime := 1000 |}.

(** ETAs around the clock of [world0]. *)
Definition eta_weaken_now : Eta := {| value := 1000; name := "Weaken" |}.
Definition eta_grow_later : Eta := {| value := 1500; name := "Grow" |}.
Definition eta_weaken_later : Eta := {| value := 2100; name := "Weaken" |}.

End Toy.

(** ** What a ring buffer remembers *)

Module RingHistory.
Import Js RingBuffer.

(** The elements added since the buffer was built or last cleared, the
    latest first. *)
Definition remember {T} (h : list T) (o : op T) : list T :=
  match o with
  | OpAdd x => x :: h
  | OpClear => []
  end.

Definition recent {T} (ops : list (op T)) : list T := fold_left remember ops [].

(** The buffer [rb] holds the history [h]: it is well formed, it counts the
    elements of [h] up to its size, and the cell [k + 1] steps behind
    [currentIndex] is the element [k] of [h]. *)
Definition holds {T} (rb : t T) (h : list T) : Prop :=
  wf rb
  /\ count rb = Z.min (size rb) (Z.of_nat (length h))
  /\ forall k x, h !! k = Some x -> Z.of_nat k < size rb ->
                 array_get (buffer rb)
                   (rem (currentIndex rb - (Z.of_nat k + 1) + size rb) (size rb)) = Val x.

(** [new RingBuffer(2)] *)
Definition ring2 : t nat :=
  {| size := 2; buffer := [Null; Null]; currentIndex := 0; count := 0 |}.

End RingHistory.

(** ** The network as [crawler] sees it *)

Module Network.
Import Helper.

Section WithNS.
Context {W : Type} (ns : NS W) (w : W).

(** The hosts that [ns.scan] leads to from [home]. *)
Inductive reachable : string -> Prop :=
  | reach_home : reachable "home"
  | reach_scan (h h' : string) : reachable h -> h' ∈ scan ns w h -> reachable h'.

(** What holds at every turn of the loop of [crawler]: no host is noted
  twice, every host noted or on the heap can be reached, the neighbours of
  a noted host are noted or on the heap, and [home] is the first host
  noted, or alone on the heap while nothing is. *)
Definition crawl_inv (visited heap : list string) : Prop :=
  NoDup visited
  /\ (forall h, h ∈ visited ++ heap -> reachable h)
  /\ (forall v h', v ∈ visited -> h' ∈ scan ns w v -> h' ∈ visited ++ heap)
  /\ (head visited = Some "home" \/ (visited = [] /\ heap = ["home"])).

End WithNS.
End Network.

(** ** The launches of a run *)

Module Waves.
Import Js Helper.

(** The batches a pass records for the launches it made: one for every
    [ns.exec] that returned a pid above 0. *)
Definition started (tr : list Event) : list Batch :=
  omap (fun e => match e with
                 | EExec _ _ n _ _ _ p =>
                     if 0 <? p then Some {| pid := p; threads := n |} else None
                 | _ => None
                 end) tr.

(** A launch of the pass over [bots] for [n] threads of [script]. *)
Definition pass_launch (bots : list string) (n : Z) (script target : string)
           (duration eta : Q) (e : Event) : Prop :=
  exists host k p,
    e = EExec script host k target duration eta p /\ host ∈ bots /\ 1 <= k <= n.

(** A launch as [optimizeServer] makes them: at least one thread against
    [target], of [bin.grow.js] to end 60 ms before a 100 ms boundary or of
    [bin.weaken.js] to end 40 ms before one. *)
Definition wave_launch (target : string) (e : Event) : Prop :=
  match e with
  | EExec script host n tgt duration eta p =>
      tgt = target /\ 1 <= n
      /\ ((script = "src/bin.grow.js" /\ aligned100 (eta + 60))
          \/ (script = "src/bin.weaken.js" /\ aligned100 (eta + 40)))
  | _ => True
  end.

(** The program [m] adds events to the trace, all of which satisfy [P], and
    its result satisfies [Q]. *)
Definition yields {W A} (P : Event -> Prop) (Q : A -> Prop) (m : Prog W A) : Prop :=
  forall s, Q (fst (m s))
            /\ exists new, trace (snd (m s)) = trace s ++ new /\ Forall P new.

Definition vars_of (f : Flow) : Vars :=
  match f with
  | Break v | Continue v => v
  end.

(** Both ETAs stand on a 100 ms boundary. *)
Definition aligned (v : Vars) : Prop :=
  aligned100 (value (etaWeaken v)) /\ aligned100 (value (etaGrow v)).

End Waves.

Module Worlds.
Import Js Helper Toy.

(** [Toy.world0] with the target at its least security and its most
    money. *)
Definition world_optimal : World :=
  {| servers := network; clock := 1000; tick := 0; nextPid := 1;
     security := 1; minSecurity := 1; money := 100; moneyMax := 100;
     hackTime := 1000 |}.

(** A weaken that can meet its target: 4000 ms of work, to end at 10000.5. *)
Definition timely_weaken : Worker.Args :=
  {| Worker.target := Some "n00dles";
     Worker.operationTime := Some 4000%Q;
     Worker.endTime := Some 10000.5%Q |}.

End Worlds.

(** ** [Settings] of [lib.config.js] *)

Module Settings.
Import Js Config.

(** [Defaults] *)
Definition Defaults : list (string * Value) :=
  [ ("reservedHomeRam", VNum (Finite 8));
    ("target", VStr "n00dles");
    ("botnetKey", VStr "botnet");
    ("schedKey", VStr "scheduledThreads");
    ("mapKey", VStr "network_map");
    ("spawnDelay", VNum (Finite 0));
    ("operationSpacing", VNum (Finite 100));
    ("cycleSpacing", VNum (Finite 100));
    ("wasDebug", VBool false);
    ("storagePrefix", VStr "egoBB_") ].

(** [object[name]] for a plain object: [undefined] where it has no such
    property. *)
Fixpoint property (ps : list (string * Value)) (name : string) : Value :=
  match ps with
  | [] => VUndefined
  | (k, x) :: rest => if String.eqb k name then x else property rest name
  end.

(** [Defaults.storagePrefix + key] *)
Definition prefixed (key : string) : string :=
  match property Defaults "storagePrefix" with
  | VStr p => (p ++ key)%string
  | _ => key
  end.

(** The class [Settings] as a program sees it: the [localStorage] behind
    it and the accessors that [setItem] has defined on it. *)
Record Class := { localStorage : Storage; defined : list string }.

(** The own properties the class is born with: those of every class, its
    static accessors and its static methods. *)
Definition statics : list string :=
  [ "length"; "name"; "prototype";
    "reservedHomeRam"; "target"; "botnetKey"; "schedKey"; "mapKey"; "spawnDelay";
    "operationSpacing"; "cycleSpacing"; "wasDebug";
    "setItem"; "loadItem"; "reset" ].

(** The static getters. *)
Definition getters : list string :=
  [ "reservedHomeRam"; "target"; "botnetKey"; "schedKey"; "mapKey"; "spawnDelay";
    "operationSpacing"; "cycleSpacing"; "wasDebug" ].

(** [this.hasOwnProperty(key)] *)
Definition hasOwnProperty (c : Class) (key : string) : bool :=
  existsb (String.eqb key) (statics ++ defined c).

Section WithBuiltins.
Context (B : Builtins).

(** The body the nine static getters share, for the getter of [name]:
  [const value = loadFromStorage(Defaults.storagePrefix + name);
   if (value == null) return Defaults[name]; return value;] *)
Definition getter (name : string) (c : Class) : option Value :=
  match loadFromStorage B (localStorage c) (prefixed name) with
  | Some VNull | Some VUndefined => Some (property Defaults name)
  | r => r
  end.

Definition reservedHomeRam := getter "reservedHomeRam".
Definition target := getter "target".
Definition botnetKey := getter "botnetKey".
Definition schedKey := getter "schedKey".
Definition mapKey := getter "mapKey".
Definition spawnDelay := getter "spawnDelay".
Definition operationSpacing := getter "operationSpacing".
Definition cycleSpacing := getter "cycleSpacing".
Definition wasDebug := getter "wasDebug".

(** [Settings.setItem(key, value)]: the accessor it defines for a key the
  class has no property of reads and writes the same storage key. *)
Definition setItem (key : string) (value : Value) (c : Class) : Class :=
  {| localStorage := saveToStorage B (localStorage c) (prefixed key) value;
     defined := if hasOwnProperty c key then defined c else defined c ++ [key] |}.

(** [Settings.target = hostname] *)
Definition set_target (hostname : Value) (c : Class) : Class :=
  setItem "target" hostname c.

(** [Settings.loadItem(key)] *)
Definition loadItem (key : string) (c : Class) : option Value :=
  loadFromStorage B (localStorage c) (prefixed key).

(** [Settings[key]] for a key that [setItem] defined an accessor for. *)
Definition accessor (key : string) (c : Class) : option Value :=
  loadFromStorage B (localStorage c) (prefixed key).

End WithBuiltins.

(** [Settings.reset(key)]; [None] is a call without argument. *)
Definition reset (key : option string) (c : Class) : Class :=
  let all := fold_left (fun ls k => delete (prefixed k) ls) (map fst Defaults)
                       (localStorage c) in
  {| localStorage :=
       match key with
       | Some k => if String.eqb k "" then all else delete (prefixed k) (localStorage c)
       | None => all
       end;
     defined := defined c |}.

(** The values the settings hold: finite numbers, strings and booleans. *)
Definition primitive (v : Value) : bool :=
  match v with
  | VNum (Finite _) | VStr _ | VBool _ => true
  | _ => false
  end.

(** A fresh class over an empty storage. *)
Definition fresh : Class := {| localStorage := ∅; defined := [] |}.

End Settings.

(** ** [RunInfo] of [lib.config.js] *)

Module RunInfo.
Import Js Config.

(** An info object [{ lastRun, interval }]: an object whose properties are
    finite numbers, in the order they were created.  The private
    [#functionMap]: a [Map] from names to info objects, in insertion
    order. *)
Definition Info := list (string * Q).
Definition FunctionMap := list (string * Info).

(** [RunInfo.#DEFAULT_INTERVAL] *)
Definition DEFAULT_INTERVAL : Q := 1000.

(** [info[name]]; [None] is [undefined]. *)
Fixpoint get (info : Info) (name : string) : option Q :=
  match info with
  | [] => None
  | (k, x) :: rest => if String.eqb k name then Some x else get rest name
  end.

(** [info[name] = x]: an existing property keeps its place. *)
Fixpoint set (info : Info) (name : string) (x : Q) : Info :=
  match info with
  | [] => [(name, x)]
  | (k, y) :: rest => if String.eqb k name then (k, x) :: rest else (k, y) :: set rest name x
  end.

(** [map.get(k)] and [map.set(k, info)] *)
Fixpoint map_get (m : FunctionMap) (k : string) : option Info :=
  match m with
  | [] => None
  | (k', info) :: rest => if String.eqb k' k then Some info else map_get rest k
  end.

Fixpoint map_set (m : FunctionMap) (k : string) (info : Info) : FunctionMap :=
  match m with
  | [] => [(k, info)]
  | (k', info') :: rest =>
      if String.eqb k' k then (k', info) :: rest else (k', info') :: map_set rest k info
  end.

(** [#defaultFunctionMap]; [now1] and [now2] are the two readings of
    [Date.now()]. *)
Definition defaultFunctionMap (now1 now2 : Q) : FunctionMap :=
  [ ("spider", [("lastRun", (now1 - 5 * 60 * 1000)%Q); ("interval", 100%Q)]);
    ("hacknet", [("lastRun", (now2 - 5 * 60 * 1000)%Q); ("interval", (5 * 60 * 1000)%Q)]) ].

(** The map as a value, and a value read as such a map: [None] where it
    is something else, which this model leaves out. *)
Definition to_info (info : Info) : Value :=
  VObj (map (fun p => (fst p, VNum (Finite (snd p)))) info).

Definition to_value (m : FunctionMap) : Value :=
  VMap (map (fun e => (VStr (fst e), to_info (snd e))) m).

Definition of_prop (p : string * Value) : option (string * Q) :=
  match snd p with
  | VNum (Finite q) => Some (fst p, q)
  | _ => None
  end.

Definition of_info (v : Value) : option Info :=
  match v with
  | VObj ps => mapM of_prop ps
  | _ => None
  end.

Definition of_entry (e : Value * Value) : option (string * Info) :=
  match fst e, of_info (snd e) with
  | VStr k, Some info => Some (k, info)
  | _, _ => None
  end.

Definition of_value (v : Value) : option FunctionMap :=
  match v with
  | VMap es => mapM of_entry es
  | _ => None
  end.

(** [!v] *)
Definition falsy (v : Value) : bool :=
  match v with
  | VUndefined | VNull => true
  | VBool b => negb b
  | VNum (Finite q) => eqb q 0
  | VNum NaN => true
  | VStr s => String.eqb s ""
  | _ => false
  end.

(** [new RunInfo()]: the map it holds. *)
Definition constructor (B : Builtins) (localStorage : Storage) (now1 now2 : Q)
  : option FunctionMap :=
  match loadFromStorage B localStorage (Settings.prefixed "runInfo") with
  | Some v => if falsy v then Some (defaultFunctionMap now1 now2) else of_value v
  | None => None
  end.

(** [info.lastRun + info.interval]; [None] is [NaN]. *)
Definition nextRunTime (info : Info) : option Q :=
  match get info "lastRun", get info "interval" with
  | Some lastRun, Some interval => Some (lastRun + interval)%Q
  | _, _ => None
  end.

(** One turn of the loop of [getNextOperation] on [nextOp] and
    [earliestTime], which starts as [Infinity], here [None]. *)
Definition earlier (acc : option string * option Q) (e : string * Info)
  : option string * option Q :=
  match nextRunTime (snd e) with
  | Some t =>
      match snd acc with
      | None => (Some (fst e), Some t)
      | Some earliestTime =>
          if ltb t earliestTime then (Some (fst e), Some t) else acc
      end
  | None => acc
  end.

(** [getNextOperation()]; [now] is [Date.now()]. *)
Definition getNextOperation (m : FunctionMap) (now : Q) : option string :=
  let '(nextOp, earliestTime) := fold_left earlier m (None, None) in
  match earliestTime with
  | Some t => if leb t now then nextOp else None
  | None => None
  end.

(** [save()] *)
Definition save (B : Builtins) (m : FunctionMap) (localStorage : Storage) : Storage :=
  saveToStorage B localStorage (Settings.prefixed "runInfo") (to_value m).

(** What [updateLastRun] comes to: the error that quotes the interval, or
    the map and the storage as they are afterwards. *)
Inductive Updated :=
  | Threw (interval : Q)
  | Done (m : FunctionMap) (localStorage : Storage).

(** The info object [updateLastRun] puts into the map. *)
Definition touched (m : FunctionMap) (functionName : string) (interval : option Q)
           (now : Q) : Info :=
  let info := match map_get m functionName with
              | Some info => info
              | None => [("interval", DEFAULT_INTERVAL)]
              end in
  let info := set info "lastRun" now in
  match interval with
  | Some i => set info "interval" i
  | None => info
  end.

(** [updateLastRun(functionName, interval)]; [interval] is [None] where
    the argument is left out. *)
Definition updateLastRun (B : Builtins) (m : FunctionMap) (localStorage : Storage)
           (functionName : string) (interval : option Q) (now : Q) : Updated :=
  match interval with
  | Some i =>
      if leb i 0 then Threw i
      else let m' := map_set m functionName (touched m functionName interval now) in
           Done m' (save B m' localStorage)
  | None =>
      let m' := map_set m functionName (touched m functionName interval now) in
      Done m' (save B m' localStorage)
  end.

(** [getInfo(functionName)] *)
Definition getInfo (m : FunctionMap) (functionName : string) : option Info :=
  map_get m functionName.

(** What the loop of [getNextOperation] has found after the entries
    [seen]: nothing, none of them having a next run time, or an entry with
    the earliest one. *)
Definition found (acc : option string * option Q) (seen : FunctionMap) : Prop :=
  match acc with
  | (Some f, Some t) =>
      (exists info, (f, info) ∈ seen /\ nextRunTime info = Some t)
      /\ forall g info' t', (g, info') ∈ seen -> nextRunTime info' = Some t' -> (t <= t')%Q
  | (None, None) => forall g info', (g, info') ∈ seen -> nextRunTime info' = None
  | _ => False
  end.

(** Names and times for an example. *)
Definition example_map : FunctionMap := defaultFunctionMap 1000000 1000001.

End RunInfo.

(** ** [waitWithProgress] of [lib.helper.js] *)

Module Progress.
Import Js.

(** What the function uses of its surroundings: the clock, the log of the
    script and [ns.sleep], over a world [W].  A reading of the clock and a
    sleep change the world (time passes). *)
Record Host (W : Type) := {
  performance_now : W -> Q * W;
  getScriptLogs : W -> list string;
  sleep : W -> Q -> W
}.
Arguments performance_now {W} _.
Arguments getScriptLogs {W} _.
Arguments sleep {W} _.

(** What a run does to the log window, and its sleeps.  [PrintHistory] is
    [ns.print(logHistory.join('\n'))]; [PrintBar] is the print of
    [`${label}: [${bar}] ${remainingSeconds}s`], the bar being [filled] full
    blocks in green and [empty] light ones in white. *)
Inductive Event :=
  | ClearLog
  | PrintHistory (lines : list string)
  | PrintBar (label : string) (filled empty : Z) (remainingSeconds : Z)
  | Sleep (ms : Q).

(** [Math.min(1, 1 - remaining / milliseconds)] for [remaining >= 0]: a
    division by zero gives [NaN] or an infinity. *)
Definition progressOf (remaining milliseconds : Q) : Number :=
  if eqb milliseconds 0
  then (if eqb remaining 0 then NaN else NegInf)
  else Finite (Qmin 1 (1 - remaining / milliseconds)).

(** [Math.floor(progress * barWidth)] *)
Definition filledWidthOf (progress : Number) (barWidth : Z) : Number :=
  match progress with
  | Finite p => Finite (inject_Z (Math_floor (p * inject_Z barWidth)))
  | NaN => NaN
  | NegInf => if barWidth =? 0 then NaN else if 0 <? barWidth then NegInf else PosInf
  | PosInf => if barWidth =? 0 then NaN else if 0 <? barWidth then PosInf else NegInf
  end.

(** [barWidth - filledWidth] *)
Definition emptyWidthOf (barWidth : Z) (filledWidth : Number) : Number :=
  match filledWidth with
  | Finite f => Finite (inject_Z barWidth - f)
  | NaN => NaN
  | NegInf => PosInf
  | PosInf => NegInf
  end.

(** The length of [char.repeat(count)] for a one-character string: the
    count cut to an integer, 0 for [NaN]; [None] is the [RangeError] for a
    negative or infinite count. *)
Definition repeat_length (count : Number) : option Z :=
  match count with
  | Finite q =>
      let n := if ltb q 0 then Qceiling q else Qfloor q in
      if n <? 0 then None else Some n
  | NaN => Some 0
  | PosInf | NegInf => None
  end.

(** [render(progress, remainingSeconds, logHistory)]: what it prints, or
    [None] where a [repeat] throws. *)
Definition render (label : string) (barWidth : Z) (progress : Number)
           (remainingSeconds : Z) (logHistory : list string) : option (list Event) :=
  let filledWidth := filledWidthOf progress barWidth in
  let emptyWidth := emptyWidthOf barWidth filledWidth in
  match repeat_length filledWidth, repeat_length emptyWidth with
  | Some filled, Some empty =>
      Some [ClearLog; PrintHistory logHistory; PrintBar label filled empty remainingSeconds]
  | _, _ => None
  end.

(** [x % y] for [x >= 0] and [y > 0]. *)
Definition fmod (x y : Q) : Q := (x - y * inject_Z (Qfloor (x / y)))%Q.

(** [array.slice(-20)] *)
Definition last20 (l : list string) : list string := drop (length l - 20) l.

(** How a run ends. *)
Inductive Outcome (W : Type) :=
  | Finished (w : W) (tr : list Event)
  | ThrewRangeError (w : W) (tr : list Event)
  | OutOfFuel.
Arguments Finished {W} w tr.
Arguments ThrewRangeError {W} w tr.
Arguments OutOfFuel {W}.

Section WithHost.
Context {W : Type} (host : Host W).

(** The [while] loop and what follows it, one unit of fuel per turn. *)
Fixpoint loop (fuel : nat) (milliseconds : Q) (label : string) (barWidth : Z)
         (keepBar : bool) (endTime : Q) (log : list string) (w : W) (tr : list Event)
  : Outcome W :=
  match fuel with
  | O => OutOfFuel
  | S fuel' =>
      let (t1, w1) := performance_now host w in
      if ltb t1 endTime
      then
        let (t2, w2) := performance_now host w1 in
        let remaining := Math_max 0 (endTime - t2) in
        let progress := progressOf remaining milliseconds in
        let remainingSeconds := Math_ceil (remaining / 1000) in
        match render label barWidth progress remainingSeconds log with
        | None => ThrewRangeError w2 tr
        | Some printed =>
            let (t3, w3) := performance_now host w2 in
            let waitTime := fmod (Math_max 0 (endTime - t3)) 200 in
            loop fuel' milliseconds label barWidth keepBar endTime log
                 (sleep host w3 waitTime) (tr ++ printed ++ [Sleep waitTime])
        end
      else if keepBar
           then match render label barWidth (Finite 1) 0 log with
                | None => ThrewRangeError w1 tr
                | Some printed => Finished w1 (tr ++ printed)
                end
           else Finished w1 (tr ++ [ClearLog; PrintHistory log])
  end.

(** [waitWithProgress(ns, milliseconds, label, barWidth, keepBar)] *)
Definition waitWithProgress (fuel : nat) (milliseconds : Q) (label : string)
           (barWidth : Z) (keepBar : bool) (w : W) : Outcome W :=
  let (t0, w0) := performance_now host w in
  let endTime := (t0 + milliseconds)%Q in
  let log := last20 (getScriptLogs host w0) in
  loop fuel milliseconds label barWidth keepBar endTime log w0 [].

End WithHost.

(** What a run printed and slept, however it ended. *)
Definition events {W} (o : Outcome W) : list Event :=
  match o with
  | Finished _ tr | ThrewRangeError _ tr => tr
  | OutOfFuel => []
  end.

(** A sleep of less than one update interval, and a bar that fills
    [barWidth] characters. *)
Definition well_formed (barWidth : Z) (e : Event) : Prop :=
  match e with
  | Sleep ms => (0 <= ms < 200)%Q
  | PrintBar _ filled empty remainingSeconds =>
      0 <= filled <= barWidth /\ filled + empty = barWidth /\ 0 <= remainingSeconds
  | _ => True
  end.

(** A world for examples: the time, and the log. Every reading of the
    clock takes 1 ms, a sleep takes as long as asked for. *)
Record Clock := { at_ms : Q; logs : list string }.

Definition ticking : Host Clock :=
  {| performance_now := fun w => (at_ms w, {| at_ms := Qred (at_ms w + 1); logs := logs w |});
     getScriptLogs := logs;
     sleep := fun w ms => {| at_ms := Qred (at_ms w + ms); logs := logs w |} |}.

End Progress.

(** ** [killAll] of [lib.helper.js] *)

Module KillAll.
Import Js Helper.

(** The Netscript API with the two calls [killAll] makes besides those of
    [crawler]: [ns.killall(server, true)], which tells whether it ended any
    script, and [ns.sleep]. *)
Record NSK (W : Type) := {
  base : NS W;
  killall : W -> string -> bool * W;
  sleep : W -> Q -> W
}.
Arguments base {W} _.
Arguments killall {W} _.
Arguments sleep {W} _.

Inductive Event :=
  | TPrint (msg : string)
  | Print (msg : string)
  | Killall (server : string) (scriptsKilled : bool)
  | Sleep (ms : Q).

Section WithNS.
Context {W : Type} (ns : NSK W).

(** One turn of [for (const server of servers)]. *)
Definition visit (server : string) (w : W) : W * list Event :=
  let (w1, done) :=
    if hasRootAccess (base ns) w server
    then
      let (scriptsKilled, w') := killall ns w server in
      (w', Killall server scriptsKilled
             :: (if scriptsKilled
                 then [TPrint ("SUCCESS: Skripte auf " ++ server ++ " beendet.")]
                 else if negb (String.eqb server "home")
                      then [Print ("INFO: Keine laufenden Skripte auf " ++ server
                                   ++ " gefunden.")]
                      else []))
    else (w, []) in
  (sleep ns w1 10, done ++ [Sleep 10]).

Fixpoint visits (servers : list string) (w : W) : W * list Event :=
  match servers with
  | [] => (w, [])
  | server :: rest =>
      let (w1, tr1) := visit server w in
      let (w2, tr2) := visits rest w1 in
      (w2, tr1 ++ tr2)
  end.

(** [killAll(ns)]; [None] where the crawl runs out of [fuel]. *)
Definition killAll (fuel : nat) (w : W) : option (W * list Event) :=
  match crawler (base ns) fuel w with
  | None => None
  | Some servers =>
      let (w', tr) := visits servers w in
      Some (w', [TPrint "INFO: Starte Netzwerksuche nach allen Servern...";
                 TPrint ("INFO: " ++ pretty (length servers)
                         ++ " Server gefunden. Starte killall...")]
                  ++ tr ++ [TPrint "INFO: killAllSimple abgeschlossen."])
  end.

End WithNS.

(** The servers [ns.killall] was called on, and the sleeps. *)
Definition killed (tr : list Event) : list string :=
  omap (fun e => match e with Killall server _ => Some server | _ => None end) tr.

Definition sleeps (tr : list Event) : list Q :=
  omap (fun e => match e with Sleep ms => Some ms | _ => None end) tr.

(** The game of [Toy] with no script running anywhere. *)
Definition idle : NSK Toy.World :=
  {| base := Toy.ns;
     killall := fun w _ => (false, w);
     sleep := fun w ms => Toy.advance w ms |}.

End KillAll.

(** ** [Ansi] of [lib.format.js] *)

Module Ansi.
Import Js.

(** A code handed to [Ansi.code]: a number, as [Ansi.bold], or a string,
    as [Ansi.fg] returns.  Numbers are the natural numbers, which print in
    decimal. *)
Inductive Code := Num (n : N) | Str (s : string).

(** What [join] and a template literal make of a code. *)
Definition toString (c : Code) : string :=
  match c with
  | Num n => pretty n
  | Str s => s
  end.

(** [array.join(separator)] on strings. *)
Fixpoint join (separator : string) (l : list string) : string :=
  match l with
  | [] => ""
  | [x] => x
  | x :: rest => x +:+ separator +:+ join separator rest
  end.

(** The escape character, [\u001b]. *)
Definition ESC : ascii := "027"%char.

(** [Ansi.code(...codes)] *)
Definition code (codes : list Code) : string :=
  String ESC (String "["%char (join ";" (map toString codes) +:+ "m")).

(** [Ansi.reset], [Ansi.bold], [Ansi.italic], [Ansi.underline] *)
Definition reset : N := 0.
Definition bold : N := 1.
Definition italic : N := 3.
Definition underline : N := 4.

(** [Ansi.resetSeq()] *)
Definition resetSeq : string := code [Num reset].

(** [Ansi.formatter(...codes)], applied to [text]. *)
Definition formatter (codes : list Code) (text : string) : string :=
  code codes +:+ text +:+ resetSeq.

(** [Ansi.fg(code)] and [Ansi.bg(code)] *)
Definition fg (color : N) : string := "38;5;" +:+ pretty color.
Definition bg (color : N) : string := "48;5;" +:+ pretty color.

(** What [Ansi.rgb] comes to. *)
Inductive Result := Threw (msg : string) | Returned (s : string).

(** [Ansi.rgb(r, g, b)], on integers. *)
Definition rgb (r g b : Z) : Result :=
  if (r <? 0) || (5 <? r) then Threw "r must be between 0 and 5"
  else if (g <? 0) || (5 <? g) then Threw "g must be between 0 and 5"
  else if (b <? 0) || (5 <? b) then Threw "b must be between 0 and 5"
  else Returned (pretty (16 + (r * 36 + g * 6 + b))).

(** The regular expressions that [stripFormatting] needs: a character, a
    digit [\d], a sequence, and the greedy [r*] and [r+]. *)
Inductive Regex :=
  | Chr (c : ascii)
  | Digit
  | Seq (r1 r2 : Regex)
  | Star (r : Regex).

Definition Plus (r : Regex) : Regex := Seq r (Star r).

Definition is_digit (c : ascii) : bool :=
  match Ascii.is_nat c with
  | Some _ => true
  | None => false
  end.

(** The greedy loop of [r*] with [step] matching [r]: it goes round as
    long as [step] matches and takes characters, at most [n] times, and
    falls back on [k], what follows the loop, where the rest fails. *)
Fixpoint star (step : string -> (string -> option string) -> option string)
         (n : nat) (s : string) (k : string -> option string) : option string :=
  match n with
  | O => k s
  | S n' =>
      match step s (fun s' => if (String.length s' <? String.length s)%nat
                              then star step n' s' k
                              else None) with
      | Some rest => Some rest
      | None => k s
      end
  end.

(** A backtracking matcher: [matchR fuel r s k] matches [r] at the start of
    [s] and hands the rest to [k]; the first way that [k] accepts
    counts.  A loop runs at most [fuel] times. *)
Fixpoint matchR (fuel : nat) (r : Regex) (s : string) (k : string -> option string)
  : option string :=
  match r with
  | Chr c =>
      match s with
      | String c' s' => if Ascii.eqb c c' then k s' else None
      | EmptyString => None
      end
  | Digit =>
      match s with
      | String c' s' => if is_digit c' then k s' else None
      | EmptyString => None
      end
  | Seq r1 r2 => matchR fuel r1 s (fun s' => matchR fuel r2 s' k)
  | Star r1 => star (matchR fuel r1) fuel s k
  end.

(** [/\u001b\[(?:\d+;)*\d+m/] *)
Definition ansi_sequence : Regex :=
  Seq (Chr ESC)
      (Seq (Chr "["%char)
           (Seq (Star (Seq (Plus Digit) (Chr ";"%char)))
                (Seq (Plus Digit) (Chr "m"%char)))).

(** A match at the start of [s]: what is left of [s] behind it. *)
Definition exec (r : Regex) (s : string) : option string :=
  matchR (String.length s) r s Some.

(** [s.replace(r, '')] for a global [r]: the matches are cut out from left
    to right; behind an empty match the search moves on by one character.
    One unit of [fuel] per step. *)
Fixpoint replace_all (fuel : nat) (r : Regex) (s : string) : string :=
  match fuel with
  | O => s
  | S fuel' =>
      match s with
      | EmptyString => EmptyString
      | String c s' =>
          match exec r s with
          | Some rest =>
              if (String.length rest <? String.length s)%nat
              then replace_all fuel' r rest
              else String c (replace_all fuel' r s')
          | None => String c (replace_all fuel' r s')
          end
      end
  end.

(** [Ansi.stripFormatting(text)] for a string [text]. *)
Definition stripFormatting (text : string) : string :=
  replace_all (String.length text) ansi_sequence text.

(** A string of digits. *)
Fixpoint digits (s : string) : bool :=
  match s with
  | EmptyString => true
  | String c s' => is_digit c && digits s'
  end.

(** The parameters of an escape sequence: numbers separated by [;]. *)
Inductive params : string -> Prop :=
  | params_one (c : ascii) (ds : string) :
      is_digit c = true -> digits ds = true -> params (String c ds)
  | params_more (c : ascii) (ds p : string) :
      is_digit c = true -> digits ds = true -> params p ->
      params (String c ds +:+ ";" +:+ p).

(** A text without escape character. *)
Fixpoint plain (s : string) : bool :=
  match s with
  | EmptyString => true
  | String c s' => negb (Ascii.eqb c ESC) && plain s'
  end.

End Ansi.

(** ** The spider module [mod.spider.js] *)

Module Spider.
Import Js Config.

(** [portHackerSet] and [operatorScripts] of [lib.config.js] *)
Definition portHackerSet : list string :=
  ["BruteSSH.exe"; "FTPCrack.exe"; "relaySMTP.exe"; "HTTPWorm.exe"; "SQLInject.exe"].

Definition operatorScripts : list string := ["bin.hack.js"; "bin.grow.js"; "bin.weaken.js"].

(** Truthiness of a value. *)
Definition truthy (v : Value) : bool :=
  match v with
  | VUndefined | VNull => false
  | VBool b => b
  | VNum (Finite q) => negb (eqb q 0)
  | VNum NaN => false
  | VNum _ => true
  | VStr s => negb (String.eqb s "")
  | _ => true
  end.

(** [ToNumber] on [undefined], [null], booleans and numbers.  The parsing
    of a string and the conversion of an object are left out: [None]. *)
Definition to_number (v : Value) : option Number :=
  match v with
  | VUndefined => Some NaN
  | VNull => Some (Finite 0)
  | VBool b => Some (Finite (if b then 1 else 0))
  | VNum n => Some n
  | _ => None
  end.

(** [a - b] on numbers. *)
Definition minus (a b : Number) : Number :=
  match a, b with
  | Finite x, Finite y => Finite (x - y)
  | NaN, _ | _, NaN => NaN
  | PosInf, PosInf | NegInf, NegInf => NaN
  | PosInf, _ | _, NegInf => PosInf
  | NegInf, _ | _, PosInf => NegInf
  end.

(** [Math.max(0, a)] *)
Definition max0 (a : Number) : Number :=
  match a with
  | Finite x => Finite (Math_max 0 x)
  | NaN => NaN
  | PosInf => PosInf
  | NegInf => Finite 0
  end.

(** [Math.floor(a / 1.75)] *)
Definition slotsIn (a : Number) : Number :=
  match a with
  | Finite x => Finite (inject_Z (Math_floor (x / 1.75)))
  | other => other
  end.

(** [a <= b] on numbers: false where one is [NaN]. *)
Definition num_le (a b : Number) : bool :=
  match a, b with
  | NaN, _ | _, NaN => false
  | Finite x, Finite y => leb x y
  | NegInf, _ | _, PosInf => true
  | _, _ => false
  end.

(** [object.name] on a value that is an object. *)
Definition prop (v : Value) (name : string) : Value :=
  match v with
  | VObj ps => Settings.property ps name
  | _ => VUndefined
  end.

(** [s.toLowerCase()] on the letters A to Z. *)
Definition lower (c : ascii) : ascii :=
  let n := nat_of_ascii c in
  if ((65 <=? n) && (n <=? 90))%nat then ascii_of_nat (n + 32) else c.

Fixpoint toLowerCase (s : string) : string :=
  match s with
  | EmptyString => EmptyString
  | String c rest => String (lower c) (toLowerCase rest)
  end.

(** [s.slice(0, -4)] *)
Definition slice_0_minus4 (s : string) : string :=
  String.substring 0 (String.length s - 4) s.

(** The Netscript API as the spider uses it, over a world [W]: [base] holds
    [ns.scan]; [getServer] gives the own properties of the server object;
    [crack] is [ns[method](host)] for the method of a port hacker; [scp]
    tells whether the file was copied.  Every call returns. *)
Record NS (W : Type) := {
  base : Helper.NS W;
  fileExists : W -> string -> bool;
  getServer : W -> string -> list (string * Value);
  getScriptName : W -> string;
  getScriptRam : W -> string -> Q;
  hackAnalyze : W -> string -> Q;
  getHackingLevel : W -> Q;
  crack : W -> string -> Value -> W;
  nuke : W -> Value -> W;
  scp : W -> string -> string -> string -> bool * W
}.
Arguments base {W} _.
Arguments fileExists {W} _.
Arguments getServer {W} _.
Arguments getScriptName {W} _.
Arguments getScriptRam {W} _.
Arguments hackAnalyze {W} _.
Arguments getHackingLevel {W} _.
Arguments crack {W} _.
Arguments nuke {W} _.
Arguments scp {W} _.

(** What the spider hands to the logger. *)
Inductive Message :=
  | PortHackers (portHacker : list string)
  | Scanning (hostname : string)
  | Peeked (hostname : string) (neededLevel requiredPorts ramMax : Value)
  | AlreadyBot (id : Value)
  | Using (crack : string) (id : Value)
  | NukeAfterCracks (id : Value)
  | DirectNuke (id : Value)
  | RootAccess (hostname : string)
  | Deploying (hostname : string) (scripts : list string)
  | NotCopied (script hostname : string)
  | Deployed (hostname : string)
  | NoRootAccess (hostname : string) (neededLevel requiredPorts : Value)
  | Connections (hostname : string) (neighbors : list string)
  | ScanDone (size : nat).

(** The calls that reach the game or the log: [logger.info] and
    [logger.warn] always do, [logger.debug] where the handler was built
    with [level: 'debug']. *)
Inductive Event :=
  | Info (m : Message)
  | Debug (m : Message)
  | Warn (m : Message)
  | Crack (method : string) (host : Value)
  | Nuke (host : Value)
  | Scp (script hostname : string) (copied : bool).

(** [logger.debug(...)] *)
Definition debug (level_debug : bool) (m : Message) : list Event :=
  if level_debug then [Debug m] else [].

Section WithNS.
Context {W : Type} (ns : NS W) (B : Builtins) (level_debug : bool).

(** [peekIntoServer(ns, logger, hostname)]: the server data and what was
  logged; [None] where a conversion is met that [to_number] or
  [loadFromStorage] leaves out. *)
Definition peekIntoServer (c : Settings.Class) (w : W) (hostname : string)
  : option (Value * list Event) :=
  let data := getServer ns w hostname in
  let field := Settings.property data in
  let isHome := match field "hostname" with
                | VStr s => String.eqb s "home"
                | _ => false
                end in
  let scriptRam := getScriptRam ns w (getScriptName ns w) in
  used ← (if isHome
          then u ← to_number (field "usedRam"); Some (minus u (Finite scriptRam))
          else to_number (field "ramUsed"));
  let usedRam := max0 used in
  let trueMax := field "maxRam" in
  offered ← (if isHome
             then reserved ← Settings.reservedHomeRam B c;
                  t ← to_number trueMax;
                  r ← to_number reserved;
                  Some (minus t r)
             else to_number trueMax);
  let maxRam := max0 offered in
  let freeRam := max0 (minus maxRam usedRam) in
  let result :=
    VObj [ ("id", field "hostname");
           ("isHome", VBool isHome);
           ("neededLevel", field "requiredHackingSkill");
           ("hasRootAccess", field "hasAdminRights");
           ("backdoor", field "backdoorInstalled");
           ("purchased", field "purchasedByPlayer");
           ("slots", VObj [ ("max", VNum (slotsIn maxRam));
                            ("free", VNum (slotsIn freeRam)) ]);
           ("ram", VObj [ ("trueMax", trueMax);
                          ("used", VNum usedRam);
                          ("max", VNum maxRam);
                          ("free", VNum freeRam) ]);
           ("requiredPorts", field "numOpenPortsRequired");
           ("security", VObj [ ("level", field "securityLevel");
                               ("min", field "minSecurityLevel") ]);
           ("money", VObj [ ("available", field "moneyAvailable");
                            ("max", field "maxMoney");
                            ("growth", field "serverGrowth") ]);
           ("time", VObj [ ("hack", field "hackTime");
                           ("grow", field "growTime");
                           ("weaken", field "weakenTime") ]);
           ("gainPerHack", VNum (Finite (hackAnalyze ns w hostname))) ] in
  Some (result,
        debug level_debug
              (Peeked hostname (prop result "neededLevel") (prop result "requiredPorts")
                      (prop (prop result "ram") "max"))).

(** [for (const crack of portHacker) { ...; ns[crack.toLowerCase().slice(0, -4)](server.id); }] *)
Fixpoint cracks (portHacker : list string) (id : Value) (w : W) : W * list Event :=
  match portHacker with
  | [] => (w, [])
  | crack_exe :: rest =>
      let method := slice_0_minus4 (toLowerCase crack_exe) in
      let (w', tr) := cracks rest id (crack ns w method id) in
      (w', debug level_debug (Using crack_exe id) ++ Crack method id :: tr)
  end.

(** [make2Bot(ns, logger, server, portHacker)] *)
Definition make2Bot (server : Value) (portHacker : list string) (w : W)
  : option (bool * W * list Event) :=
  let id := prop server "id" in
  let direct :=
    match prop server "requiredPorts" with
    | VNum (Finite q) =>
        if eqb q 0
        then (true, nuke ns w id, debug level_debug (DirectNuke id) ++ [Nuke id])
        else (false, w, [])
    | _ => (false, w, [])
    end in
  if truthy (prop server "hasRootAccess")
  then Some (true, w, debug level_debug (AlreadyBot id))
  else
    ports ← to_number (prop server "requiredPorts");
    if num_le ports (Finite (inject_Z (Z.of_nat (length portHacker))))
    then
      needed ← to_number (prop server "neededLevel");
      if num_le needed (Finite (getHackingLevel ns w))
      then
        let (w', tr) := cracks portHacker id w in
        Some (true, nuke ns w' id,
              tr ++ debug level_debug (NukeAfterCracks id) ++ [Nuke id])
      else Some direct
    else Some direct.

(** [deployHackScripts(ns, logger, hostname)], over the scripts still to
  copy and the [result] so far. *)
Fixpoint deploy (scripts : list string) (hostname : string) (result : bool) (w : W)
  : bool * W * list Event :=
  match scripts with
  | [] => (result, w, [])
  | script :: rest =>
      let (lineResult, w1) := scp ns w script hostname "home" in
      let '(r, w2, tr) := deploy rest hostname (result && lineResult) w1 in
      (r, w2,
       Scp script hostname lineResult
         :: (if lineResult then [] else [Warn (NotCopied script hostname)]) ++ tr)
  end.

Definition deployHackScripts (hostname : string) (w : W) : bool * W * list Event :=
  let '(r, w', tr) := deploy operatorScripts hostname true w in
  (r, w', debug level_debug (Deploying hostname operatorScripts) ++ tr).

(** How a run of the spider ends. *)
Inductive Outcome :=
  | Done (w : W) (c : Settings.Class) (tr : list Event)
  | Unmodelled
  | OutOfFuel.

(** [localStorage.setItem(key, ...)] takes a string; a key of another type
  would be converted, which is left out. *)
Definition as_key (v : option Value) : option string :=
  match v with
  | Some (VStr s) => Some s
  | _ => None
  end.

(** The last lines of [executeSpider]. *)
Definition finish (botNet networkMap : list (Value * Value)) (w : W)
           (c : Settings.Class) (tr : list Event) : Outcome :=
  let tr1 := tr ++ [Info (ScanDone (length botNet))] in
  match as_key (Settings.botnetKey B c) with
  | None => Unmodelled
  | Some kb =>
      let c1 := {| Settings.localStorage :=
                     saveToStorage B (Settings.localStorage c) kb (VMap botNet);
                   Settings.defined := Settings.defined c |} in
      match as_key (Settings.mapKey B c1) with
      | None => Unmodelled
      | Some km =>
          Done w {| Settings.localStorage :=
                      saveToStorage B (Settings.localStorage c1) km (VMap networkMap);
                    Settings.defined := Settings.defined c1 |} tr1
      end
  end.

(** [networkMap.has(hostname)] *)
Definition has (m : list (Value * Value)) (hostname : string) : bool :=
  existsb (same_value_zero (VStr hostname)) (map fst m).

(** The main loop of [executeSpider]: [toVisitStack] with its top first,
  one unit of fuel per turn. *)
Fixpoint spider (fuel : nat) (portHacker : list string)
         (toVisitStack : list string) (botNet networkMap : list (Value * Value))
         (w : W) (c : Settings.Class) (tr : list Event) : Outcome :=
  match fuel with
  | O => OutOfFuel
  | S fuel' =>
      match toVisitStack with
      | [] => finish botNet networkMap w c tr
      | hostname :: stack =>
          if has networkMap hostname
          then spider fuel' portHacker stack botNet networkMap w c tr
          else
            match peekIntoServer c w hostname with
            | None => Unmodelled
            | Some (serverData, tr1) =>
                match make2Bot serverData portHacker w with
                | None => Unmodelled
                | Some (isBot, w1, tr2) =>
                    let '(botNet', w2, tr3) :=
                      if isBot
                      then
                        let '(_, w2, tr3) := deployHackScripts hostname w1 in
                        (map_set botNet (VStr hostname) serverData, w2,
                         debug level_debug (RootAccess hostname) ++ tr3
                           ++ debug level_debug (Deployed hostname))
                      else
                        (botNet, w1,
                         debug level_debug
                               (NoRootAccess hostname (prop serverData "neededLevel")
                                             (prop serverData "requiredPorts"))) in
                    let neighbors := Helper.scan (base ns) w2 hostname in
                    spider fuel' portHacker (rev neighbors ++ stack) botNet'
                           (map_set networkMap (VStr hostname) (VArr (map VStr neighbors)))
                           w2 c
                           (tr ++ debug level_debug (Scanning hostname) ++ tr1 ++ tr2 ++ tr3
                               ++ debug level_debug (Connections hostname neighbors))
                end
            end
      end
  end.

(** [executeSpider(ns, logger)] *)
Definition executeSpider (fuel : nat) (w : W) (c : Settings.Class) : Outcome :=
  let portHacker := filter (fun crack_exe => fileExists ns w crack_exe = true) portHackerSet in
  spider fuel portHacker ["home"] [] [] w c [Info (PortHackers portHacker)].

(** The entry of [hostname] in the network map: what [ns.scan] gives
  for it. *)
Definition connections (w : W) (hostname : string) : Value * Value :=
  (VStr hostname, VArr (map VStr (Helper.scan (base ns) w hostname))).

End WithNS.

Arguments Done {W} w c tr.
Arguments Unmodelled {W}.
Arguments OutOfFuel {W}.

(** The calls to the game among the events. *)
Definition is_call (e : Event) : bool :=
  match e with
  | Crack _ _ | Nuke _ | Scp _ _ _ => true
  | _ => false
  end.

Definition calls (tr : list Event) : list Event := filter (fun e => is_call e = true) tr.

(** The hosts [ns.scp] was asked to copy to, once per file. *)
Definition copied_to (tr : list Event) : list string :=
  omap (fun e => match e with Scp _ hostname _ => Some hostname | _ => None end) tr.

(** A value that [to_number] converts. *)
Definition numeric (v : Value) : bool :=
  match to_number v with
  | Some _ => true
  | None => false
  end.

(** A server object that holds numbers, or nothing, where the spider
    calculates or compares. *)
Definition well_typed (data : list (string * Value)) : bool :=
  forallb (fun name => numeric (Settings.property data name))
          ["usedRam"; "ramUsed"; "maxRam"; "numOpenPortsRequired"; "requiredHackingSkill"].

(** A game over the worlds of [Toy] to run the spider in: [home] with
    root access and two servers without, of which [CSEC] needs one open
    port.  No port hacker is on [home], [ns.nuke] gives root access and
    every copy succeeds.  The server objects have the properties of the
    game's: the used memory is [ramUsed]. *)
Definition lab_network : list Toy.Server :=
  [ {| Toy.hostname := "home"; Toy.maxRam := 64; Toy.usedRam := 8; Toy.rooted := true;
       Toy.neighbours := ["n00dles"; "CSEC"] |};
    {| Toy.hostname := "n00dles"; Toy.maxRam := 4; Toy.usedRam := 0; Toy.rooted := false;
       Toy.neighbours := ["home"] |};
    {| Toy.hostname := "CSEC"; Toy.maxRam := 8; Toy.usedRam := 0; Toy.rooted := false;
       Toy.neighbours := ["home"] |} ].

Definition lab0 : Toy.World :=
  {| Toy.servers := lab_network; Toy.clock := 0; Toy.tick := 0; Toy.nextPid := 1;
     Toy.security := 1; Toy.minSecurity := 1; Toy.money := 0; Toy.moneyMax := 1;
     Toy.hackTime := 1000 |}.

Definition server_object (sv : Toy.Server) : list (string * Value) :=
  [ ("hostname", VStr (Toy.hostname sv));
    ("hasAdminRights", VBool (Toy.rooted sv));
    ("maxRam", VNum (Finite (Toy.maxRam sv)));
    ("ramUsed", VNum (Finite (Toy.usedRam sv)));
    ("numOpenPortsRequired",
     VNum (Finite (if String.eqb (Toy.hostname sv) "CSEC" then 1 else 0)));
    ("requiredHackingSkill", VNum (Finite 1)) ].

Definition root (w : Toy.World) (host : Value) : Toy.World :=
  {| Toy.servers :=
       map (fun sv => if same_value_zero (VStr (Toy.hostname sv)) host
                      then {| Toy.hostname := Toy.hostname sv;
                              Toy.maxRam := Toy.maxRam sv;
                              Toy.usedRam := Toy.usedRam sv;
                              Toy.rooted := true;
                              Toy.neighbours := Toy.neighbours sv |}
                      else sv) (Toy.servers w);
     Toy.clock := Toy.clock w; Toy.tick := Toy.tick w; Toy.nextPid := Toy.nextPid w;
     Toy.security := Toy.security w; Toy.minSecurity := Toy.minSecurity w;
     Toy.money := Toy.money w; Toy.moneyMax := Toy.moneyMax w;
     Toy.hackTime := Toy.hackTime w |}.

Definition lab : NS Toy.World :=
  {| base := Toy.ns;
     fileExists := fun _ _ => false;
     getServer := fun w h => match Toy.find w h with
                             | Some sv => server_object sv
                             | None => []
                             end;
     getScriptName := fun _ => "mod.spider.js";
     getScriptRam := fun _ _ => 4.5%Q;
     hackAnalyze := fun _ _ => 0%Q;
     getHackingLevel := fun _ => 1%Q;
     crack := fun w _ _ => w;
     nuke := root;
     scp := fun w _ _ _ => (true, w) |}.

End Spider.

(** ** [tFormatCustom] and [formatNumberFixedWidth] of [lib.format.js] *)

Module Format.
Import Js.

(** What a call comes to.  [String(n)] is modelled for whole numbers and
    the arithmetic is that of exact numbers: a call with a number from
    [2^53] on, where doubles no longer hold every whole number, or one that
    prints a fraction, is left out. *)
Inductive Outcome :=
  | Returned (s : string)
  | ThrewReferenceError (name : string)
  | Unmodelled.

Definition MAX_SAFE : Q := 9007199254740992.

(** [c.repeat(n)] for a character [c]. *)
Fixpoint repeat (c : ascii) (n : nat) : string :=
  match n with
  | O => EmptyString
  | S n' => String c (repeat c n')
  end.

(** [s.padStart(targetLength, c)] for a character [c]. *)
Definition padStart (s : string) (targetLength : nat) (c : ascii) : string :=
  repeat c (targetLength - String.length s) +:+ s.

(** [String(n)] for a whole number [n]. *)
Definition String_ (n : Z) : string := pretty n.

(** [tFormatCustom(ms)].  [formatTimeCustom], which it calls for a negative
    [ms], is declared nowhere.  For [Infinity] every field is [NaN]. *)
Definition tFormatCustom (ms : Nullable Number) : Outcome :=
  match ms with
  | Null | Undefined | Val NaN => Returned "N/A"
  | Val NegInf => ThrewReferenceError "formatTimeCustom"
  | Val PosInf => Returned "NaN:NaN:NaN"
  | Val (Finite ms) =>
      if ltb ms 0 then ThrewReferenceError "formatTimeCustom"
      else if eqb ms 0 then Returned "0s"
      else if leb MAX_SAFE ms then Unmodelled
      else
        let remainingTime := Math_floor (ms / 1000) in
        let seconds := rem remainingTime 60 in
        let remainingTime := (remainingTime - seconds) / 60 in
        let minutes := rem remainingTime 60 in
        let remainingTime := (remainingTime - minutes) / 60 in
        let hours := rem remainingTime 24 in
        let remainingTime := (remainingTime - hours) / 24 in
        let days := remainingTime in
        let hoursStr := padStart (String_ hours) 2 "0" in
        let minutesStr := padStart (String_ minutes) 2 "0" in
        let secondsStr := padStart (String_ seconds) 2 "0" in
        let result := if 0 <? days then String_ days +:+ "d " else "" in
        Returned (result +:+ hoursStr +:+ ":" +:+ minutesStr +:+ ":" +:+ secondsStr)
  end.

(** [['', 'k', 'M', 'G', 'T', 'P', 'E', 'Z', 'Y'][i]] *)
Definition suffixes : list string := [""; "k"; "M"; "G"; "T"; "P"; "E"; "Z"; "Y"].

(** [Math.pow(1000, i)] *)
Definition pow1000 (i : nat) : Q := inject_Z (1000 ^ Z.of_nat i).

(** The loop that finds the suffix, one unit of fuel per turn:
    [while (tempNum >= 1000 && suffixIndex < suffixes.length - 1)]. *)
Fixpoint findSuffix (fuel : nat) (num tempNum : Q) (suffixIndex : nat) : nat :=
  match fuel with
  | O => suffixIndex
  | S fuel' =>
      if leb 1000 tempNum && (suffixIndex <? length suffixes - 1)%nat
      then
        let nextDivisor := pow1000 (suffixIndex + 1) in
        if leb nextDivisor num
        then findSuffix fuel' num (tempNum / 1000) (suffixIndex + 1)
        else suffixIndex
      else suffixIndex
  end.

(** [String(num).padStart(6)] for a number that is not negative. *)
Definition small (num : Q) : Outcome :=
  if eqb num (inject_Z (Math_floor num))
  then Returned (padStart (String_ (Math_floor num)) 6 " ")
  else Unmodelled.

(** [formatNumberFixedWidth(num)] *)
Definition formatNumberFixedWidth (num : Nullable Number) : Outcome :=
  let targetWidth := 6%nat in
  let naString := padStart "N/A" targetWidth " " in
  match num with
  | Null | Undefined | Val NaN | Val NegInf => Returned naString
  | Val PosInf => Returned (padStart "#" targetWidth "#")
  | Val (Finite num) =>
      if ltb num 0 then Returned naString
      else if ltb num 10000 then small num
      else if leb MAX_SAFE num then Unmodelled
      else
        let suffixIndex := findSuffix (length suffixes) num num 0 in
        if (suffixIndex =? 0)%nat then small num
        else
          let divisor := pow1000 suffixIndex in
          let suffix :=
            String Ansi.ESC "[31m" +:+ nth suffixIndex suffixes "" +:+ String Ansi.ESC "[0m" in
          let intPart := Math_floor (num / divisor) in
          let remainder := (num - divisor * inject_Z (Math_floor (num / divisor)))%Q in
          let intPartStr := String_ intPart in
          let intPartLen := String.length intPartStr in
          let fractionDigitsNeeded := (Z.of_nat targetWidth - Z.of_nat intPartLen - 1)%Z in
          if fractionDigitsNeeded <? 0
          then
            let fallbackStr := intPartStr +:+ suffix in
            if (targetWidth <? String.length fallbackStr)%nat
            then Returned (padStart "#" targetWidth "#")
            else Returned (padStart fallbackStr targetWidth " ")
          else
            let fractionPart :=
              if 0 <? fractionDigitsNeeded
              then Math_floor (remainder / divisor * inject_Z (10 ^ fractionDigitsNeeded))
              else 0 in
            let fractionStr :=
              padStart (String_ fractionPart) (Z.to_nat fractionDigitsNeeded) "0" in
            let finalStr := intPartStr +:+ suffix +:+ fractionStr in
            Returned (padStart finalStr targetWidth " ")
  end.

End Format.

(** ** [Table] of [lib.format.js] *)

Module Table.
Import Js.

(** A formatter: a function from text to text. *)
Definition Formatter := string -> string.

(** What [setColumnFormat] and the like are given: a formatter function,
    an array of ANSI codes, or something else. *)
Inductive Format :=
  | Fn (f : Formatter)
  | Codes (codes : list Ansi.Code)
  | Other.

(** [#createFormatter(format)] *)
Definition createFormatter (format : Format) : Formatter :=
  match format with
  | Fn f => f
  | Codes codes => Ansi.formatter codes
  | Other => fun text => text
  end.

(** The border characters, one character each. *)
Record BorderChars := {
  borderTopLeft : ascii; borderTopRight : ascii;
  borderBottomLeft : ascii; borderBottomRight : ascii;
  borderHorizontal : ascii; borderVertical : ascii;
  borderTopMid : ascii; borderBottomMid : ascii;
  borderLeftMid : ascii; borderRightMid : ascii;
  colSep : ascii; midSep : ascii; rowSep : ascii
}.

(** The style ['basic']. *)
Definition basic : BorderChars :=
  {| borderTopLeft := "+"; borderTopRight := "+";
     borderBottomLeft := "+"; borderBottomRight := "+";
     borderHorizontal := "-"; borderVertical := "|";
     borderTopMid := "+"; borderBottomMid := "+";
     borderLeftMid := "+"; borderRightMid := "+";
     colSep := "|"; midSep := "+"; rowSep := "-" |}.

(** [#getBorderChars()].  The styles ['normal'], ['simple'] and ['double']
    draw with box characters, which lie outside [ascii]: they are left
    out. *)
Definition getBorderChars (borderStyle : string) : option BorderChars :=
  if String.eqb borderStyle "basic" then Some basic else None.

(** [this.#options], with a whole number for the padding. *)
Record Options := {
  borderColor : Formatter;
  headerColor : Formatter;
  borderStyle : string;
  showColumnSeparator : bool;
  padding : Z
}.

(** [Ansi.std.CYAN], [Ansi.std.WHITE] *)
Definition CYAN : N := 6.
Definition WHITE : N := 7.

(** The options of a table that is given none. *)
Definition defaults : Options :=
  {| borderColor := Ansi.formatter [Ansi.Str (Ansi.fg WHITE)];
     headerColor := Ansi.formatter [Ansi.Num Ansi.bold; Ansi.Str (Ansi.fg CYAN)];
     borderStyle := "normal";
     showColumnSeparator := true;
     padding := 1 |}.

(** A rule of conditional formatting. *)
Record Rule := { column : nat; test : string -> bool; format : Formatter }.

(** A table whose headers and cells are strings.  [columnFormats] is the
    array of that name: [None] is an index nothing was assigned to. *)
Record t := {
  tableWidth : Z;
  headers : list string;
  columnCount : option nat;
  options : Options;
  columnFormats : nat -> option Formatter;
  conditionalFormats : list Rule;
  rows : list (list string)
}.

(** [new Table(headers, options)], [options] being the defaults with what
    was given spread over them. *)
Definition constructor (headers : list string) (options : Options) : t :=
  {| tableWidth := 0;
     headers := headers;
     columnCount := if (0 <? length headers)%nat then Some (length headers) else None;
     options := options;
     columnFormats := fun _ => None;
     conditionalFormats := [];
     rows := [] |}.

(** [setColumnFormat(columnIndex, format)] *)
Definition setColumnFormat (columnIndex : nat) (format : Format) (tb : t) : t :=
  {| tableWidth := tableWidth tb; headers := headers tb; columnCount := columnCount tb;
     options := options tb;
     columnFormats := fun i => if (i =? columnIndex)%nat then Some (createFormatter format)
                               else columnFormats tb i;
     conditionalFormats := conditionalFormats tb; rows := rows tb |}.

(** [addConditionalFormat(columnIndex, condition, format)] *)
Definition addConditionalFormat (columnIndex : nat) (condition : string -> bool)
           (format : Format) (tb : t) : t :=
  {| tableWidth := tableWidth tb; headers := headers tb; columnCount := columnCount tb;
     options := options tb; columnFormats := columnFormats tb;
     conditionalFormats :=
       conditionalFormats tb
         ++ [{| column := columnIndex; test := condition; format := createFormatter format |}];
     rows := rows tb |}.

(** [addRow(rowData)]; [None] where it throws. *)
Definition addRow (rowData : list string) (tb : t) : option t :=
  let count := match columnCount tb with
               | None => length rowData
               | Some n => n
               end in
  if (length rowData =? count)%nat
  then Some {| tableWidth := tableWidth tb; headers := headers tb;
               columnCount := Some count; options := options tb;
               columnFormats := columnFormats tb;
               conditionalFormats := conditionalFormats tb;
               rows := rows tb ++ [rowData] |}
  else None.

(** [sanitizeData()] *)
Definition sanitizeData (tb : t) : t :=
  {| tableWidth := tableWidth tb;
     headers := map Ansi.stripFormatting (headers tb);
     columnCount := columnCount tb; options := options tb;
     columnFormats := columnFormats tb; conditionalFormats := conditionalFormats tb;
     rows := map (map Ansi.stripFormatting) (rows tb) |}.

(** [getTableWidth()]; [None] is [undefined]. *)
Definition getTableWidth (tb : t) : option Z :=
  if tableWidth tb =? 0 then None else Some (tableWidth tb).

(** The inner loop of [#calculateColumnWidths]: one row widens the
    columns it has cells for, and adds those there were none of. *)
Fixpoint widen (columnWidths : list nat) (row : list string) : list nat :=
  match row with
  | [] => columnWidths
  | cell :: row' =>
      let cellWidth := String.length (Ansi.stripFormatting cell) in
      match columnWidths with
      | [] => cellWidth :: widen [] row'
      | w :: ws => Nat.max w cellWidth :: widen ws row'
      end
  end.

(** [#calculateColumnWidths()]; [Array(null)] has one element. *)
Definition calculateColumnWidths (tb : t) : list nat :=
  let columnWidths := map (fun header => String.length (Ansi.stripFormatting header))
                          (headers tb) in
  if (length columnWidths =? 0)%nat
  then match columnCount tb with
       | Some n => replicate n 5%nat
       | None => [5%nat]
       end
  else fold_left widen (rows tb) columnWidths.

(** [#getCellFormatter(value, columnIndex)] *)
Definition getCellFormatter (tb : t) (value : string) (columnIndex : nat) : Formatter :=
  match List.find (fun rule => (column rule =? columnIndex)%nat && test rule value)
                  (conditionalFormats tb) with
  | Some rule => format rule
  | None => match columnFormats tb columnIndex with
            | Some f => f
            | None => fun text => text
            end
  end.

(** [s.padEnd(targetLength)] *)
Definition padEnd (s : string) (targetLength : nat) : string :=
  s +:+ Format.repeat " " (targetLength - String.length s).

(** The last turn of a loop over [rest]'s predecessor. *)
Definition last_one {A} (rest : list A) : bool :=
  match rest with
  | [] => true
  | _ => false
  end.

(** One character as a string. *)
Definition char (c : ascii) : string := String c EmptyString.

Section Render.
Context (chars : BorderChars) (tb : t).

Let colSepOn : bool := showColumnSeparator (options tb).
Let pad : Z := Z.max (padding (options tb)) 1.
Let borderColorFn : Formatter := borderColor (options tb).
Let headerColorFn : Formatter := headerColor (options tb).
Let padString : string := Format.repeat " " (Z.to_nat pad).

(** The loop that draws the three horizontal lines, from the column of
  width [w] on: what it adds to the top, the middle and the bottom line and
  to the width of the table. *)
Fixpoint frame (columnWidths : list nat) : string * string * string * Z :=
  match columnWidths with
  | [] => (EmptyString, EmptyString, EmptyString, 0)
  | w :: rest =>
      let isLastColumn := last_one rest in
      let colWidth := pad + Z.of_nat w
                      + (if isLastColumn || colSepOn then pad else 0) in
      let snippet := Format.repeat (borderHorizontal chars) (Z.to_nat colWidth) in
      let middle := Format.repeat (rowSep chars) (Z.to_nat colWidth) in
      let crossing := negb isLastColumn && colSepOn in
      let '(top, mid, bottom, width) := frame rest in
      (snippet +:+ (if crossing then char (borderTopMid chars) else "") +:+ top,
       middle +:+ (if crossing then char (midSep chars) else "") +:+ mid,
       snippet +:+ (if crossing then char (borderBottomMid chars) else "") +:+ bottom,
       colWidth + (if crossing then 1 else 0) + width)
  end.

(** The loop over the headers, from the header of index [i] on;
  [columnWidths] are the widths from that index on. *)
Fixpoint headerCells (hs : list string) (columnWidths : list nat) : string :=
  match hs with
  | [] => EmptyString
  | headerValue :: rest =>
      let isLastColumn := last_one rest in
      let headerCell :=
        padString +:+ padEnd headerValue (hd 0%nat columnWidths)
                  +:+ (if isLastColumn || colSepOn then padString else "") in
      headerColorFn headerCell
        +:+ (if negb isLastColumn && colSepOn then borderColorFn (char (colSep chars)) else "")
        +:+ headerCells rest (tl columnWidths)
  end.

(** What [formatterRecall] holds for a column: a formatter, or [true]. *)
Inductive Recall :=
  | Same (f : Formatter)
  | ByValue.

(** The loop over the cells of a row, from the cell of index [i] on: the
  text it adds to the row, and [formatterRecall] as it leaves it. *)
Fixpoint dataCells (i : nat) (row : list string) (columnWidths : list nat)
         (formatterRecall : nat -> option Recall) : string * (nat -> option Recall) :=
  match row with
  | [] => (EmptyString, formatterRecall)
  | rawValue :: rest =>
      let cellString := padString +:+ padEnd rawValue (hd 0%nat columnWidths) in
      let '(cellFormatter, recall) :=
        match formatterRecall i with
        | Some (Same f) => (f, formatterRecall)
        | Some ByValue => (getCellFormatter tb rawValue i, formatterRecall)
        | None =>
            let conditional :=
              existsb (fun rule => (column rule =? i)%nat) (conditionalFormats tb) in
            let cellFormatter := getCellFormatter tb rawValue i in
            (cellFormatter,
             fun j => if (j =? i)%nat
                      then Some (if conditional then ByValue else Same cellFormatter)
                      else formatterRecall j)
        end in
      let isLastColumn := last_one rest in
      let cellString := cellString +:+ (if isLastColumn || colSepOn then padString else "") in
      let '(more, recall') := dataCells (S i) rest (tl columnWidths) recall in
      (cellFormatter cellString
         +:+ (if negb isLastColumn && colSepOn then borderColorFn (char (colSep chars)) else "")
         +:+ more,
       recall')
  end.

(** The loop over the rows. *)
Fixpoint dataRows (rs : list (list string)) (columnWidths : list nat)
         (formatterRecall : nat -> option Recall) : list string :=
  match rs with
  | [] => []
  | row :: rest =>
      let '(cells, recall) := dataCells 0 row columnWidths formatterRecall in
      (borderColorFn (char (borderVertical chars)) +:+ cells
         +:+ borderColorFn (char (borderVertical chars)))
        :: dataRows rest columnWidths recall
  end.

(** The lines of [render()], and the width it stores. *)
Definition lines : list string * Z :=
  let columnWidths := calculateColumnWidths tb in
  let '(top, mid, bottom, width) := frame columnWidths in
  let topBorder := char (borderTopLeft chars) +:+ top +:+ char (borderTopRight chars) in
  let midBorder := char (borderLeftMid chars) +:+ mid +:+ char (borderRightMid chars) in
  let bottomBorder :=
    char (borderBottomLeft chars) +:+ bottom +:+ char (borderBottomRight chars) in
  let tableWidth := 1 + width + 1 in
  let head :=
    if (0 <? length (headers tb))%nat
    then [ borderColorFn (char (borderVertical chars))
             +:+ headerCells (headers tb) columnWidths
             +:+ borderColorFn (char (borderVertical chars));
           borderColorFn midBorder ]
    else [] in
  ([borderColorFn topBorder] ++ head
     ++ dataRows (rows tb) columnWidths (fun _ => None)
     ++ [borderColorFn bottomBorder],
   tableWidth).

End Render.

(** [render()]: the text, and the table with the width stored. *)
Definition render (tb : t) : option (string * t) :=
  match getBorderChars (borderStyle (options tb)) with
  | None => None
  | Some chars =>
      let '(ls, width) := lines chars tb in
      Some (Ansi.join (String "010"%char "") ls,
            {| tableWidth := width; headers := headers tb; columnCount := columnCount tb;
               options := options tb; columnFormats := columnFormats tb;
               conditionalFormats := conditionalFormats tb; rows := rows tb |})
  end.

(** A formatter that adds nothing one would see: stripping what it made
    of a text without escape character gives the text. *)
Definition invisible (f : Formatter) : Prop :=
  forall text rest, Ansi.plain text = true ->
                    Ansi.stripFormatting (f text +:+ rest) = text +:+ Ansi.stripFormatting rest.

(** The formatters of a table. *)
Definition formatters_invisible (tb : t) : Prop :=
  invisible (borderColor (options tb))
  /\ invisible (headerColor (options tb))
  /\ (forall i f, columnFormats tb i = Some f -> invisible f)
  /\ Forall (fun rule => invisible (format rule)) (conditionalFormats tb).

(** Every cell has room in its column. *)
Definition fits (cells : list string) (columnWidths : list nat) : Prop :=
  Forall2 (fun cell w => (String.length cell <= w)%nat) cells columnWidths.

(** What the constructor sets up and [addRow] keeps: every row has
    [columnCount] cells, as many as there are headers if there are any. *)
Definition consistent (tb : t) : Prop :=
  match columnCount tb with
  | Some n => Forall (fun row => length row = n) (rows tb)
              /\ (headers tb <> [] -> length (headers tb) = n)
  | None => rows tb = [] /\ headers tb = []
  end.

(** A small table in the style ['basic']. *)
Definition servers_table : option t :=
  tb ← addRow ["n00dles"; "4"]
       (constructor ["host"; "ram"]
          {| borderColor := borderColor defaults; headerColor := headerColor defaults;
             borderStyle := "basic"; showColumnSeparator := true; padding := 1 |});
  addRow ["home"; "64"] tb.

End Table.

(** ** [ProgressBar] and [waitWithProgress] of [lib.format.js] *)

Module ProgressBar.
Import Js.

(** [Date.now()], [ns.getScriptLogs()] and [ns.sleep], over a world [W]. *)
Record Host (W : Type) := {
  Date_now : W -> Q * W;
  getScriptLogs : W -> list string;
  sleep : W -> Q -> W
}.
Arguments Date_now {W} _.
Arguments getScriptLogs {W} _.
Arguments sleep {W} _.

(** What a bar does to the log window, and its sleeps.  [PrintHistory] is
    [ns.print(logHistory.join(''))]; [PrintWait] is the print of
    [`WAIT: ${label}: [${bar}] ${remainingSeconds}s`], the bar being [filled]
    characters in the colour of the bar and [empty] ones in that of the
    text. *)
Inductive Event :=
  | DisableLog
  | OpenTail
  | ClearLog
  | PrintHistory (logHistory : list string)
  | PrintWait (label : string) (filled empty : Z) (remainingSeconds : Z)
  | Sleep (ms : Q).

(** The fields of a bar that its output depends on. *)
Record t := { width : Z; label : string; logHistory : list string }.

(** [new ProgressBar(ns, options)], for the width and the label given in
    [options]: a width of 0 and an empty label are replaced. *)
Definition constructor {W} (host : Host W) (options_width : Z) (options_label : string)
           (w : W) : t * list Event :=
  ({| width := if options_width =? 0 then 50 else options_width;
      label := if String.eqb options_label "" then "Progress" else options_label;
      logHistory := getScriptLogs host w |},
   [DisableLog]).

(** [elapsed / milliseconds] *)
Definition quotient (elapsed milliseconds : Q) : Number :=
  if eqb milliseconds 0
  then (if eqb elapsed 0 then NaN else if ltb 0 elapsed then PosInf else NegInf)
  else Finite (elapsed / milliseconds).

(** [#render(progress, remainingSeconds)]: what it prints, or [None] where
    a [repeat] throws. *)
Definition render (bar : t) (progress : Number) (remainingSeconds : Z)
  : option (list Event) :=
  let filledWidth := Progress.filledWidthOf progress (width bar) in
  let emptyWidth := Progress.emptyWidthOf (width bar) filledWidth in
  match Progress.repeat_length filledWidth, Progress.repeat_length emptyWidth with
  | Some filled, Some empty =>
      Some [ClearLog; PrintHistory (logHistory bar);
            PrintWait (label bar) filled empty remainingSeconds]
  | _, _ => None
  end.

(** How a wait ends. *)
Inductive Outcome (W : Type) :=
  | Finished (w : W) (tr : list Event)
  | ThrewRangeError (w : W) (tr : list Event)
  | OutOfFuel.
Arguments Finished {W} w tr.
Arguments ThrewRangeError {W} w tr.
Arguments OutOfFuel {W}.

Section WithHost.
Context {W : Type} (host : Host W).

(** The loop of [wait], one unit of fuel per turn. *)
Fixpoint loop (fuel : nat) (bar : t) (milliseconds updateInterval startTime endTime : Q)
         (w : W) (tr : list Event) : Outcome W :=
  match fuel with
  | O => OutOfFuel
  | S fuel' =>
      let (t1, w1) := Date_now host w in
      if ltb t1 endTime
      then
        let (t2, w2) := Date_now host w1 in
        let elapsed := (t2 - startTime)%Q in
        let progress := quotient elapsed milliseconds in
        let remaining := Math_max 0 (milliseconds - elapsed) in
        let remainingSeconds := Math_ceil (remaining / 1000) in
        match render bar progress remainingSeconds with
        | None => ThrewRangeError w2 tr
        | Some printed =>
            loop fuel' bar milliseconds updateInterval startTime endTime
                 (sleep host w2 updateInterval) (tr ++ printed ++ [Sleep updateInterval])
        end
      else
        match render bar (Finite 1) 0 with
        | None => ThrewRangeError w1 tr
        | Some printed => Finished w1 (tr ++ printed)
        end
  end.

(** [bar.wait(milliseconds, updateInterval)] *)
Definition wait (fuel : nat) (bar : t) (milliseconds updateInterval : Q) (w : W)
           (tr : list Event) : Outcome W :=
  let (startTime, w0) := Date_now host w in
  let endTime := (startTime + milliseconds)%Q in
  loop fuel bar milliseconds updateInterval startTime endTime w0 tr.

(** [waitWithProgress(ns, milliseconds, label)] *)
Definition waitWithProgress (fuel : nat) (milliseconds : Q) (label : string) (w : W)
  : Outcome W :=
  let (bar, tr) := constructor host 40 label w in
  wait fuel bar milliseconds 200 w (tr ++ [OpenTail]).

End WithHost.

(** What a run printed and slept, however it ended. *)
Definition events {W} (o : Outcome W) : list Event :=
  match o with
  | Finished _ tr | ThrewRangeError _ tr => tr
  | OutOfFuel => []
  end.

(** A bar that fills [barWidth] characters, and a sleep of one interval. *)
Definition well_formed (barWidth : Z) (updateInterval : Q) (e : Event) : Prop :=
  match e with
  | Sleep ms => ms = updateInterval
  | PrintWait _ filled empty remainingSeconds =>
      0 <= filled <= barWidth /\ filled + empty = barWidth /\ 0 <= remainingSeconds
  | _ => True
  end.

(** A clock for examples, the world being the time: a reading of the clock
    takes [tick] ms, a sleep as long as asked for. *)
Definition ticking (tick : Q) : Host Q :=
  {| Date_now := fun w => (w, Qred (w + tick));
     getScriptLogs := fun _ => [];
     sleep := fun w ms => Qred (w + ms) |}.

End ProgressBar.

(** ** The columns of the class [Table] of [lib.format.js]
       ([src/bitburner-home/src]): their widths and the alignment of cells *)

Module Columns.
Import Js.

(** [Table.Align]; [setColumnAlignment] lets no other value in. *)
Inductive Align := LEFT | RIGHT | CENTER | CENTER_ON.

(** What of a column description the widths and the alignment depend on.
    [maxLeft] and [maxRight] are the properties that
    [#calculateColumnWidths] adds to a column; [None] is [undefined]. *)
Record Column := {
  title : string;
  align : Align;
  centerChar : option string;
  maxLeft : option Z;
  maxRight : option Z
}.

(** [#createColumnDescription(title)] *)
Definition createColumnDescription (title : string) : Column :=
  {| title := title; align := LEFT; centerChar := None;
     maxLeft := None; maxRight := None |}.

(** The columns the constructor makes of the headers. *)
Definition constructor (headers : list string) : list Column :=
  map createColumnDescription headers.

(** A column selector: a whole number or a name. *)
Inductive Selector := Index (n : Z) | Name (s : string).

Inductive Outcome (A : Type) :=
  | Returned (a : A)
  | ThrewError (msg : string)
  | ThrewTypeError.
Arguments Returned {A} a.
Arguments ThrewError {A} msg.
Arguments ThrewTypeError {A}.

(** [columns.findIndex(column => column.title === name)] *)
Fixpoint findIndex (name : string) (columns : list Column) : option nat :=
  match columns with
  | [] => None
  | column :: rest =>
      if String.eqb (title column) name then Some O
      else option_map S (findIndex name rest)
  end.

(** [#getColumnIndex(columnSelector)] *)
Definition getColumnIndex (columns : list Column) (columnSelector : Selector)
  : Outcome Z :=
  match columnSelector with
  | Index columnIndex =>
      if columnIndex >=? Z.of_nat (length columns)
      then ThrewError ("Column " +:+ pretty columnIndex +:+ " does not exist")
      else Returned columnIndex
  | Name name =>
      if forallb (fun col => String.eqb (title col) "") columns
      then ThrewError "Column selection by name not possible - table has no headers"
      else match findIndex name columns with
           | None => ThrewError ("Column " +:+ String "034" name +:+ String "034" " not found")
           | Some columnIndex => Returned (Z.of_nat columnIndex)
           end
  end.

(** The values of [align] that [setColumnAlignment] takes. *)
Definition align_of (align' : string) : option Align :=
  if String.eqb align' "left" then Some LEFT
  else if String.eqb align' "right" then Some RIGHT
  else if String.eqb align' "center" then Some CENTER
  else if String.eqb align' "center-on" then Some CENTER_ON
  else None.

(** Truthiness of a string that may be [undefined]. *)
Definition truthy (s : option string) : bool :=
  match s with
  | Some (String _ _) => true
  | _ => false
  end.

(** [setColumnAlignment(columnSelector, align, centerChar)]: the columns
    afterwards.  A negative index passes [#getColumnIndex] and names no
    column: the assignment to [align] is a [TypeError]. *)
Definition setColumnAlignment (columns : list Column) (columnSelector : Selector)
           (align' : string) (centerChar' : option string) : Outcome (list Column) :=
  match align_of align' with
  | None => ThrewError ("Ungültige Ausrichtung: " +:+ align')
  | Some a =>
      if match a with CENTER_ON => negb (truthy centerChar') | _ => false end
      then ThrewError "center-on Ausrichtung benötigt ein centerChar"
      else
        match getColumnIndex columns columnSelector with
        | ThrewError msg => ThrewError msg
        | ThrewTypeError => ThrewTypeError
        | Returned columnIndex =>
            if columnIndex <? 0 then ThrewTypeError
            else
              match columns !! Z.to_nat columnIndex with
              | None => ThrewTypeError
              | Some column =>
                  let column1 :=
                    {| title := title column; align := a;
                       centerChar := centerChar column;
                       maxLeft := maxLeft column; maxRight := maxRight column |} in
                  let column2 :=
                    if truthy centerChar'
                    then {| title := title column1; align := align column1;
                            centerChar := centerChar';
                            maxLeft := maxLeft column1; maxRight := maxRight column1 |}
                    else column1 in
                  Returned (<[Z.to_nat columnIndex := column2]> columns)
              end
        end
  end.

(** [s.length] *)
Definition len (s : string) : Z := Z.of_nat (String.length s).

(** [text.indexOf(searchString, position)]; [None] is [-1]. *)
Definition indexOf (text searchString : string) (position : nat) : option nat :=
  String.index (Nat.min position (String.length text)) searchString text.

(** [#findUniqueChar(text, char)]; [None] is [-1]. *)
Definition findUniqueChar (text char : string) : option nat :=
  match indexOf text char 0 with
  | None => None
  | Some firstPos =>
      match indexOf text char (firstPos + 1) with
      | Some _ => None
      | None => Some firstPos
      end
  end.

(** What [Ansi.stripFormatting(row[colIdx])] gives: a cell that is not
    there is [undefined], of which [stripFormatting] makes a string. *)
Definition strippedCell (row : list string) (colIdx : nat) : string :=
  match row !! colIdx with
  | Some cell => Ansi.stripFormatting cell
  | None => "undefined"
  end.

(** One turn of the inner loop of [#calculateColumnWidths]: the column and
    its width after the stripped cell of one row.  [None] where only one of
    [maxLeft] and [maxRight] is there, which the code never brings about
    and [Math.max] would answer with [NaN]. *)
Definition measure (cell : string) (column : Column) (columnWidth : Z)
  : option (Column * Z) :=
  if match align column with CENTER_ON => truthy (centerChar column) | _ => false end
  then
    let column :=
      match maxLeft column, maxRight column with
      | None, None =>
          {| title := title column; align := align column;
             centerChar := centerChar column;
             maxLeft := Some 0; maxRight := Some 0 |}
      | _, _ => column
      end in
    match findUniqueChar cell (default "" (centerChar column)) with
    | Some charIndex =>
        match maxLeft column, maxRight column with
        | Some l, Some r =>
            let l' := Z.max l (Z.of_nat charIndex) in
            let rightLen := len cell - Z.of_nat charIndex - 1 in
            let r' := Z.max r rightLen in
            Some ({| title := title column; align := align column;
                     centerChar := centerChar column;
                     maxLeft := Some l'; maxRight := Some r' |},
                  Z.max columnWidth (l' + 1 + r'))
        | _, _ => None
        end
    | None => Some (column, Z.max columnWidth (len cell))
    end
  else Some (column, Z.max columnWidth (len cell)).

(** The inner loop, over the rows. *)
Fixpoint measureRows (rows : list (list string)) (colIdx : nat) (column : Column)
         (columnWidth : Z) : option (Column * Z) :=
  match rows with
  | [] => Some (column, columnWidth)
  | row :: rest =>
      match measure (strippedCell row colIdx) column columnWidth with
      | None => None
      | Some (column', columnWidth') => measureRows rest colIdx column' columnWidth'
      end
  end.

(** The outer loop of [#calculateColumnWidths], from column [colIdx] on. *)
Fixpoint measureColumns (rows : list (list string)) (colIdx : nat) (columns : list Column)
  : option (list (Column * Z)) :=
  match columns with
  | [] => Some []
  | column :: rest =>
      match measureRows rows colIdx column (len (title column)) with
      | None => None
      | Some measured =>
          option_map (cons measured) (measureColumns rows (S colIdx) rest)
      end
  end.

(** [#calculateColumnWidths()]: every column as the call leaves it, with
    its width. *)
Definition calculateColumnWidths (columns : list Column) (rows : list (list string))
  : option (list (Column * Z)) :=
  measureColumns rows 0 columns.

(** [' '.repeat(count)]; [None] is the [RangeError] of a negative count. *)
Definition repeat (count : Z) : option string :=
  if count <? 0 then None else Some (Format.repeat " " (Z.to_nat count)).

(** [#centerPlain(text, width)] *)
Definition centerPlain (text : string) (width : Z) : option string :=
  if len text >=? width then Some text
  else
    let padding := width - len text in
    let leftPadding := padding / 2 in
    let rightPadding := padding - leftPadding in
    l ← repeat leftPadding;
    r ← repeat rightPadding;
    Some (l +:+ text +:+ r).

(** [#alignCell(text, columnIndex, width)], for the column of that index;
    [None] is a [RangeError].  Where [maxLeft] is [undefined] the count of
    the [repeat] is [NaN], which repeats nothing. *)
Definition alignCell (text : string) (column : Column) (width : Z) : option string :=
  let textraw := Ansi.stripFormatting text in
  let textwidth := len textraw in
  padding ← repeat (Z.max 0 (width - textwidth));
  match align column with
  | LEFT => Some (text +:+ padding)
  | RIGHT => Some (padding +:+ text)
  | CENTER => centerPlain text width
  | CENTER_ON =>
      if negb (truthy (centerChar column)) then centerPlain text width
      else
        match findUniqueChar text (default "" (centerChar column)) with
        | None => centerPlain text width
        | Some charIndex =>
            let leftLen := Z.of_nat charIndex in
            let rightLen := len text - Z.of_nat charIndex - 1 in
            leftPadding ← match maxLeft column with
                          | None => Some ""
                          | Some l => repeat (l - leftLen)
                          end;
            rightPadding ← match maxRight column with
                           | None => Some ""
                           | Some r => repeat (r - rightLen)
                           end;
            centerPlain (leftPadding +:+ text +:+ rightPadding) width
        end
  end.

(** [maxLeft] and [maxRight] are there together or not at all. *)
Definition paired (column : Column) : Prop :=
  match maxLeft column, maxRight column with
  | None, None | Some _, Some _ => True
  | _, _ => False
  end.

(** [n] spaces. *)
Definition spaces (n : Z) : string := Format.repeat " " (Z.to_nat n).

(** What the loop of [#calculateColumnWidths] has made sure of for the
    stripped cells it has seen. *)
Definition covers (column : Column) (width : Z) (cell : string) : Prop :=
  len cell <= width
  /\ forall char charIndex,
       align column = CENTER_ON -> centerChar column = Some char ->
       truthy (Some char) = true ->
       findUniqueChar cell char = Some charIndex ->
       exists l r,
         maxLeft column = Some l /\ maxRight column = Some r
         /\ Z.of_nat charIndex <= l /\ len cell - Z.of_nat charIndex - 1 <= r
         /\ l + 1 + r <= width.

(** Where the centre character of a column comes to lie. *)
Definition position (column : Column) (width : Z) : Z :=
  match maxLeft column, maxRight column with
  | Some l, Some r => (width - (l + 1 + r)) / 2 + l
  | _, _ => 0
  end.

(** A table of prices for examples: the second column centred on the
    point. *)
Definition prices_columns : list Column :=
  match setColumnAlignment (constructor ["item"; "price"]) (Name "price")
                           "center-on" (Some ".") with
  | Returned columns => columns
  | _ => []
  end.

Definition prices_rows : list (list string) :=
  [["tea"; "1.5"]; ["coffee"; "12.25"]; ["water"; "free"]].

End Columns.

(** * Properties *)

(** ** Comparisons and rounding *)

Section JsFacts.
Import Js.
Local Open Scope Q_scope.

Lemma ltb_lt (a b : Q) : ltb a b = true <-> a < b.
Proof.
  unfold ltb. rewrite Qlt_alt. destruct (a ?= b); intuition discriminate.
Qed.

Lemma ltb_ge (a b : Q) : ltb a b = false <-> b <= a.
Proof.
  rewrite <- Bool.not_true_iff_false, ltb_lt. split.
  - apply Qnot_lt_le.
  - apply Qle_not_lt.
Qed.

Lemma leb_le (a b : Q) : leb a b = true <-> a <= b.
Proof.
  unfold leb. rewrite Qle_alt. destruct (a ?= b); intuition discriminate.
Qed.

Lemma eqb_eq (a b : Q) : eqb a b = true <-> a == b.
Proof.
  unfold eqb. rewrite Qeq_alt. destruct (a ?= b); intuition discriminate.
Qed.

Lemma gtb_gt (a b : Q) : gtb a b = true <-> b < a.
Proof. apply ltb_lt. Qed.

Lemma Math_max_l (a b : Q) : a <= Math_max a b.
Proof.
  unfold Math_max. destruct (ltb a b) eqn:E.
  - apply ltb_lt in E. lra.
  - lra.
Qed.

Lemma Math_max_r (a b : Q) : b <= Math_max a b.
Proof.
  unfold Math_max. destruct (ltb a b) eqn:E.
  - lra.
  - apply ltb_ge in E. lra.
Qed.

Lemma Math_max_0_neg (x : Q) : x <= 0 -> Math_max 0 x = 0.
Proof.
  intros H. unfold Math_max. destruct (ltb 0 x) eqn:E; [|reflexivity].
  apply ltb_lt in E. lra.
Qed.

(** [Math.ceil] of a quotient of integers is an integer division. *)
Lemma Math_ceil_div (n d : Z) :
  (0 < d)%Z -> Math_ceil (inject_Z n / inject_Z d) = (- ((- n) / d))%Z.
Proof.
  intros Hd. unfold Math_ceil, Qceiling. f_equal.
  rewrite Zdiv_Qdiv. apply Qfloor_comp.
  rewrite inject_Z_opp. field.
  intros E. apply (inject_Z_injective d 0) in E. lia.
Qed.

Lemma roundUp100_ge (x : Q) : x <= Helper.roundUp100 x.
Proof.
  unfold Helper.roundUp100, Math_ceil.
  pose proof (Qle_ceiling (x / 100)) as H.
  assert (x == x / 100 * 100) as E by field.
  rewrite E at 1. apply Qmult_le_compat_r; [exact H | lra].
Qed.

Lemma roundUp100_lt (x : Q) : Helper.roundUp100 x < x + 100.
Proof.
  unfold Helper.roundUp100, Math_ceil.
  pose proof (Qceiling_lt (x / 100)) as H.
  unfold Z.sub in H. rewrite inject_Z_plus, inject_Z_opp in H. change (inject_Z 1) with 1 in H.
  assert (inject_Z (Qceiling (x / 100)) < x / 100 + 1) as H' by lra.
  assert (x + 100 == (x / 100 + 1) * 100) as E by field.
  rewrite E. apply Qmult_lt_compat_r; [lra | exact H'].
Qed.

Lemma roundUp100_Z (k : Z) : Helper.roundUp100 (inject_Z k * 100) == inject_Z k * 100.
Proof.
  unfold Helper.roundUp100, Math_ceil.
  assert (inject_Z k * 100 / 100 == inject_Z k) as E by field.
  rewrite (Qceiling_comp _ _ E), Qceiling_Z. reflexivity.
Qed.

End JsFacts.

(** ** The thread split, the ETA rounding and the dispatch delay *)

Section Scheduling.
Import Js Helper.
Local Open Scope Q_scope.

Lemma weakThreads_div (maxSlots : Z) : weakThreads maxSlots = (- ((- maxSlots) / 10))%Z.
Proof. unfold weakThreads. apply (Math_ceil_div maxSlots 10). lia. Qed.

(** C1.  For every positive [totalSlots], [weakThreads] is
    [ceil(totalSlots / 10)], the least integer [w] with
    [totalSlots <= 10 * w], and [weakThreads + growThreads] is
    [totalSlots], that is [growThreads = totalSlots - ceil(totalSlots / 10)]. *)
Theorem thread_split (totalSlots : Z) :
  (0 < totalSlots)%Z ->
  (10 * (weakThreads totalSlots - 1) < totalSlots <= 10 * weakThreads totalSlots)%Z
  /\ (weakThreads totalSlots + growThreads totalSlots = totalSlots)%Z
  /\ growThreads totalSlots = (totalSlots - weakThreads totalSlots)%Z.
Proof.
  intros _. unfold growThreads. rewrite weakThreads_div.
  pose proof (Z.div_mod (- totalSlots) 10 ltac:(lia)) as E.
  pose proof (Z.mod_pos_bound (- totalSlots) 10 ltac:(lia)) as B.
  lia.
Qed.

Lemma thread_split_100 :
  (0 < 100)%Z /\
  (10 * (weakThreads 100 - 1) < 100 <= 10 * weakThreads 100)%Z
  /\ (weakThreads 100 + growThreads 100 = 100)%Z
  /\ growThreads 100 = (100 - weakThreads 100)%Z.
Proof. split; [lia | apply (thread_split 100); lia]. Defined.

Example thread_split_scenario : weakThreads 100 = 10%Z /\ growThreads 100 = 90%Z.
Proof. split; reflexivity. Qed.

(** C5.  Rounding up to the next 100 ms, [Math.ceil(x / 100) * 100], gives
    back a timestamp that is already on a 100 ms boundary; hence rounding
    twice is rounding once, and the rounding never goes down. *)
Theorem eta_rounding_idempotent :
  (forall t, aligned100 t -> roundUp100 t == t)
  /\ (forall x, roundUp100 (roundUp100 x) == roundUp100 x)
  /\ (forall x, x <= roundUp100 x /\ aligned100 (roundUp100 x)).
Proof.
  assert (forall t, aligned100 t -> roundUp100 t == t) as Hfix.
  { intros t [k Hk]. unfold roundUp100, Math_ceil.
    assert (t / 100 == inject_Z k) as E by (rewrite Hk; field).
    rewrite (Qceiling_comp _ _ E), Qceiling_Z. rewrite Hk. reflexivity. }
  assert (forall x, aligned100 (roundUp100 x)) as Hal.
  { intros x. exists (Math_ceil (x / 100)). reflexivity. }
  split; [exact Hfix|]. split.
  - intros x. apply Hfix, Hal.
  - intros x. split; [apply roundUp100_ge | apply Hal].
Qed.

Lemma eta_rounding_idempotent_1000 : aligned100 1000 /\ roundUp100 1000 == 1000.
Proof.
  assert (aligned100 1000) as H by (exists 10%Z; reflexivity).
  split; [exact H | exact (proj1 eta_rounding_idempotent 1000 H)].
Defined.

(** The ETA the scheduler stores is the first 100 ms boundary at or after
    the raw ETA plus [TIMING_BUFFER_MS]: it moves up by less than 100 ms,
    never down. *)
Lemma stored_eta_bounds (raw : Q) :
  let eta := roundUp100 (raw + TIMING_BUFFER_MS) in
  aligned100 eta /\ raw + 20 <= eta /\ eta < raw + 120.
Proof.
  cbv zeta. unfold TIMING_BUFFER_MS. split; [|split].
  - eexists. reflexivity.
  - apply roundUp100_ge.
  - pose proof (roundUp100_lt (raw + 20)). lra.
Qed.

End Scheduling.

Section WorkerFacts.
Import Js Worker.
Local Open Scope Q_scope.

Lemma delay_nonneg (endT now opT : Q) : 0 <= delay endT now opT.
Proof.
  unfold delay, Math_floor.
  change 0 with (inject_Z 0). rewrite <- Zle_Qle.
  rewrite <- (Qfloor_Z 0). apply Qfloor_resp_le. apply Math_max_l.
Qed.

Lemma delay_clamped (endT now opT : Q) : endT - now <= opT -> delay endT now opT = 0.
Proof.
  intros H. unfold delay. rewrite Math_max_0_neg by lra. reflexivity.
Qed.

Lemma delay_of_nonneg (k : Script) (endT now opT : Q) : 0 <= delay_of k endT now opT.
Proof. destruct k; simpl; try apply delay_nonneg. apply Math_max_l. Qed.

Lemma delay_of_clamped (k : Script) (endT now opT : Q) :
  endT - now <= opT -> delay_of k endT now opT = 0.
Proof.
  intros H. destruct k; simpl; try (apply delay_clamped; exact H).
  apply Math_max_0_neg. lra.
Qed.

Lemma dispatched_delay_inv k validation a now d :
  dispatched_delay (main k validation a now) = Some d ->
  exists o e, operationTime a = Some o /\ endTime a = Some e /\ d = delay_of k e now o.
Proof.
  assert (forall kk tgt (f : Q -> Q -> Q),
             dispatched_delay
               (match both_given a with
                | Some (o, e) => Op kk tgt (Some (f o e))
                | None => Op kk tgt None
                end) = Some d ->
             exists o e, operationTime a = Some o /\ endTime a = Some e
                         /\ d = f o e) as Hcore.
  { intros kk tgt f. unfold both_given.
    destruct (operationTime a) as [o|], (endTime a) as [e|]; simpl;
      try discriminate.
    destruct (truthy o && truthy e); simpl; [|discriminate].
    intros [= <-]. eauto. }
  unfold main, grow_main, weaken_main, weaken_plain_main.
  destruct k; [|destruct validation; [discriminate|]|].
  - destruct (target a) as [tgt|]; [|discriminate].
    destruct (missing (Some tgt)); [discriminate|].
    apply (Hcore Grow tgt (fun o e => delay e now o)).
  - destruct (target a) as [tgt|]; [|discriminate].
    destruct (missing (Some tgt)); [discriminate|].
    apply (Hcore Weaken tgt (fun o e => delay e now o)).
  - cbv zeta. destruct (String.eqb _ ""); [discriminate|].
    apply (Hcore Weaken _ (fun o e => Math_max 0 (e - now - o))).
Qed.

(** C4.  Whatever the target, the ETA target [endTime], the natural
    duration [operationTime] and the current time [now], the delay a
    worker ([bin.grow.js] or [bin.weaken.js]) passes as [additionalMsec] is
    [>= 0]; it is exactly 0 where the natural duration exceeds the time left
    until the target. *)
Theorem dispatch_delay_nonneg (k : Script) (validation : bool) (a : Args) (now d : Q) :
  dispatched_delay (main k validation a now) = Some d ->
  0 <= d
  /\ exists o e, operationTime a = Some o /\ endTime a = Some e
                 /\ d = delay_of k e now o
                 /\ (e - now < o -> d = 0).
Proof.
  intros H. destruct (dispatched_delay_inv _ _ _ _ _ H) as (o & e & Ho & He & ->).
  split; [apply delay_of_nonneg|].
  exists o, e. repeat split; try assumption.
  intros Hlt. apply delay_of_clamped. lra.
Qed.

Lemma dispatch_delay_nonneg_late :
  dispatched_delay (main BinGrow false late_grow 4000) = Some 0
  /\ 0 <= 0
  /\ exists o e, operationTime late_grow = Some o /\ endTime late_grow = Some e
                 /\ 0 = delay_of BinGrow e 4000 o
                 /\ (e - 4000 < o -> 0 = 0).
Proof.
  assert (dispatched_delay (main BinGrow false late_grow 4000) = Some 0) as H
    by reflexivity.
  split; [exact H | exact (dispatch_delay_nonneg BinGrow false late_grow 4000 0 H)].
Defined.

Example weaken_delay_on_time :
  main BinWeaken false
       {| target := Some "n00dles"; operationTime := Some 4000; endTime := Some (10000.5) |}
       2000
  = Op Weaken "n00dles" (Some 4000).
Proof. reflexivity. Qed.

End WorkerFacts.

(** ** The ring buffer *)

Section RingBufferFacts.
Import Js RingBuffer.
Context {T : Type}.
Implicit Types (rb : t T) (a : list (Nullable T)).

Lemma rem_wrap (x n : Z) :
  0 <= x < 2 * n -> rem x n = if x <? n then x else x - n.
Proof.
  intros H. unfold rem. rewrite Z.rem_mod_nonneg by lia.
  destruct (Z.ltb_spec x n).
  - apply Z.mod_small. lia.
  - symmetry. apply (Z.mod_unique x n 1); lia.
Qed.

Lemma array_get_set_same a i x :
  0 <= i < Z.of_nat (length a) -> array_get (array_set a i x) i = x.
Proof.
  intros H. unfold array_get, array_set.
  destruct (Z.ltb_spec i 0); [lia|].
  destruct (Z.ltb_spec i (Z.of_nat (length a))); [|lia].
  rewrite list_lookup_insert_eq by lia. reflexivity.
Qed.

Lemma array_get_set_other a i j x :
  0 <= i < Z.of_nat (length a) -> i <> j ->
  array_get (array_set a i x) j = array_get a j.
Proof.
  intros H Hne. unfold array_get, array_set.
  destruct (Z.ltb_spec i 0); [lia|].
  destruct (Z.ltb_spec i (Z.of_nat (length a))); [|lia].
  destruct (Z.ltb_spec j 0); [reflexivity|].
  rewrite list_lookup_insert_ne by lia. reflexivity.
Qed.

Lemma array_set_length a i x :
  0 <= i < Z.of_nat (length a) -> length (array_set a i x) = length a.
Proof.
  intros H. unfold array_set.
  destruct (Z.ltb_spec i 0); [lia|].
  destruct (Z.ltb_spec i (Z.of_nat (length a))); [|lia].
  apply length_insert.
Qed.

(** The guard of the constructor lets through the positive integers and
    nothing else. *)
Lemma guard_positive_integer (sz : Number) :
  falsy sz || le_zero sz || negb (isInteger sz) = negb (positive_integer sz).
Proof.
  destruct sz as [q| | |]; simpl; try reflexivity.
  destruct (eqb q 0) eqn:E0, (leb q 0) eqn:E1, (ltb 0 q) eqn:E2,
           (eqb (inject_Z (Qfloor q)) q); simpl; try reflexivity; exfalso.
  all: try apply eqb_eq in E0; try apply leb_le in E1;
    try apply ltb_lt in E2; try apply ltb_ge in E2.
  all: try (apply Bool.not_true_iff_false in E1; apply E1, leb_le).
  all: try (apply Bool.not_true_iff_false in E0; rewrite eqb_eq in E0).
  all: try lra.
Qed.

Lemma positive_integer_floor (q : Q) :
  positive_integer (Finite q) = true -> 0 < Qfloor q.
Proof.
  simpl. intros H. apply andb_prop in H as [Hi Hp].
  apply eqb_eq in Hi. apply ltb_lt in Hp.
  rewrite <- Hi in Hp. change 0%Q with (inject_Z 0) in Hp.
  rewrite <- Zlt_Qlt in Hp. exact Hp.
Qed.

Lemma constructor_Built (sz : Number) rb :
  constructor sz = Built rb ->
  exists q, sz = Finite q /\ positive_integer sz = true
            /\ Qfloor q <= MAX_ARRAY_LENGTH
            /\ rb = {| size := Qfloor q;
                       buffer := replicate (Z.to_nat (Qfloor q)) Null;
                       currentIndex := 0; count := 0 |}.
Proof.
  unfold constructor. rewrite guard_positive_integer.
  destruct (positive_integer sz) eqn:P; simpl; [|discriminate].
  destruct sz as [q| | |]; try discriminate.
  unfold new_Array_fill_null.
  destruct (Z.ltb_spec MAX_ARRAY_LENGTH (Qfloor q)); [discriminate|].
  intros [= <-]. exists q. auto.
Qed.

Lemma constructor_wf (sz : Number) rb : constructor sz = Built rb -> wf rb.
Proof.
  intros H. apply constructor_Built in H as (q & -> & P & _ & ->).
  apply positive_integer_floor in P.
  constructor; simpl; try lia.
  rewrite length_replicate. lia.
Qed.

Lemma add_wf (x : T) rb : wf rb -> wf (add x rb).
Proof.
  intros [Hs Hl Hi Hc Hf].
  assert (rem (currentIndex rb + 1) (size rb)
          = if currentIndex rb + 1 <? size rb then currentIndex rb + 1 else 0) as Ei.
  { rewrite rem_wrap by lia.
    destruct (Z.ltb_spec (currentIndex rb + 1) (size rb)); lia. }
  constructor; simpl.
  - exact Hs.
  - rewrite array_set_length by lia. exact Hl.
  - rewrite Ei. destruct (Z.ltb_spec (currentIndex rb + 1) (size rb)); lia.
  - destruct (Z.ltb_spec (count rb) (size rb)); lia.
  - intros steps Hsteps.
    assert (steps <= size rb /\ steps <= count rb + 1) as [Hss Hsc]
      by (destruct (Z.ltb_spec (count rb) (size rb)); lia).
    assert (rem (rem (currentIndex rb + 1) (size rb) - steps + size rb) (size rb)
            = rem (currentIndex rb - (steps - 1) + size rb) (size rb)) as Ej.
    { rewrite Ei.
      destruct (Z.ltb_spec (currentIndex rb + 1) (size rb)).
      - f_equal. lia.
      - rewrite !rem_wrap by lia.
        destruct (Z.ltb_spec (0 - steps + size rb) (size rb));
          destruct (Z.ltb_spec (currentIndex rb - (steps - 1) + size rb) (size rb));
          lia. }
    rewrite Ej.
    destruct (Z.eq_dec steps 1) as [->|Hne].
    + exists x. replace (currentIndex rb - (1 - 1) + size rb)
        with (currentIndex rb + size rb) by lia.
      rewrite rem_wrap by lia.
      destruct (Z.ltb_spec (currentIndex rb + size rb) (size rb)); [lia|].
      replace (currentIndex rb + size rb - size rb) with (currentIndex rb) by lia.
      apply array_get_set_same. lia.
    + destruct (Hf (steps - 1) ltac:(lia)) as [y Hy].
      exists y. rewrite array_get_set_other; [exact Hy | lia |].
      rewrite rem_wrap by lia.
      destruct (Z.ltb_spec (currentIndex rb - (steps - 1) + size rb) (size rb)); lia.
Qed.

Lemma clear_wf rb : wf rb -> wf (clear rb).
Proof.
  intros [Hs Hl Hi Hc Hf]. constructor; simpl; try lia.
  rewrite length_replicate. exact Hl.
Qed.

Lemma run_wf rb (ops : list (op T)) : wf rb -> wf (run rb ops).
Proof.
  revert rb. induction ops as [|o ops IH]; intros rb H; simpl; [exact H|].
  apply IH. destruct o; [apply add_wf | apply clear_wf]; exact H.
Qed.

Lemma current_add (x : T) rb :
  wf rb -> current (add x rb) = Val x /\ isEmpty (add x rb) = false.
Proof.
  intros H. pose proof (add_wf x rb H) as H'.
  destruct H as [Hs Hl Hi Hc Hf].
  assert ((count (add x rb) =? 0) = false) as Ec.
  { simpl. destruct (Z.ltb_spec (count rb) (size rb)); lia. }
  split; [|exact Ec].
  unfold current. rewrite Ec.
  simpl.
  assert (rem (rem (currentIndex rb + 1) (size rb) - 1 + size rb) (size rb)
          = currentIndex rb) as ->.
  { rewrite (rem_wrap (currentIndex rb + 1)) by lia.
    destruct (Z.ltb_spec (currentIndex rb + 1) (size rb));
      rewrite rem_wrap by lia.
    - destruct (Z.ltb_spec (currentIndex rb + 1 - 1 + size rb) (size rb)); lia.
    - destruct (Z.ltb_spec (currentIndex rb + 1 - size rb - 1 + size rb) (size rb)); lia. }
  apply array_get_set_same. lia.
Qed.

Lemma previous_Null rb (steps : Z) :
  wf rb -> previous steps rb = Null <-> steps < 1 \/ count rb < steps.
Proof.
  intros [Hs Hl Hi Hc Hf]. unfold previous.
  destruct (Z.ltb_spec steps 1); simpl; [intuition lia|].
  destruct (Z.ltb_spec (count rb) steps); simpl; [intuition lia|].
  destruct (Hf steps ltac:(lia)) as [x ->].
  split; [discriminate | lia].
Qed.

Lemma constructor_ThrewError (sz : Number) :
  constructor (T:=T) sz = ThrewError sz <-> positive_integer sz = false.
Proof.
  unfold constructor. rewrite guard_positive_integer.
  destruct (positive_integer sz) eqn:P; simpl.
  - split; [|discriminate]. intros H.
    destruct sz as [q| | |]; try discriminate P.
    destruct (new_Array_fill_null (Qfloor q)); discriminate.
  - split; eauto.
Qed.

Lemma constructor_ThrewRangeError (sz : Number) :
  constructor (T:=T) sz = ThrewRangeError
  <-> exists q, sz = Finite q /\ positive_integer sz = true
                /\ MAX_ARRAY_LENGTH < Qfloor q.
Proof.
  unfold constructor. rewrite guard_positive_integer.
  destruct (positive_integer sz) eqn:P; simpl.
  - destruct sz as [q| | |]; try discriminate P.
    unfold new_Array_fill_null.
    destruct (Z.ltb_spec MAX_ARRAY_LENGTH (Qfloor q)); split.
    + eauto.
    + reflexivity.
    + discriminate.
    + intros (q' & [= <-] & _ & Hq). lia.
  - split; [discriminate|]. intros (q & _ & [=] & _).
Qed.

(** C10, as amended.  The constructor throws its own error exactly when
    [size] is not a positive integer, and a [RangeError] exactly when
    [size] is a positive integer above the largest array length; it builds
    a buffer otherwise.  For a buffer built by the constructor and changed
    by any sequence of [add] and [clear]: [0 <= count <= size] and
    [0 <= currentIndex < size]; right after [add(x)], [current()] is [x]
    and [isEmpty()] is false; [previous(steps)] is [null] exactly when
    [steps < 1] or [steps > count]. *)
Theorem ring_buffer_contract :
  (forall sz,
      (constructor (T:=T) sz = ThrewError sz <-> positive_integer sz = false)
      /\ (constructor (T:=T) sz = ThrewRangeError
          <-> exists q, sz = Finite q /\ positive_integer sz = true
                        /\ MAX_ARRAY_LENGTH < Qfloor q))
  /\ (forall sz rb0 (ops : list (op T)),
         constructor sz = Built rb0 ->
         let rb := run rb0 ops in
         (0 <= count rb <= size rb /\ 0 <= currentIndex rb < size rb)
         /\ (forall x, current (add x rb) = Val x /\ isEmpty (add x rb) = false)
         /\ (forall steps, previous steps rb = Null <-> steps < 1 \/ count rb < steps)).
Proof.
  split.
  - intros sz. split;
      [apply constructor_ThrewError | apply constructor_ThrewRangeError].
  - intros sz rb0 ops H rb.
    assert (wf rb) as Hwf by (apply run_wf, (constructor_wf sz), H).
    split; [|split].
    + destruct Hwf. lia.
    + intros x. apply current_add, Hwf.
    + intros steps. apply previous_Null, Hwf.
Qed.

End RingBufferFacts.

Lemma ring_buffer_contract_size3 :
  RingBuffer.constructor (Js.Finite 3) = RingBuffer.Built RingBuffer.ring3
  /\ let rb := RingBuffer.run RingBuffer.ring3
                 [RingBuffer.OpAdd 1%nat; RingBuffer.OpAdd 2%nat; RingBuffer.OpClear;
                  RingBuffer.OpAdd 3%nat; RingBuffer.OpAdd 4%nat; RingBuffer.OpAdd 5%nat;
                  RingBuffer.OpAdd 6%nat] in
     (0 <= RingBuffer.count rb <= RingBuffer.size rb
      /\ 0 <= RingBuffer.currentIndex rb < RingBuffer.size rb)
     /\ (forall x, RingBuffer.current (RingBuffer.add x rb) = Js.Val x
                   /\ RingBuffer.isEmpty (RingBuffer.add x rb) = false)
     /\ (forall steps, RingBuffer.previous steps rb = Js.Null
                       <-> steps < 1 \/ RingBuffer.count rb < steps).
Proof.
  assert (RingBuffer.constructor (Js.Finite 3) = RingBuffer.Built RingBuffer.ring3) as H
    by reflexivity.
  split; [exact H|].
  exact (proj2 ring_buffer_contract (Js.Finite 3) RingBuffer.ring3 _ H).
Defined.

Example ring3_wraps :
  let rb := RingBuffer.run RingBuffer.ring3
              [RingBuffer.OpAdd 3%nat; RingBuffer.OpAdd 4%nat; RingBuffer.OpAdd 5%nat;
               RingBuffer.OpAdd 6%nat] in
  RingBuffer.current rb = Js.Val 6%nat
  /\ RingBuffer.previous 2 rb = Js.Val 5%nat
  /\ RingBuffer.previous 3 rb = Js.Val 4%nat
  /\ RingBuffer.previous 4 rb = Js.Null
  /\ RingBuffer.count rb = 3.
Proof. repeat split. Qed.

(** "The constructor throws exactly when [size] is not a positive integer"
    fails at [size = 2^32]: a positive integer, for which [new Array(size)]
    throws a [RangeError]. *)
Lemma ring_buffer_constructor_large :
  RingBuffer.positive_integer (Js.Finite 4294967296) = true
  /\ RingBuffer.constructor (T:=nat) (Js.Finite 4294967296) = RingBuffer.ThrewRangeError
  /\ RingBuffer.threw (RingBuffer.constructor (T:=nat) (Js.Finite 4294967296)) = true.
Proof. repeat split. Qed.

(** ** The storage helpers *)

Section StorageFacts.
Import Js Config.
Context (B : Builtins).

Lemma serialize_VArr (l : list Value) :
  serialize B (VArr l) = Some (JArr (map (element_json B) l)).
Proof. reflexivity. Qed.

(** JSON values survive [JSON.parse(JSON.stringify(v))]. *)
Lemma plain_round_trip (v : Value) :
  json_plain v = true -> exists j, serialize B v = Some j /\ revive j = v.
Proof.
  induction v using Value_nested_ind; simpl; try discriminate.
  - eauto.
  - eauto.
  - destruct n; try discriminate. eauto.
  - eauto.
  - intros Hl. eexists. split; [reflexivity|]. simpl. f_equal.
    induction H as [|x l Hx _ IH]; simpl in *; [reflexivity|].
    apply andb_prop in Hl as [Hpx Hpl].
    destruct (Hx Hpx) as (j & -> & Hj). rewrite Hj, (IH Hpl). reflexivity.
  - intros Hl. eexists. split; [reflexivity|]. simpl. f_equal.
    induction H as [|[k x] ps Hx _ IH]; simpl in *; [reflexivity|].
    apply andb_prop in Hl as [Hpx Hpl].
    destruct (Hx Hpx) as (j & -> & Hj). simpl. rewrite Hj. f_equal. exact (IH Hpl).
Qed.

Lemma plain_element (x : Value) : json_plain x = true -> revive (element_json B x) = x.
Proof.
  intros H. unfold element_json.
  destruct (plain_round_trip x H) as (j & -> & Hj). exact Hj.
Qed.

Lemma plain_elements (l : list Value) :
  forallb json_plain l = true -> map revive (map (element_json B) l) = l.
Proof.
  induction l as [|x l IH]; simpl; [reflexivity|].
  intros H. apply andb_prop in H as [Hx Hl].
  rewrite plain_element, IH by assumption. reflexivity.
Qed.

Lemma eqb_sym (a b : Q) : eqb a b = eqb b a.
Proof.
  destruct (eqb a b) eqn:E1, (eqb b a) eqn:E2; try reflexivity.
  - apply eqb_eq in E1. symmetry in E1. apply eqb_eq in E1. congruence.
  - apply eqb_eq in E2. symmetry in E2. apply eqb_eq in E2. congruence.
Qed.

Lemma same_value_zero_sym (a b : Value) : same_value_zero a b = same_value_zero b a.
Proof.
  destruct a as [| |x|[x| | |]|x| | | | |], b as [| |y|[y| | |]|y| | | | |];
    simpl; try reflexivity.
  - destruct x, y; reflexivity.
  - apply eqb_sym.
  - apply String.eqb_sym.
Qed.

Lemma existsb_none {A} (f : A -> bool) (l : list A) :
  existsb f l = false <-> forall x, In x l -> f x = false.
Proof.
  induction l as [|y l IH]; simpl.
  - split; [intros _ x []|reflexivity].
  - rewrite Bool.orb_false_iff, IH. split.
    + intros [Hy Hl] x [<-|Hx]; auto.
    + intros H. split; auto.
Qed.

(** Adding pairwise different values to a set appends them. *)
Lemma fold_set_add (l acc : list Value) :
  distinct l = true ->
  (forall a x, In a acc -> In x l -> same_value_zero x a = false) ->
  fold_left set_add l acc = acc ++ l.
Proof.
  revert acc. induction l as [|x l IH]; intros acc Hd Hacc; simpl.
  - rewrite app_nil_r. reflexivity.
  - simpl in Hd. apply andb_prop in Hd as [Hx Hl].
    apply Bool.negb_true_iff in Hx. rewrite existsb_none in Hx.
    unfold set_add at 2.
    assert (existsb (same_value_zero x) acc = false) as ->.
    { apply existsb_none. intros a Ha. apply Hacc; [exact Ha | left; reflexivity]. }
    rewrite IH; [rewrite <- app_assoc; reflexivity | exact Hl |].
    intros a y Ha Hy. apply in_app_or in Ha as [Ha|[<-|[]]].
    + apply Hacc; [exact Ha | right; exact Hy].
    + rewrite same_value_zero_sym. apply Hx, Hy.
Qed.

Lemma map_set_fresh (m : list (Value * Value)) (k x : Value) :
  (forall e, In e m -> same_value_zero k (fst e) = false) ->
  map_set m k x = m ++ [(k, x)].
Proof.
  induction m as [|[k' x'] m IH]; intros H; simpl; [reflexivity|].
  pose proof (H (k', x') (or_introl eq_refl)) as E. simpl in E. rewrite E.
  rewrite IH; [reflexivity|]. intros e He. apply H. right. exact He.
Qed.

Lemma map_fill_entries (es m : list (Value * Value)) :
  forallb (fun e => json_plain (fst e) && json_plain (snd e)) es = true ->
  distinct (map fst es) = true ->
  (forall a e, In a m -> In e es -> same_value_zero (fst e) (fst a) = false) ->
  map_fill m (map (element_json B) (map entry_value es)) = Some (m ++ es).
Proof.
  revert m. induction es as [|[k x] es IH]; intros m Hp Hd Hm; simpl.
  - rewrite app_nil_r. reflexivity.
  - simpl in Hp, Hd.
    apply andb_prop in Hp as [Hkx Hp]. apply andb_prop in Hkx as [Hk Hx].
    apply andb_prop in Hd as [Hfresh Hd].
    apply Bool.negb_true_iff in Hfresh. rewrite existsb_none in Hfresh.
    unfold element_json at 1. simpl.
    fold (element_json B k). fold (element_json B x).
    rewrite !plain_element by assumption.
    rewrite map_set_fresh.
    + rewrite IH; [rewrite <- app_assoc; reflexivity | exact Hp | exact Hd |].
      intros a e Ha He. apply in_app_or in Ha as [Ha|[<-|[]]].
      * apply Hm; [exact Ha | right; exact He].
      * simpl. rewrite same_value_zero_sym. apply Hfresh.
        apply in_map. exact He.
    + intros e He. apply (Hm e (k, x) He). left. reflexivity.
Qed.

Lemma load_saved (localStorage : gmap string Text) (key name : string) (v data : Value)
      (d : Json) (result : Value) :
  constructor_name v = Some name ->
  data = match v with
         | VMap es => VArr (map (fun e => VArr [fst e; snd e]) es)
         | VSet xs => VArr xs
         | _ => v
         end ->
  serialize B data = Some d ->
  restoreFromStorage B d (JStr name) = Ret result ->
  loadFromStorage B (saveToStorage B localStorage key v) key = Some result.
Proof.
  intros Hname -> Hd Hr. unfold saveToStorage, loadFromStorage.
  rewrite Hname, lookup_insert_eq. unfold stringify_wrapper. rewrite Hd.
  cbn [parsed].
  change (own_property [("type", JStr name); ("data", d)] "type") with (Some (JStr name)).
  change (own_property [("type", JStr name); ("data", d)] "data") with (Some d).
  cbv beta iota. rewrite Hr. reflexivity.
Qed.

(** C9, as amended.  Saving and loading gives back the value it was given
    for finite numbers, strings, booleans and valid dates, for arrays whose
    elements are JSON values (null, booleans, finite numbers, strings, and
    arrays and plain objects of these), and for sets and maps whose members
    are such values; for [null] and [undefined] the key is removed and
    loading gives [null]. *)
Theorem storage_round_trip (localStorage : gmap string Text) (key : string) (v : Value) :
  iso_round_trip B ->
  (storable v = true ->
   loadFromStorage B (saveToStorage B localStorage key v) key = Some v)
  /\ (v = VNull \/ v = VUndefined ->
      saveToStorage B localStorage key v !! key = None
      /\ loadFromStorage B (saveToStorage B localStorage key v) key = Some VNull).
Proof.
  intros Hiso. split.
  - destruct v as [| |b|[q| | |]|s|l| |l|es|[t|]]; simpl; try discriminate; intros Hv.
    + eapply load_saved; reflexivity.
    + eapply load_saved; reflexivity.
    + eapply load_saved; reflexivity.
    + eapply load_saved; try reflexivity. cbn. rewrite plain_elements by exact Hv.
      reflexivity.
    + apply andb_prop in Hv as [Hp Hd].
      eapply load_saved; try reflexivity. cbn.
      rewrite plain_elements by exact Hp.
      rewrite fold_set_add; [reflexivity | exact Hd | intros a x []].
    + apply andb_prop in Hv as [Hp Hd].
      eapply load_saved; try reflexivity. cbn.
      change (map (fun x => match serialize B x with Some j => j | None => JNull end)
                  (map (fun e => VArr [fst e; snd e]) es))
        with (map (element_json B) (map entry_value es)).
      rewrite map_fill_entries; [reflexivity | exact Hp | exact Hd | intros a e []].
    + apply andb_prop in Hv as [Hlo Hhi].
      eapply load_saved; try reflexivity. cbn.
      rewrite Hiso; [reflexivity|]. unfold valid_time. lia.
  - intros [-> | ->]; unfold saveToStorage, loadFromStorage; simpl;
      rewrite lookup_delete_eq; split; reflexivity.
Qed.

End StorageFacts.

Lemma digits_round_trip (p : positive) : Config.digits_pos (Config.pos_digits p) = p.
Proof. induction p as [p IH|p IH|]; simpl; rewrite ?IH; reflexivity. Qed.

Lemma stub_iso_round_trip : Config.iso_round_trip Config.stub.
Proof.
  intros [|p|p] _; simpl; rewrite ?digits_round_trip; reflexivity.
Qed.

Lemma storage_round_trip_runInfo :
  Config.iso_round_trip Config.stub
  /\ Config.storable Config.runInfo_map = true
  /\ Config.loadFromStorage Config.stub
       (Config.saveToStorage Config.stub ∅ "ego_runInfo" Config.runInfo_map) "ego_runInfo"
     = Some Config.runInfo_map.
Proof.
  split; [exact stub_iso_round_trip|]. split; [reflexivity|].
  exact (proj1 (storage_round_trip Config.stub ∅ "ego_runInfo" Config.runInfo_map
                                   stub_iso_round_trip) eq_refl).
Defined.

(** The round trip fails for an array that holds [undefined]: its
    constructor is [Array], and it comes back holding [null]. *)
Lemma storage_array_of_undefined :
  Config.constructor_name (Config.VArr [Config.VUndefined]) = Some "Array"
  /\ Config.loadFromStorage Config.stub
       (Config.saveToStorage Config.stub ∅ "k" (Config.VArr [Config.VUndefined])) "k"
     = Some (Config.VArr [Config.VNull])
  /\ Config.VArr [Config.VNull] <> Config.VArr [Config.VUndefined].
Proof.
  split; [reflexivity|]. split; [vm_compute; reflexivity | discriminate].
Qed.

Example storage_NaN :
  Config.loadFromStorage Config.stub
    (Config.saveToStorage Config.stub ∅ "k" (Config.VNum Js.NaN)) "k"
  = Some Config.VNull.
Proof. vm_compute. reflexivity. Qed.

Example storage_nested_map :
  Config.loadFromStorage Config.stub
    (Config.saveToStorage Config.stub ∅ "k"
       (Config.VArr [Config.VMap [(Config.VStr "a", Config.VBool true)]])) "k"
  = Some (Config.VArr [Config.VObj []]).
Proof. vm_compute. reflexivity. Qed.

(** ** The thread allocator *)

Section Allocator.
Import Js Helper.
Context {W : Type} (ns : NS W).
Implicit Types (s : State W) (pids : list Batch) (bots : list string).

Lemma totalThreads_app pids1 pids2 :
  totalThreads (pids1 ++ pids2) = totalThreads pids1 + totalThreads pids2.
Proof.
  unfold totalThreads. induction pids1 as [|b l IH]; simpl; [reflexivity|].
  rewrite IH. lia.
Qed.

Lemma executeOnBot_launched bot n script target duration eta pids s :
  launched ns bot n script target duration eta pids s
           (executeOnBot ns bot n script target duration eta pids s).
Proof.
  unfold executeOnBot, bind, read, do_exec, ret.
  destruct (Z.leb_spec (slotsOf ns (world s) bot) 0) as [Hle|Hgt].
  - apply launch_skipped. exact Hle.
  - destruct (exec ns (world s) script bot (Z.min n (slotsOf ns (world s) bot))
                   target duration eta) as [p w'] eqn:E.
    destruct (Z.ltb_spec 0 p).
    + eapply launch_started; eassumption.
    + eapply launch_failed; eassumption.
Qed.

(** One call gives the host between 0 threads and its free slots, adds them
    to [pidArray], and starts processes on this host only. *)
Lemma executeOnBot_step bot n script target duration eta pids s :
  0 < n ->
  let '(r, pids', s') := executeOnBot ns bot n script target duration eta pids s in
  let slots := slotsOf ns (world s) bot in
  0 <= n - r <= Z.max 0 slots
  /\ (slots <= 0 -> r = n /\ pids' = pids /\ s' = s)
  /\ (exists new, pids' = pids ++ new /\ totalThreads new = n - r)
  /\ (exists hs, exec_hosts (trace s') = exec_hosts (trace s) ++ hs
                 /\ (hs = [] \/ hs = [bot])).
Proof.
  intros Hn.
  destruct (executeOnBot_launched bot n script target duration eta pids s)
    as [Hle|p w' Hgt E Hp|p w' Hgt E Hp]; cbv zeta.
  - repeat split; try lia.
    + exists []. rewrite app_nil_r. split; [reflexivity | simpl; lia].
    + exists []. rewrite app_nil_r. auto.
  - repeat split; try lia.
    + eexists. split; [reflexivity|]. simpl. lia.
    + exists [bot]. split; [|auto]. simpl. unfold exec_hosts.
      rewrite omap_app. reflexivity.
  - repeat split; try lia.
    + exists []. rewrite app_nil_r. split; [reflexivity | simpl; lia].
    + exists [bot]. split; [|auto]. simpl. unfold exec_hosts.
      rewrite omap_app. reflexivity.
Qed.

Lemma assignments_idle bots n script target duration eta pids s :
  n <= 0 ->
  assignments ns bots n script target duration eta pids s
  = map (fun bot => (bot, slotsOf ns (world s) bot, 0)) bots.
Proof.
  intros Hn. induction bots as [|bot rest IH]; simpl; [reflexivity|].
  destruct (Z.leb_spec n 0); [|lia]. rewrite IH. reflexivity.
Qed.

Lemma forwardLoop_idle bots n script target duration eta pids s :
  n <= 0 -> forwardLoop ns bots n script target duration eta pids s = (n, pids, s).
Proof.
  intros Hn. destruct bots as [|bot rest]; simpl; [reflexivity|].
  destruct (Z.leb_spec n 0); [reflexivity | lia].
Qed.

Lemma forwardLoop_cons bot rest n script target duration eta pids s :
  0 < n ->
  forwardLoop ns (bot :: rest) n script target duration eta pids s
  = let '(r, pids', s') := executeOnBot ns bot n script target duration eta pids s in
    forwardLoop ns rest r script target duration eta pids' s'.
Proof.
  intros Hn. simpl. destruct (Z.leb_spec n 0); [lia|].
  unfold bind at 1.
  destruct (executeOnBot ns bot n script target duration eta pids s) as [[r pids'] s'].
  reflexivity.
Qed.

Lemma assignments_cons bot rest n script target duration eta pids s :
  0 < n ->
  assignments ns (bot :: rest) n script target duration eta pids s
  = let '(r, pids', s') := executeOnBot ns bot n script target duration eta pids s in
    (bot, slotsOf ns (world s) bot, n - r)
      :: assignments ns rest r script target duration eta pids' s'.
Proof.
  intros Hn. simpl. destruct (Z.leb_spec n 0); [lia|]. reflexivity.
Qed.

Lemma forwardLoop_assignments bots n script target duration eta pids s :
  let '(residual, pids', s') := forwardLoop ns bots n script target duration eta pids s in
  let asg := assignments ns bots n script target duration eta pids s in
  map (fun a => fst (fst a)) asg = bots
  /\ Forall within_slots asg
  /\ assignedTotal asg + residual = n
  /\ exists new, pids' = pids ++ new /\ totalThreads new = assignedTotal asg.
Proof.
  revert n pids s. induction bots as [|bot rest IH]; intros n pids s.
  - simpl. split; [reflexivity|]. split; [apply List.Forall_nil|].
    split; [lia|]. exists []. rewrite app_nil_r. split; reflexivity.
  - destruct (Z.leb_spec n 0) as [Hle|Hgt].
    + rewrite forwardLoop_idle, assignments_idle by exact Hle. cbv zeta.
      split; [|split; [|split]].
      * rewrite map_map. apply (map_id (bot :: rest)).
      * apply Forall_map. apply Forall_forall. intros b _. simpl. lia.
      * assert (forall l : list string,
                   assignedTotal (map (fun b => (b, slotsOf ns (world s) b, 0)) l) = 0)
          as E by (induction l as [|? ? IHl]; simpl; [reflexivity | rewrite IHl; lia]).
        rewrite E. lia.
      * exists []. rewrite app_nil_r. split; [reflexivity|].
        induction (bot :: rest) as [|? ? IHl]; simpl; [reflexivity|].
        rewrite <- IHl. simpl. lia.
    + rewrite forwardLoop_cons, assignments_cons by exact Hgt.
      pose proof (executeOnBot_step bot n script target duration eta pids s Hgt) as Hstep.
      destruct (executeOnBot ns bot n script target duration eta pids s)
        as [[r pids1] s1].
      cbv zeta in Hstep. destruct Hstep as (Hbound & Hskip & (new1 & -> & Hnew1) & _).
      specialize (IH r (pids ++ new1) s1).
      destruct (forwardLoop ns rest r script target duration eta (pids ++ new1) s1)
        as [[residual pids'] s'].
      cbv zeta in IH |- *. destruct IH as (Hhosts & Hall & Hsum & new2 & -> & Hnew2).
      split; [|split; [|split]].
      * simpl. rewrite Hhosts. reflexivity.
      * constructor; [|exact Hall]. simpl. split; [lia|].
        intros Hs. destruct (Hskip Hs) as (-> & _). lia.
      * simpl. lia.
      * exists (new1 ++ new2). rewrite app_assoc. split; [reflexivity|].
        rewrite totalThreads_app. simpl. lia.
Qed.

(** The loop that counts down over the indices visits the array from its
    end. *)
Lemma backwardLoop_take botnet (k : nat) n script target duration eta pids s :
  (k <= length botnet)%nat ->
  backwardLoop ns botnet k n script target duration eta pids s
  = forwardLoop ns (rev (take k botnet)) n script target duration eta pids s.
Proof.
  revert n pids s. induction k as [|i IH]; intros n pids s Hk.
  - rewrite take_0. reflexivity.
  - destruct (lookup_lt_is_Some_2 botnet i ltac:(lia)) as [bot Hbot].
    rewrite (take_S_r _ _ _ Hbot), rev_app_distr. simpl.
    rewrite Hbot. destruct (n <=? 0); [reflexivity|].
    unfold bind.
    destruct (executeOnBot ns bot n script target duration eta pids s) as [[r pids'] s'].
    apply IH. lia.
Qed.

Lemma backwardLoop_rev botnet n script target duration eta pids s :
  backwardLoop ns botnet (length botnet) n script target duration eta pids s
  = forwardLoop ns (rev botnet) n script target duration eta pids s.
Proof.
  rewrite backwardLoop_take by lia. rewrite firstn_all. reflexivity.
Qed.

(** C2.  Whatever the threads asked for and the hosts in their order, an
    allocation pass gives every host at most its free slots, a host with no
    free slot nothing (it is skipped, no error arises), and the threads
    given out plus the returned residual are the threads asked for; the
    batches added to [pidArray] hold the threads given out.  The backward
    pass of the weaken wave is the same pass over the reversed list. *)
Theorem allocation_pass bots n script target duration eta pids s :
  (let '(residual, pids', s') := forwardLoop ns bots n script target duration eta pids s in
   let asg := assignments ns bots n script target duration eta pids s in
   map (fun a => fst (fst a)) asg = bots
   /\ Forall within_slots asg
   /\ assignedTotal asg + residual = n
   /\ exists new, pids' = pids ++ new /\ totalThreads new = assignedTotal asg)
  /\ backwardLoop ns bots (length bots) n script target duration eta pids s
     = forwardLoop ns (rev bots) n script target duration eta pids s.
Proof.
  split; [apply forwardLoop_assignments | apply backwardLoop_rev].
Qed.

End Allocator.

Example allocation_scenario :
  Helper.assignments Toy.ns ["a"; "b"; "c"; "d"] 70 "src/bin.grow.js" "t" 3200 0 []
                     (Toy.start Toy.scenario_world)
  = [("a", 50, 50); ("b", 30, 20); ("c", 0, 0); ("d", 20, 0)]
  /\ fst (fst (Helper.forwardLoop Toy.ns ["a"; "b"; "c"; "d"] 70 "src/bin.grow.js" "t"
                                  3200 0 [] (Toy.start Toy.scenario_world))) = 0.
Proof. split; vm_compute; reflexivity. Qed.

(** ** The order of the hosts *)

Section Sorting.
Import Js Helper.
Context {A : Type} (compare : A -> A -> Q).

(** [x] may stand before [y]. *)
Let before (x y : A) : Prop := (compare x y <= 0)%Q.

Hypothesis compare_total : forall x y, (0 < compare x y)%Q -> before y x.
Hypothesis before_trans : forall x y z, before x y -> before y z -> before x z.

Lemma sort_insert_perm (x : A) (l : list A) : Permutation (sort_insert compare x l) (x :: l).
Proof.
  induction l as [|y rest IH]; simpl; [reflexivity|].
  destruct (ltb 0 (compare x y)); [|reflexivity].
  rewrite IH. apply perm_swap.
Qed.

Lemma sort_insert_sorted (x : A) (l : list A) :
  StronglySorted before l -> StronglySorted before (sort_insert compare x l).
Proof.
  induction l as [|y rest IH]; intros Hl; simpl.
  - repeat constructor.
  - apply StronglySorted_inv in Hl as [Hrest Hy].
    destruct (ltb 0 (compare x y)) eqn:E.
    + apply ltb_lt in E. constructor; [apply IH, Hrest|].
      rewrite sort_insert_perm. constructor; [apply compare_total, E | exact Hy].
    + apply ltb_ge in E. constructor; [constructor; assumption|].
      constructor; [exact E|].
      eapply Forall_impl; [exact Hy|]. intros z Hz. apply (before_trans x y z E Hz).
Qed.

Lemma Array_sort_perm (l : list A) : Permutation (Array_sort compare l) l.
Proof.
  induction l as [|x rest IH]; simpl; [reflexivity|].
  rewrite sort_insert_perm, IH. reflexivity.
Qed.

Lemma Array_sort_sorted (l : list A) : StronglySorted before (Array_sort compare l).
Proof.
  induction l as [|x rest IH]; simpl; [constructor|].
  apply sort_insert_sorted, IH.
Qed.

End Sorting.

Lemma StronglySorted_weaken {A} (R1 R2 : A -> A -> Prop) (l : list A) :
  (forall x y, R1 x y -> R2 x y) -> StronglySorted R1 l -> StronglySorted R2 l.
Proof.
  intros Himp Hs. induction Hs as [|x l Hs IH Hx]; constructor; [exact IH|].
  eapply Forall_impl; [exact Hx|]. intros y. apply Himp.
Qed.

Section VisitingOrder.
Import Js Helper.
Context {W : Type} (ns : NS W).

Lemma botnetOf_perm (w : W) (servers : list string) :
  Permutation (botnetOf ns w servers)
              (filter (fun server => hasRootAccess ns w server = true) servers).
Proof. apply Array_sort_perm. Qed.

Lemma botnetOf_sorted (w : W) (servers : list string) :
  StronglySorted (fun a b => (getServerMaxRam ns w b <= getServerMaxRam ns w a)%Q)
                 (botnetOf ns w servers).
Proof.
  unfold botnetOf.
  eapply StronglySorted_weaken;
    [|apply (Array_sort_sorted
               (fun a b => (getServerMaxRam ns w b - getServerMaxRam ns w a)%Q))].
  - intros a b H. simpl in H. lra.
  - intros x y H. lra.
  - intros x y z H1 H2. lra.
Qed.

(** A pass starts processes on hosts of its list only, in the order of the
    list. *)
Lemma forwardLoop_exec_hosts bots n script target duration eta pids (s : State W) :
  let '(_, _, s') := forwardLoop ns bots n script target duration eta pids s in
  exists hs, exec_hosts (trace s') = exec_hosts (trace s) ++ hs /\ sublist hs bots.
Proof.
  revert n pids s. induction bots as [|bot rest IH]; intros n pids s.
  - simpl. exists []. rewrite app_nil_r. split; [reflexivity | constructor].
  - destruct (Z.leb_spec n 0) as [Hle|Hgt].
    + rewrite forwardLoop_idle by exact Hle.
      exists []. rewrite app_nil_r. split; [reflexivity | apply sublist_nil_l].
    + rewrite forwardLoop_cons by exact Hgt.
      pose proof (executeOnBot_step ns bot n script target duration eta pids s Hgt) as Hstep.
      destruct (executeOnBot ns bot n script target duration eta pids s)
        as [[r pids1] s1].
      cbv zeta in Hstep. destruct Hstep as (_ & _ & _ & hs1 & Ehs1 & Hhs1).
      specialize (IH r pids1 s1).
      destruct (forwardLoop ns rest r script target duration eta pids1 s1)
        as [[residual pids'] s'].
      destruct IH as (hs2 & Ehs2 & Hsub).
      exists (hs1 ++ hs2). rewrite Ehs2, Ehs1, app_assoc. split; [reflexivity|].
      destruct Hhs1 as [-> | ->]; simpl.
      * apply sublist_cons, Hsub.
      * apply sublist_skip, Hsub.
Qed.

(** C3, as amended.  The hosts of a turn are the rooted servers in order of
    descending maximum RAM, whatever part of it is in use; the grow pass
    visits them in that order, the weaken pass in the reverse order
    (ascending maximum RAM). *)
Theorem visiting_order (w : W) (servers : list string) :
  let botnet := botnetOf ns w servers in
  Permutation botnet (filter (fun server => hasRootAccess ns w server = true) servers)
  /\ StronglySorted (fun a b => (getServerMaxRam ns w b <= getServerMaxRam ns w a)%Q) botnet
  /\ (forall n script target duration eta pids (s : State W),
         let '(_, _, s') := forwardLoop ns botnet n script target duration eta pids s in
         exists hs, exec_hosts (trace s') = exec_hosts (trace s) ++ hs
                    /\ sublist hs botnet)
  /\ (forall n script target duration eta pids (s : State W),
         backwardLoop ns botnet (length botnet) n script target duration eta pids s
         = forwardLoop ns (rev botnet) n script target duration eta pids s
         /\ let '(_, _, s') :=
              backwardLoop ns botnet (length botnet) n script target duration eta pids s in
            exists hs, exec_hosts (trace s') = exec_hosts (trace s) ++ hs
                       /\ sublist hs (rev botnet)).
Proof.
  cbv zeta. split; [apply botnetOf_perm|]. split; [apply botnetOf_sorted|]. split.
  - intros. apply forwardLoop_exec_hosts.
  - intros. split; [apply backwardLoop_rev|].
    rewrite backwardLoop_rev. apply forwardLoop_exec_hosts.
Qed.

End VisitingOrder.

(** The order is not one of descending free capacity: in the world
    [Toy.world0], [home] has the most RAM and the least free, and the grow
    pass starts there. *)
Lemma grow_order_by_max_ram :
  Helper.crawler Toy.ns 10 Toy.world0 = Some ["home"; "foodnstuff"; "n00dles"]
  /\ Helper.botnetOf Toy.ns Toy.world0 ["home"; "foodnstuff"; "n00dles"]
     = ["home"; "foodnstuff"; "n00dles"]
  /\ (Helper.getServerMaxRam Toy.ns Toy.world0 "home"
      - Helper.getServerUsedRam Toy.ns Toy.world0 "home"
      < Helper.getServerMaxRam Toy.ns Toy.world0 "foodnstuff"
        - Helper.getServerUsedRam Toy.ns Toy.world0 "foodnstuff")%Q
  /\ Helper.exec_hosts
       (Helper.trace
          (snd (Helper.forwardLoop Toy.ns ["home"; "foodnstuff"; "n00dles"] 11
                                   "src/bin.grow.js" "n00dles" 3200 4240 []
                                   (Toy.start Toy.world0))))
     = ["home"; "foodnstuff"].
Proof.
  split; [vm_compute; reflexivity|]. split; [vm_compute; reflexivity|].
  split; [vm_compute; reflexivity|]. vm_compute. reflexivity.
Qed.

(** ** The crawl of a finite network ends *)

Section Crawl.
Import Js Helper.
Context {W : Type} (ns : NS W) (w : W).

Lemma unvisited_cost_mono (l visited : list string) (h : string) :
  (unvisited_cost ns w l (visited ++ [h]) <= unvisited_cost ns w l visited)%nat.
Proof.
  induction l as [|y l IH]; simpl; [lia|].
  destruct (decide (y ∈ visited ++ [h])) as [Hy|Hy], (decide (y ∈ visited)) as [Hy'|Hy'];
    try lia.
  exfalso. apply Hy. apply elem_of_app. left. exact Hy'.
Qed.

Lemma unvisited_cost_visit (l visited : list string) (h : string) :
  h ∈ l -> h ∉ visited ->
  (unvisited_cost ns w l (visited ++ [h]) + S (length (scan ns w h))
   <= unvisited_cost ns w l visited)%nat.
Proof.
  intros Hl Hv. induction l as [|x l IH]; [inversion Hl|]. simpl.
  pose proof (unvisited_cost_mono l visited h) as Hmono.
  destruct (decide (x = h)) as [->|Hne].
  - destruct (decide (h ∈ visited ++ [h])) as [_|Hn];
      [|exfalso; apply Hn; apply elem_of_app; right; constructor].
    destruct (decide (h ∈ visited)); [contradiction|]. lia.
  - apply elem_of_cons in Hl as [->|Hl]; [contradiction|].
    specialize (IH Hl).
    destruct (decide (x ∈ visited ++ [h])) as [Hy|Hy], (decide (x ∈ visited)) as [Hy'|Hy'].
    + apply IH.
    + apply elem_of_app in Hy as [Hy|Hy]; [contradiction|].
      apply list_elem_of_singleton in Hy. contradiction.
    + exfalso. apply Hy. apply elem_of_app. left. exact Hy'.
    + lia.
Qed.

Context (universe : list string).

(** The network does not lead outside [universe]. *)
Hypothesis closed : forall h h', h ∈ universe -> h' ∈ scan ns w h -> h' ∈ universe.

Lemma crawl_cost_visit (visited heap : list string) (h : string) :
  h ∈ universe -> h ∉ visited ->
  (crawl_cost ns w universe (visited ++ [h]) (rev (scan ns w h) ++ heap) + 1
   <= crawl_cost ns w universe visited (h :: heap))%nat.
Proof.
  intros Hu Hv. unfold crawl_cost. rewrite length_app, length_rev.
  pose proof (unvisited_cost_visit universe visited h Hu Hv).
  cbn [length]. lia.
Qed.

Lemma crawl_terminates (fuel : nat) (visited heap : list string) :
  (forall h, h ∈ heap -> h ∈ universe) ->
  (crawl_cost ns w universe visited heap < fuel)%nat ->
  exists servers, crawl ns fuel w visited heap = Some servers.
Proof.
  revert visited heap. induction fuel as [|fuel IH]; intros visited heap Hin Hcost;
    [lia|].
  simpl. destruct heap as [|hostname heap']; [eauto|].
  destruct (decide (hostname ∈ visited)) as [Hv|Hv].
  - apply IH.
    + intros h Hh. apply Hin. right. exact Hh.
    + unfold crawl_cost in *. simpl in Hcost. lia.
  - assert (hostname ∈ universe) as Hu by (apply Hin; left).
    apply IH.
    + intros h Hh. apply elem_of_app in Hh as [Hh|Hh].
      * apply (closed hostname); [exact Hu|].
        apply list_elem_of_In, in_rev, list_elem_of_In. exact Hh.
      * apply Hin. right. exact Hh.
    + pose proof (crawl_cost_visit visited heap' hostname Hu Hv). lia.
Qed.

Lemma crawler_terminates :
  "home" ∈ universe ->
  exists servers,
    crawler ns (S (crawl_cost ns w universe [] ["home"])) w = Some servers.
Proof.
  intros Hhome. apply crawl_terminates; [|lia].
  intros h Hh. apply list_elem_of_singleton in Hh as ->. exact Hhome.
Qed.

End Crawl.

(** ** The convergence loop *)

Section Loop.
Import Js Helper.
Context {W : Type} (ns : NS W).
Implicit Types (s : State W).

Lemma waits_app (tr1 tr2 : list Event) : waits (tr1 ++ tr2) = waits tr1 ++ waits tr2.
Proof. apply omap_app. Qed.

Lemma quiet_ret {A} (a : A) : quiet (ret (W:=W) a).
Proof. intros s. reflexivity. Qed.

Lemma quiet_bind {A B} (m : Prog W A) (k : A -> Prog W B) :
  quiet m -> (forall a, quiet (k a)) -> quiet (bind m k).
Proof.
  intros Hm Hk s. unfold bind. specialize (Hm s).
  destruct (m s) as [a s1]. simpl in Hm. rewrite (Hk a s1). exact Hm.
Qed.

Lemma quiet_read {A} (f : W -> A) : quiet (read f).
Proof. intros s. reflexivity. Qed.

Lemma quiet_now : quiet (now ns).
Proof. intros s. unfold now. destruct (performance_now ns (world s)). reflexivity. Qed.

Lemma quiet_do_exec script host n target duration eta :
  quiet (do_exec ns script host n target duration eta).
Proof.
  intros s. unfold do_exec.
  destruct (exec ns (world s) script host n target duration eta). simpl.
  rewrite waits_app. simpl. apply app_nil_r.
Qed.

Lemma quiet_print batch what n r etaIn : quiet (emit (W:=W) (EPrint batch what n r etaIn)).
Proof. intros s. simpl. rewrite waits_app. simpl. apply app_nil_r. Qed.

Lemma quiet_getWaitTime eta : quiet (getWaitTime ns eta).
Proof.
  unfold getWaitTime. apply quiet_bind; [apply quiet_now|]. intros t. apply quiet_ret.
Qed.

Lemma quiet_executeOnBot bot n script target duration eta pids :
  quiet (executeOnBot ns bot n script target duration eta pids).
Proof.
  unfold executeOnBot. apply quiet_bind; [apply quiet_read|]. intros slots.
  destruct (slots <=? 0); [apply quiet_ret|].
  apply quiet_bind; [apply quiet_do_exec|]. intros p.
  destruct (0 <? p); apply quiet_ret.
Qed.

Lemma quiet_forwardLoop bots n script target duration eta pids :
  quiet (forwardLoop ns bots n script target duration eta pids).
Proof.
  revert n pids. induction bots as [|bot rest IH]; intros n pids; simpl.
  - apply quiet_ret.
  - destruct (n <=? 0); [apply quiet_ret|].
    apply quiet_bind; [apply quiet_executeOnBot|]. intros [r pids']. apply IH.
Qed.

Lemma quiet_backwardLoop botnet n script target duration eta pids :
  quiet (backwardLoop ns botnet (length botnet) n script target duration eta pids).
Proof.
  intros s. rewrite backwardLoop_rev. apply quiet_forwardLoop.
Qed.

Lemma breaks_bind {A} (m : Prog W A) (k : A -> Prog W Flow) :
  (forall a, breaks (k a)) -> breaks (bind m k).
Proof. intros Hk s. unfold bind. destruct (m s) as [a s1]. apply Hk. Qed.

Lemma continues_bind {A} (m : Prog W A) (k : A -> Prog W Flow) :
  (forall a, continues (k a)) -> continues (bind m k).
Proof. intros Hk s. unfold bind. destruct (m s) as [a s1]. apply Hk. Qed.

(** Steps through a program built from [bind], conditionals and pattern
    matches, down to its leaves. *)
Ltac through bind_lemma :=
  repeat first
    [ apply bind_lemma; intros ?
    | match goal with
      | |- context [if ?b then _ else _] => destruct b
      | |- context [let (_, _) := ?p in _] => destruct p
      end ].

Lemma iteration_forceRun_breaks target servers v :
  breaks (iteration ns target true servers v).
Proof.
  unfold iteration. through (@breaks_bind).
  all: intros s; eexists; reflexivity.
Qed.

Lemma iteration_continues target servers v :
  continues (iteration ns target false servers v).
Proof.
  unfold iteration. through (@continues_bind).
  all: intros s; eexists; reflexivity.
Qed.

Ltac quiet_steps :=
  repeat first
    [ apply quiet_ret | apply quiet_read | apply quiet_now | apply quiet_getWaitTime
    | apply quiet_print | apply quiet_forwardLoop | apply quiet_backwardLoop
    | apply quiet_bind; [|intros ?]
    | match goal with
      | |- context [if ?b then _ else _] => destruct b
      | |- context [let (_, _) := ?p in _] => destruct p
      end ].

Lemma iteration_forceRun_quiet target servers v :
  quiet (iteration ns target true servers v).
Proof. unfold iteration. quiet_steps. Qed.

Lemma crawl_mono (fuel : nat) (w : W) (visited heap r : list string) :
  crawl ns fuel w visited heap = Some r ->
  forall fuel', (fuel <= fuel')%nat -> crawl ns fuel' w visited heap = Some r.
Proof.
  revert visited heap. induction fuel as [|fuel IH]; intros visited heap H fuel' Hle;
    [discriminate|].
  destruct fuel' as [|fuel']; [lia|]. simpl in *.
  destruct heap as [|hostname heap']; [exact H|].
  destruct (decide (hostname ∈ visited)); apply IH; (exact H || lia).
Qed.

Lemma forceRun_with_fuel (target : string) (w : W) (fuel : nat) (servers : list string) :
  serverExists ns w target = true ->
  crawler ns fuel w = Some servers ->
  exists v s',
    iteration ns target true servers (initialVars ns w target)
              {| world := w; trace := [] |} = (Break v, s')
    /\ (forall n, (fuel <= n)%nat -> optimizeServer ns n target true w = Returned s')
    /\ waits (trace s') = [].
Proof.
  intros Hex Hcrawl.
  destruct (iteration_forceRun_breaks target servers (initialVars ns w target)
                                      {| world := w; trace := [] |}) as [v Hv].
  pose proof (iteration_forceRun_quiet target servers (initialVars ns w target)
                                       {| world := w; trace := [] |}) as Hq.
  destruct (iteration ns target true servers (initialVars ns w target)
                      {| world := w; trace := [] |}) as [flow s'] eqn:E.
  simpl in Hv, Hq. subst flow. exists v, s'. split; [reflexivity|]. split; [|exact Hq].
  intros n Hn. unfold optimizeServer. rewrite Hex. simpl.
  destruct n as [|n]; [destruct fuel; [discriminate | lia]|].
  simpl. unfold loopCondition. rewrite Bool.orb_true_r.
  unfold crawler in *. simpl world.
  rewrite (crawl_mono _ _ _ _ _ Hcrawl (S n) Hn). rewrite E. reflexivity.
Qed.



Lemma waitStep_cases (etaW etaG : Eta) s t1 w1 t2 w2 :
  performance_now ns (world s) = (t1, w1) ->
  performance_now ns w1 = (t2, w2) ->
  let nearer := if ltb (value etaW) (value etaG) then etaW else etaG in
  let chosen := if ltb (value nearer) t1
                then (if gtb (value etaW) (value etaG) then etaW else etaG)
                else nearer in
  let ms := if ltb t2 (value chosen) then (value chosen - t2)%Q else 3000%Q in
  let label := if ltb t2 (value chosen) then ("Warte auf " ++ name chosen)%string
               else "fehler: ETAs abgelaufen ..." in
  snd (waitStep ns etaW etaG s)
  = {| world := waitWithProgress ns w2 ms label; trace := trace s ++ [EWait ms label] |}.
Proof.
  intros H1 H2. cbv zeta. unfold waitStep, getWaitTime, bind, now, ret.
  rewrite H1. simpl world. rewrite H2. simpl.
  set (chosen := if ltb (value (if ltb (value etaW) (value etaG) then etaW else etaG)) t1
                 then (if gtb (value etaW) (value etaG) then etaW else etaG)
                 else (if ltb (value etaW) (value etaG) then etaW else etaG)).
  unfold Math_max, gtb.
  destruct (ltb t2 (value chosen)) eqn:E.
  - apply ltb_lt in E.
    assert (ltb (value chosen - t2) 0 = false) as -> by (apply ltb_ge; lra).
    assert (ltb 0 (value chosen - t2) = true) as -> by (apply ltb_lt; lra).
    reflexivity.
  - apply ltb_ge in E.
    destruct (ltb (value chosen - t2) 0) eqn:E1.
    + reflexivity.
    + assert (ltb 0 (value chosen - t2) = false) as -> by (apply ltb_ge; lra).
      reflexivity.
Qed.

(** Turns the outcomes of comparisons into inequalities. *)
Ltac comparisons :=
  repeat match goal with
         | H : ltb _ _ = true |- _ => apply ltb_lt in H
         | H : ltb _ _ = false |- _ => apply ltb_ge in H
         | H : gtb _ _ = true |- _ => apply gtb_gt in H
         | H : gtb _ _ = false |- _ => apply ltb_ge in H
         end.


End Loop.


Example wait_until_grow :
  Helper.waits (Helper.trace (snd (Helper.waitStep Toy.ns Toy.eta_weaken_later Toy.eta_grow_later
                                                   (Toy.start Toy.world0))))
  = [((1500 - 1000)%Q, "Warte auf Grow")].
Proof. reflexivity. Qed.


Lemma world0_closed (h h' : string) :
  h ∈ ["home"; "n00dles"; "foodnstuff"] ->
  h' ∈ Helper.scan Toy.ns Toy.world0 h ->
  h' ∈ ["home"; "n00dles"; "foodnstuff"].
Proof.
  intros Hh Hh'.
  repeat (apply elem_of_cons in Hh as [->|Hh]); [| | |inversion Hh];
    vm_compute in Hh';
    repeat (apply elem_of_cons in Hh' as [->|Hh']); try (inversion Hh'; fail);
    repeat constructor.
Qed.


Example forceRun_trace_world0 :
  match Helper.optimizeServer Toy.ns 10 "n00dles" true Toy.world0 with
  | Helper.Returned s => Helper.exec_hosts (Helper.trace s)
  | _ => []
  end = ["home"; "foodnstuff"; "n00dles"].
Proof. vm_compute. reflexivity. Qed.

Example missing_target_throws :
  Helper.optimizeServer Toy.ns 10 "nowhere" false Toy.world0
  = Helper.Threw "Server 'nowhere' existiert nicht".
Proof. vm_compute. reflexivity. Qed.

(** ** The ring buffer as a window on what was added *)

Section RingHistoryFacts.
Import Js RingBuffer RingHistory.
Context {T : Type}.
Implicit Types (rb : t T) (h : list T).

Lemma holds_add (x : T) rb h : holds rb h -> holds (add x rb) (x :: h).
Proof.
  intros (Hwf & Hc & Hh). pose proof (add_wf x rb Hwf) as Hwf'.
  destruct Hwf as [Hs Hl Hi Hcr Hf].
  assert (rem (currentIndex rb + 1) (size rb)
          = if currentIndex rb + 1 <? size rb then currentIndex rb + 1 else 0) as Ei.
  { rewrite rem_wrap by lia.
    destruct (Z.ltb_spec (currentIndex rb + 1) (size rb)); lia. }
  split; [exact Hwf'|]. split.
  - simpl. destruct (Z.ltb_spec (count rb) (size rb)); lia.
  - intros k y Hk Hlt. simpl in Hlt |- *.
    assert (rem (rem (currentIndex rb + 1) (size rb) - (Z.of_nat k + 1) + size rb) (size rb)
            = rem (currentIndex rb - Z.of_nat k + size rb) (size rb)) as ->.
    { rewrite Ei.
      destruct (Z.ltb_spec (currentIndex rb + 1) (size rb)).
      - f_equal. lia.
      - rewrite !rem_wrap by lia.
        destruct (Z.ltb_spec (0 - (Z.of_nat k + 1) + size rb) (size rb));
          destruct (Z.ltb_spec (currentIndex rb - Z.of_nat k + size rb) (size rb));
          lia. }
    destruct k as [|k]; simpl in Hk.
    + injection Hk as ->.
      replace (currentIndex rb - Z.of_nat 0 + size rb) with (currentIndex rb + size rb) by lia.
      rewrite rem_wrap by lia.
      destruct (Z.ltb_spec (currentIndex rb + size rb) (size rb)); [lia|].
      replace (currentIndex rb + size rb - size rb) with (currentIndex rb) by lia.
      apply array_get_set_same. lia.
    + rewrite array_get_set_other.
      * replace (currentIndex rb - Z.of_nat (S k) + size rb)
          with (currentIndex rb - (Z.of_nat k + 1) + size rb) by lia.
        apply Hh; [exact Hk | lia].
      * lia.
      * rewrite rem_wrap by lia.
        destruct (Z.ltb_spec (currentIndex rb - Z.of_nat (S k) + size rb) (size rb)); lia.
Qed.

Lemma holds_clear rb h : holds rb h -> holds (clear rb) [].
Proof.
  intros (Hwf & _ & _). pose proof (clear_wf rb Hwf) as Hwf'.
  destruct Hwf as [Hs Hl Hi Hcr Hf].
  split; [exact Hwf'|]. split.
  - simpl. lia.
  - intros k x Hk. discriminate.
Qed.

Lemma holds_run rb h (ops : list (op T)) :
  holds rb h -> holds (run rb ops) (fold_left remember ops h).
Proof.
  revert rb h. induction ops as [|o ops IH]; intros rb h H; simpl; [exact H|].
  apply IH. destruct o; simpl; [apply holds_add | eapply holds_clear]; exact H.
Qed.

Lemma holds_constructor (sz : Number) rb : constructor sz = Built rb -> holds rb [].
Proof.
  intros H. pose proof (constructor_wf sz rb H) as Hwf.
  apply constructor_Built in H as (q & -> & P & _ & ->).
  split; [exact Hwf|]. split.
  - simpl. apply positive_integer_floor in P. lia.
  - intros k x Hk. discriminate.
Qed.

Lemma run_size rb (ops : list (op T)) : size (run rb ops) = size rb.
Proof.
  revert rb. induction ops as [|o ops IH]; intros rb; simpl; [reflexivity|].
  rewrite IH. destruct o; reflexivity.
Qed.

(** X1.  A buffer built by the constructor and changed by any sequence of
    [add] and [clear] is a window on the elements added since it was built
    or last cleared: it counts them up to its size, [previous(steps)] is the
    element added [steps] adds ago for every [steps] from 1 to that count
    (older elements are overwritten), and [current()] is the latest one, or
    [null] when there is none. *)
Theorem ring_buffer_window (sz : Number) (rb0 : t T) (ops : list (op T)) :
  constructor sz = Built rb0 ->
  let rb := run rb0 ops in
  let h := recent ops in
  size rb = size rb0
  /\ count rb = Z.min (size rb0) (Z.of_nat (length h))
  /\ (forall k x, h !! k = Some x -> Z.of_nat k < size rb0 ->
                  previous (Z.of_nat k + 1) rb = Val x)
  /\ (forall steps, Z.min (size rb0) (Z.of_nat (length h)) < steps ->
                    previous steps rb = Null)
  /\ current rb = match h with
                  | [] => Null
                  | x :: _ => Val x
                  end.
Proof.
  intros H rb h.
  pose proof (holds_run rb0 [] ops (holds_constructor sz rb0 H)) as (Hwf & Hc & Hh).
  fold (recent ops) in Hc, Hh. fold h in Hc, Hh. fold rb in Hwf, Hc, Hh.
  assert (size rb = size rb0) as Hs by apply run_size.
  rewrite Hs in Hc, Hh.
  split; [exact Hs|]. split; [exact Hc|]. split; [|split].
  - intros k x Hk Hlt. unfold previous.
    pose proof (lookup_lt_Some _ _ _ Hk) as Hlen.
    destruct (Z.ltb_spec (Z.of_nat k + 1) 1); [lia|].
    destruct (Z.ltb_spec (count rb) (Z.of_nat k + 1)); [lia|]. simpl.
    rewrite Hs. apply Hh; assumption.
  - intros steps Hsteps. apply previous_Null; [exact Hwf | lia].
  - unfold current. rewrite Hc. destruct Hwf as [Hsz _ _ _ _]. rewrite Hs in *.
    destruct h as [|x h']; simpl length.
    + destruct (Z.eqb_spec (Z.min (size rb0) (Z.of_nat 0)) 0); [reflexivity | lia].
    + destruct (Z.eqb_spec (Z.min (size rb0) (Z.of_nat (S (length h')))) 0); [lia|].
      specialize (Hh 0%nat x eq_refl ltac:(lia)). simpl in Hh.
      replace (currentIndex rb - 1 + size rb0) with (currentIndex rb - (0 + 1) + size rb0)
        by lia.
      exact Hh.
Qed.

(** X2.  [clear()] puts a buffer back into the state the constructor built,
    whatever was added before, and [isEmpty()] holds exactly when nothing
    was added since the buffer was built or last cleared. *)
Theorem ring_buffer_clear (sz : Number) (rb0 : t T) (ops : list (op T)) :
  constructor sz = Built rb0 ->
  clear (run rb0 ops) = rb0
  /\ (isEmpty (run rb0 ops) = true <-> recent ops = []).
Proof.
  intros H.
  pose proof (holds_run rb0 [] ops (holds_constructor sz rb0 H)) as (Hwf & Hc & _).
  fold (recent ops) in Hc. pose proof (run_size rb0 ops) as Hs.
  destruct Hwf as [Hsz Hl _ _ _].
  apply constructor_Built in H as (q & -> & P & _ & E).
  split.
  - subst rb0. simpl in Hs. unfold clear. rewrite Hs. f_equal.
    f_equal. rewrite Hs in Hl. lia.
  - unfold isEmpty. rewrite Hc, Hs in *.
    destruct (recent ops) as [|x h]; simpl length.
    + split; [reflexivity|]. intros _. apply Z.eqb_eq. lia.
    + split; [|discriminate]. intros E0. apply Z.eqb_eq in E0. lia.
Qed.

End RingHistoryFacts.

Lemma ring_buffer_window_size2 :
  RingBuffer.constructor (Js.Finite 2) = RingBuffer.Built RingHistory.ring2
  /\ let rb := RingBuffer.run RingHistory.ring2
                 [RingBuffer.OpAdd 7%nat; RingBuffer.OpClear; RingBuffer.OpAdd 1%nat;
                  RingBuffer.OpAdd 2%nat; RingBuffer.OpAdd 3%nat] in
     let h := RingHistory.recent
                [RingBuffer.OpAdd 7%nat; RingBuffer.OpClear; RingBuffer.OpAdd 1%nat;
                 RingBuffer.OpAdd 2%nat; RingBuffer.OpAdd 3%nat] in
     RingBuffer.size rb = RingBuffer.size RingHistory.ring2
     /\ RingBuffer.count rb = Z.min (RingBuffer.size RingHistory.ring2) (Z.of_nat (length h))
     /\ (forall k x, h !! k = Some x -> Z.of_nat k < RingBuffer.size RingHistory.ring2 ->
                     RingBuffer.previous (Z.of_nat k + 1) rb = Js.Val x)
     /\ (forall steps,
            Z.min (RingBuffer.size RingHistory.ring2) (Z.of_nat (length h)) < steps ->
            RingBuffer.previous steps rb = Js.Null)
     /\ RingBuffer.current rb = match h with
                                | [] => Js.Null
                                | x :: _ => Js.Val x
                                end.
Proof.
  assert (RingBuffer.constructor (Js.Finite 2) = RingBuffer.Built RingHistory.ring2) as H
    by reflexivity.
  split; [exact H|].
  exact (ring_buffer_window (Js.Finite 2) RingHistory.ring2 _ H).
Defined.

Lemma ring_buffer_clear_size2 :
  RingBuffer.constructor (Js.Finite 2) = RingBuffer.Built RingHistory.ring2
  /\ RingBuffer.clear (RingBuffer.run RingHistory.ring2
                         [RingBuffer.OpAdd 1%nat; RingBuffer.OpAdd 2%nat; RingBuffer.OpAdd 3%nat])
     = RingHistory.ring2
  /\ (RingBuffer.isEmpty (RingBuffer.run RingHistory.ring2
                            [RingBuffer.OpAdd 1%nat; RingBuffer.OpAdd 2%nat; RingBuffer.OpAdd 3%nat])
      = true
      <-> RingHistory.recent
            [RingBuffer.OpAdd 1%nat; RingBuffer.OpAdd 2%nat; RingBuffer.OpAdd 3%nat] = []).
Proof.
  assert (RingBuffer.constructor (Js.Finite 2) = RingBuffer.Built RingHistory.ring2) as H
    by reflexivity.
  split; [exact H|].
  exact (ring_buffer_clear (Js.Finite 2) RingHistory.ring2 _ H).
Defined.

Example ring2_window :
  let rb := RingBuffer.run RingHistory.ring2
              [RingBuffer.OpAdd 1%nat; RingBuffer.OpAdd 2%nat; RingBuffer.OpAdd 3%nat] in
  RingBuffer.previous 1 rb = Js.Val 3%nat
  /\ RingBuffer.previous 2 rb = Js.Val 2%nat
  /\ RingBuffer.previous 3 rb = Js.Null.
Proof. repeat split. Qed.

(** ** What the crawl returns *)

Section CrawlResult.
Import Js Helper Network.
Context {W : Type} (ns : NS W) (w : W).

Lemma crawl_keeps_inv (fuel : nat) (visited heap servers : list string) :
  crawl ns fuel w visited heap = Some servers ->
  crawl_inv ns w visited heap -> crawl_inv ns w servers [].
Proof.
  revert visited heap. induction fuel as [|fuel IH]; intros visited heap H Hinv;
    [discriminate|].
  simpl in H. destruct heap as [|hostname heap'].
  - injection H as <-. exact Hinv.
  - destruct Hinv as (Hnd & Hreach & Hclosed & Hhome).
    destruct (decide (hostname ∈ visited)) as [Hv|Hv].
    + apply (IH _ _ H). split; [exact Hnd|]. split; [|split].
      * intros h Hh. apply Hreach. apply elem_of_app in Hh as [Hh|Hh].
        -- apply elem_of_app. left. exact Hh.
        -- apply elem_of_app. right. right. exact Hh.
      * intros v h' Hvis Hh'. specialize (Hclosed v h' Hvis Hh').
        apply elem_of_app in Hclosed as [Hc|Hc].
        -- apply elem_of_app. left. exact Hc.
        -- apply elem_of_cons in Hc as [->|Hc].
           ++ apply elem_of_app. left. exact Hv.
           ++ apply elem_of_app. right. exact Hc.
      * destruct Hhome as [Hh|[-> Hh]]; [left; exact Hh|].
        inversion Hv.
    + apply (IH _ _ H). split; [|split; [|split]].
      * apply NoDup_app. split; [exact Hnd|]. split.
        -- intros x Hx Hx'. apply list_elem_of_singleton in Hx' as ->. contradiction.
        -- apply NoDup_singleton.
      * intros h Hh.
        assert (reachable ns w hostname) as Hhost.
        { apply Hreach. apply elem_of_app. right. left. }
        rewrite <- app_assoc in Hh.
        apply elem_of_app in Hh as [Hh|Hh].
        { apply Hreach. apply elem_of_app. left. exact Hh. }
        apply elem_of_cons in Hh as [->|Hh]; [exact Hhost|].
        apply elem_of_app in Hh as [Hh|Hh].
        -- apply (reach_scan ns w hostname h Hhost).
           apply list_elem_of_In, in_rev, list_elem_of_In. exact Hh.
        -- apply Hreach. apply elem_of_app. right. right. exact Hh.
      * intros v h' Hvis Hh'. apply elem_of_app in Hvis as [Hvis|Hvis].
        -- specialize (Hclosed v h' Hvis Hh').
           apply elem_of_app in Hclosed as [Hc|Hc].
           ++ apply elem_of_app. left. apply elem_of_app. left. exact Hc.
           ++ apply elem_of_cons in Hc as [->|Hc].
              ** apply elem_of_app. left. apply elem_of_app. right. left.
              ** apply elem_of_app. right. apply elem_of_app. right. exact Hc.
        -- apply list_elem_of_singleton in Hvis as ->.
           apply elem_of_app. right. apply elem_of_app. left.
           apply list_elem_of_In, in_rev. rewrite rev_involutive.
           apply list_elem_of_In. exact Hh'.
      * left. destruct Hhome as [Hh|[-> Hh]].
        -- destruct visited; [discriminate | exact Hh].
        -- injection Hh as -> _. reflexivity.
Qed.

Lemma crawl_inv_result (servers : list string) :
  crawl_inv ns w servers [] ->
  NoDup servers /\ head servers = Some "home"
  /\ forall h, h ∈ servers <-> reachable ns w h.
Proof.
  intros (Hnd & Hreach & Hclosed & Hhome).
  assert (head servers = Some "home") as Hhead
    by (destruct Hhome as [Hh|[_ Hh]]; [exact Hh | discriminate]).
  split; [exact Hnd|]. split; [exact Hhead|].
  intros h. split.
  - intros Hh. apply Hreach. rewrite app_nil_r. exact Hh.
  - intros Hr. induction Hr as [|h h' _ IH Hscan].
    + destruct servers as [|x l]; [discriminate|]. injection Hhead as ->. left.
    + specialize (Hclosed h h' IH Hscan). rewrite app_nil_r in Hclosed. exact Hclosed.
Qed.

Lemma crawler_result (fuel : nat) (servers : list string) :
  crawler ns fuel w = Some servers ->
  NoDup servers /\ head servers = Some "home"
  /\ forall h, h ∈ servers <-> reachable ns w h.
Proof.
  intros H. apply crawl_inv_result. apply (crawl_keeps_inv _ _ _ _ H).
  split; [constructor|]. split; [|split].
  - intros h Hh. apply list_elem_of_singleton in Hh as ->. constructor.
  - intros v h' Hv. inversion Hv.
  - right. split; reflexivity.
Qed.

(** X3.  On a finite network (every host that [ns.scan] leads to lies in
    the list [universe]) the crawl ends, with any fuel from a bound on, and
    what [crawler] returns is the hosts that can be reached from [home],
    each of them once, [home] first. *)
Theorem crawler_reachable (universe : list string) :
  "home" ∈ universe ->
  (forall h h', h ∈ universe -> h' ∈ scan ns w h -> h' ∈ universe) ->
  exists fuel servers,
    (forall n, (fuel <= n)%nat -> crawler ns n w = Some servers)
    /\ NoDup servers
    /\ head servers = Some "home"
    /\ (forall h, h ∈ servers <-> reachable ns w h).
Proof.
  intros Hhome Hclosed.
  destruct (crawler_terminates ns w universe Hclosed Hhome) as [servers Hcrawl].
  eexists _, servers. split.
  - intros n Hn. apply (crawl_mono ns _ _ _ _ _ Hcrawl n Hn).
  - apply (crawler_result _ _ Hcrawl).
Qed.

End CrawlResult.

Lemma crawler_reachable_world0 :
  "home" ∈ ["home"; "n00dles"; "foodnstuff"]
  /\ exists fuel servers,
      (forall n, (fuel <= n)%nat -> Helper.crawler Toy.ns n Toy.world0 = Some servers)
      /\ NoDup servers
      /\ head servers = Some "home"
      /\ (forall h, h ∈ servers <-> Network.reachable Toy.ns Toy.world0 h).
Proof.
  assert ("home" ∈ ["home"; "n00dles"; "foodnstuff"]) as H by constructor.
  split; [exact H|].
  exact (crawler_reachable Toy.ns Toy.world0 _ H world0_closed).
Defined.

(** ** The launches of a pass *)

Section PassLaunches.
Import Js Helper Waves.
Context {W : Type} (ns : NS W).
Implicit Types (s : State W) (pids : list Batch) (bots : list string).

Lemma started_app (tr1 tr2 : list Event) : started (tr1 ++ tr2) = started tr1 ++ started tr2.
Proof. apply omap_app. Qed.

Lemma pass_launch_weaken bots bots' n n' script target duration eta e :
  (forall h, h ∈ bots -> h ∈ bots') -> n <= n' ->
  pass_launch bots n script target duration eta e ->
  pass_launch bots' n' script target duration eta e.
Proof.
  intros Hb Hn (host & k & p & -> & Hh & Hk).
  exists host, k, p. split; [reflexivity|]. split; [apply Hb, Hh | lia].
Qed.

Lemma forwardLoop_events bots n script target duration eta pids s :
  let '(r, pids', s') := forwardLoop ns bots n script target duration eta pids s in
  exists new,
    trace s' = trace s ++ new
    /\ Forall (pass_launch bots n script target duration eta) new
    /\ pids' = pids ++ started new.
Proof.
  revert n pids s. induction bots as [|bot rest IH]; intros n pids s.
  - simpl. exists []. rewrite !app_nil_r. split; [reflexivity|]. split; [constructor | reflexivity].
  - destruct (Z.leb_spec n 0) as [Hle|Hgt].
    + rewrite forwardLoop_idle by exact Hle.
      exists []. rewrite !app_nil_r. split; [reflexivity|]. split; [constructor | reflexivity].
    + rewrite forwardLoop_cons by exact Hgt.
      pose proof (executeOnBot_step ns bot n script target duration eta pids s Hgt) as Hstep.
      destruct (executeOnBot_launched ns bot n script target duration eta pids s)
        as [Hle|p w' Hslots E Hp|p w' Hslots E Hp]; cbv zeta in Hstep.
      * specialize (IH n pids s).
        destruct (forwardLoop ns rest n script target duration eta pids s)
          as [[r pids'] s'].
        destruct IH as (new & Htr & Hall & Hpids).
        exists new. split; [exact Htr|]. split; [|exact Hpids].
        eapply Forall_impl; [exact Hall|]. intros e.
        apply pass_launch_weaken; [|lia]. intros h Hh. right. exact Hh.
      * match goal with
        | |- context [forwardLoop ns rest ?r' script target duration eta ?p' ?s'] =>
            specialize (IH r' p' s');
            destruct (forwardLoop ns rest r' script target duration eta p' s')
              as [[r pids'] s'']
        end.
        destruct IH as (new & Htr & Hall & Hpids). simpl in Htr.
        eexists (_ :: new). split; [rewrite Htr, <- app_assoc; reflexivity|]. split.
        -- constructor.
           ++ eexists _, _, _. split; [reflexivity|]. split; [left | lia].
           ++ eapply Forall_impl; [exact Hall|]. intros e.
              apply pass_launch_weaken; [|lia]. intros h Hh. right. exact Hh.
        -- rewrite Hpids. simpl. destruct (Z.ltb_spec 0 p); [|lia].
           rewrite <- app_assoc. reflexivity.
      * match goal with
        | |- context [forwardLoop ns rest ?r' script target duration eta ?p' ?s'] =>
            specialize (IH r' p' s');
            destruct (forwardLoop ns rest r' script target duration eta p' s')
              as [[r pids'] s'']
        end.
        destruct IH as (new & Htr & Hall & Hpids). simpl in Htr.
        eexists (_ :: new). split; [rewrite Htr, <- app_assoc; reflexivity|]. split.
        -- constructor.
           ++ eexists _, _, _. split; [reflexivity|]. split; [left | lia].
           ++ eapply Forall_impl; [exact Hall|]. intros e.
              apply pass_launch_weaken; [|lia]. intros h Hh. right. exact Hh.
        -- rewrite Hpids. simpl. destruct (Z.ltb_spec 0 p); [lia|]. reflexivity.
Qed.

(** X4.  Every [ns.exec] of an allocation pass asks for at least one thread
    and at most the threads the pass was given, on a host of its list, with
    the script, target, duration and ETA handed to the pass; a pass does
    nothing else to the outside.  The batches it adds to [pidArray] are the
    launches that returned a pid above 0, in their order, each with the
    threads asked for.  The same holds of the backward pass. *)
Theorem pass_launches bots n script target duration eta pids s :
  (let '(r, pids', s') := forwardLoop ns bots n script target duration eta pids s in
   exists new,
     trace s' = trace s ++ new
     /\ Forall (pass_launch bots n script target duration eta) new
     /\ pids' = pids ++ started new)
  /\ (let '(r, pids', s') :=
        backwardLoop ns bots (length bots) n script target duration eta pids s in
      exists new,
        trace s' = trace s ++ new
        /\ Forall (pass_launch bots n script target duration eta) new
        /\ pids' = pids ++ started new).
Proof.
  split; [apply forwardLoop_events|].
  rewrite backwardLoop_rev.
  pose proof (forwardLoop_events (rev bots) n script target duration eta pids s) as H.
  destruct (forwardLoop ns (rev bots) n script target duration eta pids s) as [[r pids'] s'].
  destruct H as (new & Htr & Hall & Hpids).
  exists new. split; [exact Htr|]. split; [|exact Hpids].
  eapply Forall_impl; [exact Hall|]. intros e.
  apply pass_launch_weaken; [|lia]. intros h Hh.
  apply list_elem_of_In, in_rev, list_elem_of_In. exact Hh.
Qed.

End PassLaunches.

(** ** The landing times of the two waves *)

Section WaveTargets.
Import Js Helper Waves.
Context {W : Type} (ns : NS W).
Implicit Types (s : State W) (pids : list Batch) (bots : list string).
Local Open Scope Q_scope.

Lemma yields_ret {A} P (Q : A -> Prop) (a : A) : Q a -> yields (W:=W) P Q (ret a).
Proof.
  intros H s. split; [exact H|]. exists []. rewrite app_nil_r. split; [reflexivity | constructor].
Qed.

Lemma yields_bind {A B} P (Q1 : A -> Prop) (Q2 : B -> Prop)
      (m : Prog W A) (k : A -> Prog W B) :
  yields P Q1 m -> (forall a, Q1 a -> yields P Q2 (k a)) -> yields P Q2 (bind m k).
Proof.
  intros Hm Hk s. unfold bind. destruct (Hm s) as (Ha & new1 & E1 & F1).
  destruct (m s) as [a s1]. simpl in *.
  destruct (Hk a Ha s1) as (Hb & new2 & E2 & F2).
  split; [exact Hb|]. exists (new1 ++ new2).
  rewrite E2, E1, app_assoc. split; [reflexivity|]. apply Forall_app. split; assumption.
Qed.

Lemma yields_weaken {A} P (Q1 Q2 : A -> Prop) (m : Prog W A) :
  (forall a, Q1 a -> Q2 a) -> yields P Q1 m -> yields P Q2 m.
Proof. intros H Hm s. destruct (Hm s) as (Ha & Hnew). split; [apply H, Ha | exact Hnew]. Qed.

Lemma yields_read {A} P (f : W -> A) : yields P (fun _ => True) (read f).
Proof.
  intros s. split; [exact I|]. exists []. rewrite app_nil_r. split; [reflexivity | constructor].
Qed.

Lemma yields_now P : yields P (fun _ => True) (now ns).
Proof.
  intros s. unfold now. destruct (performance_now ns (world s)). simpl.
  split; [exact I|]. exists []. rewrite app_nil_r. split; [reflexivity | constructor].
Qed.

Lemma yields_emit P (e : Event) : P e -> yields (W:=W) P (fun _ => True) (emit e).
Proof.
  intros H s. split; [exact I|]. exists [e]. split; [reflexivity|]. repeat constructor. exact H.
Qed.

Lemma yields_do_wait P ms label :
  P (EWait ms label) -> yields P (fun _ => True) (do_wait ns ms label).
Proof.
  intros H s. split; [exact I|]. eexists [_]. split; [reflexivity|]. repeat constructor. exact H.
Qed.

Lemma yields_getWaitTime P eta : yields P (fun _ => True) (getWaitTime ns eta).
Proof.
  unfold getWaitTime. eapply yields_bind; [apply yields_now|].
  intros t _. apply yields_ret. exact I.
Qed.

Lemma aligned100_comp (a b : Q) : a == b -> aligned100 a -> aligned100 b.
Proof. intros E [k Hk]. exists k. rewrite <- E. exact Hk. Qed.

Lemma aligned100_roundUp100 (x : Q) : aligned100 (roundUp100 x).
Proof. eexists. reflexivity. Qed.

Lemma yields_forwardLoop target bots n script duration eta pids :
  (script = "src/bin.grow.js" /\ aligned100 (eta + 60)
   \/ script = "src/bin.weaken.js" /\ aligned100 (eta + 40)) ->
  yields (wave_launch target) (fun _ => True)
         (forwardLoop ns bots n script target duration eta pids).
Proof.
  intros Hscript s. split; [exact I|].
  pose proof (forwardLoop_events ns bots n script target duration eta pids s) as H.
  destruct (forwardLoop ns bots n script target duration eta pids s) as [[r pids'] s'].
  destruct H as (new & Htr & Hall & _). exists new. split; [exact Htr|].
  eapply Forall_impl; [exact Hall|].
  intros e (host & k & p & -> & _ & Hk). simpl.
  split; [reflexivity|]. split; [lia | exact Hscript].
Qed.

Lemma yields_backwardLoop target botnet n script duration eta pids :
  (script = "src/bin.grow.js" /\ aligned100 (eta + 60)
   \/ script = "src/bin.weaken.js" /\ aligned100 (eta + 40)) ->
  yields (wave_launch target) (fun _ => True)
         (backwardLoop ns botnet (length botnet) n script target duration eta pids).
Proof.
  intros Hscript s. rewrite backwardLoop_rev. apply yields_forwardLoop, Hscript.
Qed.

Lemma yields_waitStep target etaW etaG :
  yields (wave_launch target) (fun _ => True) (waitStep ns etaW etaG).
Proof.
  unfold waitStep. eapply yields_bind; [apply yields_now|]. intros t _.
  eapply yields_bind; [apply yields_getWaitTime|]. intros waitTime _.
  destruct (gtb waitTime 0); apply yields_do_wait; exact I.
Qed.

Lemma yields_iteration target forceRun servers v :
  aligned v ->
  yields (wave_launch target) (fun flow => aligned (vars_of flow))
         (iteration ns target forceRun servers v).
Proof.
  intros [HaW HaG]. unfold iteration.
  eapply yields_bind; [apply yields_read|]. intros botnet _.
  eapply yields_bind; [apply yields_read|]. intros freeSlots _.
  eapply yields_bind; [apply yields_read|]. intros hackTime _.
  eapply yields_bind; [apply yields_read|]. intros runGrows _.
  eapply yields_bind; [apply yields_read|]. intros runWeaken _.
  eapply (yields_bind _ (fun x => aligned100 (value (snd (fst x))))).
  { destruct (0 <? runWeaken)%Z.
    - apply yields_ret. exact HaW.
    - eapply yields_bind; [apply yields_now|]. intros t _.
      apply yields_ret. apply aligned100_roundUp100. }
  intros [[maxSlotsW etaW] pidW] HetaW. simpl in HetaW.
  eapply (yields_bind _ (fun x => aligned100 (value (snd (fst x))))).
  { destruct (0 <? runGrows)%Z.
    - apply yields_ret. exact HaG.
    - eapply yields_bind; [apply yields_now|]. intros t _.
      apply yields_ret. apply aligned100_roundUp100. }
  intros [[maxSlots etaG] pidG] HetaG. simpl in HetaG.
  eapply yields_bind; [apply yields_read|]. intros maxMoney1 _.
  eapply yields_bind; [apply yields_read|]. intros actualMoney1 _.
  eapply (yields_bind _ (fun _ => True)).
  { destruct ((runGrows =? 0)%Z && gtb (moneyDiff v) 0).
    - eapply yields_bind.
      + apply yields_forwardLoop. left. split; [reflexivity|].
        apply (aligned100_comp (value etaG)); [|exact HetaG].
        unfold TIMING_BUFFER_MS. ring.
      + intros [r pids] _.
        eapply yields_bind; [apply yields_getWaitTime|]. intros etaIn _.
        eapply yields_bind; [apply yields_emit; exact I|]. intros _ _.
        apply yields_ret. exact I.
    - apply yields_ret. exact I. }
  intros [batchNo pidG'] _.
  eapply (yields_bind _ (fun _ => True)).
  { destruct (runWeaken =? 0)%Z.
    - eapply yields_bind.
      + apply yields_backwardLoop. right. split; [reflexivity|].
        apply (aligned100_comp (value etaW)); [|exact HetaW].
        unfold TIMING_BUFFER_MS. ring.
      + intros [r pids] _.
        eapply yields_bind; [apply yields_getWaitTime|]. intros etaIn _.
        eapply yields_bind; [apply yields_emit; exact I|]. intros _ _.
        apply yields_ret. exact I.
    - apply yields_ret. exact I. }
  intros pidW' _.
  destruct forceRun.
  - apply yields_ret. split; assumption.
  - eapply yields_bind; [apply yields_waitStep|]. intros _ _.
    eapply yields_bind; [apply yields_read|]. intros maxMoney2 _.
    eapply yields_bind; [apply yields_read|]. intros actualMoney2 _.
    eapply (yields_bind _ (fun _ => True)).
    { destruct (eqb (maxMoney2 - actualMoney2) 0).
      - eapply yields_bind; [apply yields_now|]. intros t _.
        apply yields_do_wait. exact I.
      - apply yields_ret. exact I. }
    intros _ _.
    eapply yields_bind; [apply yields_read|]. intros minSec2 _.
    eapply yields_bind; [apply yields_read|]. intros actualSec2 _.
    apply yields_ret. split; assumption.
Qed.

Lemma loop_launches (fuel crawlFuel : nat) target forceRun v s v' s' :
  aligned v ->
  loop ns fuel crawlFuel target forceRun v s = Some (v', s') ->
  aligned v' /\ exists new, trace s' = trace s ++ new /\ Forall (wave_launch target) new.
Proof.
  revert v s. induction fuel as [|fuel IH]; intros v s Hv H; [discriminate|].
  simpl in H. destruct (loopCondition forceRun v).
  - destruct (crawler ns crawlFuel (world s)) as [servers|]; [|discriminate].
    destruct (yields_iteration target forceRun servers v Hv s) as (Hal & new1 & E1 & F1).
    destruct (iteration ns target forceRun servers v s) as [[v1|v1] s1]; simpl in *.
    + injection H as <- <-. split; [exact Hal|]. eauto.
    + destruct (IH v1 s1 Hal H) as (Hal' & new2 & E2 & F2).
      split; [exact Hal'|]. exists (new1 ++ new2).
      rewrite E2, E1, app_assoc. split; [reflexivity|]. apply Forall_app. split; assumption.
  - injection H as <- <-. split; [exact Hv|]. exists []. rewrite app_nil_r.
    split; [reflexivity | constructor].
Qed.

Lemma yields_drain target forceRun v :
  yields (wave_launch target) (fun _ => True) (drain ns forceRun v).
Proof.
  unfold drain. destruct (negb forceRun); [|apply yields_ret; exact I].
  eapply yields_bind; [apply yields_now|]. intros t _.
  match goal with |- context [if ?b then _ else _] => destruct b end.
  - apply yields_do_wait. exact I.
  - apply yields_ret. exact I.
Qed.

Lemma optimizeServer_launches (fuel : nat) target forceRun (w : W) s :
  optimizeServer ns fuel target forceRun w = Returned s ->
  Forall (wave_launch target) (trace s).
Proof.
  unfold optimizeServer. destruct (negb (serverExists ns w target)); [discriminate|].
  destruct (loop ns fuel fuel target forceRun (initialVars ns w target)
                 {| world := w; trace := [] |}) as [[v s1]|] eqn:E; [|discriminate].
  intros [= <-].
  assert (aligned (initialVars ns w target)) as H0.
  { split; exists 0%Z; reflexivity. }
  destruct (loop_launches _ _ _ _ _ _ _ _ H0 E) as (_ & new1 & E1 & F1).
  destruct (yields_drain target forceRun v s1) as (_ & new2 & E2 & F2).
  rewrite E2, E1. simpl. apply Forall_app. split; assumption.
Qed.

Lemma aligned100_apart (a b : Q) :
  aligned100 (a + 60) -> aligned100 (b + 40) -> a + 20 <= b \/ b + 80 <= a.
Proof.
  intros [i Hi] [j Hj].
  destruct (Z.le_gt_cases i j) as [Hle|Hgt].
  - left. rewrite Zle_Qle in Hle. lra.
  - right. assert (j + 1 <= i)%Z as Hle by lia.
    rewrite Zle_Qle, inject_Z_plus in Hle. change (inject_Z 1) with 1 in Hle. lra.
Qed.


End WaveTargets.


Section OptimalTarget.
Import Js Helper.
Context {W : Type} (ns : NS W).
Local Open Scope Q_scope.

(** X6.  Where the target exists and is already at its least security and
    its most money, [optimizeServer] (without [forceRun]) launches nothing
    and waits for nothing: it reads the clock once and returns. *)
Theorem optimal_target_left_alone (fuel : nat) (target : string) (w w' : W) (t : Q) :
  serverExists ns w target = true ->
  getServerSecurityLevel ns w target <= getServerMinSecurityLevel ns w target ->
  getServerMaxMoney ns w target <= getServerMoneyAvailable ns w target ->
  performance_now ns w = (t, w') ->
  0 <= t ->
  (0 < fuel)%nat ->
  optimizeServer ns fuel target false w = Returned {| world := w'; trace := [] |}.
Proof.
  intros Hex Hsec Hmoney Hnow Ht Hfuel.
  unfold optimizeServer. rewrite Hex. simpl.
  destruct fuel as [|fuel]; [lia|]. simpl.
  assert (loopCondition false (initialVars ns w target) = false) as ->.
  { unfold loopCondition, initialVars, gtb. simpl.
    rewrite !Bool.orb_false_r. apply Bool.orb_false_iff.
    split; apply ltb_ge; assumption. }
  unfold drain, bind, now, ret. simpl. rewrite Hnow.
  assert (gtb (Math_max 0 0 - t) 0 = false) as ->.
  { apply ltb_ge. unfold Math_max. simpl. lra. }
  reflexivity.
Qed.

End OptimalTarget.

Lemma optimal_target_left_alone_toy :
  Helper.serverExists Toy.ns Worlds.world_optimal "n00dles" = true
  /\ (Helper.getServerSecurityLevel Toy.ns Worlds.world_optimal "n00dles"
      <= Helper.getServerMinSecurityLevel Toy.ns Worlds.world_optimal "n00dles")%Q
  /\ (Helper.getServerMaxMoney Toy.ns Worlds.world_optimal "n00dles"
      <= Helper.getServerMoneyAvailable Toy.ns Worlds.world_optimal "n00dles")%Q
  /\ Helper.performance_now Toy.ns Worlds.world_optimal = (1000%Q, Worlds.world_optimal)
  /\ Helper.optimizeServer Toy.ns 1 "n00dles" false Worlds.world_optimal
     = Helper.Returned {| Helper.world := Worlds.world_optimal; Helper.trace := [] |}.
Proof.
  assert (Helper.serverExists Toy.ns Worlds.world_optimal "n00dles" = true) as H1
    by reflexivity.
  assert (Helper.getServerSecurityLevel Toy.ns Worlds.world_optimal "n00dles"
          <= Helper.getServerMinSecurityLevel Toy.ns Worlds.world_optimal "n00dles")%Q as H2
    by (simpl; lra).
  assert (Helper.getServerMaxMoney Toy.ns Worlds.world_optimal "n00dles"
          <= Helper.getServerMoneyAvailable Toy.ns Worlds.world_optimal "n00dles")%Q as H3
    by (simpl; lra).
  assert (Helper.performance_now Toy.ns Worlds.world_optimal
          = (1000%Q, Worlds.world_optimal)) as H4 by reflexivity.
  repeat (split; [assumption|]).
  apply (optimal_target_left_alone Toy.ns 1 "n00dles" _ _ 1000 H1 H2 H3 H4); [lra | lia].
Defined.

(** ** What the workers do with their arguments *)

Section WorkerRuns.
Import Js Worker.
Local Open Scope Q_scope.

(** X7.  A worker that is given its two times and starts while the
    operation can still end by [endTime] ends it on time: the start, the
    delay it asks for and the duration of the operation add up to
    [endTime], less the fraction of a millisecond that [Math.floor] takes
    off in [bin.grow.js] and the first [bin.weaken.js]. *)
Theorem worker_ends_on_time (k : Script) (validation : bool) (a : Args) (now d : Q) :
  dispatched_delay (main k validation a now) = Some d ->
  exists o e,
    operationTime a = Some o /\ endTime a = Some e
    /\ (now + o <= e ->
        e - 1 < now + d + o <= e
        /\ (k = BinWeakenPlain -> now + d + o == e)).
Proof.
  intros H. destruct (dispatched_delay_inv _ _ _ _ _ H) as (o & e & Ho & He & ->).
  exists o, e. split; [exact Ho|]. split; [exact He|]. intros Hle.
  assert (Math_max 0 (e - now - o) == e - now - o) as Emax.
  { unfold Math_max. destruct (ltb 0 (e - now - o)) eqn:E; [reflexivity|].
    apply ltb_ge in E. lra. }
  destruct k; simpl.
  - unfold delay, Math_floor.
    pose proof (Qfloor_le (Math_max 0 (e - now - o))) as Hlo.
    pose proof (Qlt_floor (Math_max 0 (e - now - o))) as Hhi.
    rewrite inject_Z_plus in Hhi. change (inject_Z 1) with 1 in Hhi.
    split; [lra | discriminate].
  - unfold delay, Math_floor.
    pose proof (Qfloor_le (Math_max 0 (e - now - o))) as Hlo.
    pose proof (Qlt_floor (Math_max 0 (e - now - o))) as Hhi.
    rewrite inject_Z_plus in Hhi. change (inject_Z 1) with 1 in Hhi.
    split; [lra | discriminate].
  - rewrite Emax. split; [lra|]. intros _. lra.
Qed.

(** X8.  The guard [if (!target) throw] of the workers: [bin.grow.js] and
    the first [bin.weaken.js] throw exactly where the target is missing or
    the empty string, the latter only without [--validation], with which it
    returns at once whatever its arguments.  The other [bin.weaken.js] takes
    [String(args[0])] first, so it throws only for the empty string, and
    with no target at all it goes on to weaken a host named "undefined". *)
Theorem worker_target_guard (validation : bool) (a : Args) (now : Q) :
  ((exists msg, main BinGrow validation a now = Threw msg) <-> missing (target a) = true)
  /\ ((exists msg, main BinWeaken validation a now = Threw msg)
      <-> validation = false /\ missing (target a) = true)
  /\ (validation = true -> main BinWeaken validation a now = Validated)
  /\ ((exists msg, main BinWeakenPlain validation a now = Threw msg)
      <-> target a = Some ""%string)
  /\ (target a = None ->
      exists d, main BinWeakenPlain validation a now = Op Weaken "undefined" d).
Proof.
  unfold main, grow_main, weaken_main, weaken_plain_main.
  split; [|split; [|split; [|split]]].
  - destruct (target a) as [tgt|]; simpl.
    + destruct (String.eqb tgt "") eqn:E.
      * split; eauto.
      * split; [|discriminate]. intros [msg H]. destruct (both_given a) as [[o e]|]; discriminate.
    + split; eauto.
  - destruct validation.
    + split; [intros [msg H]; discriminate | intros [H _]; discriminate].
    + destruct (target a) as [tgt|]; simpl.
      * destruct (String.eqb tgt "") eqn:E.
        -- split; eauto.
        -- split; [|intros [_ H]; discriminate]. intros [msg H].
           destruct (both_given a) as [[o e]|]; discriminate.
      * split; eauto.
  - intros ->. reflexivity.
  - destruct (target a) as [tgt|]; cbv zeta.
    + destruct (String.eqb_spec tgt "") as [->|Hne].
      * split; eauto.
      * split.
        -- intros [msg H]. destruct (both_given a) as [[o e]|]; discriminate.
        -- intros [= ->]. contradiction.
    + simpl. split; [|discriminate]. intros [msg H].
      destruct (both_given a) as [[o e]|]; discriminate.
  - intros ->. simpl. destruct (both_given a) as [[o e]|]; eauto.
Qed.

End WorkerRuns.

Lemma worker_ends_on_time_weaken :
  Worker.dispatched_delay (Worker.main Worker.BinWeaken false Worlds.timely_weaken 2000)
  = Some 4000%Q
  /\ exists o e,
      Worker.operationTime Worlds.timely_weaken = Some o
      /\ Worker.endTime Worlds.timely_weaken = Some e
      /\ ((2000 + o <= e)%Q ->
          (e - 1 < 2000 + 4000 + o <= e)%Q
          /\ (Worker.BinWeaken = Worker.BinWeakenPlain -> (2000 + 4000 + o == e)%Q)).
Proof.
  assert (Worker.dispatched_delay
            (Worker.main Worker.BinWeaken false Worlds.timely_weaken 2000)
          = Some 4000%Q) as H by reflexivity.
  split; [exact H|].
  exact (worker_ends_on_time Worker.BinWeaken false Worlds.timely_weaken 2000 4000 H).
Defined.

(** ** Storage keys do not interfere *)

Section StorageKeys.
Import Js Config.
Context (B : Builtins).

Lemma load_other_key (localStorage : gmap string Text) (k k' : string) (v : Value) :
  k <> k' ->
  loadFromStorage B (saveToStorage B localStorage k v) k' = loadFromStorage B localStorage k'.
Proof.
  intros Hne. unfold loadFromStorage, saveToStorage.
  destruct (constructor_name v).
  - rewrite lookup_insert_ne by exact Hne. reflexivity.
  - rewrite lookup_delete_ne by exact Hne. reflexivity.
Qed.

(** X9.  [saveToStorage] touches its own key only: what is loaded from any
    other key is what was loaded before.  The last value saved under a key
    is the one that counts: an earlier save under the same key leaves no
    trace, whether the later one stores a value or, for [null] and
    [undefined], removes the key. *)
Theorem storage_keys_independent (localStorage : gmap string Text) (k k' : string)
        (v v' : Value) :
  (k <> k' ->
   loadFromStorage B (saveToStorage B localStorage k v) k' = loadFromStorage B localStorage k')
  /\ saveToStorage B (saveToStorage B localStorage k v) k v' = saveToStorage B localStorage k v'.
Proof.
  split; [apply load_other_key|].
  - unfold saveToStorage.
    destruct (constructor_name v), (constructor_name v').
    + apply insert_insert_eq.
    + apply delete_insert_eq.
    + apply insert_delete_eq.
    + apply delete_delete_eq.
Qed.

End StorageKeys.

(** ** The settings and their defaults *)

Section SettingsFacts.
Import Js Config Settings.
Context (B : Builtins).

Lemma prefixed_eq (key : string) : prefixed key = ("egoBB_" ++ key)%string.
Proof. reflexivity. Qed.

Lemma prefixed_inj (k k' : string) : prefixed k = prefixed k' -> k = k'.
Proof. rewrite !prefixed_eq. intros [= H]. exact H. Qed.

Lemma getter_absent (name : string) (c : Class) :
  localStorage c !! prefixed name = None ->
  getter B name c = Some (property Defaults name).
Proof. intros H. unfold getter, loadFromStorage. rewrite H. reflexivity. Qed.

Lemma delete_all_lookup (ks : list string) (ls : Storage) (key : string) :
  fold_left (fun ls k => delete (prefixed k) ls) ks ls !! key
  = if decide (key ∈ map prefixed ks) then None else ls !! key.
Proof.
  revert ls. induction ks as [|k ks IH]; intros ls; simpl.
  - destruct (decide (key ∈ [])) as [H|_]; [inversion H | reflexivity].
  - rewrite IH.
    destruct (decide (key ∈ map prefixed ks)) as [Hin|Hnin].
    + destruct (decide (key ∈ prefixed k :: map prefixed ks)) as [_|Hn]; [reflexivity|].
      exfalso. apply Hn. right. exact Hin.
    + destruct (decide (key = prefixed k)) as [->|Hne].
      * rewrite lookup_delete_eq.
        destruct (decide (prefixed k ∈ prefixed k :: map prefixed ks)) as [_|Hn];
          [reflexivity|].
        exfalso. apply Hn. left.
      * rewrite lookup_delete_ne by congruence.
        destruct (decide (key ∈ prefixed k :: map prefixed ks)) as [Hin|_]; [|reflexivity].
        apply elem_of_cons in Hin as [->|Hin]; contradiction.
Qed.

Lemma getters_have_defaults (name : string) : name ∈ getters -> name ∈ map fst Defaults.
Proof.
  intros H. unfold getters in H.
  repeat (apply elem_of_cons in H as [->|H]); [..|inversion H];
    simpl; repeat first [apply list_elem_of_here | apply list_elem_of_further].
Qed.

Lemma load_saved_primitive (ls : Storage) (key : string) (v : Value) :
  primitive v = true -> loadFromStorage B (saveToStorage B ls key v) key = Some v.
Proof.
  destruct v as [| |b|[q| | |]|s| | | | |]; try discriminate; intros _;
    eapply load_saved; reflexivity.
Qed.

(** X10.  Each of the nine settings reads its default where nothing is
    stored for it, and again after [Settings.reset()] and after
    [Settings.reset(name)]; it reads the number, string or boolean that
    [Settings.setItem(name, value)] stored, as [Settings.loadItem] does for
    any key; and a [setItem] or a [reset] for another name leaves what it
    reads alone.  [Settings.reset('')] is
    [Settings.reset()], which removes the keys of [Defaults] and no other
    (the map of a [RunInfo] stays). *)
Theorem settings_defaults (name : string) (c : Class) :
  name ∈ getters ->
  (localStorage c !! prefixed name = None ->
   getter B name c = Some (property Defaults name))
  /\ getter B name (reset None c) = Some (property Defaults name)
  /\ getter B name (reset (Some name) c) = Some (property Defaults name)
  /\ (forall v, primitive v = true -> getter B name (setItem B name v c) = Some v)
  /\ (forall other v, other <> name ->
         getter B name (setItem B other v c) = getter B name c)
  /\ (forall other, other <> name -> other <> ""%string ->
         getter B name (reset (Some other) c) = getter B name c)
  /\ reset (Some ""%string) c = reset None c
  /\ (forall key, key ∉ map prefixed (map fst Defaults) ->
         localStorage (reset None c) !! key = localStorage c !! key)
  /\ (forall key v, primitive v = true ->
         loadItem B key (setItem B key v c) = Some v
         /\ hasOwnProperty (setItem B key v c) key = true).
Proof.
  intros Hname. pose proof (getters_have_defaults name Hname) as Hdef.
  assert (name <> ""%string) as Hne.
  { intros ->. unfold getters in Hname.
    repeat (apply elem_of_cons in Hname as [Hname|Hname]; [discriminate|]).
    inversion Hname. }
  split; [apply getter_absent|]. split; [|split; [|split; [|split; [|split; [|split; [|split]]]]]].
  - apply getter_absent. unfold reset. cbn [localStorage]. rewrite delete_all_lookup.
    destruct (decide (prefixed name ∈ map prefixed (map fst Defaults))) as [_|Hn];
      [reflexivity|].
    exfalso. apply Hn. apply list_elem_of_fmap_2. exact Hdef.
  - apply getter_absent. unfold reset. cbn [localStorage].
    destruct (String.eqb_spec name ""); [contradiction|].
    apply lookup_delete_eq.
  - intros v Hv. unfold getter, setItem. cbn [localStorage].
    rewrite load_saved_primitive by exact Hv.
    destruct v as [| |b|[q| | |]|s| | | | |]; try discriminate; reflexivity.
  - intros other v Hother.
    assert (prefixed other <> prefixed name) as Hp
      by (intros E; apply Hother, prefixed_inj, E).
    unfold getter, setItem. cbn [localStorage].
    rewrite (load_other_key B _ _ _ v Hp). reflexivity.
  - intros other Hother Hne'.
    assert (prefixed other <> prefixed name) as Hp
      by (intros E; apply Hother, prefixed_inj, E).
    unfold getter, reset, loadFromStorage. cbn [localStorage].
    destruct (String.eqb_spec other ""); [contradiction|].
    rewrite lookup_delete_ne by exact Hp. reflexivity.
  - reflexivity.
  - intros key Hkey. unfold reset. cbn [localStorage]. rewrite delete_all_lookup.
    destruct (decide (key ∈ map prefixed (map fst Defaults))); [contradiction | reflexivity].
  - intros key v Hv. split.
    + unfold loadItem, setItem. cbn [localStorage]. apply load_saved_primitive, Hv.
    + unfold hasOwnProperty at 1. unfold setItem. cbn [defined].
      destruct (hasOwnProperty c key) eqn:E; [exact E|].
      rewrite app_assoc, existsb_app. simpl. rewrite String.eqb_refl.
      apply Bool.orb_true_iff. right. reflexivity.
Qed.

End SettingsFacts.

Lemma settings_defaults_target :
  "target" ∈ Settings.getters
  /\ (Settings.localStorage Settings.fresh !! Settings.prefixed "target" = None ->
      Settings.getter Config.stub "target" Settings.fresh
      = Some (Settings.property Settings.Defaults "target"))
  /\ Settings.getter Config.stub "target" (Settings.reset None Settings.fresh)
     = Some (Settings.property Settings.Defaults "target")
  /\ Settings.getter Config.stub "target" (Settings.reset (Some "target") Settings.fresh)
     = Some (Settings.property Settings.Defaults "target")
  /\ (forall v, Settings.primitive v = true ->
         Settings.getter Config.stub "target"
           (Settings.setItem Config.stub "target" v Settings.fresh) = Some v)
  /\ (forall other v, other <> "target" ->
         Settings.getter Config.stub "target"
           (Settings.setItem Config.stub other v Settings.fresh)
         = Settings.getter Config.stub "target" Settings.fresh)
  /\ (forall other, other <> "target" -> other <> ""%string ->
         Settings.getter Config.stub "target" (Settings.reset (Some other) Settings.fresh)
         = Settings.getter Config.stub "target" Settings.fresh)
  /\ Settings.reset (Some ""%string) Settings.fresh = Settings.reset None Settings.fresh
  /\ (forall key, key ∉ map Settings.prefixed (map fst Settings.Defaults) ->
         Settings.localStorage (Settings.reset None Settings.fresh) !! key
         = Settings.localStorage Settings.fresh !! key)
  /\ (forall key v, Settings.primitive v = true ->
         Settings.loadItem Config.stub key (Settings.setItem Config.stub key v Settings.fresh)
         = Some v
         /\ Settings.hasOwnProperty (Settings.setItem Config.stub key v Settings.fresh) key
            = true).
Proof.
  assert ("target" ∈ Settings.getters) as H
    by (unfold Settings.getters; repeat first [apply list_elem_of_here | apply list_elem_of_further]).
  split; [exact H|].
  exact (settings_defaults Config.stub "target" Settings.fresh H).
Defined.

Example settings_target_round_trip :
  Settings.target Config.stub Settings.fresh = Some (Config.VStr "n00dles")
  /\ Settings.target Config.stub
       (Settings.set_target Config.stub (Config.VStr "foodnstuff") Settings.fresh)
     = Some (Config.VStr "foodnstuff").
Proof. split; vm_compute; reflexivity. Qed.

(** ** The schedule a [RunInfo] keeps *)

Section RunInfoFacts.
Import Js Config RunInfo.
Local Open Scope Q_scope.
Context (B : Builtins).


Lemma earlier_found (acc : option string * option Q) (seen : FunctionMap)
      (e : string * Info) :
  found acc seen -> found (earlier acc e) (seen ++ [e]).
Proof.
  destruct acc as [[f|] [t|]]; simpl; try contradiction; intros H;
    unfold earlier; simpl; destruct e as [g info]; simpl;
    destruct (nextRunTime info) as [t1|] eqn:E1.
  - destruct H as ((info0 & Hin & Ht) & Hmin).
    destruct (ltb t1 t) eqn:Elt.
    + apply ltb_lt in Elt. split.
      * exists info. split; [apply elem_of_app; right; left | exact E1].
      * intros g' info' t' Hin' Ht'. apply elem_of_app in Hin' as [Hin'|Hin'].
        -- specialize (Hmin _ _ _ Hin' Ht'). lra.
        -- apply list_elem_of_singleton in Hin'. injection Hin' as -> ->.
           rewrite E1 in Ht'. injection Ht' as <-. lra.
    + apply ltb_ge in Elt. split.
      * exists info0. split; [apply elem_of_app; left; exact Hin | exact Ht].
      * intros g' info' t' Hin' Ht'. apply elem_of_app in Hin' as [Hin'|Hin'].
        -- apply (Hmin _ _ _ Hin' Ht').
        -- apply list_elem_of_singleton in Hin'. injection Hin' as -> ->.
           rewrite E1 in Ht'. injection Ht' as <-. exact Elt.
  - destruct H as ((info0 & Hin & Ht) & Hmin). split.
    + exists info0. split; [apply elem_of_app; left; exact Hin | exact Ht].
    + intros g' info' t' Hin' Ht'. apply elem_of_app in Hin' as [Hin'|Hin'].
      * apply (Hmin _ _ _ Hin' Ht').
      * apply list_elem_of_singleton in Hin'. injection Hin' as -> ->. congruence.
  - split.
    + exists info. split; [apply elem_of_app; right; left | exact E1].
    + intros g' info' t' Hin' Ht'. apply elem_of_app in Hin' as [Hin'|Hin'].
      * rewrite (H _ _ Hin') in Ht'. discriminate.
      * apply list_elem_of_singleton in Hin'. injection Hin' as -> ->.
        rewrite E1 in Ht'. injection Ht' as <-. lra.
  - intros g' info' Hin'. apply elem_of_app in Hin' as [Hin'|Hin'].
    + apply (H _ _ Hin').
    + apply list_elem_of_singleton in Hin'. injection Hin' as -> ->. exact E1.
Qed.

Lemma fold_earlier_found (m seen : FunctionMap) (acc : option string * option Q) :
  found acc seen -> found (fold_left earlier m acc) (seen ++ m).
Proof.
  revert seen acc. induction m as [|e m IH]; intros seen acc H; simpl.
  - rewrite app_nil_r. exact H.
  - replace (seen ++ e :: m) with ((seen ++ [e]) ++ m) by (rewrite <- app_assoc; reflexivity).
    apply IH, earlier_found, H.
Qed.

Lemma getNextOperation_due (m : FunctionMap) (now : Q) (f : string) :
  getNextOperation m now = Some f ->
  exists info t, (f, info) ∈ m /\ nextRunTime info = Some t /\ t <= now.
Proof.
  unfold getNextOperation.
  pose proof (fold_earlier_found m [] (None, None)) as H. simpl in H.
  specialize (H ltac:(intros g info' Hin; inversion Hin)).
  destruct (fold_left earlier m (None, None)) as [[g|] [t|]]; simpl in H;
    try contradiction; try discriminate.
  destruct H as ((info & Hin & Ht) & _).
  destruct (leb t now) eqn:E; [|discriminate].
  intros [= <-]. apply leb_le in E. exists info, t. auto.
Qed.

(** X11.  [getNextOperation()] returns the name of an entry of the map
    whose next run time, [lastRun + interval], has come and is the earliest
    of all entries; it returns [null] exactly where no entry is due. *)
Theorem next_operation_is_earliest_due (m : FunctionMap) (now : Q) :
  match getNextOperation m now with
  | Some f =>
      exists info t,
        (f, info) ∈ m /\ nextRunTime info = Some t /\ t <= now
        /\ forall g info' t', (g, info') ∈ m -> nextRunTime info' = Some t' -> t <= t'
  | None =>
      forall g info' t', (g, info') ∈ m -> nextRunTime info' = Some t' -> now < t'
  end.
Proof.
  unfold getNextOperation.
  pose proof (fold_earlier_found m [] (None, None)) as H. simpl in H.
  specialize (H ltac:(intros g info' Hin; inversion Hin)).
  destruct (fold_left earlier m (None, None)) as [[f|] [t|]]; simpl in H; try contradiction.
  - destruct H as ((info & Hin & Ht) & Hmin).
    destruct (leb t now) eqn:E.
    + apply leb_le in E. exists info, t. auto.
    + intros g info' t' Hin' Ht'. specialize (Hmin _ _ _ Hin' Ht').
      apply Bool.not_true_iff_false in E. rewrite leb_le in E.
      apply Qnot_le_lt in E. lra.
  - intros g info' t' Hin' Ht'. rewrite (H _ _ Hin') in Ht'. discriminate.
Qed.

Lemma get_set_same (info : Info) (name : string) (x : Q) : get (set info name x) name = Some x.
Proof.
  induction info as [|[k y] rest IH]; simpl.
  - rewrite String.eqb_refl. reflexivity.
  - destruct (String.eqb k name) eqn:E; simpl; rewrite E; [reflexivity | exact IH].
Qed.

Lemma get_set_other (info : Info) (name name' : string) (x : Q) :
  name <> name' -> get (set info name x) name' = get info name'.
Proof.
  intros Hne. induction info as [|[k y] rest IH]; simpl.
  - destruct (String.eqb_spec name name'); [contradiction | reflexivity].
  - destruct (String.eqb_spec k name) as [->|Hk]; simpl.
    + destruct (String.eqb_spec name name'); [contradiction | reflexivity].
    + destruct (String.eqb k name'); [reflexivity | exact IH].
Qed.

Lemma map_get_set_same (m : FunctionMap) (k : string) (info : Info) :
  map_get (map_set m k info) k = Some info.
Proof.
  induction m as [|[k' i'] rest IH]; simpl.
  - rewrite String.eqb_refl. reflexivity.
  - destruct (String.eqb k' k) eqn:E; simpl; rewrite E; [reflexivity | exact IH].
Qed.

Lemma map_get_set_other (m : FunctionMap) (k k' : string) (info : Info) :
  k' <> k -> map_get (map_set m k info) k' = map_get m k'.
Proof.
  intros Hne. induction m as [|[k0 i0] rest IH]; simpl.
  - destruct (String.eqb_spec k k'); [congruence | reflexivity].
  - destruct (String.eqb_spec k0 k) as [->|Hk]; simpl.
    + destruct (String.eqb_spec k k'); [congruence | reflexivity].
    + destruct (String.eqb k0 k'); [reflexivity | exact IH].
Qed.

Lemma map_set_keys (m : FunctionMap) (k : string) (info : Info) :
  map fst (map_set m k info)
  = if decide (k ∈ map fst m) then map fst m else map fst m ++ [k].
Proof.
  induction m as [|[k' i'] rest IH]; simpl.
  - destruct (decide (k ∈ [])) as [H|_]; [inversion H | reflexivity].
  - destruct (String.eqb_spec k' k) as [->|Hk]; simpl.
    + destruct (decide (k ∈ k :: map fst rest)) as [_|Hn]; [reflexivity|].
      exfalso. apply Hn. left.
    + rewrite IH. destruct (decide (k ∈ map fst rest)) as [Hin|Hnin].
      * destruct (decide (k ∈ k' :: map fst rest)) as [_|Hn]; [reflexivity|].
        exfalso. apply Hn. right. exact Hin.
      * destruct (decide (k ∈ k' :: map fst rest)) as [Hin|_]; [|reflexivity].
        apply elem_of_cons in Hin as [->|Hin]; [congruence | contradiction].
Qed.

Lemma map_set_NoDup (m : FunctionMap) (k : string) (info : Info) :
  NoDup (map fst m) -> NoDup (map fst (map_set m k info)).
Proof.
  intros H. rewrite map_set_keys. destruct (decide (k ∈ map fst m)); [exact H|].
  apply NoDup_app. split; [exact H|]. split; [|apply NoDup_singleton].
  intros x Hx Hx'. apply list_elem_of_singleton in Hx' as ->. contradiction.
Qed.

Lemma map_get_elem (m : FunctionMap) (k : string) (info : Info) :
  NoDup (map fst m) -> (k, info) ∈ m -> map_get m k = Some info.
Proof.
  induction m as [|[k' i'] rest IH]; intros Hnd Hin; [inversion Hin|].
  simpl in *. apply NoDup_cons in Hnd as [Hk' Hnd].
  apply elem_of_cons in Hin as [[= -> ->]|Hin].
  - rewrite String.eqb_refl. reflexivity.
  - destruct (String.eqb_spec k' k) as [->|Hne]; [|apply IH; assumption].
    exfalso. apply Hk'. apply (list_elem_of_fmap_2 fst _ _ Hin).
Qed.

Lemma touched_lastRun (m : FunctionMap) (f : string) (interval : option Q) (now : Q) :
  get (touched m f interval now) "lastRun" = Some now.
Proof.
  unfold touched. destruct interval as [i|].
  - rewrite get_set_other by discriminate. apply get_set_same.
  - apply get_set_same.
Qed.

Lemma touched_interval (m : FunctionMap) (f : string) (interval : option Q) (now : Q) :
  get (touched m f interval now) "interval"
  = match interval with
    | Some i => Some i
    | None => match getInfo m f with
              | Some old => get old "interval"
              | None => Some DEFAULT_INTERVAL
              end
    end.
Proof.
  unfold touched, getInfo. destruct interval as [i|].
  - apply get_set_same.
  - rewrite get_set_other by discriminate. destruct (map_get m f); reflexivity.
Qed.

(** X12.  [updateLastRun(name, interval)] throws exactly where an interval
    is passed that is not above 0, and then changes nothing.  Otherwise the
    entry of [name] gets the current time as [lastRun] and, as [interval],
    the one passed, else the one it had, else the default of 1000 ms; the
    other entries stay as they are; the map is saved; and [name] is not due
    again before that interval has passed. *)
Theorem update_last_run (m : FunctionMap) (localStorage : Storage) (f : string)
        (interval : option Q) (now : Q) :
  NoDup (map fst m) ->
  match updateLastRun B m localStorage f interval now with
  | Threw i => interval = Some i /\ i <= 0
  | Done m' localStorage' =>
      (forall i, interval = Some i -> 0 < i)
      /\ exists info,
          getInfo m' f = Some info
          /\ get info "lastRun" = Some now
          /\ get info "interval" = match interval with
                                   | Some i => Some i
                                   | None => match getInfo m f with
                                             | Some old => get old "interval"
                                             | None => Some DEFAULT_INTERVAL
                                             end
                                   end
          /\ (forall g, g <> f -> getInfo m' g = getInfo m g)
          /\ localStorage' = saveToStorage B localStorage (Settings.prefixed "runInfo")
                                           (to_value m')
          /\ (forall i t, get info "interval" = Some i ->
                          getNextOperation m' t = Some f -> now + i <= t)
  end.
Proof.
  intros Hnd.
  assert (forall m', m' = map_set m f (touched m f interval now) ->
            exists info,
              getInfo m' f = Some info
              /\ get info "lastRun" = Some now
              /\ get info "interval" = match interval with
                                       | Some i => Some i
                                       | None => match getInfo m f with
                                                 | Some old => get old "interval"
                                                 | None => Some DEFAULT_INTERVAL
                                                 end
                                       end
              /\ (forall g, g <> f -> getInfo m' g = getInfo m g)
              /\ save B m' localStorage
                 = saveToStorage B localStorage (Settings.prefixed "runInfo") (to_value m')
              /\ (forall i t, get info "interval" = Some i ->
                              getNextOperation m' t = Some f -> now + i <= t)) as Hdone.
  { intros m' ->. exists (touched m f interval now).
    split; [apply map_get_set_same|]. split; [apply touched_lastRun|].
    split; [apply touched_interval|].
    split; [intros g Hg; apply map_get_set_other, Hg|]. split; [reflexivity|].
    intros i t Hi Hnext.
    destruct (getNextOperation_due _ _ _ Hnext) as (info & t0 & Hin & Ht0 & Hle).
    apply map_get_elem in Hin; [|apply map_set_NoDup, Hnd].
    rewrite map_get_set_same in Hin. injection Hin as <-.
    unfold nextRunTime in Ht0. rewrite touched_lastRun, Hi in Ht0.
    injection Ht0 as <-. exact Hle. }
  unfold updateLastRun. destruct interval as [i|].
  - destruct (leb i 0) eqn:E.
    + apply leb_le in E. auto.
    + split; [|apply Hdone; reflexivity].
      intros i' [= <-]. apply Bool.not_true_iff_false in E. rewrite leb_le in E.
      apply Qnot_le_lt, E.
  - split; [discriminate | apply Hdone; reflexivity].
Qed.

Lemma distinct_snoc (l : list Value) (k : Value) :
  distinct l = true -> existsb (same_value_zero k) l = false -> distinct (l ++ [k]) = true.
Proof.
  induction l as [|x l IH]; simpl; [reflexivity|].
  intros Hd Hk. apply andb_prop in Hd as [Hx Hl].
  apply Bool.orb_false_iff in Hk as [Hkx Hkl].
  rewrite IH by assumption. rewrite Bool.andb_true_r.
  rewrite existsb_app, Bool.negb_orb. apply andb_true_intro. split; [exact Hx|].
  simpl. rewrite same_value_zero_sym, Hkx. reflexivity.
Qed.

Lemma value_map_set_keys (m : list (Value * Value)) (k x : Value) :
  map fst (Config.map_set m k x)
  = if existsb (same_value_zero k) (map fst m) then map fst m else map fst m ++ [k].
Proof.
  induction m as [|[k' x'] rest IH]; simpl; [reflexivity|].
  destruct (same_value_zero k k'); simpl; [reflexivity|].
  rewrite IH. destruct (existsb (same_value_zero k) (map fst rest)); reflexivity.
Qed.

Lemma map_fill_distinct (es : list Json) (m m' : list (Value * Value)) :
  map_fill m es = Some m' -> distinct (map fst m) = true -> distinct (map fst m') = true.
Proof.
  revert m. induction es as [|e es IH]; intros m H Hd; simpl in H.
  - injection H as <-. exact Hd.
  - destruct (map_entry e) as [[k x]|]; [|discriminate].
    apply (IH _ H). rewrite value_map_set_keys.
    destruct (existsb (same_value_zero k) (map fst m)) eqn:E; [exact Hd|].
    apply distinct_snoc; assumption.
Qed.

Lemma revive_not_map (j : Json) (es : list (Value * Value)) : revive j <> VMap es.
Proof. destruct j; discriminate. Qed.

(** Closes a goal that a value which is no [Map] equals one. *)
Ltac no_map :=
  let H := fresh in
  intros H;
  first [ discriminate H
        | injection H as H;
          first [ discriminate H | exfalso; revert H; apply revive_not_map ] ].

Lemma loaded_map_distinct (localStorage : Storage) (key : string)
      (es : list (Value * Value)) :
  loadFromStorage B localStorage key = Some (VMap es) -> distinct (map fst es) = true.
Proof.
  unfold loadFromStorage.
  destruct (localStorage !! key) as [txt|]; [|discriminate].
  destruct (parsed txt) as [[| | | | |ps]|]; try no_map;
    try (destruct (String.eqb (raw txt) ""); discriminate).
  destruct (own_property ps "type") as [type|], (own_property ps "data") as [data|];
    try no_map.
  destruct (restoreFromStorage B data type) as [v| |] eqn:E; try discriminate.
  intros [= ->]. revert E. unfold restoreFromStorage.
  destruct type as [| | |t| |]; try no_map.
  repeat match goal with
         | |- context [if String.eqb t ?s then _ else _] => destruct (String.eqb t s)
         end;
    try no_map.
  - unfold Array_from. destruct data; discriminate.
  - unfold new_Set. destruct data; discriminate.
  - unfold new_Map. destruct data as [| | |s|l|]; try discriminate.
    + intros [= <-]. reflexivity.
    + destruct (String.eqb s ""); [|discriminate]. intros [= <-]. reflexivity.
    + destruct (map_fill [] l) as [m0|] eqn:Ef; [|discriminate].
      intros [= <-]. apply (map_fill_distinct _ _ _ Ef). reflexivity.
Qed.

Lemma of_entries_keys (es : list (Value * Value)) (m : FunctionMap) :
  mapM of_entry es = Some m -> map fst es = map VStr (map fst m).
Proof.
  intros H. apply mapM_Some_1 in H.
  induction H as [|[k x] [k' info] es m Hx _ IH]; simpl; [reflexivity|].
  f_equal; [|exact IH].
  unfold of_entry in Hx. simpl in Hx.
  destruct k; try discriminate. destruct (of_info x); [|discriminate].
  injection Hx as -> _. reflexivity.
Qed.

Lemma distinct_names (l : list string) : distinct (map VStr l) = true <-> NoDup l.
Proof.
  induction l as [|a l IH]; simpl.
  - split; [constructor | reflexivity].
  - rewrite Bool.andb_true_iff, IH, NoDup_cons, Bool.negb_true_iff.
    assert (existsb (same_value_zero (VStr a)) (map VStr l) = false <-> a ∉ l) as ->.
    { rewrite existsb_none. split.
      - intros H Hin. specialize (H (VStr a)). simpl in H. rewrite String.eqb_refl in H.
        assert (true = false) by (apply H, in_map, list_elem_of_In, Hin). discriminate.
      - intros Hn x Hx. apply in_map_iff in Hx as (b & <- & Hb). simpl.
        destruct (String.eqb_spec a b) as [->|]; [|reflexivity].
        exfalso. apply Hn, list_elem_of_In, Hb. }
    reflexivity.
Qed.

Lemma constructor_NoDup (localStorage : Storage) (now1 now2 : Q) (m : FunctionMap) :
  constructor B localStorage now1 now2 = Some m -> NoDup (map fst m).
Proof.
  unfold constructor.
  destruct (loadFromStorage B localStorage (Settings.prefixed "runInfo")) as [v|] eqn:E;
    [|discriminate].
  destruct (falsy v).
  - intros [= <-]. simpl. apply NoDup_cons_2; [|apply NoDup_singleton].
    intros Hin. apply list_elem_of_singleton in Hin. discriminate.
  - destruct v; try discriminate. simpl. intros H.
    apply distinct_names. rewrite <- (of_entries_keys _ _ H).
    apply (loaded_map_distinct _ _ _ E).
Qed.

Lemma to_info_plain (info : Info) : json_plain (to_info info) = true.
Proof. unfold to_info. simpl. induction info as [|[k x] rest IH]; simpl; auto. Qed.

Lemma of_info_to_info (info : Info) : of_info (to_info info) = Some info.
Proof.
  unfold of_info, to_info. induction info as [|[k x] rest IH]; [reflexivity|].
  cbn. cbn in IH. rewrite IH. reflexivity.
Qed.

Lemma of_value_to_value (m : FunctionMap) : of_value (to_value m) = Some m.
Proof.
  unfold of_value, to_value. induction m as [|[k info] rest IH]; [reflexivity|].
  pose proof (of_info_to_info info) as Hinfo. unfold of_info, to_info in Hinfo.
  cbn. rewrite Hinfo, IH. reflexivity.
Qed.

Lemma load_saved_map (localStorage : Storage) (key : string) (m : FunctionMap) :
  NoDup (map fst m) ->
  loadFromStorage B (saveToStorage B localStorage key (to_value m)) key = Some (to_value m).
Proof.
  intros Hnd. unfold to_value.
  set (es := map (fun e : string * Info => (VStr (fst e), to_info (snd e))) m).
  apply (load_saved B localStorage key "Map" (VMap es) (VArr (map entry_value es))
                    (JArr (map (element_json B) (map entry_value es))) (VMap es));
    [reflexivity | reflexivity | apply serialize_VArr |].
  change (new_Map (JArr (map (element_json B) (map entry_value es))) = Ret (VMap es)).
  unfold new_Map.
  rewrite map_fill_entries; [reflexivity | | | intros a e []].
  - subst es. induction m as [|[k info] rest IH]; [reflexivity|].
    cbn [map forallb fst snd]. rewrite to_info_plain. cbn [json_plain andb].
    apply IH. simpl in Hnd. apply NoDup_cons in Hnd as [_ Hnd]. exact Hnd.
  - subst es. rewrite map_map. simpl.
    rewrite <- (map_map fst VStr). apply distinct_names, Hnd.
Qed.

(** X13.  What a [RunInfo] holds has no name twice, and after
    [updateLastRun] it is what the next [new RunInfo()] reads from storage:
    the schedule outlives the script that kept it. *)
Theorem run_info_persists (localStorage0 localStorage localStorage' : Storage)
        (now1 now2 now t1 t2 : Q) (m m' : FunctionMap) (f : string) (interval : option Q) :
  constructor B localStorage0 now1 now2 = Some m ->
  updateLastRun B m localStorage f interval now = Done m' localStorage' ->
  NoDup (map fst m)
  /\ NoDup (map fst m')
  /\ constructor B localStorage' t1 t2 = Some m'.
Proof.
  intros Hm Hup. pose proof (constructor_NoDup _ _ _ _ Hm) as Hnd.
  assert (m' = map_set m f (touched m f interval now)
          /\ localStorage' = save B m' localStorage) as [-> ->].
  { unfold updateLastRun in Hup. destruct interval as [i|].
    - destruct (leb i 0); [discriminate|]. injection Hup as <- <-. auto.
    - injection Hup as <- <-. auto. }
  pose proof (map_set_NoDup m f (touched m f interval now) Hnd) as Hnd'.
  split; [exact Hnd|]. split; [exact Hnd'|].
  unfold constructor, save. rewrite load_saved_map by exact Hnd'.
  simpl falsy. cbv iota. apply of_value_to_value.
Qed.

End RunInfoFacts.

Lemma update_last_run_example :
  NoDup (map fst RunInfo.example_map)
  /\ match RunInfo.updateLastRun Config.stub RunInfo.example_map ∅ "spider" (Some 250%Q)
                                2000000 with
     | RunInfo.Threw i => Some 250%Q = Some i /\ (i <= 0)%Q
     | RunInfo.Done m' localStorage' =>
         (forall i, Some 250%Q = Some i -> (0 < i)%Q)
         /\ exists info,
             RunInfo.getInfo m' "spider" = Some info
             /\ RunInfo.get info "lastRun" = Some 2000000%Q
             /\ RunInfo.get info "interval" = Some 250%Q
             /\ (forall g, g <> "spider" ->
                           RunInfo.getInfo m' g = RunInfo.getInfo RunInfo.example_map g)
             /\ localStorage' = Config.saveToStorage Config.stub ∅
                                  (Settings.prefixed "runInfo") (RunInfo.to_value m')
             /\ (forall i t, RunInfo.get info "interval" = Some i ->
                             RunInfo.getNextOperation m' t = Some "spider" ->
                             (2000000 + i <= t)%Q)
     end.
Proof.
  assert (NoDup (map fst RunInfo.example_map)) as H.
  { simpl. apply NoDup_cons_2; [|apply NoDup_singleton].
    intros Hin. apply list_elem_of_singleton in Hin. discriminate. }
  split; [exact H|].
  exact (update_last_run Config.stub RunInfo.example_map ∅ "spider" (Some 250%Q) 2000000 H).
Defined.

Lemma run_info_persists_example :
  RunInfo.constructor Config.stub ∅ 1000000 1000001 = Some RunInfo.example_map
  /\ exists m' localStorage',
      RunInfo.updateLastRun Config.stub RunInfo.example_map ∅ "spider" None 2000000
      = RunInfo.Done m' localStorage'
      /\ NoDup (map fst RunInfo.example_map)
      /\ NoDup (map fst m')
      /\ RunInfo.constructor Config.stub localStorage' 3000000 3000001 = Some m'.
Proof.
  assert (RunInfo.constructor Config.stub ∅ 1000000 1000001 = Some RunInfo.example_map)
    as H by reflexivity.
  split; [exact H|].
  eexists _, _. split; [reflexivity|].
  exact (run_info_persists Config.stub ∅ ∅ _ 1000000 1000001 2000000 3000000 3000001
                           RunInfo.example_map _ "spider" None H eq_refl).
Defined.

Example next_operation_example :
  RunInfo.getNextOperation RunInfo.example_map 1000000 = Some "spider"
  /\ RunInfo.getNextOperation RunInfo.example_map 0 = None.
Proof. split; vm_compute; reflexivity. Qed.

(** ** The progress bar *)

Section ProgressFacts.
Import Js Progress.
Context {W : Type} (host : Host W).
Local Open Scope Q_scope.

Lemma fmod_bounds (x y : Q) : 0 < y -> 0 <= fmod x y < y.
Proof.
  intros Hy. unfold fmod.
  pose proof (Qfloor_le (x / y)) as Hlo. pose proof (Qlt_floor (x / y)) as Hhi.
  rewrite inject_Z_plus in Hhi. change (inject_Z 1) with 1 in Hhi.
  assert (x == y * (x / y)) as E by (field; lra).
  split.
  - assert (y * inject_Z (Qfloor (x / y)) <= y * (x / y)) by (apply Qmult_le_l; assumption).
    lra.
  - assert (y * (x / y) < y * (inject_Z (Qfloor (x / y)) + 1))
      by (apply Qmult_lt_l; assumption).
    lra.
Qed.

Lemma repeat_length_integer (q : Q) (n : Z) :
  q == inject_Z n -> (0 <= n)%Z -> repeat_length (Finite q) = Some n.
Proof.
  intros E Hn. unfold repeat_length.
  assert (ltb q 0 = false) as ->.
  { apply ltb_ge. rewrite E. change 0 with (inject_Z 0). rewrite <- Zle_Qle. exact Hn. }
  rewrite (Qfloor_comp _ _ E), Qfloor_Z.
  destruct (Z.ltb_spec n 0); [lia | reflexivity].
Qed.

Lemma render_progress (label : string) (barWidth : Z) (p : Q) (secs : Z)
      (log : list string) :
  (0 <= barWidth)%Z -> 0 <= p <= 1 ->
  exists filled,
    render label barWidth (Finite p) secs log
    = Some [ClearLog; PrintHistory log; PrintBar label filled (barWidth - filled) secs]
    /\ (0 <= filled <= barWidth)%Z
    /\ (p == 1 -> filled = barWidth).
Proof.
  intros Hbw [Hp0 Hp1]. exists (Math_floor (p * inject_Z barWidth)).
  assert (0 <= inject_Z barWidth) as Hb
    by (change 0 with (inject_Z 0); rewrite <- Zle_Qle; exact Hbw).
  assert (0 <= Math_floor (p * inject_Z barWidth) <= barWidth)%Z as Hf.
  { unfold Math_floor. split.
    - rewrite <- (Qfloor_Z 0). apply Qfloor_resp_le. apply Qmult_le_0_compat; assumption.
    - rewrite <- (Qfloor_Z barWidth) at 2. apply Qfloor_resp_le.
      assert (p * inject_Z barWidth <= 1 * inject_Z barWidth)
        by (apply Qmult_le_compat_r; assumption).
      lra. }
  split; [|split; [exact Hf|]].
  - unfold render, filledWidthOf, emptyWidthOf.
    rewrite (repeat_length_integer _ (Math_floor (p * inject_Z barWidth)))
      by (reflexivity || lia).
    rewrite (repeat_length_integer _ (barWidth - Math_floor (p * inject_Z barWidth))).
    + reflexivity.
    + unfold Z.sub. rewrite inject_Z_plus, inject_Z_opp. reflexivity.
    + lia.
  - intros E. unfold Math_floor.
    assert (p * inject_Z barWidth == inject_Z barWidth) as E' by (rewrite E; ring).
    rewrite (Qfloor_comp _ _ E'). apply Qfloor_Z.
Qed.

Lemma well_formed_render (label : string) (barWidth : Z) (p : Q) (secs : Z)
      (log : list string) (printed : list Event) :
  (0 <= barWidth)%Z -> 0 <= p <= 1 -> (0 <= secs)%Z ->
  render label barWidth (Finite p) secs log = Some printed ->
  Forall (well_formed barWidth) printed.
Proof.
  intros Hbw Hp Hsecs H.
  destruct (render_progress label barWidth p secs log Hbw Hp) as (filled & E & Hf & _).
  rewrite E in H. injection H as <-.
  repeat constructor; simpl; lia.
Qed.

Lemma loop_well_formed (time : W -> Q) (fuel : nat) (ms : Q) (label : string)
      (barWidth : Z) (keepBar : bool) (t0 : Q) (log : list string) (w : W)
      (tr : list Event) :
  (forall w t w', performance_now host w = (t, w') -> time w <= t <= time w') ->
  (forall w ms, 0 <= ms -> time w <= time (sleep host w ms)) ->
  (0 <= barWidth)%Z ->
  t0 <= time w ->
  Forall (well_formed barWidth) tr ->
  match loop host fuel ms label barWidth keepBar (t0 + ms) log w tr with
  | ThrewRangeError _ _ => False
  | o => Forall (well_formed barWidth) (events o)
  end.
Proof.
  intros Hnow Hsleep Hbw. revert w tr.
  induction fuel as [|fuel IH]; intros w tr Ht0 Htr; simpl; [constructor|].
  destruct (performance_now host w) as [t1 w1] eqn:E1.
  pose proof (Hnow _ _ _ E1) as [H1 H1'].
  destruct (ltb t1 (t0 + ms)) eqn:Elt.
  - apply ltb_lt in Elt.
    destruct (performance_now host w1) as [t2 w2] eqn:E2.
    pose proof (Hnow _ _ _ E2) as [H2 H2'].
    set (remaining := Math_max 0 (t0 + ms - t2)).
    assert (0 <= remaining <= ms) as Hrem.
    { subst remaining. unfold Math_max. destruct (ltb 0 (t0 + ms - t2)) eqn:E.
      - apply ltb_lt in E. lra.
      - lra. }
    assert (0 < ms) as Hms by lra.
    unfold progressOf.
    assert (eqb ms 0 = false) as ->.
    { apply Bool.not_true_iff_false. rewrite eqb_eq. lra. }
    assert (0 <= Qmin 1 (1 - remaining / ms) <= 1) as Hp.
    { split; [|apply Q.le_min_l].
      apply Q.min_glb; [lra|].
      assert (remaining / ms <= 1); [|lra].
      apply Qle_shift_div_r; lra. }
    assert (0 <= Math_ceil (remaining / 1000))%Z as Hsecs.
    { assert (0 <= remaining / 1000) as Hq by (apply Qle_shift_div_l; lra).
      unfold Math_ceil. rewrite <- (Qceiling_Z 0). apply Qceiling_resp_le. exact Hq. }
    destruct (render label barWidth (Finite (Qmin 1 (1 - remaining / ms)))
                     (Math_ceil (remaining / 1000)) log) as [printed|] eqn:Er.
    + destruct (performance_now host w2) as [t3 w3] eqn:E3.
      pose proof (Hnow _ _ _ E3) as [H3 H3'].
      apply IH.
      * eapply Qle_trans; [|apply Hsleep; apply fmod_bounds; lra]. lra.
      * apply Forall_app. split; [exact Htr|]. apply Forall_app. split.
        -- apply (well_formed_render _ _ _ _ _ _ Hbw Hp Hsecs Er).
        -- repeat constructor; apply fmod_bounds; lra.
    + destruct (render_progress label barWidth _ (Math_ceil (remaining / 1000)) log Hbw Hp)
        as (filled & E & _). rewrite E in Er. discriminate.
  - destruct keepBar.
    + destruct (render_progress label barWidth 1 0 log Hbw ltac:(lra)) as (filled & E & Hf & _).
      rewrite E. simpl. apply Forall_app. split; [exact Htr|].
      repeat constructor; simpl; lia.
    + simpl. apply Forall_app. split; [exact Htr|]. repeat constructor.
Qed.


(** X15.  A wait of no time: where [milliseconds] is zero or negative (as
    the wait of [optimizeServer] for the last weaken may be) and the clock
    does not run backwards, [waitWithProgress] does not sleep.  It reads
    the clock twice, clears the log and prints the last 20 lines that were
    there again, followed by the full bar where [keepBar] is set. *)
Theorem wait_of_no_time (fuel : nat) (milliseconds : Q) (label : string)
        (barWidth : Z) (keepBar : bool) (w w0 w1 : W) (t0 t1 : Q) :
  milliseconds <= 0 ->
  performance_now host w = (t0, w0) ->
  performance_now host w0 = (t1, w1) ->
  t0 <= t1 ->
  (0 <= barWidth)%Z ->
  waitWithProgress host (S fuel) milliseconds label barWidth keepBar w
  = Finished w1 ([ClearLog; PrintHistory (last20 (getScriptLogs host w0))]
                 ++ if keepBar then [PrintBar label barWidth 0 0] else []).
Proof.
  intros Hms E0 E1 Ht Hbw. unfold waitWithProgress. rewrite E0. simpl. rewrite E1.
  assert (ltb t1 (t0 + milliseconds) = false) as -> by (apply ltb_ge; lra).
  destruct keepBar; [|reflexivity].
  destruct (render_progress label barWidth 1 0 (last20 (getScriptLogs host w0)) Hbw
                            ltac:(lra)) as (filled & E & _ & Hfull).
  rewrite E, (Hfull ltac:(reflexivity)), Z.sub_diag. reflexivity.
Qed.

End ProgressFacts.

Lemma ticking_now (w : Progress.Clock) (t : Q) (w' : Progress.Clock) :
  Progress.performance_now Progress.ticking w = (t, w') ->
  (Progress.at_ms w <= t <= Progress.at_ms w')%Q.
Proof.
  intros [= <- <-]. simpl. rewrite Qred_correct. lra.
Qed.

Lemma ticking_sleep (w : Progress.Clock) (ms : Q) :
  (0 <= ms)%Q ->
  (Progress.at_ms w <= Progress.at_ms (Progress.sleep Progress.ticking w ms))%Q.
Proof. intros H. simpl. rewrite Qred_correct. lra. Qed.


Lemma wait_of_no_time_ticking :
  (-5 <= 0)%Q
  /\ Progress.performance_now Progress.ticking
       {| Progress.at_ms := 0; Progress.logs := ["a"; "b"] |}
     = (0%Q, {| Progress.at_ms := 1; Progress.logs := ["a"; "b"] |})
  /\ Progress.performance_now Progress.ticking
       {| Progress.at_ms := 1; Progress.logs := ["a"; "b"] |}
     = (1%Q, {| Progress.at_ms := 2; Progress.logs := ["a"; "b"] |})
  /\ (0 <= 1)%Q
  /\ (0 <= 40)%Z
  /\ Progress.waitWithProgress Progress.ticking 1 (-5) "Warte ..." 40 true
       {| Progress.at_ms := 0; Progress.logs := ["a"; "b"] |}
     = Progress.Finished {| Progress.at_ms := 2; Progress.logs := ["a"; "b"] |}
         [Progress.ClearLog; Progress.PrintHistory ["a"; "b"];
          Progress.PrintBar "Warte ..." 40 0 0].
Proof.
  assert (-5 <= 0)%Q as H1 by lra.
  assert (Progress.performance_now Progress.ticking
            {| Progress.at_ms := 0; Progress.logs := ["a"; "b"] |}
          = (0%Q, {| Progress.at_ms := 1; Progress.logs := ["a"; "b"] |})) as H2
    by reflexivity.
  assert (Progress.performance_now Progress.ticking
            {| Progress.at_ms := 1; Progress.logs := ["a"; "b"] |}
          = (1%Q, {| Progress.at_ms := 2; Progress.logs := ["a"; "b"] |})) as H3
    by reflexivity.
  assert (0 <= 1)%Q as H4 by lra.
  assert (0 <= 40)%Z as H5 by lia.
  repeat (split; [assumption|]).
  exact (wait_of_no_time Progress.ticking 0 (-5) "Warte ..." 40 true _ _ _ 0 1
                         H1 H2 H3 H4 H5).
Defined.

Example progress_bar_run :
  Progress.events
    (Progress.waitWithProgress Progress.ticking 10 500 "Warte ..." 40 false
                               {| Progress.at_ms := 0; Progress.logs := ["x"] |})
  = [ Progress.ClearLog; Progress.PrintHistory ["x"];
      Progress.PrintBar "Warte ..." 0 40 1; Progress.Sleep 97;
      Progress.ClearLog; Progress.PrintHistory ["x"];
      Progress.PrintBar "Warte ..." 8 32 1; Progress.Sleep 197;
      Progress.ClearLog; Progress.PrintHistory ["x"];
      Progress.PrintBar "Warte ..." 24 16 1; Progress.Sleep 197;
      Progress.ClearLog; Progress.PrintHistory ["x"] ].
Proof. vm_compute. reflexivity. Qed.

(** ** The emergency stop *)

Section KillAllFacts.
Import Js Helper KillAll.
Context {W : Type} (ns : NSK W).

Lemma killed_app (tr1 tr2 : list Event) : killed (tr1 ++ tr2) = killed tr1 ++ killed tr2.
Proof. apply omap_app. Qed.

Lemma sleeps_app (tr1 tr2 : list Event) : sleeps (tr1 ++ tr2) = sleeps tr1 ++ sleeps tr2.
Proof. apply omap_app. Qed.

Lemma visits_killed (servers : list string) (w : W) (rooted : string -> bool) :
  (forall w h h', hasRootAccess (base ns) (snd (killall ns w h')) h
                  = hasRootAccess (base ns) w h) ->
  (forall w ms h, hasRootAccess (base ns) (sleep ns w ms) h = hasRootAccess (base ns) w h) ->
  (forall h, hasRootAccess (base ns) w h = rooted h) ->
  let (w', tr) := visits ns servers w in
  killed tr = filter (fun server => rooted server = true) servers
  /\ sleeps tr = replicate (length servers) 10%Q
  /\ (forall h, hasRootAccess (base ns) w' h = rooted h).
Proof.
  intros Hkill Hsleep. revert w.
  induction servers as [|server rest IH]; intros w Hw; simpl.
  - split; [reflexivity|]. split; [reflexivity | exact Hw].
  - unfold visit. rewrite Hw.
    destruct (rooted server) eqn:Er.
    + destruct (killall ns w server) as [scriptsKilled w1] eqn:Ek.
      assert (forall h, hasRootAccess (base ns) (sleep ns w1 10) h = rooted h) as Hw1.
      { intros h. rewrite Hsleep. specialize (Hkill w h server). rewrite Ek in Hkill.
        simpl in Hkill. rewrite Hkill. apply Hw. }
      specialize (IH _ Hw1).
      destruct (visits ns rest (sleep ns w1 10)) as [w2 tr2].
      destruct IH as (Hk & Hs & Hr).
      split; [|split; [|exact Hr]].
      * rewrite filter_cons_True by exact Er.
        rewrite !killed_app, Hk. simpl.
        destruct scriptsKilled; [reflexivity|].
        destruct (negb (String.eqb server "home")); reflexivity.
      * rewrite !sleeps_app, Hs. simpl.
        destruct scriptsKilled; [reflexivity|].
        destruct (negb (String.eqb server "home")); reflexivity.
    + assert (forall h, hasRootAccess (base ns) (sleep ns w 10) h = rooted h) as Hw1.
      { intros h. rewrite Hsleep. apply Hw. }
      specialize (IH _ Hw1).
      destruct (visits ns rest (sleep ns w 10)) as [w2 tr2].
      destruct IH as (Hk & Hs & Hr).
      split; [|split; [|exact Hr]].
      * rewrite filter_cons_False by (rewrite Er; discriminate). simpl. exact Hk.
      * simpl. rewrite Hs. reflexivity.
Qed.

(** X16.  Where neither [ns.killall] nor the sleeps change who has root
    access, [killAll] calls [ns.killall] once on every server of the crawl
    that has root access, [home] among them, in the order of the crawl, and
    on no other; and it sleeps 10 ms once for every server of the crawl,
    rooted or not. *)
Theorem kill_all_rooted (fuel : nat) (w : W) (servers : list string) :
  (forall w h h', hasRootAccess (base ns) (snd (killall ns w h')) h
                  = hasRootAccess (base ns) w h) ->
  (forall w ms h, hasRootAccess (base ns) (sleep ns w ms) h = hasRootAccess (base ns) w h) ->
  crawler (base ns) fuel w = Some servers ->
  exists w' tr,
    killAll ns fuel w = Some (w', tr)
    /\ killed tr = filter (fun server => hasRootAccess (base ns) w server = true) servers
    /\ sleeps tr = replicate (length servers) 10%Q.
Proof.
  intros Hkill Hsleep Hcrawl. unfold killAll. rewrite Hcrawl.
  pose proof (visits_killed servers w (hasRootAccess (base ns) w) Hkill Hsleep
                            ltac:(reflexivity)) as H.
  destruct (visits ns servers w) as [w' tr]. destruct H as (Hk & Hs & _).
  eexists _, _. split; [reflexivity|]. split.
  - rewrite !killed_app. simpl. rewrite app_nil_r. exact Hk.
  - rewrite !sleeps_app. simpl. rewrite app_nil_r. exact Hs.
Qed.

End KillAllFacts.

Lemma kill_all_rooted_idle :
  Helper.crawler (KillAll.base KillAll.idle) 10 Toy.world0
  = Some ["home"; "foodnstuff"; "n00dles"]
  /\ exists w' tr,
      KillAll.killAll KillAll.idle 10 Toy.world0 = Some (w', tr)
      /\ KillAll.killed tr
         = filter (fun server =>
                     Helper.hasRootAccess (KillAll.base KillAll.idle) Toy.world0 server = true)
                  ["home"; "foodnstuff"; "n00dles"]
      /\ KillAll.sleeps tr = replicate (length ["home"; "foodnstuff"; "n00dles"]) 10%Q.
Proof.
  assert (Helper.crawler (KillAll.base KillAll.idle) 10 Toy.world0
          = Some ["home"; "foodnstuff"; "n00dles"]) as H by (vm_compute; reflexivity).
  split; [exact H|].
  apply (kill_all_rooted KillAll.idle 10 Toy.world0 _); [reflexivity | reflexivity | exact H].
Defined.

(** ** Escape sequences and how they are stripped *)

Section AnsiFacts.
Import Js Ansi.

Lemma app_cons (c : ascii) (a b : string) : String c a +:+ b = String c (a +:+ b).
Proof. reflexivity. Qed.

Lemma app_nil_right (a : string) : a +:+ "" = a.
Proof. induction a as [|c a IH]; [reflexivity|]. rewrite app_cons, IH. reflexivity. Qed.

Lemma app_assoc_string (a b c : string) : (a +:+ b) +:+ c = a +:+ (b +:+ c).
Proof. induction a as [|x a IH]; [reflexivity|]. rewrite !app_cons, IH. reflexivity. Qed.

Lemma length_app_string (a b : string) :
  String.length (a +:+ b) = (String.length a + String.length b)%nat.
Proof. induction a as [|x a IH]; [reflexivity|]. rewrite app_cons. simpl. rewrite IH. reflexivity. Qed.

Lemma digit_differs (c0 c : ascii) :
  is_digit c0 = false -> is_digit c = true -> Ascii.eqb c0 c = false.
Proof.
  intros H0 H. destruct (Ascii.eqb_spec c0 c) as [->|]; [congruence | reflexivity].
Qed.

(** The loop over the digits of a number runs to its end and goes on
    there, where what follows accepts. *)
Lemma star_digits_accept (fuel : nat) (c0 : ascii) (K : string -> option string)
      (rest r : string) (ds : string) (n : nat) :
  is_digit c0 = false -> digits ds = true -> (String.length ds <= n)%nat ->
  K rest = Some r ->
  star (matchR fuel Digit) n (ds +:+ String c0 rest)
       (fun s' => matchR fuel (Chr c0) s' K) = Some r.
Proof.
  intros Hc0 Hds Hn HK. revert n Hn. induction ds as [|c ds IH]; intros n Hn.
  - change ("" +:+ String c0 rest) with (String c0 rest).
    destruct n as [|n]; simpl; rewrite ?Hc0, Ascii.eqb_refl; exact HK.
  - simpl in Hds. apply andb_prop in Hds as [Hc Hds].
    destruct n as [|n]; [simpl in Hn; lia|].
    rewrite app_cons. simpl. rewrite Hc.
    destruct (Nat.ltb_spec (String.length (ds +:+ String c0 rest))
                           (S (String.length (ds +:+ String c0 rest)))); [|lia].
    rewrite IH; [reflexivity | exact Hds | simpl in Hn; lia].
Qed.

(** It fails as a whole where a [;] has to follow and none does. *)
Lemma star_digits_reject (fuel : nat) (K : string -> option string) (rest : string)
      (n : nat) (ds : string) :
  digits ds = true ->
  star (matchR fuel Digit) n (ds +:+ String "m"%char rest)
       (fun s' => matchR fuel (Chr ";"%char) s' K) = None.
Proof.
  assert (forall ds, digits ds = true ->
            matchR fuel (Chr ";"%char) (ds +:+ String "m"%char rest) K = None) as Hk.
  { intros [|c ds'] Hds; [reflexivity|].
    rewrite app_cons. cbn [digits] in Hds. apply andb_prop in Hds as [Hc _].
    cbn [matchR]. rewrite (digit_differs ";"%char c eq_refl Hc). reflexivity. }
  revert ds. induction n as [|n IH]; intros ds Hds.
  - cbn [star]. apply Hk, Hds.
  - cbn [star]. destruct ds as [|c ds].
    + reflexivity.
    + pose proof (Hk _ Hds) as Hk'.
      cbn [digits] in Hds. apply andb_prop in Hds as [Hc Hds].
      rewrite app_cons in *. cbn [matchR] in *. rewrite Hc.
      cbn [String.length].
      destruct (Nat.ltb_spec (String.length (ds +:+ String "m"%char rest))
                             (S (String.length (ds +:+ String "m"%char rest)))); [|lia].
      rewrite (IH ds Hds). exact Hk'.
Qed.

Lemma number_accept (fuel : nat) (c0 : ascii) (K : string -> option string)
      (rest r : string) (c : ascii) (ds : string) :
  is_digit c0 = false -> is_digit c = true -> digits ds = true ->
  (String.length ds <= fuel)%nat -> K rest = Some r ->
  matchR fuel (Seq (Plus Digit) (Chr c0)) (String c ds +:+ String c0 rest) K = Some r.
Proof.
  intros Hc0 Hc Hds Hn HK. rewrite app_cons. unfold Plus. cbn [matchR]. rewrite Hc.
  apply (star_digits_accept fuel c0 K rest r ds fuel); assumption.
Qed.

Lemma number_reject (fuel : nat) (K : string -> option string) (rest : string)
      (c : ascii) (ds : string) :
  is_digit c = true -> digits ds = true ->
  matchR fuel (Seq (Plus Digit) (Chr ";"%char)) (String c ds +:+ String "m"%char rest) K
  = None.
Proof.
  intros Hc Hds. rewrite app_cons. unfold Plus. cbn [matchR]. rewrite Hc.
  apply (star_digits_reject fuel K rest fuel ds Hds).
Qed.

Lemma params_accept (fuel : nat) (rest p : string) (n : nat) :
  params p -> (String.length p <= n)%nat -> (String.length p <= fuel)%nat ->
  star (matchR fuel (Seq (Plus Digit) (Chr ";"%char))) n (p +:+ String "m"%char rest)
       (fun s' => matchR fuel (Seq (Plus Digit) (Chr "m"%char)) s' Some) = Some rest.
Proof.
  intros Hp. revert n. induction Hp as [c ds Hc Hds|c ds p Hc Hds Hp IH]; intros n Hn Hfuel.
  - assert (matchR fuel (Seq (Plus Digit) (Chr "m"%char))
                   (String c ds +:+ String "m"%char rest) Some = Some rest) as Hlast.
    { apply number_accept; try assumption; try reflexivity. simpl in Hfuel. lia. }
    destruct n as [|n]; [exact Hlast|].
    cbn [star]. rewrite number_reject by assumption. exact Hlast.
  - assert ((String c ds +:+ ";" +:+ p) +:+ String "m"%char rest
            = String c ds +:+ String ";"%char (p +:+ String "m"%char rest)) as ->
      by (rewrite app_assoc_string; reflexivity).
    assert (String.length (String c ds +:+ ";" +:+ p)
            = S (String.length ds + S (String.length p))) as Elen
      by (rewrite app_cons; cbn [String.length]; rewrite length_app_string; reflexivity).
    rewrite Elen in Hn, Hfuel.
    destruct n as [|n]; [lia|].
    cbn [star].
    match goal with
    | |- match matchR fuel _ _ ?K with _ => _ end = _ =>
        rewrite (number_accept fuel ";"%char K (p +:+ String "m"%char rest) rest c ds);
          try assumption; try reflexivity; [lia|]
    end.
    rewrite app_cons. cbn [String.length]. rewrite !length_app_string.
    cbn [String.length]. rewrite length_app_string. cbn [String.length].
    destruct (Nat.ltb_spec (String.length p + S (String.length rest))
                           (S (String.length ds
                               + S (String.length p + S (String.length rest))))); [|lia].
    apply IH; lia.
Qed.

Lemma exec_sequence (p rest : string) :
  params p ->
  exec ansi_sequence (String ESC (String "["%char (p +:+ String "m"%char rest)))
  = Some rest.
Proof.
  intros Hp. unfold exec, ansi_sequence.
  set (fuel := String.length (String ESC (String "["%char (p +:+ String "m"%char rest)))).
  assert (String.length p <= fuel)%nat as Hfuel.
  { subst fuel. simpl. rewrite length_app_string. lia. }
  cbn [matchR]. rewrite !Ascii.eqb_refl.
  apply params_accept; assumption.
Qed.

Lemma exec_plain (c : ascii) (s : string) :
  Ascii.eqb c ESC = false -> exec ansi_sequence (String c s) = None.
Proof.
  intros H. unfold exec, ansi_sequence. cbn [matchR].
  rewrite Ascii.eqb_sym, H. reflexivity.
Qed.

Lemma replace_all_empty (fuel : nat) (r : Regex) : replace_all fuel r "" = "".
Proof. destruct fuel; reflexivity. Qed.

(** More steps than the string has characters change nothing. *)
Lemma replace_all_enough (r : Regex) (n m : nat) (s : string) :
  (String.length s <= n)%nat -> (String.length s <= m)%nat ->
  replace_all n r s = replace_all m r s.
Proof.
  revert m s. induction n as [|n IH]; intros m s Hn Hm.
  - destruct s; [symmetry; apply replace_all_empty | simpl in Hn; lia].
  - destruct s as [|c s]; [symmetry; apply replace_all_empty|].
    destruct m as [|m]; [simpl in Hm; lia|]. simpl in Hn, Hm.
    cbn [replace_all String.length].
    destruct (exec r (String c s)) as [rest|].
    + destruct (Nat.ltb_spec (String.length rest) (S (String.length s))).
      * apply IH; lia.
      * f_equal. apply IH; lia.
    + f_equal. apply IH; lia.
Qed.

Lemma replace_all_fuel (r : Regex) (n : nat) (s : string) :
  (String.length s <= n)%nat -> replace_all n r s = replace_all (String.length s) r s.
Proof. intros H. apply replace_all_enough; [exact H | lia]. Qed.

Lemma strip_plain_prefix (t1 t2 : string) :
  plain t1 = true -> stripFormatting (t1 +:+ t2) = t1 +:+ stripFormatting t2.
Proof.
  intros H1. induction t1 as [|c t1 IH]; [reflexivity|].
  simpl in H1. apply andb_prop in H1 as [Hc H1]. apply Bool.negb_true_iff in Hc.
  rewrite !app_cons. unfold stripFormatting. cbn [String.length replace_all].
  rewrite (exec_plain c _ Hc). f_equal. apply IH, H1.
Qed.

Lemma replace_all_match (n : nat) (r : Regex) (c : ascii) (s rest : string) :
  exec r (String c s) = Some rest ->
  (String.length rest < S (String.length s))%nat ->
  replace_all (S n) r (String c s) = replace_all n r rest.
Proof.
  intros He Hlen. cbn [replace_all String.length]. rewrite He.
  destruct (Nat.ltb_spec (String.length rest) (S (String.length s))); [reflexivity | lia].
Qed.

Lemma strip_sequence (p rest : string) :
  params p ->
  stripFormatting (String ESC (String "["%char (p +:+ String "m"%char rest)))
  = stripFormatting rest.
Proof.
  intros Hp. unfold stripFormatting.
  change (String.length (String ESC (String "["%char (p +:+ String "m"%char rest))))
    with (S (S (String.length (p +:+ String "m"%char rest)))).
  rewrite (replace_all_match _ _ _ _ rest (exec_sequence p rest Hp)).
  - apply replace_all_fuel. rewrite length_app_string. cbn [String.length]. lia.
  - cbn [String.length]. rewrite length_app_string. cbn [String.length]. lia.
Qed.

Lemma params_app (a b : string) : params a -> params b -> params (a +:+ ";" +:+ b).
Proof.
  intros Ha Hb. induction Ha as [c ds Hc Hds|c ds p Hc Hds Hp IH].
  - apply params_more; assumption.
  - rewrite app_assoc_string.
    change ((";" +:+ p) +:+ ";" +:+ b) with (";" +:+ (p +:+ ";" +:+ b)).
    apply params_more; assumption.
Qed.

Lemma params_join (l : list string) :
  l <> [] -> Forall params l -> params (join ";" l).
Proof.
  intros Hne Hall. induction Hall as [|x l Hx Hall IH]; [contradiction|].
  destruct l as [|y l]; [exact Hx|].
  change (join ";" (x :: y :: l)) with (x +:+ ";" +:+ join ";" (y :: l)).
  apply params_app; [exact Hx|]. apply IH. discriminate.
Qed.

Lemma pretty_N_char_digit (x : N) : is_digit (pretty_N_char x) = true.
Proof. unfold pretty_N_char. repeat case_match; reflexivity. Qed.

Lemma pretty_N_go_digits (x : N) (s : string) :
  digits s = true -> digits (pretty_N_go x s) = true.
Proof.
  revert s. induction (N.lt_wf_0 x) as [x _ IH]; intros s Hs.
  destruct (decide (x = 0)%N) as [->|Hx]; [rewrite pretty_N_go_0; exact Hs|].
  rewrite pretty_N_go_step by lia. apply IH.
  - apply N.div_lt; lia.
  - cbn [digits]. rewrite pretty_N_char_digit. exact Hs.
Qed.

Lemma pretty_N_go_length (x : N) (s : string) :
  (String.length s <= String.length (pretty_N_go x s))%nat.
Proof.
  revert s. induction (N.lt_wf_0 x) as [x _ IH]; intros s.
  destruct (decide (x = 0)%N) as [->|Hx]; [rewrite pretty_N_go_0; lia|].
  rewrite pretty_N_go_step by lia.
  etransitivity; [|apply IH; apply N.div_lt; lia]. cbn [String.length]. lia.
Qed.

Lemma params_pretty (n : N) : params (pretty n).
Proof.
  assert (digits (pretty n) = true /\ pretty n <> "") as [Hd Hne].
  { unfold pretty, pretty_N. destruct (decide (n = 0)%N) as [->|Hn].
    - split; [reflexivity | discriminate].
    - split; [apply pretty_N_go_digits; reflexivity|].
      rewrite pretty_N_go_step by lia. intros E.
      pose proof (pretty_N_go_length (n `div` 10)%N
                    (String (pretty_N_char (n `mod` 10)%N) "")) as Hlen.
      rewrite E in Hlen. cbn [String.length] in Hlen. lia. }
  destruct (pretty n) as [|c ds]; [contradiction|].
  cbn [digits] in Hd. apply andb_prop in Hd as [Hc Hds].
  apply params_one; assumption.
Qed.

Lemma params_color (color : N) : params (fg color) /\ params (bg color).
Proof.
  split.
  - change (fg color) with ("38" +:+ ";" +:+ ("5" +:+ ";" +:+ pretty color)).
    apply params_app; [apply params_one; reflexivity|].
    apply params_app; [apply params_one; reflexivity | apply params_pretty].
  - change (bg color) with ("48" +:+ ";" +:+ ("5" +:+ ";" +:+ pretty color)).
    apply params_app; [apply params_one; reflexivity|].
    apply params_app; [apply params_one; reflexivity | apply params_pretty].
Qed.

Lemma strip_skip (c : ascii) (s : string) :
  exec ansi_sequence (String c s) = None ->
  stripFormatting (String c s) = String c (stripFormatting s).
Proof.
  intros H. unfold stripFormatting. cbn [String.length replace_all]. rewrite H.
  reflexivity.
Qed.

(** X17.  [stripFormatting] undoes [formatter]: for codes that are numbers,
    colours from [Ansi.fg] and [Ansi.bg], or other strings of numbers
    separated by [;], at least one of them, and a text without escape
    character, stripping the formatted text gives the text back.  Without
    any code the opening sequence has no number in it, and is not
    stripped. *)
Theorem strip_undoes_formatter (codes : list Code) (text : string) :
  plain text = true ->
  (forall color, params (fg color) /\ params (bg color))
  /\ (forall n, params (toString (Num n)))
  /\ (codes <> [] -> Forall (fun c => params (toString c)) codes ->
      stripFormatting (formatter codes text) = text)
  /\ stripFormatting (formatter [] text) = String ESC ("[m" +:+ text).
Proof.
  intros Htext.
  assert (stripFormatting (text +:+ resetSeq) = text) as Htail.
  { rewrite strip_plain_prefix by exact Htext.
    change resetSeq with (String ESC (String "["%char ("0" +:+ String "m"%char ""))).
    rewrite strip_sequence by (apply params_one; reflexivity).
    apply app_nil_right. }
  split; [apply params_color|]. split; [intros n; apply params_pretty|]. split.
  - intros Hne Hall. unfold formatter, code. rewrite !app_cons.
    rewrite app_assoc_string.
    change ("m" +:+ text +:+ resetSeq) with (String "m"%char (text +:+ resetSeq)).
    rewrite strip_sequence; [exact Htail|].
    apply params_join.
    + destruct codes; [contradiction | discriminate].
    + apply Forall_map. exact Hall.
  - change (formatter [] text)
      with (String ESC (String "["%char (String "m"%char (text +:+ resetSeq)))).
    rewrite strip_skip by reflexivity.
    rewrite strip_skip by reflexivity.
    rewrite strip_skip by reflexivity.
    rewrite Htail. reflexivity.
Qed.

End AnsiFacts.

Lemma strip_undoes_formatter_red :
  Ansi.plain "ERROR in spider" = true
  /\ (forall color, Ansi.params (Ansi.fg color) /\ Ansi.params (Ansi.bg color))
  /\ (forall n, Ansi.params (Ansi.toString (Ansi.Num n)))
  /\ ([Ansi.Num Ansi.bold; Ansi.Str (Ansi.fg 1)] <> [] ->
      Forall (fun c => Ansi.params (Ansi.toString c)) [Ansi.Num Ansi.bold; Ansi.Str (Ansi.fg 1)] ->
      Ansi.stripFormatting
        (Ansi.formatter [Ansi.Num Ansi.bold; Ansi.Str (Ansi.fg 1)] "ERROR in spider")
      = "ERROR in spider")
  /\ Ansi.stripFormatting (Ansi.formatter [] "ERROR in spider")
     = String Ansi.ESC ("[m" +:+ "ERROR in spider").
Proof.
  assert (Ansi.plain "ERROR in spider" = true) as H by reflexivity.
  split; [exact H|].
  exact (strip_undoes_formatter [Ansi.Num Ansi.bold; Ansi.Str (Ansi.fg 1)] "ERROR in spider" H).
Defined.

Example strip_formatted_example :
  Ansi.formatter [Ansi.Num Ansi.bold; Ansi.Str (Ansi.fg 1)] "x"
  = String Ansi.ESC ("[1;38;5;1mx" +:+ String Ansi.ESC "[0m")
  /\ Ansi.stripFormatting (Ansi.formatter [Ansi.Num Ansi.bold; Ansi.Str (Ansi.fg 1)] "x") = "x".
Proof. split; vm_compute; reflexivity. Qed.

(** ** The colour cube *)

Section RgbFacts.
Import Js Ansi.

(** X18.  [Ansi.rgb(r, g, b)] throws exactly where one of the three lies
    outside 0 to 5, naming the first that does.  Otherwise it returns, in
    decimal, an index between 16 and 231, and different triples get
    different indices. *)
Theorem rgb_cube (r g b : Z) :
  ((exists msg, rgb r g b = Threw msg)
   <-> ~ (0 <= r <= 5 /\ 0 <= g <= 5 /\ 0 <= b <= 5))
  /\ (rgb r g b = Threw "r must be between 0 and 5" <-> ~ 0 <= r <= 5)
  /\ (0 <= r <= 5 -> 0 <= g <= 5 -> 0 <= b <= 5 ->
      exists n, rgb r g b = Returned (pretty n)
                /\ n = 16 + 36 * r + 6 * g + b
                /\ 16 <= n <= 231
                /\ forall r' g' b',
                     0 <= r' <= 5 -> 0 <= g' <= 5 -> 0 <= b' <= 5 ->
                     rgb r' g' b' = rgb r g b -> r' = r /\ g' = g /\ b' = b).
Proof.
  assert (forall r g b, 0 <= r <= 5 -> 0 <= g <= 5 -> 0 <= b <= 5 ->
            rgb r g b = Returned (pretty (16 + (r * 36 + g * 6 + b)))) as Hok.
  { intros r0 g0 b0 Hr Hg Hb. unfold rgb.
    destruct (Z.ltb_spec r0 0); [lia|]. destruct (Z.ltb_spec 5 r0); [lia|].
    destruct (Z.ltb_spec g0 0); [lia|]. destruct (Z.ltb_spec 5 g0); [lia|].
    destruct (Z.ltb_spec b0 0); [lia|]. destruct (Z.ltb_spec 5 b0); [lia|].
    reflexivity. }
  split; [|split].
  - unfold rgb.
    destruct (Z.ltb_spec r 0); simpl; [split; [lia | eauto]|].
    destruct (Z.ltb_spec 5 r); simpl; [split; [lia | eauto]|].
    destruct (Z.ltb_spec g 0); simpl; [split; [lia | eauto]|].
    destruct (Z.ltb_spec 5 g); simpl; [split; [lia | eauto]|].
    destruct (Z.ltb_spec b 0); simpl; [split; [lia | eauto]|].
    destruct (Z.ltb_spec 5 b); simpl; [split; [lia | eauto]|].
    split; [intros [msg E]; discriminate E | lia].
  - unfold rgb.
    destruct (Z.ltb_spec r 0); simpl; [split; [lia | reflexivity]|].
    destruct (Z.ltb_spec 5 r); simpl; [split; [lia | reflexivity]|].
    split; [|lia].
    destruct ((g <? 0) || (5 <? g)); [discriminate|].
    destruct ((b <? 0) || (5 <? b)); discriminate.
  - intros Hr Hg Hb. exists (16 + (r * 36 + g * 6 + b)).
    split; [apply Hok; assumption|]. split; [lia|]. split; [lia|].
    intros r' g' b' Hr' Hg' Hb' E.
    rewrite (Hok r' g' b'), (Hok r g b) in E by assumption.
    injection E as E. apply (inj pretty) in E. lia.
Qed.

End RgbFacts.

(** ** The spider *)

Section SpiderFacts.
Import Js Config Spider.
Context {W : Type} (ns : NS W) (B : Builtins) (level_debug : bool).

Lemma calls_app (a b : list Event) : calls (a ++ b) = calls a ++ calls b.
Proof. unfold calls. apply filter_app. Qed.

Lemma calls_debug (m : Message) : calls (debug level_debug m) = [].
Proof. unfold debug. destruct level_debug; reflexivity. Qed.

Lemma cracks_calls (portHacker : list string) (id : Value) (w : W) :
  calls (snd (cracks ns level_debug portHacker id w))
  = map (fun c => Crack (slice_0_minus4 (toLowerCase c)) id) portHacker.
Proof.
  revert w. induction portHacker as [|c rest IH]; intros w; [reflexivity|].
  cbn [cracks map].
  specialize (IH (crack ns w (slice_0_minus4 (toLowerCase c)) id)).
  destruct (cracks ns level_debug rest id _) as [w' tr]. cbn [snd] in *.
  rewrite calls_app, calls_debug. cbn [app]. unfold calls in *.
  rewrite filter_cons_True by reflexivity. rewrite IH. reflexivity.
Qed.

(** X19.  What [make2Bot] does to get a server.  Where the server data say
    root access is there, it returns true and calls nothing.  Where it
    returns false, it has called nothing either.  Otherwise it ends with one
    [ns.nuke] on the server, which is either its only call or comes after
    every available port hacker was run on the server, in the order of
    [portHackerSet]; port hackers are run only where enough of them are
    available and the hacking level suffices.  A server that needs no open
    port is taken whatever level it asks for. *)
Theorem make2bot_acquires (server : Value) (portHacker : list string) (w w' : W)
        (r : bool) (tr : list Event) :
  make2Bot ns level_debug server portHacker w = Some (r, w', tr) ->
  let id := prop server "id" in
  let armed := map (fun c => Crack (slice_0_minus4 (toLowerCase c)) id) portHacker in
  (truthy (prop server "hasRootAccess") = true -> r = true /\ w' = w /\ calls tr = [])
  /\ (r = false -> w' = w /\ calls tr = [])
  /\ (truthy (prop server "hasRootAccess") = false -> r = true ->
      calls tr = [Nuke id]
      \/ (calls tr = armed ++ [Nuke id]
          /\ exists ports needed,
               to_number (prop server "requiredPorts") = Some ports
               /\ num_le ports (Finite (inject_Z (Z.of_nat (length portHacker)))) = true
               /\ to_number (prop server "neededLevel") = Some needed
               /\ num_le needed (Finite (getHackingLevel ns w)) = true))
  /\ (forall q, prop server "requiredPorts" = VNum (Finite q) -> (q == 0)%Q -> r = true).
Proof.
  intros H id armed. unfold make2Bot in H. fold id in H.
  assert (forall q, prop server "requiredPorts" = VNum (Finite q) -> (q == 0)%Q ->
                    eqb q 0 = true) as Hzero by (intros q _ Hq; apply eqb_eq, Hq).
  set (direct := match prop server "requiredPorts" with
                 | VNum (Finite q) =>
                     if eqb q 0
                     then (true, nuke ns w id, debug level_debug (DirectNuke id) ++ [Nuke id])
                     else (false, w, [])
                 | _ => (false, w, [])
                 end) in H.
  assert (forall r0 w0 tr0, direct = (r0, w0, tr0) ->
            (r0 = false -> w0 = w /\ calls tr0 = [])
            /\ (r0 = true -> calls tr0 = [Nuke id])
            /\ (forall q, prop server "requiredPorts" = VNum (Finite q) -> (q == 0)%Q ->
                           r0 = true)) as Hdirect.
  { intros r0 w0 tr0 E. subst direct.
    destruct (prop server "requiredPorts") as [| | |[q| | |]| | | | | |] eqn:Ep;
      try (injection E as <- <- <-; split; [auto|]; split; [discriminate|];
           intros q0 [=]).
    destruct (eqb q 0) eqn:E0.
    + injection E as <- <- <-. split; [discriminate|]. split; [|auto].
      intros _. rewrite calls_app, calls_debug. reflexivity.
    + injection E as <- <- <-. split; [auto|]. split; [discriminate|].
      intros q0 [= <-] Hq. apply eqb_eq in Hq. congruence. }
  destruct (truthy (prop server "hasRootAccess")) eqn:Eroot.
  - injection H as <- <- <-. rewrite calls_debug.
    split; [auto|]. split; [discriminate|]. split; [discriminate|]. auto.
  - split; [discriminate|].
    destruct (to_number (prop server "requiredPorts")) as [ports|] eqn:Eports;
      [|discriminate]. cbn [mbind option_bind] in H.
    destruct (num_le ports _) eqn:Ele.
    + destruct (to_number (prop server "neededLevel")) as [needed|] eqn:Eneeded;
        [|discriminate]. cbn [mbind option_bind] in H.
      destruct (num_le needed _) eqn:Elevel.
      * pose proof (cracks_calls portHacker id w) as Hc.
        destruct (cracks ns level_debug portHacker id w) as [w1 tr1]. cbn [snd] in Hc.
        injection H as <- <- <-.
        split; [discriminate|]. split; [|auto].
        intros _ _. right. split.
        -- rewrite !calls_app, calls_debug, Hc. reflexivity.
        -- exists ports, needed. auto.
      * injection H as H. destruct (Hdirect _ _ _ H) as (Hf & Ht & Hz).
        split; [exact Hf|]. split; [|exact Hz]. intros _ Hr. left. apply Ht, Hr.
    + injection H as H. destruct (Hdirect _ _ _ H) as (Hf & Ht & Hz).
      split; [exact Hf|]. split; [|exact Hz]. intros _ Hr. left. apply Ht, Hr.
Qed.


Local Open Scope Q_scope.

Lemma max0_nonneg (a : Number) (u : Q) : max0 a = Finite u -> 0 <= u.
Proof.
  destruct a as [x| | |]; simpl; try discriminate.
  - intros [= <-]. apply Math_max_l.
  - intros [= <-]. lra.
Qed.

Lemma slots_bounds (f m : Q) :
  0 <= f <= m ->
  (0 <= Math_floor (f / 1.75) <= Math_floor (m / 1.75))%Z
  /\ inject_Z (Math_floor (f / 1.75)) * 1.75 <= f.
Proof.
  intros [Hf Hm]. unfold Math_floor.
  assert (0 <= f / 1.75) as H0 by (apply Qle_shift_div_l; lra).
  assert (f / 1.75 <= m / 1.75) as H1
    by (apply Qle_shift_div_l; [lra|]; field_simplify; lra).
  split; [split|].
  - change 0%Z with (Qfloor 0). apply Qfloor_resp_le, H0.
  - apply Qfloor_resp_le, H1.
  - pose proof (Qfloor_le (f / 1.75)) as Hfl.
    apply (Qmult_le_compat_r _ _ 1.75) in Hfl; [|lra].
    eapply Qle_trans; [exact Hfl|]. field_simplify. lra.
Qed.

(** X20.  The memory [peekIntoServer] reports.  Free memory is what is
    offered less what is used, cut at zero, and the slots are the whole
    multiples of 1.75 GB in each; where used and offered memory are finite
    numbers, none of the figures is negative, free memory does not exceed
    what is offered, and free slots neither exceed the slots offered nor the
    free memory.  A server other than [home] offers its [maxRam], [home]
    offers it less [Settings.reservedHomeRam], both cut at zero.  For [home]
    the used memory is read from the property [usedRam] of the server
    object: where the object has no such property, used and free memory and
    the free slots are [NaN]. *)
Theorem peek_ram_accounting (c : Settings.Class) (w : W) (hostname : string)
        (serverData : Value) (tr : list Event) :
  peekIntoServer ns B level_debug c w hostname = Some (serverData, tr) ->
  let data := getServer ns w hostname in
  exists used offered free,
    prop (prop serverData "ram") "used" = VNum used
    /\ prop (prop serverData "ram") "max" = VNum offered
    /\ prop (prop serverData "ram") "free" = VNum free
    /\ prop (prop serverData "slots") "max" = VNum (slotsIn offered)
    /\ prop (prop serverData "slots") "free" = VNum (slotsIn free)
    /\ free = max0 (minus offered used)
    /\ (forall u m, used = Finite u -> offered = Finite m ->
        exists f sm sf,
          free = Finite f /\ 0 <= u /\ 0 <= f <= m /\ m - u <= f
          /\ slotsIn offered = Finite (inject_Z sm)
          /\ slotsIn free = Finite (inject_Z sf)
          /\ (0 <= sf <= sm)%Z /\ inject_Z sf * 1.75 <= f)
    /\ (Settings.property data "hostname" <> VStr "home" ->
        forall m, Settings.property data "maxRam" = VNum (Finite m) ->
                  offered = Finite (Math_max 0 m))
    /\ (Settings.property data "hostname" = VStr "home" ->
        (forall m r, Settings.property data "maxRam" = VNum (Finite m) ->
                     Settings.reservedHomeRam B c = Some (VNum (Finite r)) ->
                     offered = Finite (Math_max 0 (m - r)))
        /\ (Settings.property data "usedRam" = VUndefined ->
            used = NaN /\ free = NaN /\ slotsIn free = NaN)).
Proof.
  intros H data. unfold peekIntoServer in H. fold data in H.
  set (isHome := match Settings.property data "hostname" with
                 | VStr s => String.eqb s "home"
                 | _ => false
                 end) in H.
  set (scriptRam := getScriptRam ns w (getScriptName ns w)) in H.
  destruct (if isHome
            then u ← to_number (Settings.property data "usedRam");
                 Some (minus u (Finite scriptRam))
            else to_number (Settings.property data "ramUsed")) as [used|] eqn:Eused;
    [|discriminate].
  cbn [mbind option_bind] in H.
  destruct (if isHome
            then reserved ← Settings.reservedHomeRam B c;
                 t ← to_number (Settings.property data "maxRam");
                 r ← to_number reserved;
                 Some (minus t r)
            else to_number (Settings.property data "maxRam")) as [offered|] eqn:Eoff;
    [|discriminate].
  cbn [mbind option_bind] in H. injection H as <- _.
  exists (max0 used), (max0 offered), (max0 (minus (max0 offered) (max0 used))).
  split; [reflexivity|]. split; [reflexivity|]. split; [reflexivity|].
  split; [reflexivity|]. split; [reflexivity|]. split; [reflexivity|].
  split; [|split].
  - intros u m Hu Hm.
    pose proof (max0_nonneg _ _ Hu) as Hu0. pose proof (max0_nonneg _ _ Hm) as Hm0.
    rewrite Hu, Hm. cbn [minus max0 slotsIn].
    assert (0 <= Math_max 0 (m - u) <= m) as Hf.
    { split; [apply Math_max_l|]. unfold Math_max. destruct (ltb 0 (m - u)); lra. }
    destruct (slots_bounds _ _ Hf) as (Hs & Hfl).
    exists (Math_max 0 (m - u)), (Math_floor (m / 1.75)),
           (Math_floor (Math_max 0 (m - u) / 1.75)).
    split; [reflexivity|]. split; [exact Hu0|]. split; [exact Hf|].
    split; [apply Math_max_r|]. split; [reflexivity|]. split; [reflexivity|].
    split; [exact Hs | exact Hfl].
  - intros Hne m Hm.
    assert (isHome = false) as ->.
    { subst isHome. destruct (Settings.property data "hostname"); try reflexivity.
      destruct (String.eqb_spec s "home"); [congruence | reflexivity]. }
    rewrite Hm in Eoff. injection Eoff as <-. reflexivity.
  - intros Hhome.
    assert (isHome = true) as -> by (subst isHome; rewrite Hhome; reflexivity).
    split.
    + intros m r Hm Hr. rewrite Hr, Hm in Eoff. injection Eoff as <-. reflexivity.
    + intros Hu. rewrite Hu in Eused. injection Eused as <-.
      cbn [max0]. destruct (max0 offered); auto.
Qed.


Lemma copied_to_app (a b : list Event) : copied_to (a ++ b) = copied_to a ++ copied_to b.
Proof. unfold copied_to. apply omap_app. Qed.

Lemma copied_to_debug (m : Message) : copied_to (debug level_debug m) = [].
Proof. unfold debug. destruct level_debug; reflexivity. Qed.

Lemma cracks_copied (portHacker : list string) (id : Value) (w : W) :
  copied_to (snd (cracks ns level_debug portHacker id w)) = [].
Proof.
  revert w. induction portHacker as [|c rest IH]; intros w; [reflexivity|].
  cbn [cracks].
  specialize (IH (crack ns w (slice_0_minus4 (toLowerCase c)) id)).
  destruct (cracks ns level_debug rest id _) as [w' tr]. cbn [snd] in *.
  rewrite copied_to_app, copied_to_debug. exact IH.
Qed.

Lemma make2Bot_copied (server : Value) (portHacker : list string) (w w' : W) (r : bool)
      (tr : list Event) :
  make2Bot ns level_debug server portHacker w = Some (r, w', tr) -> copied_to tr = [].
Proof.
  unfold make2Bot.
  set (direct := match prop server "requiredPorts" with
                 | VNum (Finite q) => _
                 | _ => _
                 end).
  assert (copied_to (snd direct) = []) as Hdirect.
  { subst direct. destruct (prop server "requiredPorts") as [| | |[q| | |]| | | | | |];
      try reflexivity.
    destruct (eqb q 0); [|reflexivity]. cbn [snd].
    rewrite copied_to_app, copied_to_debug. reflexivity. }
  destruct (truthy _).
  - intros [= <- <- <-]. apply copied_to_debug.
  - destruct (to_number (prop server "requiredPorts")) as [ports|]; [|discriminate].
    cbn [mbind option_bind]. destruct (num_le ports _).
    + destruct (to_number (prop server "neededLevel")) as [needed|]; [|discriminate].
      cbn [mbind option_bind]. destruct (num_le needed _).
      * pose proof (cracks_copied portHacker (prop server "id") w) as Hc.
        destruct (cracks ns level_debug portHacker _ w) as [w1 tr1]. cbn [snd] in Hc.
        intros [= <- <- <-]. rewrite !copied_to_app, Hc, copied_to_debug. reflexivity.
      * intros [= E]. rewrite E in Hdirect. exact Hdirect.
    + intros [= E]. rewrite E in Hdirect. exact Hdirect.
Qed.

Lemma deploy_copied (scripts : list string) (hostname : string) (result : bool) (w : W) :
  copied_to (snd (deploy ns scripts hostname result w)) = map (fun _ => hostname) scripts.
Proof.
  revert result w. induction scripts as [|script rest IH]; intros result w; [reflexivity|].
  cbn [deploy map]. destruct (scp ns w script hostname "home") as [lineResult w1].
  specialize (IH (result && lineResult) w1).
  destruct (deploy ns rest hostname (result && lineResult) w1) as [[r w2] tr].
  cbn [snd] in *.
  change (Scp script hostname lineResult
            :: (if lineResult then [] else [Warn (NotCopied script hostname)]) ++ tr)
    with ([Scp script hostname lineResult]
            ++ (if lineResult then [] else [Warn (NotCopied script hostname)]) ++ tr).
  rewrite !copied_to_app, IH. destruct lineResult; reflexivity.
Qed.

Lemma has_connections (w : W) (visited : list string) (hostname : string) :
  has (map (connections ns w) visited) hostname = bool_decide (hostname ∈ visited).
Proof.
  unfold has. induction visited as [|x l IH]; [reflexivity|].
  cbn [map fst connections existsb same_value_zero]. rewrite IH.
  destruct (String.eqb_spec hostname x) as [->|Hne].
  - symmetry. apply bool_decide_eq_true. left.
  - cbn [orb]. apply bool_decide_ext. rewrite elem_of_cons. tauto.
Qed.

Lemma map_set_new_host (m : list (Value * Value)) (hosts : list string) (hostname : string)
      (x : Value) :
  map fst m = map VStr hosts -> hostname ∉ hosts ->
  map_set m (VStr hostname) x = m ++ [(VStr hostname, x)].
Proof.
  intros Hm Hn. apply map_set_fresh. intros e He.
  apply (in_map fst) in He. rewrite Hm in He. apply in_map_iff in He as (h & <- & Hh).
  cbn [same_value_zero]. destruct (String.eqb_spec hostname h) as [->|]; [|reflexivity].
  exfalso. apply Hn. apply list_elem_of_In. exact Hh.
Qed.

Section StaticNetwork.

(** The links between the servers are not changed by what the spider
    does. *)
Hypothesis Hcrack : forall w method v h,
  Helper.scan (base ns) (crack ns w method v) h = Helper.scan (base ns) w h.
Hypothesis Hnuke : forall w v h,
  Helper.scan (base ns) (nuke ns w v) h = Helper.scan (base ns) w h.
Hypothesis Hscp : forall w script h1 h2 h,
  Helper.scan (base ns) (snd (scp ns w script h1 h2)) h = Helper.scan (base ns) w h.

Lemma cracks_scan (portHacker : list string) (id : Value) (w : W) (h : string) :
  Helper.scan (base ns) (fst (cracks ns level_debug portHacker id w)) h
  = Helper.scan (base ns) w h.
Proof.
  revert w. induction portHacker as [|c rest IH]; intros w; [reflexivity|].
  cbn [cracks].
  specialize (IH (crack ns w (slice_0_minus4 (toLowerCase c)) id)).
  destruct (cracks ns level_debug rest id _) as [w' tr]. cbn [fst] in *.
  rewrite IH. apply Hcrack.
Qed.

Lemma make2Bot_scan (server : Value) (portHacker : list string) (w w' : W) (r : bool)
      (tr : list Event) (h : string) :
  make2Bot ns level_debug server portHacker w = Some (r, w', tr) ->
  Helper.scan (base ns) w' h = Helper.scan (base ns) w h.
Proof.
  unfold make2Bot.
  set (direct := match prop server "requiredPorts" with
                 | VNum (Finite q) => _
                 | _ => _
                 end).
  assert (Helper.scan (base ns) (snd (fst direct)) h = Helper.scan (base ns) w h) as Hdirect.
  { subst direct. destruct (prop server "requiredPorts") as [| | |[q| | |]| | | | | |];
      try reflexivity.
    destruct (eqb q 0); [|reflexivity]. cbn [fst snd]. apply Hnuke. }
  destruct (truthy _).
  - intros [= <- <- <-]. reflexivity.
  - destruct (to_number (prop server "requiredPorts")) as [ports|]; [|discriminate].
    cbn [mbind option_bind]. destruct (num_le ports _).
    + destruct (to_number (prop server "neededLevel")) as [needed|]; [|discriminate].
      cbn [mbind option_bind]. destruct (num_le needed _).
      * pose proof (cracks_scan portHacker (prop server "id") w h) as Hc.
        destruct (cracks ns level_debug portHacker _ w) as [w1 tr1]. cbn [fst] in Hc.
        intros [= <- <- <-]. rewrite Hnuke. exact Hc.
      * intros [= E]. rewrite E in Hdirect. exact Hdirect.
    + intros [= E]. rewrite E in Hdirect. exact Hdirect.
Qed.

Lemma deploy_scan (scripts : list string) (hostname : string) (result : bool) (w : W)
      (h : string) :
  Helper.scan (base ns) (snd (fst (deploy ns scripts hostname result w))) h
  = Helper.scan (base ns) w h.
Proof.
  revert result w. induction scripts as [|script rest IH]; intros result w; [reflexivity|].
  cbn [deploy]. pose proof (Hscp w script hostname "home" h) as Hs.
  destruct (scp ns w script hostname "home") as [lineResult w1]. cbn [snd] in Hs.
  specialize (IH (result && lineResult) w1).
  destruct (deploy ns rest hostname (result && lineResult) w1) as [[r w2] tr].
  cbn [fst snd] in *. rewrite IH. exact Hs.
Qed.


Variable c : Settings.Class.
Variable w0 : W.

(** The server objects and the reserved memory are of the types the spider
    calculates with. *)
Hypothesis Htyped : forall w h, well_typed (getServer ns w h) = true.
Hypothesis Hreserved : exists reserved,
  Settings.reservedHomeRam B c = Some reserved /\ numeric reserved = true.

Lemma numeric_Some (v : Value) : numeric v = true -> exists n, to_number v = Some n.
Proof. unfold numeric. destruct (to_number v); [eauto | discriminate]. Qed.

Lemma peek_modelled (w : W) (hostname : string) :
  exists serverData tr,
    peekIntoServer ns B level_debug c w hostname = Some (serverData, tr)
    /\ copied_to tr = []
    /\ numeric (prop serverData "requiredPorts") = true
    /\ numeric (prop serverData "neededLevel") = true.
Proof.
  pose proof (Htyped w hostname) as Ht. unfold well_typed in Ht.
  cbn [forallb] in Ht.
  apply andb_prop in Ht as [H1 Ht]. apply andb_prop in Ht as [H2 Ht].
  apply andb_prop in Ht as [H3 Ht]. apply andb_prop in Ht as [H4 Ht].
  apply andb_prop in Ht as [H5 _].
  destruct (numeric_Some _ H1) as (n1 & E1). destruct (numeric_Some _ H2) as (n2 & E2).
  destruct (numeric_Some _ H3) as (n3 & E3).
  destruct Hreserved as (reserved & Er & Hr). destruct (numeric_Some _ Hr) as (nr & Enr).
  unfold peekIntoServer. rewrite E1, E2, E3, Er.
  destruct (match Settings.property (getServer ns w hostname) "hostname" with
            | VStr s => String.eqb s "home"
            | _ => false
            end); cbn [mbind option_bind]; rewrite ?Enr; cbn [mbind option_bind];
    (eexists _, _; split; [reflexivity|]; split; [apply copied_to_debug|];
     split; [exact H4 | exact H5]).
Qed.

Lemma make2Bot_modelled (server : Value) (portHacker : list string) (w : W) :
  numeric (prop server "requiredPorts") = true ->
  numeric (prop server "neededLevel") = true ->
  exists r w' tr, make2Bot ns level_debug server portHacker w = Some (r, w', tr).
Proof.
  intros Hp Hl. destruct (numeric_Some _ Hp) as (ports & Ep).
  destruct (numeric_Some _ Hl) as (needed & El).
  unfold make2Bot. rewrite Ep, El. cbn [mbind option_bind].
  destruct (truthy _); [eauto|].
  destruct (num_le ports _); [destruct (num_le needed _)|].
  - destruct (cracks ns level_debug portHacker _ w); eauto.
  - match goal with |- exists r w' tr, Some ?d = _ => destruct d as [[r0 w1] tr0] end.
    eauto.
  - match goal with |- exists r w' tr, Some ?d = _ => destruct d as [[r0 w1] tr0] end.
    eauto.
Qed.

Lemma spider_follows_crawl (portHacker : list string) (fuel : nat) :
  forall (visited heap servers : list string) (botNet : list (Value * Value))
         (bots : list string) (w : W) (tr : list Event),
    Helper.crawl (base ns) fuel w0 visited heap = Some servers ->
    (forall h, Helper.scan (base ns) w h = Helper.scan (base ns) w0 h) ->
    map fst botNet = map VStr bots ->
    sublist bots visited ->
    copied_to tr = bots ≫= (fun h => [h; h; h]) ->
    exists botNet' bots' w' tr',
      spider ns B level_debug fuel portHacker heap botNet
             (map (connections ns w0) visited) w c tr
      = finish B botNet' (map (connections ns w0) servers) w' c tr'
      /\ map fst botNet' = map VStr bots'
      /\ sublist bots' servers
      /\ copied_to tr' = bots' ≫= (fun h => [h; h; h]).
Proof.
  induction fuel as [|fuel IH]; intros visited heap servers botNet bots w tr Hcrawl Hw
                                        Hkeys Hsub Hcopied; [discriminate|].
  cbn [Helper.crawl] in Hcrawl. cbn [spider].
  destruct heap as [|hostname stack].
  - injection Hcrawl as <-. exists botNet, bots, w, tr. auto.
  - rewrite has_connections.
    destruct (decide (hostname ∈ visited)) as [Hv|Hv].
    + rewrite bool_decide_eq_true_2 by exact Hv.
      apply (IH _ _ _ _ _ _ _ Hcrawl Hw Hkeys Hsub Hcopied).
    + rewrite bool_decide_eq_false_2 by exact Hv.
      destruct (peek_modelled w hostname) as (serverData & tr1 & -> & Hc1 & Hp & Hl).
      destruct (make2Bot_modelled serverData portHacker w Hp Hl)
        as (isBot & w1 & tr2 & Em).
      rewrite Em.
      pose proof (make2Bot_copied _ _ _ _ _ _ Em) as Hc2.
      assert (forall h, Helper.scan (base ns) w1 h = Helper.scan (base ns) w0 h) as Hw1
        by (intros h; rewrite (make2Bot_scan _ _ _ _ _ _ h Em); apply Hw).
      destruct isBot.
      * unfold deployHackScripts.
        pose proof (deploy_copied operatorScripts hostname true w1) as Hc3.
        pose proof (fun h => deploy_scan operatorScripts hostname true w1 h) as Hw2.
        destruct (deploy ns operatorScripts hostname true w1) as [[r w2] tr3].
        cbn [fst snd] in Hc3, Hw2.
        assert (forall h, Helper.scan (base ns) w2 h = Helper.scan (base ns) w0 h) as Hw2'
          by (intros h; rewrite Hw2; apply Hw1).
        rewrite Hw2'.
        assert (hostname ∉ bots) as Hnb
          by (intros Hb; apply Hv; apply (elem_of_sublist _ _ _ Hb Hsub)).
        rewrite (map_set_new_host botNet bots hostname serverData Hkeys Hnb).
        rewrite (map_set_new_host _ visited hostname); [|
          rewrite map_map; reflexivity | exact Hv].
        change (map (connections ns w0) visited
                  ++ [(VStr hostname, VArr (map VStr (Helper.scan (base ns) w0 hostname)))])
          with (map (connections ns w0) visited ++ map (connections ns w0) [hostname]).
        rewrite <- map_app.
        apply (IH _ _ _ _ (bots ++ [hostname]) _ _ Hcrawl Hw2').
        -- rewrite !map_app, Hkeys. reflexivity.
        -- apply sublist_app; [exact Hsub | reflexivity].
        -- rewrite !copied_to_app, !copied_to_debug, Hcopied, Hc1, Hc2, Hc3.
           rewrite bind_app. cbn. reflexivity.
      * rewrite Hw1.
        rewrite (map_set_new_host _ visited hostname); [|
          rewrite map_map; reflexivity | exact Hv].
        change (map (connections ns w0) visited
                  ++ [(VStr hostname, VArr (map VStr (Helper.scan (base ns) w0 hostname)))])
          with (map (connections ns w0) visited ++ map (connections ns w0) [hostname]).
        rewrite <- map_app.
        apply (IH _ _ _ _ bots _ _ Hcrawl Hw1 Hkeys).
        -- apply sublist_inserts_r, Hsub.
        -- rewrite !copied_to_app, !copied_to_debug, Hcopied, Hc1, Hc2.
           rewrite !app_nil_r. reflexivity.
Qed.


Lemma connections_plain (servers : list string) :
  forallb (fun e => json_plain (fst e) && json_plain (snd e))
          (map (connections ns w0) servers) = true.
Proof.
  induction servers as [|h l IH]; [reflexivity|].
  cbn [map forallb connections fst snd json_plain andb]. rewrite IH, Bool.andb_true_r.
  induction (Helper.scan (base ns) w0 h) as [|x xs IHx]; [reflexivity | exact IHx].
Qed.

Lemma load_saved_network (localStorage : Storage) (key : string) (servers : list string) :
  NoDup servers ->
  loadFromStorage B (saveToStorage B localStorage key (VMap (map (connections ns w0) servers)))
                  key
  = Some (VMap (map (connections ns w0) servers)).
Proof.
  intros Hnd. set (es := map (connections ns w0) servers).
  apply (load_saved B localStorage key "Map" (VMap es) (VArr (map entry_value es))
                    (JArr (map (element_json B) (map entry_value es))) (VMap es));
    [reflexivity | reflexivity | apply serialize_VArr |].
  change (new_Map (JArr (map (element_json B) (map entry_value es))) = Ret (VMap es)).
  unfold new_Map.
  rewrite map_fill_entries; [reflexivity | | | intros a e []].
  - apply connections_plain.
  - subst es. rewrite map_map. cbn [connections fst].
    rewrite <- (map_map (fun h => h) VStr), map_id. apply distinct_names, Hnd.
Qed.

(** X21.  Where the links between the servers are not changed by what the
    spider does, and the server objects hold numbers where it calculates,
    [executeSpider] ends whenever [crawler] does, and the network map it
    saves has an entry for exactly the servers [crawler] returns, in that
    order, each with what [ns.scan] gives for it; loading the map gives it
    back as it was saved.  The bots are some of these servers, and the
    operator scripts are copied to the bots and to no other server, three
    files each. *)
Theorem spider_maps_network (fuel : nat) (servers : list string) (kb km : string) :
  Settings.botnetKey B c = Some (VStr kb) ->
  Settings.mapKey B c = Some (VStr km) ->
  kb <> Settings.prefixed "mapKey" ->
  Helper.crawler (base ns) fuel w0 = Some servers ->
  exists w' c' tr botNet bots,
    executeSpider ns B level_debug fuel w0 c = Done w' c' tr
    /\ map fst botNet = map VStr bots
    /\ sublist bots servers
    /\ copied_to tr = bots ≫= (fun h => [h; h; h])
    /\ Settings.localStorage c'
       = saveToStorage B (saveToStorage B (Settings.localStorage c) kb (VMap botNet)) km
                       (VMap (map (connections ns w0) servers))
    /\ loadFromStorage B (Settings.localStorage c') km
       = Some (VMap (map (connections ns w0) servers)).
Proof.
  intros Hkb Hkm Hne Hcrawl. unfold executeSpider.
  set (portHacker := filter _ portHackerSet).
  destruct (spider_follows_crawl portHacker fuel [] ["home"] servers [] [] w0
                                 [Info (PortHackers portHacker)] Hcrawl)
    as (botNet & bots & w' & tr' & Hrun & Hkeys & Hsub & Hcopied);
    [reflexivity | reflexivity | constructor | reflexivity |].
  cbn [map] in Hrun. rewrite Hrun. unfold finish. rewrite Hkb. cbn [as_key].
  assert (Settings.mapKey B
            {| Settings.localStorage :=
                 saveToStorage B (Settings.localStorage c) kb (VMap botNet);
               Settings.defined := Settings.defined c |} = Some (VStr km)) as ->.
  { unfold Settings.mapKey, Settings.getter in *. cbn [Settings.localStorage].
    rewrite load_other_key by exact Hne. exact Hkm. }
  cbn [as_key]. eexists _, _, _, botNet, bots. split; [reflexivity|].
  split; [exact Hkeys|]. split; [exact Hsub|].
  split; [rewrite copied_to_app, Hcopied; apply app_nil_r|].
  cbn [Settings.localStorage]. split; [reflexivity|].
  apply load_saved_network.
  destruct (crawler_result (base ns) w0 fuel servers Hcrawl) as [Hnd _]. exact Hnd.
Qed.

End StaticNetwork.

End SpiderFacts.

Lemma lab_root_scan (w : Toy.World) (v : Config.Value) (h : string) :
  Helper.scan Toy.ns (Spider.root w v) h = Helper.scan Toy.ns w h.
Proof.
  unfold Helper.scan, Toy.ns, Toy.find, Spider.root. cbn [Toy.servers].
  induction (Toy.servers w) as [|sv l IH]; [reflexivity|].
  cbn [map List.find].
  destruct (Config.same_value_zero (Config.VStr (Toy.hostname sv)) v);
    cbn [Toy.hostname]; destruct (String.eqb (Toy.hostname sv) h); try reflexivity;
    exact IH.
Qed.

Lemma lab_well_typed (w : Toy.World) (h : string) :
  Spider.well_typed (Spider.getServer Spider.lab w h) = true.
Proof.
  unfold Spider.lab, Spider.getServer. destruct (Toy.find w h); reflexivity.
Qed.

Lemma make2bot_acquires_n00dles :
  exists r w' tr,
    Spider.make2Bot Spider.lab false
      (Config.VObj [ ("id", Config.VStr "n00dles");
                     ("hasRootAccess", Config.VBool false);
                     ("requiredPorts", Config.VNum (Js.Finite 0));
                     ("neededLevel", Config.VNum (Js.Finite 5)) ])
      [] Spider.lab0
    = Some (r, w', tr)
    /\ r = true
    /\ Spider.calls tr = [Spider.Nuke (Config.VStr "n00dles")].
Proof.
  exists true, (Spider.root Spider.lab0 (Config.VStr "n00dles")),
         [Spider.Nuke (Config.VStr "n00dles")].
  split; [reflexivity|]. split; [|reflexivity].
  exact (proj2 (proj2 (proj2
           (make2bot_acquires Spider.lab false
              (Config.VObj [ ("id", Config.VStr "n00dles");
                             ("hasRootAccess", Config.VBool false);
                             ("requiredPorts", Config.VNum (Js.Finite 0));
                             ("neededLevel", Config.VNum (Js.Finite 5)) ])
              [] Spider.lab0 (Spider.root Spider.lab0 (Config.VStr "n00dles")) true
              [Spider.Nuke (Config.VStr "n00dles")] eq_refl)))
           0%Q eq_refl (Qeq_refl 0)).
Defined.

Lemma peek_ram_accounting_home :
  exists serverData tr,
    Spider.peekIntoServer Spider.lab Config.stub false Settings.fresh Spider.lab0 "home"
    = Some (serverData, tr)
    /\ Spider.prop (Spider.prop serverData "ram") "max" = Config.VNum (Js.Finite 56)
    /\ Spider.prop (Spider.prop serverData "ram") "used" = Config.VNum Js.NaN
    /\ Spider.prop (Spider.prop serverData "slots") "free" = Config.VNum Js.NaN.
Proof.
  destruct (Spider.peekIntoServer Spider.lab Config.stub false Settings.fresh Spider.lab0
                                  "home") as [[serverData tr]|] eqn:E;
    [|vm_compute in E; discriminate].
  exists serverData, tr. split; [reflexivity|].
  destruct (peek_ram_accounting Spider.lab Config.stub false Settings.fresh Spider.lab0
                                "home" serverData tr E)
    as (used & offered & free & Hu & Ho & Hf & Hsm & Hsf & _ & _ & _ & Hhome).
  destruct (Hhome eq_refl) as [Hmax Hnan].
  destruct (Hnan eq_refl) as (-> & -> & Hs).
  rewrite (Hmax 64%Q 8%Q eq_refl eq_refl) in Ho.
  rewrite Ho, Hu, Hsf, Hs. auto.
Defined.

Lemma spider_maps_network_lab :
  Helper.crawler (Spider.base Spider.lab) 10 Spider.lab0 = Some ["home"; "CSEC"; "n00dles"]
  /\ exists w' c' tr botNet bots,
      Spider.executeSpider Spider.lab Config.stub false 10 Spider.lab0 Settings.fresh
      = Spider.Done w' c' tr
      /\ map fst botNet = map Config.VStr bots
      /\ sublist bots ["home"; "CSEC"; "n00dles"]
      /\ Spider.copied_to tr = bots ≫= (fun h => [h; h; h])
      /\ Settings.localStorage c'
         = Config.saveToStorage Config.stub
             (Config.saveToStorage Config.stub (Settings.localStorage Settings.fresh)
                                   "botnet" (Config.VMap botNet))
             "network_map"
             (Config.VMap (map (Spider.connections Spider.lab Spider.lab0)
                               ["home"; "CSEC"; "n00dles"]))
      /\ Config.loadFromStorage Config.stub (Settings.localStorage c') "network_map"
         = Some (Config.VMap (map (Spider.connections Spider.lab Spider.lab0)
                                  ["home"; "CSEC"; "n00dles"])).
Proof.
  assert (Helper.crawler (Spider.base Spider.lab) 10 Spider.lab0
          = Some ["home"; "CSEC"; "n00dles"]) as H by (vm_compute; reflexivity).
  split; [exact H|].
  apply (spider_maps_network Spider.lab Config.stub false
           (fun _ _ _ _ => eq_refl) lab_root_scan (fun _ _ _ _ _ => eq_refl)
           Settings.fresh Spider.lab0 lab_well_typed
           (ex_intro _ (Config.VNum (Js.Finite 8)) (conj eq_refl eq_refl))
           10 ["home"; "CSEC"; "n00dles"] "botnet" "network_map");
    [reflexivity | reflexivity | discriminate | exact H].
Defined.

(** The run in the lab: [home] is a bot already, [CSEC] cannot be taken
    without a port hacker, [n00dles] is taken by [ns.nuke]. *)
Example spider_lab_run :
  match Spider.executeSpider Spider.lab Config.stub false 10 Spider.lab0 Settings.fresh with
  | Spider.Done w' _ tr =>
      Spider.calls tr
      = [ Spider.Scp "bin.hack.js" "home" true; Spider.Scp "bin.grow.js" "home" true;
          Spider.Scp "bin.weaken.js" "home" true;
          Spider.Nuke (Config.VStr "n00dles");
          Spider.Scp "bin.hack.js" "n00dles" true; Spider.Scp "bin.grow.js" "n00dles" true;
          Spider.Scp "bin.weaken.js" "n00dles" true ]
      /\ map (Helper.hasRootAccess Toy.ns w') ["home"; "CSEC"; "n00dles"]
         = [true; false; true]
  | _ => False
  end.
Proof. vm_compute. split; reflexivity. Qed.

(** ** Durations and fixed-width numbers *)

Section FormatFacts.
Import Js Format.

Lemma length_repeat_string (c : ascii) (n : nat) : String.length (repeat c n) = n.
Proof. induction n as [|n IH]; [reflexivity|]. simpl. rewrite IH. reflexivity. Qed.

Lemma padStart_length (s : string) (n : nat) (c : ascii) :
  String.length (padStart s n c) = Nat.max n (String.length s).
Proof. unfold padStart. rewrite length_app_string, length_repeat_string. lia. Qed.

Lemma padStart_long (s : string) (n : nat) (c : ascii) :
  (n <= String.length s)%nat -> padStart s n c = s.
Proof.
  intros H. unfold padStart. replace (n - String.length s)%nat with O by lia. reflexivity.
Qed.

Lemma app_inj_prefix (a b x y : string) :
  a +:+ x = b +:+ y -> String.length a = String.length b -> a = b /\ x = y.
Proof.
  revert b. induction a as [|c a IH]; intros [|d b] H Hlen; try discriminate.
  - split; [reflexivity | exact H].
  - rewrite !app_cons in H. injection H as -> H. simpl in Hlen.
    destruct (IH b H) as [-> ->]; [lia|]. split; reflexivity.
Qed.

Lemma app_inj_suffix (a b x y : string) :
  a +:+ x = b +:+ y -> String.length x = String.length y -> a = b /\ x = y.
Proof.
  intros H Hlen. apply app_inj_prefix; [exact H|].
  apply (f_equal String.length) in H. rewrite !length_app_string in H. lia.
Qed.

Lemma pretty_Z_N (n : Z) : 0 <= n -> pretty n = pretty (Z.to_N n).
Proof. intros H. destruct n as [|p|p]; [reflexivity | reflexivity | lia]. Qed.

Lemma pretty_N_go_bound (k : nat) (x : N) (s : string) :
  (x < 10 ^ N.of_nat k)%N ->
  (String.length (pretty_N_go x s) <= String.length s + k)%nat.
Proof.
  revert x s. induction k as [|k IH]; intros x s Hx.
  - assert (x = 0%N) as -> by (simpl in Hx; lia). rewrite pretty_N_go_0. lia.
  - destruct (decide (x = 0%N)) as [->|Hne]; [rewrite pretty_N_go_0; lia|].
    rewrite pretty_N_go_step by lia.
    etransitivity; [apply IH|cbn [String.length]; lia].
    rewrite Nat2N.inj_succ, N.pow_succ_r' in Hx.
    apply N.Div0.div_lt_upper_bound. exact Hx.
Qed.

Lemma pretty_N_bound (k : nat) (x : N) :
  (1 <= k)%nat -> (x < 10 ^ N.of_nat k)%N -> (String.length (pretty x) <= k)%nat.
Proof.
  intros Hk Hx. unfold pretty, pretty_N. destruct (decide (x = 0%N)).
  - simpl. exact Hk.
  - apply (pretty_N_go_bound k x "" Hx).
Qed.

Lemma pretty_Z_bound (k : nat) (n : Z) :
  (1 <= k)%nat -> 0 <= n < 10 ^ Z.of_nat k -> (String.length (String_ n) <= k)%nat.
Proof.
  intros Hk [H0 Hn]. unfold String_. rewrite pretty_Z_N by exact H0.
  apply pretty_N_bound; [exact Hk|].
  apply N2Z.inj_lt. rewrite Z2N.id by exact H0. rewrite N2Z.inj_pow.
  rewrite nat_N_Z. exact Hn.
Qed.

Lemma two_digits (n : nat) :
  (n < 60)%nat ->
  padStart (String_ (Z.of_nat n)) 2 "0"
  = String (ascii_of_nat (48 + n / 10)) (String (ascii_of_nat (48 + n mod 10)) "").
Proof.
  intros H. do 60 (destruct n as [|n]; [reflexivity|]). lia.
Qed.

Lemma two_digits_inj (a b : Z) :
  0 <= a < 60 -> 0 <= b < 60 ->
  padStart (String_ a) 2 "0" = padStart (String_ b) 2 "0" -> a = b.
Proof.
  intros Ha Hb. rewrite <- (Z2Nat.id a), <- (Z2Nat.id b) by lia.
  rewrite !two_digits by lia.
  assert (Z.to_nat a / 10 < 6)%nat as Ha1 by (apply Nat.Div0.div_lt_upper_bound; lia).
  assert (Z.to_nat b / 10 < 6)%nat as Hb1 by (apply Nat.Div0.div_lt_upper_bound; lia).
  pose proof (Nat.mod_upper_bound (Z.to_nat a) 10 ltac:(lia)) as Ha2.
  pose proof (Nat.mod_upper_bound (Z.to_nat b) 10 ltac:(lia)) as Hb2.
  pose proof (Nat.div_mod_eq (Z.to_nat a) 10) as Ea.
  pose proof (Nat.div_mod_eq (Z.to_nat b) 10) as Eb.
  remember (Z.to_nat a / 10)%nat as qa. remember (Z.to_nat a mod 10)%nat as ra.
  remember (Z.to_nat b / 10)%nat as qb. remember (Z.to_nat b mod 10)%nat as rb.
  remember (48 + qa)%nat as x1. remember (48 + ra)%nat as x2.
  remember (48 + qb)%nat as y1. remember (48 + rb)%nat as y2.
  intros E. injection E as H1 H2.
  apply (f_equal nat_of_ascii) in H1, H2.
  rewrite !nat_ascii_embedding in H1, H2 by lia.
  f_equal. lia.
Qed.

Lemma two_digits_length (a : Z) :
  0 <= a < 60 -> String.length (padStart (String_ a) 2 "0") = 2%nat.
Proof.
  intros Ha. rewrite <- (Z2Nat.id a) by lia. rewrite two_digits by lia. reflexivity.
Qed.

Local Open Scope Q_scope.

(** The fields of a duration of [r] whole seconds. *)
Lemma clock_fields (r : Z) :
  (0 <= r)%Z ->
  let s := rem r 60 in
  let m := rem ((r - s) / 60) 60 in
  let h := rem (((r - s) / 60 - m) / 60) 24 in
  let d := ((((r - s) / 60 - m) / 60 - h) / 24)%Z in
  (r = ((d * 24 + h) * 60 + m) * 60 + s
   /\ 0 <= d /\ 0 <= h < 24 /\ 0 <= m < 60 /\ 0 <= s < 60)%Z.
Proof.
  intros Hr. unfold rem. cbv zeta.
  rewrite (Z.rem_mod_nonneg r 60) by lia.
  assert ((r - r mod 60) / 60 = r / 60)%Z as ->.
  { rewrite (Z.div_mod r 60) at 1 by lia.
    replace (60 * (r / 60) + r mod 60 - r mod 60)%Z with (r / 60 * 60)%Z by lia.
    apply Z.div_mul. lia. }
  assert (0 <= r / 60)%Z as H1 by (apply Z.div_pos; lia).
  rewrite (Z.rem_mod_nonneg (r / 60) 60) by lia.
  assert ((r / 60 - (r / 60) mod 60) / 60 = r / 60 / 60)%Z as ->.
  { rewrite (Z.div_mod (r / 60) 60) at 1 by lia.
    replace (60 * (r / 60 / 60) + (r / 60) mod 60 - (r / 60) mod 60)%Z
      with (r / 60 / 60 * 60)%Z by lia.
    apply Z.div_mul. lia. }
  assert (0 <= r / 60 / 60)%Z as H2 by (apply Z.div_pos; lia).
  rewrite (Z.rem_mod_nonneg (r / 60 / 60) 24) by lia.
  assert ((r / 60 / 60 - (r / 60 / 60) mod 24) / 24 = r / 60 / 60 / 24)%Z as ->.
  { rewrite (Z.div_mod (r / 60 / 60) 24) at 1 by lia.
    replace (24 * (r / 60 / 60 / 24) + (r / 60 / 60) mod 24 - (r / 60 / 60) mod 24)%Z
      with (r / 60 / 60 / 24 * 24)%Z by lia.
    apply Z.div_mul. lia. }
  assert (0 <= r / 60 / 60 / 24)%Z as H3 by (apply Z.div_pos; lia).
  pose proof (Z.div_mod r 60 ltac:(lia)).
  pose proof (Z.div_mod (r / 60) 60 ltac:(lia)).
  pose proof (Z.div_mod (r / 60 / 60) 24 ltac:(lia)).
  pose proof (Z.mod_pos_bound r 60 ltac:(lia)).
  pose proof (Z.mod_pos_bound (r / 60) 60 ltac:(lia)).
  pose proof (Z.mod_pos_bound (r / 60 / 60) 24 ltac:(lia)).
  lia.
Qed.


Lemma tFormatCustom_fields (ms : Q) :
  0 < ms -> ms < MAX_SAFE ->
  exists d h m s : Z,
    (Math_floor (ms / 1000) = ((d * 24 + h) * 60 + m) * 60 + s
     /\ 0 <= d /\ 0 <= h < 24 /\ 0 <= m < 60 /\ 0 <= s < 60)%Z
    /\ tFormatCustom (Val (Finite ms))
       = Returned ((if (0 <? d)%Z then String_ d +:+ "d " else "")
                   +:+ padStart (String_ h) 2 "0" +:+ ":"
                   +:+ padStart (String_ m) 2 "0" +:+ ":"
                   +:+ padStart (String_ s) 2 "0").
Proof.
  intros Hpos Hmax. unfold tFormatCustom.
  assert (ltb ms 0 = false) as -> by (apply ltb_ge; lra).
  assert (eqb ms 0 = false) as ->.
  { apply Bool.not_true_iff_false. rewrite eqb_eq. lra. }
  assert (leb MAX_SAFE ms = false) as ->.
  { apply Bool.not_true_iff_false. rewrite leb_le. lra. }
  assert (0 <= Math_floor (ms / 1000))%Z as Hr.
  { unfold Math_floor. change 0%Z with (Qfloor 0). apply Qfloor_resp_le.
    apply Qle_shift_div_l; lra. }
  pose proof (clock_fields _ Hr) as H. cbv zeta in H.
  eexists _, _, _, _. split; [exact H | reflexivity].
Qed.

Lemma clock_text_length (h m s : Z) :
  (0 <= h < 24)%Z -> (0 <= m < 60)%Z -> (0 <= s < 60)%Z ->
  String.length (padStart (String_ h) 2 "0" +:+ ":"
                 +:+ padStart (String_ m) 2 "0" +:+ ":"
                 +:+ padStart (String_ s) 2 "0") = 8%nat.
Proof.
  intros Hh Hm Hs. rewrite !length_app_string, !two_digits_length by lia. reflexivity.
Qed.

(** X22.  [tFormatCustom] on a number of milliseconds.  A negative one makes
    it call [formatTimeCustom], which is declared nowhere: a
    [ReferenceError].  Zero gives ["0s"].  A positive one (below [2^53])
    gives the whole seconds it holds as days, hours, minutes and seconds:
    [hh:mm:ss] with two digits each, hours below 24, minutes and seconds
    below 60, and ["<days>d "] in front where there is a day or more; half
    a second gives ["00:00:00"].  The text tells the whole seconds: two
    durations print the same only where they hold as many whole seconds. *)
Theorem duration_format (ms : Q) :
  (ms < 0 -> tFormatCustom (Val (Finite ms)) = ThrewReferenceError "formatTimeCustom")
  /\ (ms == 0 -> tFormatCustom (Val (Finite ms)) = Returned "0s")
  /\ (0 < ms -> ms < 1000 -> tFormatCustom (Val (Finite ms)) = Returned "00:00:00")
  /\ (0 < ms -> ms < MAX_SAFE ->
      exists d h m s : Z,
        (Math_floor (ms / 1000) = ((d * 24 + h) * 60 + m) * 60 + s
         /\ 0 <= d /\ 0 <= h < 24 /\ 0 <= m < 60 /\ 0 <= s < 60)%Z
        /\ tFormatCustom (Val (Finite ms))
           = Returned ((if (0 <? d)%Z then String_ d +:+ "d " else "")
                       +:+ padStart (String_ h) 2 "0" +:+ ":"
                       +:+ padStart (String_ m) 2 "0" +:+ ":"
                       +:+ padStart (String_ s) 2 "0")
        /\ String.length (padStart (String_ h) 2 "0" +:+ ":"
                          +:+ padStart (String_ m) 2 "0" +:+ ":"
                          +:+ padStart (String_ s) 2 "0") = 8%nat
        /\ forall ms', 0 < ms' -> ms' < MAX_SAFE ->
                       tFormatCustom (Val (Finite ms')) = tFormatCustom (Val (Finite ms)) ->
                       Math_floor (ms' / 1000) = Math_floor (ms / 1000)).
Proof.
  split; [|split; [|split]].
  - intros H. unfold tFormatCustom.
    assert (ltb ms 0 = true) as -> by (apply ltb_lt; exact H). reflexivity.
  - intros H. unfold tFormatCustom.
    assert (ltb ms 0 = false) as -> by (apply ltb_ge; lra).
    assert (eqb ms 0 = true) as -> by (apply eqb_eq; exact H). reflexivity.
  - intros Hpos Hlt. unfold tFormatCustom.
    assert (ltb ms 0 = false) as -> by (apply ltb_ge; lra).
    assert (eqb ms 0 = false) as ->.
    { apply Bool.not_true_iff_false. rewrite eqb_eq. lra. }
    assert (leb MAX_SAFE ms = false) as ->.
    { apply Bool.not_true_iff_false. rewrite leb_le. unfold MAX_SAFE. lra. }
    assert (Math_floor (ms / 1000) = 0%Z) as ->; [|reflexivity].
    unfold Math_floor.
    assert (0 <= ms / 1000) as H0 by (apply Qle_shift_div_l; lra).
    assert (ms / 1000 < 1) as H1 by (apply Qlt_shift_div_r; lra).
    pose proof (Qfloor_le (ms / 1000)) as Hle.
    pose proof (Qlt_floor (ms / 1000)) as Hlt'.
    apply Qfloor_resp_le in H0. change (Qfloor 0) with 0%Z in H0.
    assert (inject_Z (Qfloor (ms / 1000)) < 1) as Hq by lra.
    change 1 with (inject_Z 1) in Hq. rewrite <- Zlt_Qlt in Hq. lia.
  - intros Hpos Hmax.
    destruct (tFormatCustom_fields ms Hpos Hmax) as (d & h & m & s & Hf & Ht).
    destruct Hf as (Hr & Hd & Hh & Hm & Hs).
    exists d, h, m, s. split; [auto|]. split; [exact Ht|].
    split; [apply clock_text_length; assumption|].
    intros ms' Hpos' Hmax' E.
    destruct (tFormatCustom_fields ms' Hpos' Hmax') as (d' & h' & m' & s' & Hf' & Ht').
    destruct Hf' as (Hr' & Hd' & Hh' & Hm' & Hs').
    rewrite Ht, Ht' in E. injection E as E.
    apply app_inj_suffix in E as [Ed Et];
      [|rewrite !clock_text_length by assumption; reflexivity].
    apply app_inj_prefix in Et as [Eh Et]; [|rewrite !two_digits_length by lia; reflexivity].
    rewrite !app_cons in Et. injection Et as Et.
    change ("" +:+ ?x) with x in Et.
    apply app_inj_prefix in Et as [Em Es]; [|rewrite !two_digits_length by lia; reflexivity].
    injection Es as Es.
    apply two_digits_inj in Eh; [|lia|lia]. apply two_digits_inj in Em; [|lia|lia].
    apply two_digits_inj in Es; [|lia|lia].
    assert (d' = d) as Edd; [|rewrite Hr, Hr'; subst; reflexivity].
    destruct (Z.ltb_spec 0 d'), (Z.ltb_spec 0 d).
    + apply app_inj_suffix in Ed as [Ed _]; [|reflexivity].
      apply (inj pretty) in Ed. exact Ed.
    + apply (f_equal String.length) in Ed. rewrite length_app_string in Ed.
      simpl in Ed. lia.
    + apply (f_equal String.length) in Ed. rewrite length_app_string in Ed.
      simpl in Ed. lia.
    + lia.
Qed.


Example duration_examples :
  tFormatCustom (Val (Finite 93784000)) = Returned "1d 02:03:04"
  /\ tFormatCustom (Val (Finite 3599999.5)) = Returned "00:59:59"
  /\ tFormatCustom (Val (Finite (-1))) = ThrewReferenceError "formatTimeCustom"
  /\ tFormatCustom Null = Returned "N/A".
Proof. repeat split; vm_compute; reflexivity. Qed.

Lemma pow1000_pos (i : nat) : 0 < pow1000 i.
Proof.
  unfold pow1000. change 0 with (inject_Z 0). rewrite <- Zlt_Qlt.
  apply Z.pow_pos_nonneg; lia.
Qed.

Lemma pow1000_succ (i : nat) : pow1000 (i + 1) == 1000 * pow1000 i.
Proof.
  unfold pow1000. rewrite Nat2Z.inj_add, Z.pow_add_r by lia.
  change (1000 ^ Z.of_nat 1)%Z with 1000%Z. rewrite inject_Z_mult.
  change (inject_Z 1000) with 1000. ring.
Qed.

Lemma pow1000_mono (i j : nat) : (i <= j)%nat -> pow1000 i <= pow1000 j.
Proof.
  intros H. unfold pow1000. rewrite <- Zle_Qle. apply Z.pow_le_mono_r; lia.
Qed.

Lemma leb_comp (a b b' : Q) : b == b' -> leb a b = leb a b'.
Proof.
  intros E. destruct (leb a b) eqn:E1, (leb a b') eqn:E2; try reflexivity.
  - apply leb_le in E1. apply Bool.not_true_iff_false in E2. rewrite leb_le in E2.
    exfalso. apply E2. lra.
  - apply leb_le in E2. apply Bool.not_true_iff_false in E1. rewrite leb_le in E1.
    exfalso. apply E1. lra.
Qed.

Lemma findSuffix_spec (fuel : nat) (num : Q) :
  forall (i : nat) (tempNum : Q),
    tempNum == num / pow1000 i ->
    (8 - i <= fuel)%nat -> (i <= 8)%nat ->
    pow1000 i <= num ->
    let k := findSuffix fuel num tempNum i in
    (i <= k <= 8)%nat /\ pow1000 k <= num /\ ((k < 8)%nat -> num < pow1000 (k + 1)).
Proof.
  induction fuel as [|fuel IH]; intros i tempNum Htemp Hfuel Hi Hnum; cbn [findSuffix].
  - assert (i = 8%nat) as -> by lia. split; [lia|]. split; [exact Hnum|]. lia.
  - pose proof (pow1000_pos i) as Hpos. pose proof (pow1000_succ i) as Hsucc.
    change (length suffixes - 1)%nat with 8%nat.
    destruct (leb 1000 tempNum) eqn:E1; cbn [andb].
    + destruct (Nat.ltb_spec i 8) as [Hlt|Hge].
      * destruct (leb (pow1000 (i + 1)) num) eqn:E2.
        -- apply leb_le in E2.
           destruct (IH (i + 1)%nat (tempNum / 1000)) as (Hk & Hle & Hup);
             [|lia|lia|exact E2|].
           ++ rewrite Htemp, Hsucc. field. lra.
           ++ split; [lia|]. split; [exact Hle | exact Hup].
        -- apply Bool.not_true_iff_false in E2. rewrite leb_le in E2.
           split; [lia|]. split; [exact Hnum|]. intros _. lra.
      * split; [lia|]. split; [exact Hnum|]. lia.
    + apply Bool.not_true_iff_false in E1. rewrite leb_le in E1.
      split; [lia|]. split; [exact Hnum|]. intros _.
      rewrite Hsucc. rewrite Htemp in E1.
      assert (num / pow1000 i < 1000) as Hq by lra.
      apply (Qmult_lt_compat_r _ _ (pow1000 i)) in Hq; [|exact Hpos].
      assert (num / pow1000 i * pow1000 i == num) as Hn by (field; lra).
      lra.
Qed.

Lemma plain_app (a b : string) :
  Ansi.plain a = true -> Ansi.plain b = true -> Ansi.plain (a +:+ b) = true.
Proof.
  intros Ha Hb. induction a as [|c a IH]; [exact Hb|].
  rewrite app_cons. simpl in *. apply andb_prop in Ha as [Hc Ha].
  rewrite Hc, IH by exact Ha. reflexivity.
Qed.

Lemma plain_repeat (c : ascii) (n : nat) :
  Ascii.eqb c Ansi.ESC = false -> Ansi.plain (repeat c n) = true.
Proof. intros Hc. induction n as [|n IH]; [reflexivity|]. simpl. rewrite Hc, IH. reflexivity. Qed.

Lemma digits_plain (s : string) : Ansi.digits s = true -> Ansi.plain s = true.
Proof.
  induction s as [|c s IH]; [reflexivity|]. simpl. intros H.
  apply andb_prop in H as [Hc Hs]. rewrite (IH Hs), Bool.andb_true_r.
  apply Bool.negb_true_iff. destruct (Ascii.eqb_spec c Ansi.ESC) as [->|]; [|reflexivity].
  discriminate.
Qed.

Lemma String_digits (n : Z) : (0 <= n)%Z -> Ansi.digits (String_ n) = true.
Proof.
  intros H. unfold String_. rewrite pretty_Z_N by exact H.
  unfold pretty, pretty_N. destruct (decide (Z.to_N n = 0%N)); [reflexivity|].
  apply pretty_N_go_digits. reflexivity.
Qed.

Lemma strip_plain (t : string) : Ansi.plain t = true -> Ansi.stripFormatting t = t.
Proof.
  intros H. rewrite <- (app_nil_right t) at 1.
  rewrite strip_plain_prefix by exact H. apply app_nil_right.
Qed.


Lemma strip_red (a x b : string) :
  Ansi.plain a = true -> Ansi.plain x = true -> Ansi.plain b = true ->
  Ansi.stripFormatting
    (a +:+ (String Ansi.ESC "[31m" +:+ x +:+ String Ansi.ESC "[0m") +:+ b)
  = a +:+ x +:+ b.
Proof.
  intros Ha Hx Hb. rewrite strip_plain_prefix by exact Ha. f_equal.
  rewrite !app_assoc_string.
  change (String Ansi.ESC "[31m" +:+ x +:+ String Ansi.ESC "[0m" +:+ b)
    with (String Ansi.ESC
            (String "["%char ("31" +:+ String "m"%char (x +:+ String Ansi.ESC "[0m" +:+ b)))).
  rewrite strip_sequence by (apply Ansi.params_one; reflexivity).
  rewrite strip_plain_prefix by exact Hx. f_equal.
  change (String Ansi.ESC "[0m" +:+ b)
    with (String Ansi.ESC (String "["%char ("0" +:+ String "m"%char b))).
  rewrite strip_sequence by (apply Ansi.params_one; reflexivity).
  apply strip_plain, Hb.
Qed.

Lemma String_length_pos (n : Z) : (0 <= n)%Z -> (1 <= String.length (String_ n))%nat.
Proof.
  intros H. unfold String_. rewrite pretty_Z_N by exact H.
  unfold pretty, pretty_N. destruct (decide (Z.to_N n = 0%N)) as [|Hne]; [simpl; lia|].
  rewrite pretty_N_go_step by lia.
  etransitivity; [|apply pretty_N_go_length]. simpl. lia.
Qed.

Lemma small_width (q : Q) (s : string) :
  0 <= q -> q < 10000 -> small q = Returned s ->
  String.length (Ansi.stripFormatting s) = 6%nat.
Proof.
  intros H0 H1. unfold small. destruct (eqb q _); [|discriminate]. intros [= <-].
  assert (0 <= Math_floor q < 10 ^ Z.of_nat 4)%Z as Hn.
  { unfold Math_floor. split.
    - change 0%Z with (Qfloor 0). apply Qfloor_resp_le, H0.
    - pose proof (Qfloor_le q) as Hle.
      assert (inject_Z (Qfloor q) < inject_Z 10000) as Hlt
        by (change (inject_Z 10000) with 10000; lra).
      rewrite <- Zlt_Qlt in Hlt. exact Hlt. }
  pose proof (pretty_Z_bound 4 _ ltac:(lia) Hn) as Hlen.
  rewrite strip_plain.
  - rewrite padStart_length. lia.
  - unfold padStart. apply plain_app; [apply plain_repeat; reflexivity|].
    apply digits_plain, String_digits. lia.
Qed.


(** The digits behind the suffix: [f] digits of the part of [num / divisor]
    behind the point, cut off. *)
Lemma fraction_digits (num divisor : Q) (f : Z) :
  0 < divisor -> (0 <= f)%Z ->
  let x := num / divisor in
  let intPart := Math_floor x in
  let remainder := num - divisor * inject_Z intPart in
  let fraction := Math_floor (remainder / divisor * inject_Z (10 ^ f)) in
  (0 <= fraction < 10 ^ f)%Z
  /\ inject_Z (intPart * 10 ^ f + fraction) <= x * inject_Z (10 ^ f)
     < inject_Z (intPart * 10 ^ f + fraction + 1).
Proof.
  intros Hd Hf x intPart remainder fraction.
  assert (0 < inject_Z (10 ^ f)) as HP.
  { change 0 with (inject_Z 0). rewrite <- Zlt_Qlt. apply Z.pow_pos_nonneg; lia. }
  set (P := inject_Z (10 ^ f)) in *.
  pose proof (Qfloor_le x) as Hx1. pose proof (Qlt_floor x) as Hx2.
  fold (Math_floor x) in Hx1, Hx2. fold intPart in Hx1, Hx2.
  rewrite inject_Z_plus in Hx2. change (inject_Z 1) with 1 in Hx2.
  set (y := remainder / divisor * P) in *.
  assert (y == (x - inject_Z intPart) * P) as Hy.
  { subst y remainder x. field. lra. }
  assert (0 <= y) as Hy0.
  { rewrite Hy. apply Qmult_le_0_compat; lra. }
  assert (y < P) as Hy1.
  { assert ((x - inject_Z intPart) * P < 1 * P) as Ht
      by (apply Qmult_lt_compat_r; lra).
    rewrite Hy. rewrite Qmult_1_l in Ht. exact Ht. }
  pose proof (Qfloor_le y) as Hf1. pose proof (Qlt_floor y) as Hf2.
  fold (Math_floor y) in Hf1, Hf2. fold fraction in Hf1, Hf2.
  rewrite inject_Z_plus in Hf2. change (inject_Z 1) with 1 in Hf2.
  split.
  - split.
    + unfold fraction, Math_floor. change 0%Z with (Qfloor 0). apply Qfloor_resp_le, Hy0.
    + rewrite Zlt_Qlt. fold P. lra.
  - rewrite !inject_Z_plus, inject_Z_mult. fold P. change (inject_Z 1) with 1.
    assert (x * P == inject_Z intPart * P + y) as -> by (rewrite Hy; ring).
    lra.
Qed.


Example fixed_width_examples :
  formatNumberFixedWidth (Val (Finite 123)) = Returned "   123"
  /\ option_map Ansi.stripFormatting
       (match formatNumberFixedWidth (Val (Finite 12345)) with
        | Returned s => Some s
        | _ => None
        end) = Some "12k345"
  /\ option_map Ansi.stripFormatting
       (match formatNumberFixedWidth (Val (Finite 1234567)) with
        | Returned s => Some s
        | _ => None
        end) = Some "1M2345"
  /\ formatNumberFixedWidth (Val (Finite (-123))) = Returned "   N/A"
  /\ formatNumberFixedWidth Null = Returned "   N/A"
  /\ formatNumberFixedWidth (Val PosInf) = Returned "######".
Proof. repeat split; vm_compute; reflexivity. Qed.

End FormatFacts.


(** ** Tables *)

Section TableFacts.
Import Js Table.

Lemma identity_invisible : invisible (fun text => text).
Proof. intros text rest H. apply strip_plain_prefix, H. Qed.

Lemma formatter_invisible (codes : list Ansi.Code) :
  codes <> [] -> Forall (fun c => Ansi.params (Ansi.toString c)) codes ->
  invisible (Ansi.formatter codes).
Proof.
  intros Hne Hall text rest Hplain. unfold Ansi.formatter, Ansi.code.
  rewrite !app_cons, !app_assoc_string.
  change ("m" +:+ text +:+ Ansi.resetSeq +:+ rest)
    with (String "m"%char (text +:+ Ansi.resetSeq +:+ rest)).
  rewrite strip_sequence.
  - rewrite strip_plain_prefix by exact Hplain. f_equal.
    change (Ansi.resetSeq +:+ rest)
      with (String Ansi.ESC (String "["%char ("0" +:+ String "m"%char rest))).
    apply strip_sequence. apply Ansi.params_one; reflexivity.
  - apply params_join.
    + destruct codes; [contradiction | discriminate].
    + apply Forall_map. exact Hall.
Qed.

Lemma defaults_invisible :
  invisible (borderColor defaults) /\ invisible (headerColor defaults).
Proof.
  split; apply formatter_invisible; try discriminate.
  - constructor; [apply (proj1 (params_color WHITE)) | constructor].
  - constructor; [apply Ansi.params_one; reflexivity|].
    constructor; [apply (proj1 (params_color CYAN)) | constructor].
Qed.

Lemma invisible_whole (f : Formatter) (text : string) :
  invisible f -> Ansi.plain text = true -> Ansi.stripFormatting (f text) = text.
Proof.
  intros Hf Ht. rewrite <- (app_nil_right (f text)). rewrite Hf by exact Ht.
  apply app_nil_right.
Qed.

Lemma padEnd_plain (s : string) (n : nat) :
  Ansi.plain s = true -> Ansi.plain (padEnd s n) = true.
Proof. intros H. apply plain_app; [exact H | apply plain_repeat; reflexivity]. Qed.

Lemma padEnd_length (s : string) (n : nat) :
  (String.length s <= n)%nat -> String.length (padEnd s n) = n.
Proof. intros H. unfold padEnd. rewrite length_app_string, length_repeat_string. lia. Qed.

(** *** The widths of the columns *)

Lemma widen_length (ws : list nat) (row : list string) :
  length row = length ws -> length (widen ws row) = length ws.
Proof.
  revert ws. induction row as [|cell row IH]; intros [|w ws] H; try discriminate;
    [reflexivity|].
  cbn [widen length]. f_equal. apply IH. simpl in H. lia.
Qed.

Lemma widen_grows (ws : list nat) (row : list string) :
  length row = length ws -> Forall2 le ws (widen ws row).
Proof.
  revert ws. induction row as [|cell row IH]; intros [|w ws] H; try discriminate;
    [constructor|].
  cbn [widen]. constructor; [lia|]. apply IH. simpl in H. lia.
Qed.

Lemma widen_fits (ws : list nat) (row : list string) :
  length row = length ws -> Forall (fun cell => Ansi.plain cell = true) row ->
  fits row (widen ws row).
Proof.
  revert ws. induction row as [|cell row IH]; intros [|w ws] H Hp; try discriminate;
    [constructor|].
  apply Forall_cons in Hp as [Hc Hp]. cbn [widen]. constructor.
  - rewrite strip_plain by exact Hc. lia.
  - apply IH; [simpl in H; lia | exact Hp].
Qed.

Lemma fits_grows (cells : list string) (ws ws' : list nat) :
  fits cells ws -> Forall2 le ws ws' -> fits cells ws'.
Proof.
  intros H. revert ws'. induction H as [|cell w cells ws Hc _ IH]; intros ws' Hle.
  - inversion Hle. constructor.
  - inversion Hle as [|? w' ? ws'' Hw Hws]; subst. constructor; [lia|]. apply IH, Hws.
Qed.

Lemma le_all_refl (ws : list nat) : Forall2 le ws ws.
Proof. induction ws; constructor; [lia | assumption]. Qed.

Lemma le_all_trans (a b c : list nat) : Forall2 le a b -> Forall2 le b c -> Forall2 le a c.
Proof.
  intros H. revert c. induction H as [|x y a b Hxy _ IH]; intros c Hbc.
  - inversion Hbc. constructor.
  - inversion Hbc as [|? z ? c' Hyz Hc]; subst. constructor; [lia|]. apply IH, Hc.
Qed.

Lemma fold_widen (rs : list (list string)) (ws : list nat) :
  Forall (fun row => length row = length ws) rs ->
  Forall (Forall (fun cell => Ansi.plain cell = true)) rs ->
  let ws' := fold_left widen rs ws in
  length ws' = length ws /\ Forall2 le ws ws' /\ Forall (fun row => fits row ws') rs.
Proof.
  revert ws. induction rs as [|row rs IH]; intros ws Hlen Hp; cbn [fold_left].
  - split; [reflexivity|]. split; [apply le_all_refl | constructor].
  - apply Forall_cons in Hlen as [Hrow Hlen]. apply Forall_cons in Hp as [Hprow Hp].
    pose proof (widen_length ws row Hrow) as Hwl.
    destruct (IH (widen ws row)) as (Hl & Hle & Hfits); [|exact Hp|].
    + eapply Forall_impl; [exact Hlen|]. intros r Hr. cbn beta in *. lia.
    + split; [lia|]. split.
      * eapply le_all_trans; [apply widen_grows, Hrow | exact Hle].
      * constructor; [|exact Hfits].
        eapply fits_grows; [apply widen_fits; [exact Hrow | exact Hprow] | exact Hle].
Qed.

Lemma widths_fit (tb : t) :
  consistent tb -> headers tb <> [] ->
  Forall (fun h => Ansi.plain h = true) (headers tb) ->
  Forall (Forall (fun cell => Ansi.plain cell = true)) (rows tb) ->
  fits (headers tb) (calculateColumnWidths tb)
  /\ Forall (fun row => fits row (calculateColumnWidths tb)) (rows tb).
Proof.
  intros Hc Hne Hph Hpr. unfold calculateColumnWidths.
  rewrite length_map.
  destruct (Nat.eqb_spec (length (headers tb)) 0) as [E|_].
  { destruct (headers tb); [contradiction | discriminate]. }
  unfold consistent in Hc. destruct (columnCount tb) as [n|]; [|destruct Hc; contradiction].
  destruct Hc as [Hrows Hn]. specialize (Hn Hne).
  set (ws0 := map (fun header => String.length (Ansi.stripFormatting header)) (headers tb)).
  assert (fits (headers tb) ws0) as Hfit0.
  { subst ws0. clear -Hph. induction Hph as [|h hs Hh _ IH]; constructor; [|exact IH].
    rewrite strip_plain by exact Hh. lia. }
  destruct (fold_widen (rows tb) ws0) as (_ & Hle & Hfits); [|exact Hpr|].
  - eapply Forall_impl; [exact Hrows|]. intros r Hr. cbn beta in *.
    subst ws0. rewrite length_map. lia.
  - split; [eapply fits_grows; eassumption | exact Hfits].
Qed.


(** *** The lines of a table in the style ['basic'] *)

Section Alignment.
Context (tb : t).
Hypothesis Hinv : formatters_invisible tb.

Lemma frame_basic (ws : list nat) :
  let '(top, mid, bottom, width) := frame basic tb ws in
  Ansi.plain top = true /\ Ansi.plain mid = true /\ Ansi.plain bottom = true
  /\ 0 <= width
  /\ String.length top = Z.to_nat width
  /\ String.length mid = Z.to_nat width
  /\ String.length bottom = Z.to_nat width.
Proof.
  induction ws as [|w rest IH]; [repeat split; reflexivity || lia|].
  cbn [frame]. destruct (frame basic tb rest) as [[[top mid] bottom] width].
  destruct IH as (Ht & Hm & Hb & H0 & Hlt & Hlm & Hlb).
  set (colWidth := Z.max (padding (options tb)) 1 + Z.of_nat w
                   + (if last_one rest || showColumnSeparator (options tb)
                      then Z.max (padding (options tb)) 1 else 0)).
  assert (0 <= colWidth) as Hcw
    by (subst colWidth; destruct (last_one rest || showColumnSeparator (options tb)); lia).
  cbn [borderHorizontal rowSep borderTopMid midSep borderBottomMid basic].
  destruct (negb (last_one rest) && showColumnSeparator (options tb)).
  - repeat split;
      try (apply plain_app; [apply plain_repeat; reflexivity|];
           apply plain_app; [reflexivity | assumption]);
      try lia;
      rewrite !length_app_string, length_repeat_string; cbn [char String.length]; lia.
  - repeat split;
      try (apply plain_app; [apply plain_repeat; reflexivity|];
           apply plain_app; [reflexivity | assumption]);
      try lia;
      rewrite !length_app_string, length_repeat_string; cbn [String.length]; lia.
Qed.


Lemma same_last {A B} (R : A -> B -> Prop) (l : list A) (k : list B) :
  Forall2 R l k -> last_one l = last_one k.
Proof. intros []; reflexivity. Qed.

Lemma padString_facts (n : Z) :
  Ansi.plain (Format.repeat " " (Z.to_nat (Z.max n 1))) = true
  /\ Z.of_nat (String.length (Format.repeat " " (Z.to_nat (Z.max n 1)))) = Z.max n 1.
Proof. split; [apply plain_repeat; reflexivity | rewrite length_repeat_string; lia]. Qed.

Lemma getCellFormatter_invisible (value : string) (i : nat) :
  invisible (getCellFormatter tb value i).
Proof.
  destruct Hinv as (_ & _ & Hcol & Hrules). unfold getCellFormatter.
  destruct (List.find _ (conditionalFormats tb)) as [rule|] eqn:E.
  - apply find_some in E as [Hin _]. rewrite Forall_forall in Hrules.
    apply Hrules. apply list_elem_of_In. exact Hin.
  - destruct (columnFormats tb i) as [f|] eqn:Ef; [apply (Hcol i f Ef)|].
    apply identity_invisible.
Qed.

Lemma headerCells_visible (hs : list string) (ws : list nat) :
  fits hs ws -> Forall (fun h => Ansi.plain h = true) hs ->
  exists v,
    Ansi.plain v = true
    /\ Z.of_nat (String.length v) = snd (frame basic tb ws)
    /\ forall rest, Ansi.stripFormatting (headerCells basic tb hs ws +:+ rest)
                    = v +:+ Ansi.stripFormatting rest.
Proof.
  destruct Hinv as (Hborder & Hheader & _ & _).
  intros Hfit. induction Hfit as [|h w hs ws Hle Hfit IH]; intros Hp.
  - exists "". repeat split; reflexivity.
  - apply Forall_cons in Hp as [Hh Hp]. destruct (IH Hp) as (v' & Hv' & Hlen' & Hrest').
    pose proof (same_last _ _ _ Hfit) as Hlast.
    cbn [headerCells frame hd tl]. rewrite Hlast.
    destruct (frame basic tb ws) as [[[top mid] bottom] width]. cbn [snd] in *.
    destruct (padString_facts (padding (options tb))) as [Hpp Hpl].
    set (padString := Format.repeat " " (Z.to_nat (Z.max (padding (options tb)) 1))) in *.
    set (pad := Z.max (padding (options tb)) 1) in *.
    set (sep := last_one ws || showColumnSeparator (options tb)).
    set (crossing := negb (last_one ws) && showColumnSeparator (options tb)).
    set (headerCell := padString +:+ padEnd h w +:+ (if sep then padString else "")).
    assert (Ansi.plain headerCell = true) as Hcp.
    { subst headerCell. apply plain_app; [exact Hpp|].
      apply plain_app; [apply padEnd_plain, Hh|]. destruct sep; [exact Hpp | reflexivity]. }
    assert (Z.of_nat (String.length headerCell)
            = pad + Z.of_nat w + (if sep then pad else 0)) as Hcl.
    { subst headerCell. rewrite !length_app_string, padEnd_length by exact Hle.
      destruct sep; [|cbn [String.length]]; lia. }
    exists (headerCell +:+ (if crossing then char (colSep basic) else "") +:+ v').
    split; [|split].
    + apply plain_app; [exact Hcp|]. apply plain_app; [|exact Hv'].
      destruct crossing; reflexivity.
    + rewrite !length_app_string. destruct crossing; cbn [char String.length]; lia.
    + intros rest. rewrite !app_assoc_string. rewrite Hheader by exact Hcp. f_equal.
      destruct crossing.
      * rewrite Hborder by reflexivity. f_equal. apply Hrest'.
      * apply Hrest'.
Qed.

Lemma dataCells_visible (row : list string) (ws : list nat) :
  fits row ws -> Forall (fun cell => Ansi.plain cell = true) row ->
  forall (i : nat) (recall : nat -> option Recall),
    (forall j f, recall j = Some (Same f) -> invisible f) ->
    (forall j f, snd (dataCells basic tb i row ws recall) j = Some (Same f) -> invisible f)
    /\ exists v,
        Ansi.plain v = true
        /\ Z.of_nat (String.length v) = snd (frame basic tb ws)
        /\ forall rest,
            Ansi.stripFormatting (fst (dataCells basic tb i row ws recall) +:+ rest)
            = v +:+ Ansi.stripFormatting rest.
Proof.
  destruct Hinv as (Hborder & _ & _ & _).
  intros Hfit. induction Hfit as [|cell w row ws Hle Hfit IH]; intros Hp i recall Hok.
  - split; [exact Hok|]. exists "". repeat split; reflexivity.
  - apply Forall_cons in Hp as [Hc Hp].
    pose proof (same_last _ _ _ Hfit) as Hlast.
    cbn [dataCells frame hd tl]. rewrite Hlast.
    set (chosen := match recall i with
                   | Some (Same f) => (f, recall)
                   | Some ByValue => (getCellFormatter tb cell i, recall)
                   | None => _
                   end).
    assert (invisible (fst chosen)
            /\ forall j f, snd chosen j = Some (Same f) -> invisible f) as [Hf Hok'].
    { subst chosen. destruct (recall i) as [[f|]|] eqn:Er; cbn [fst snd].
      - split; [apply (Hok i f Er) | exact Hok].
      - split; [apply getCellFormatter_invisible | exact Hok].
      - split; [apply getCellFormatter_invisible|].
        intros j f. destruct (Nat.eqb_spec j i) as [->|_]; [|apply Hok].
        destruct (existsb _ _); [discriminate|].
        intros [= <-]. apply getCellFormatter_invisible. }
    destruct chosen as [cellFormatter recall1]. cbn [fst snd] in Hf, Hok'.
    destruct (IH Hp (S i) recall1 Hok') as (Hok'' & v' & Hv' & Hlen' & Hrest').
    destruct (dataCells basic tb (S i) row ws recall1) as [more recall2].
    cbn [fst snd] in *.
    destruct (frame basic tb ws) as [[[top mid] bottom] width]. cbn [snd] in *.
    destruct (padString_facts (padding (options tb))) as [Hpp Hpl].
    set (padString := Format.repeat " " (Z.to_nat (Z.max (padding (options tb)) 1))) in *.
    set (pad := Z.max (padding (options tb)) 1) in *.
    set (sep := last_one ws || showColumnSeparator (options tb)).
    set (crossing := negb (last_one ws) && showColumnSeparator (options tb)).
    set (cellString := (padString +:+ padEnd cell w) +:+ (if sep then padString else "")).
    assert (Ansi.plain cellString = true) as Hcp.
    { subst cellString. apply plain_app.
      - apply plain_app; [exact Hpp | apply padEnd_plain, Hc].
      - destruct sep; [exact Hpp | reflexivity]. }
    assert (Z.of_nat (String.length cellString)
            = pad + Z.of_nat w + (if sep then pad else 0)) as Hcl.
    { subst cellString. rewrite !length_app_string, padEnd_length by exact Hle.
      destruct sep; [|cbn [String.length]]; lia. }
    split; [exact Hok''|].
    exists (cellString +:+ (if crossing then char (colSep basic) else "") +:+ v').
    split; [|split].
    + apply plain_app; [exact Hcp|]. apply plain_app; [|exact Hv'].
      destruct crossing; reflexivity.
    + rewrite !length_app_string. destruct crossing; cbn [char String.length]; lia.
    + intros rest. rewrite !app_assoc_string. rewrite Hf by exact Hcp.
      rewrite ?app_assoc_string. f_equal.
      destruct crossing.
      * rewrite Hborder by reflexivity. f_equal. apply Hrest'.
      * apply Hrest'.
Qed.

Lemma dataRows_visible (ws : list nat) (rs : list (list string)) :
  Forall (fun row => fits row ws) rs ->
  Forall (Forall (fun cell => Ansi.plain cell = true)) rs ->
  forall recall : nat -> option Recall,
    (forall j f, recall j = Some (Same f) -> invisible f) ->
    length (dataRows basic tb rs ws recall) = length rs
    /\ Forall (fun line => Z.of_nat (String.length (Ansi.stripFormatting line))
                           = 1 + snd (frame basic tb ws) + 1)
              (dataRows basic tb rs ws recall).
Proof.
  destruct Hinv as (Hborder & _ & _ & _).
  intros Hfits. induction Hfits as [|row rs Hrow _ IH]; intros Hp recall Hok.
  - split; [reflexivity | constructor].
  - apply Forall_cons in Hp as [Hprow Hp]. cbn [dataRows].
    destruct (dataCells_visible row ws Hrow Hprow 0%nat recall Hok)
      as (Hok' & v & Hv & Hlen & Hrest).
    destruct (dataCells basic tb 0 row ws recall) as [cells recall']. cbn [fst snd] in *.
    destruct (IH Hp recall' Hok') as [Hl Hall].
    split; [cbn [length]; rewrite Hl; reflexivity|].
    constructor; [|exact Hall].
    rewrite Hborder by reflexivity. rewrite Hrest.
    rewrite (invisible_whole _ _ Hborder) by reflexivity.
    rewrite !length_app_string. cbn [char String.length]. lia.
Qed.

End Alignment.

(** X24.  A table never holds rows of different lengths.  [addRow] throws
    exactly where the table has a column count, from its headers or from
    its first row, and the row has another number of cells; otherwise the
    row is appended and nothing else changes.  So every row of a table has
    as many cells as the table has headers, if it has any, and as the first
    row otherwise. *)
Theorem add_row_keeps_columns (rowData : list string) (tb : t) :
  consistent tb ->
  match addRow rowData tb with
  | Some tb' =>
      consistent tb'
      /\ columnCount tb' = Some (length rowData)
      /\ Forall (fun row => length row = length rowData) (rows tb')
      /\ rows tb' = rows tb ++ [rowData]
      /\ headers tb' = headers tb
      /\ (headers tb <> [] -> length rowData = length (headers tb))
  | None => exists n, columnCount tb = Some n /\ length rowData <> n
  end.
Proof.
  unfold consistent, addRow. destruct (columnCount tb) as [n|].
  - intros [Hrows Hn]. destruct (Nat.eqb_spec (length rowData) n) as [E|E].
    + cbn [columnCount rows headers]. subst n.
      assert (Forall (fun row => length row = length rowData) (rows tb ++ [rowData])) as H.
      { apply Forall_app. split; [exact Hrows|]. constructor; [reflexivity | constructor]. }
      split; [split; [exact H | exact Hn]|]. split; [reflexivity|]. split; [exact H|].
      split; [reflexivity|]. split; [reflexivity|]. intros Hne. symmetry. apply Hn, Hne.
    + exists n. split; [reflexivity | exact E].
  - intros [Hrows Hh]. rewrite Nat.eqb_refl. cbn [columnCount rows headers].
    rewrite Hrows, Hh. cbn [app].
    assert (Forall (fun row => length row = length rowData) [rowData]) as H
      by (constructor; [reflexivity | constructor]).
    split; [split; [exact H | intros []; reflexivity]|]. split; [reflexivity|].
    split; [exact H|]. split; [reflexivity|]. split; [reflexivity|]. intros []. reflexivity.
Qed.

Lemma constructor_consistent (hs : list string) (options : Options) :
  consistent (constructor hs options).
Proof.
  unfold consistent, constructor. cbn [columnCount rows headers].
  destruct hs as [|h hs]; cbn; [split; reflexivity|].
  split; [constructor | reflexivity].
Qed.


End TableFacts.

Lemma add_row_keeps_columns_servers :
  Table.consistent (Table.constructor ["host"; "ram"] Table.defaults)
  /\ match Table.addRow ["n00dles"; "4"] (Table.constructor ["host"; "ram"] Table.defaults) with
     | Some tb' =>
         Table.consistent tb'
         /\ Table.columnCount tb' = Some 2%nat
         /\ Forall (fun row => length row = 2%nat) (Table.rows tb')
         /\ Table.rows tb' = [["n00dles"; "4"]]
         /\ Table.headers tb' = ["host"; "ram"]
         /\ (["host"; "ram"] <> [] -> 2%nat = 2%nat)
     | None => exists n, Some 2%nat = Some n /\ 2%nat <> n
     end
  /\ Table.addRow ["home"] (Table.constructor ["host"; "ram"] Table.defaults) = None.
Proof.
  split; [apply constructor_consistent|]. split; [|reflexivity].
  exact (add_row_keeps_columns ["n00dles"; "4"]
           (Table.constructor ["host"; "ram"] Table.defaults)
           (constructor_consistent _ _)).
Defined.


(** The table of the two servers, as it shows. *)
Example servers_table_shown :
  match Table.servers_table with
  | Some tb =>
      map Ansi.stripFormatting (fst (Table.lines Table.basic tb))
      = [ "+---------+-----+";
          "| host    | ram |";
          "+---------+-----+";
          "| n00dles | 4   |";
          "| home    | 64  |";
          "+---------+-----+" ]
      /\ snd (Table.lines Table.basic tb) = 17
  | None => False
  end.
Proof. vm_compute. split; reflexivity. Qed.

(** Without headers every column is five characters wide, whatever the
    cells hold: a longer cell pushes its row past the border. *)
Example table_without_headers :
  match Table.addRow ["n00dles"; "4"]
          (Table.constructor []
             {| Table.borderColor := fun text => text; Table.headerColor := fun text => text;
                Table.borderStyle := "basic"; Table.showColumnSeparator := true;
                Table.padding := 1 |}) with
  | Some tb =>
      Table.calculateColumnWidths tb = [5; 5]%nat
      /\ fst (Table.lines Table.basic tb)
         = [ "+-------+-------+";
             "| n00dles | 4     |";
             "+-------+-------+" ]
  | None => False
  end.
Proof. vm_compute. split; reflexivity. Qed.

(** ** The bar of [ProgressBar] *)

Section ProgressBarFacts.
Import Js ProgressBar.
Context {W : Type} (host : Host W).
Local Open Scope Q_scope.

Lemma render_fits (bar : t) (interval p : Q) (secs : Z) :
  (0 <= width bar)%Z -> 0 <= p -> p * inject_Z (width bar) < inject_Z (width bar) + 1 ->
  (0 <= secs)%Z ->
  exists printed,
    render bar (Finite p) secs = Some printed
    /\ Forall (well_formed (width bar) interval) printed.
Proof.
  intros Hw Hp Hlt Hs.
  assert (0 <= inject_Z (width bar)) as Hb
    by (change 0 with (inject_Z 0); rewrite <- Zle_Qle; exact Hw).
  set (filled := Math_floor (p * inject_Z (width bar))).
  assert (0 <= filled <= width bar)%Z as Hf.
  { subst filled. unfold Math_floor. split.
    - change 0%Z with (Qfloor 0). apply Qfloor_resp_le. apply Qmult_le_0_compat; assumption.
    - pose proof (Qfloor_le (p * inject_Z (width bar))) as Hle.
      assert (inject_Z (Qfloor (p * inject_Z (width bar))) < inject_Z (width bar + 1)) as Hz
        by (rewrite inject_Z_plus; change (inject_Z 1) with 1; lra).
      rewrite <- Zlt_Qlt in Hz. lia. }
  exists [ClearLog; PrintHistory (logHistory bar);
          PrintWait (label bar) filled (width bar - filled) secs].
  split.
  - unfold render, Progress.filledWidthOf, Progress.emptyWidthOf. fold filled.
    rewrite (repeat_length_integer (inject_Z filled) filled) by (reflexivity || lia).
    rewrite (repeat_length_integer _ (width bar - filled)); [reflexivity| |lia].
    unfold Zminus. rewrite inject_Z_plus, inject_Z_opp. ring.
  - repeat constructor; simpl; lia.
Qed.

Lemma loop_fits (time : W -> Q) (fuel : nat) (bar : t) (ms interval startTime : Q)
      (w : W) (tr : list Event) :
  (forall w t w', Date_now host w = (t, w') -> time w <= t <= time w') ->
  (forall w, time w <= time (sleep host w interval)) ->
  (forall w t w' t' w'',
      Date_now host w = (t, w') -> Date_now host w' = (t', w'') ->
      (t' - t) * inject_Z (width bar) <= ms) ->
  (0 <= width bar)%Z ->
  startTime <= time w ->
  Forall (well_formed (width bar) interval) tr ->
  match loop host fuel bar ms interval startTime (startTime + ms) w tr with
  | ThrewRangeError _ _ => False
  | o => Forall (well_formed (width bar) interval) (events o)
  end.
Proof.
  intros Hnow Hsleep Hjump Hw. revert w tr.
  assert (0 <= inject_Z (width bar)) as Hb
    by (change 0 with (inject_Z 0); rewrite <- Zle_Qle; exact Hw).
  induction fuel as [|fuel IH]; intros w tr Hstart Htr; [constructor|].
  cbn [loop]. destruct (Date_now host w) as [t1 w1] eqn:E1.
  pose proof (Hnow _ _ _ E1) as [H1 H1'].
  destruct (ltb t1 (startTime + ms)) eqn:Elt.
  - apply ltb_lt in Elt. destruct (Date_now host w1) as [t2 w2] eqn:E2.
    pose proof (Hnow _ _ _ E2) as [H2 H2']. pose proof (Hjump _ _ _ _ _ E1 E2) as Hj.
    assert (0 < ms) as Hms by lra.
    unfold quotient. assert (eqb ms 0 = false) as ->.
    { apply Bool.not_true_iff_false. rewrite eqb_eq. lra. }
    set (elapsed := t2 - startTime).
    assert (0 <= elapsed) as He by (subst elapsed; lra).
    assert (elapsed / ms * inject_Z (width bar) < inject_Z (width bar) + 1) as Hfit.
    { assert (elapsed * inject_Z (width bar) < ms * (inject_Z (width bar) + 1)) as Hx.
      { assert (elapsed * inject_Z (width bar)
                == (t2 - t1) * inject_Z (width bar)
                   + (t1 - startTime) * inject_Z (width bar)) as -> by (subst elapsed; ring).
        destruct (Qlt_le_dec 0 (inject_Z (width bar))) as [Hpos|Hzero].
        - assert ((t1 - startTime) * inject_Z (width bar) < ms * inject_Z (width bar)) as Hy
            by (apply Qmult_lt_compat_r; lra).
          lra.
        - assert (inject_Z (width bar) == 0) as E by lra.
          rewrite E in *. lra. }
      assert (elapsed / ms * inject_Z (width bar)
              == elapsed * inject_Z (width bar) / ms) as -> by (field; lra).
      apply Qlt_shift_div_r; [exact Hms|]. lra. }
    assert (0 <= elapsed / ms) as Hp by (apply Qle_shift_div_l; lra).
    assert (0 <= Math_ceil (Math_max 0 (ms - elapsed) / 1000))%Z as Hsecs.
    { unfold Math_ceil, Qceiling.
      pose proof (Math_max_l 0 (ms - elapsed)) as Hm.
      assert (0 <= Math_max 0 (ms - elapsed) / 1000) as Hq by (apply Qle_shift_div_l; lra).
      assert (Qfloor (- (Math_max 0 (ms - elapsed) / 1000)) <= Qfloor 0)%Z as Hx
        by (apply Qfloor_resp_le; lra).
      change (Qfloor 0) with 0%Z in Hx. lia. }
    destruct (render_fits bar interval _ _ Hw Hp Hfit Hsecs) as (printed & -> & Hpr).
    apply IH.
    + eapply Qle_trans; [|apply Hsleep]. lra.
    + apply Forall_app. split; [exact Htr|]. apply Forall_app. split; [exact Hpr|].
      constructor; [reflexivity | constructor].
  - destruct (render_fits bar interval 1 0 Hw) as (printed & -> & Hpr); [lra | lra | lia |].
    cbn [events]. apply Forall_app. split; assumption.
Qed.

(** X26.  The bar of [ProgressBar] fits as long as the clock does not jump.
    With a clock that does not run backwards and a bar width that is not
    negative, and where between the reading of the clock that lets the loop
    go on and the next one no more than the [width]-th part of the wait
    passes, [wait] never calls [String.repeat] with a negative count (no
    [RangeError]); in a run that ends every bar printed has filled and
    empty parts that add up to the width, and every sleep is for the whole
    update interval. *)
Theorem bar_fits_steady_clock (time : W -> Q) (fuel : nat) (bar : t) (ms interval : Q)
        (w : W) (tr : list Event) :
  (forall w t w', Date_now host w = (t, w') -> time w <= t <= time w') ->
  (forall w, time w <= time (sleep host w interval)) ->
  (forall w t w' t' w'',
      Date_now host w = (t, w') -> Date_now host w' = (t', w'') ->
      (t' - t) * inject_Z (width bar) <= ms) ->
  (0 <= width bar)%Z ->
  Forall (well_formed (width bar) interval) tr ->
  match wait host fuel bar ms interval w tr with
  | ThrewRangeError _ _ => False
  | o => Forall (well_formed (width bar) interval) (events o)
  end.
Proof.
  intros Hnow Hsleep Hjump Hw Htr. unfold wait.
  destruct (Date_now host w) as [startTime w0] eqn:E0.
  pose proof (Hnow _ _ _ E0) as [_ H0].
  apply (loop_fits time); assumption.
Qed.

End ProgressBarFacts.

Lemma bar_fits_steady_clock_ticking :
  (0 <= 40)%Z
  /\ match ProgressBar.wait (ProgressBar.ticking 0) 10
             {| ProgressBar.width := 40; ProgressBar.label := "Warte";
                ProgressBar.logHistory := [] |}
             500 200 0%Q [] with
     | ProgressBar.ThrewRangeError _ _ => False
     | o => Forall (ProgressBar.well_formed 40 200) (ProgressBar.events o)
     end.
Proof.
  split; [lia|].
  apply (bar_fits_steady_clock (ProgressBar.ticking 0) (fun w => w)).
  - intros w t w' [= <- <-]. rewrite Qred_correct. lra.
  - intros w. cbn [ProgressBar.sleep ProgressBar.ticking]. rewrite Qred_correct. lra.
  - intros w t w' t' w'' [= <- <-] [= <- <-]. cbn [ProgressBar.width].
    rewrite Qred_correct. lra.
  - cbn [ProgressBar.width]. lia.
  - constructor.
Defined.

(** A wait of 500 ms with a clock that stands still between the sleeps:
    three bars, the last one full. *)
Example bar_run :
  ProgressBar.waitWithProgress (ProgressBar.ticking 0) 10 500 "Warte" 0%Q
  = ProgressBar.Finished 600%Q
      [ ProgressBar.DisableLog; ProgressBar.OpenTail;
        ProgressBar.ClearLog; ProgressBar.PrintHistory [];
        ProgressBar.PrintWait "Warte" 0 40 1; ProgressBar.Sleep 200;
        ProgressBar.ClearLog; ProgressBar.PrintHistory [];
        ProgressBar.PrintWait "Warte" 16 24 1; ProgressBar.Sleep 200;
        ProgressBar.ClearLog; ProgressBar.PrintHistory [];
        ProgressBar.PrintWait "Warte" 32 8 1; ProgressBar.Sleep 200;
        ProgressBar.ClearLog; ProgressBar.PrintHistory [];
        ProgressBar.PrintWait "Warte" 40 0 0 ].
Proof. vm_compute. reflexivity. Qed.

(** A wait of 4 ms with a clock that takes 3 ms for a reading: the loop
    goes on at 3 ms, reads 6 ms, and asks for a bar of 60 of 40
    characters. *)
Example bar_overflows :
  ProgressBar.waitWithProgress (ProgressBar.ticking 3) 10 4 "Warte" 0%Q
  = ProgressBar.ThrewRangeError 9%Q [ProgressBar.DisableLog; ProgressBar.OpenTail].
Proof. vm_compute. reflexivity. Qed.

(** ** Column widths and the alignment of cells *)

Section ColumnsFacts.
Import Js Columns.

Lemma repeat_spaces (n : Z) : 0 <= n -> Columns.repeat n = Some (spaces n).
Proof. intros H. unfold Columns.repeat. destruct (Z.ltb_spec n 0); [lia | reflexivity]. Qed.

Lemma len_app (a b : string) : len (a +:+ b) = len a + len b.
Proof. unfold len. rewrite length_app_string. lia. Qed.

Lemma len_spaces (n : Z) : 0 <= n -> len (spaces n) = n.
Proof. intros H. unfold len, spaces. rewrite length_repeat_string. lia. Qed.

Lemma repeat_add (c : ascii) (n m : nat) :
  Format.repeat c n +:+ Format.repeat c m = Format.repeat c (n + m).
Proof. induction n as [|n IH]; [reflexivity|]. simpl. rewrite <- IH. reflexivity. Qed.

Lemma spaces_add (a b : Z) : 0 <= a -> 0 <= b -> spaces a +:+ spaces b = spaces (a + b).
Proof. intros Ha Hb. unfold spaces. rewrite repeat_add, Z2Nat.inj_add by lia. reflexivity. Qed.

Lemma centerPlain_spec (text : string) (width : Z) :
  exists a b,
    centerPlain text width = Some (spaces a +:+ text +:+ spaces b)
    /\ 0 <= a /\ a <= b <= a + 1
    /\ a + len text + b = Z.max width (len text)
    /\ a = (Z.max width (len text) - len text) / 2.
Proof.
  unfold centerPlain. destruct (Z.geb_spec (len text) width) as [H|H].
  - exists 0, 0. change (spaces 0) with EmptyString. rewrite app_nil_right.
    change (EmptyString +:+ text) with text.
    replace (Z.max width (len text)) with (len text) by lia.
    replace (len text - len text) with 0 by lia. repeat split; lia.
  - set (padding := width - len text).
    assert (0 <= padding / 2) as Hl by (apply Z.div_pos; lia).
    assert (padding / 2 <= padding - padding / 2 <= padding / 2 + 1) as Hr
      by (pose proof (Z.div_mod padding 2); pose proof (Z.mod_pos_bound padding 2); lia).
    exists (padding / 2), (padding - padding / 2).
    rewrite !repeat_spaces by lia. cbn [mbind option_bind].
    replace (Z.max width (len text)) with width by lia.
    repeat split; lia.
Qed.

Lemma measure_covers (cell : string) (column : Column) (width : Z) :
  paired column ->
  exists column' width',
    measure cell column width = Some (column', width')
    /\ paired column'
    /\ title column' = title column /\ align column' = align column
    /\ centerChar column' = centerChar column
    /\ width <= width'
    /\ covers column' width' cell
    /\ forall old, covers column width old -> covers column' width' old.
Proof.
  intros Hp. destruct column as [t a c ml mr].
  unfold measure, paired, covers in *.
  cbn [title align centerChar maxLeft maxRight] in *.
  assert (a <> CENTER_ON \/ truthy c = false \/
          exists char, a = CENTER_ON /\ c = Some char /\ truthy (Some char) = true)
    as [Hoff|[Hoff|(char & -> & -> & Ht)]].
  { destruct a; try (left; discriminate). destruct c as [[|x char]|];
      [right; left; reflexivity | right; right; eexists; repeat split | right; left; reflexivity]. }
  1,2: assert (match a with CENTER_ON => truthy c | _ => false end = false) as ->
         by (destruct a; congruence);
       eexists _, _; (split; [reflexivity|]);
       cbn [title align centerChar maxLeft maxRight];
       (split; [exact Hp|]); do 3 (split; [reflexivity|]); (split; [lia|]);
       (split; [split; [lia | intros char i Ha Ec Ht _; subst; congruence]
               | intros old [Ho _]; split;
                 [lia | intros char i Ha Ec Ht _; subst; congruence]]).
  rewrite Ht. cbn [default from_option id].
  destruct ml as [l|], mr as [r|]; try contradiction;
    cbn [title align centerChar maxLeft maxRight default from_option id];
    destruct (findUniqueChar cell char) as [i|] eqn:Ei;
    eexists _, _; (split; [reflexivity|]);
    cbn [title align centerChar maxLeft maxRight];
    (split; [exact I|]); do 3 (split; [reflexivity|]); (split; [lia|]).
  - split; [split; [lia|] | intros old [Ho Hc]; split; [lia|]].
    + intros char' i' _ [= <-] _ Ei'. rewrite Ei in Ei'. injection Ei' as <-.
      eexists _, _. repeat split; lia.
    + intros char' i' _ [= <-] Ht' Ei'.
      destruct (Hc char i' eq_refl eq_refl Ht' Ei') as (l0 & r0 & [= <-] & [= <-] & ? & ? & ?).
      eexists _, _. repeat split; lia.
  - split; [split; [lia|] | intros old [Ho Hc]; split; [lia|]].
    + intros char' i' _ [= <-] _ Ei'. rewrite Ei in Ei'. discriminate Ei'.
    + intros char' i' _ [= <-] Ht' Ei'.
      destruct (Hc char i' eq_refl eq_refl Ht' Ei') as (l0 & r0 & [= <-] & [= <-] & ? & ? & ?).
      eexists _, _. repeat split; lia.
  - split; [split; [lia|] | intros old [Ho Hc]; split; [lia|]].
    + intros char' i' _ [= <-] _ Ei'. rewrite Ei in Ei'. injection Ei' as <-.
      eexists _, _. repeat split; lia.
    + intros char' i' _ [= <-] Ht' Ei'.
      destruct (Hc char i' eq_refl eq_refl Ht' Ei') as (l0 & r0 & E0 & _).
      discriminate E0.
  - split; [split; [lia|] | intros old [Ho Hc]; split; [lia|]].
    + intros char' i' _ [= <-] _ Ei'. rewrite Ei in Ei'. discriminate Ei'.
    + intros char' i' _ [= <-] Ht' Ei'.
      destruct (Hc char i' eq_refl eq_refl Ht' Ei') as (l0 & r0 & E0 & _).
      discriminate E0.
Qed.

Lemma measureRows_covers (rows : list (list string)) (colIdx : nat) (column : Column)
      (width : Z) :
  paired column ->
  exists column' width',
    measureRows rows colIdx column width = Some (column', width')
    /\ paired column'
    /\ title column' = title column /\ align column' = align column
    /\ centerChar column' = centerChar column
    /\ width <= width'
    /\ (forall row, row ∈ rows -> covers column' width' (strippedCell row colIdx))
    /\ forall old, covers column width old -> covers column' width' old.
Proof.
  revert column width. induction rows as [|row rows IH]; intros column width Hp.
  - exists column, width. cbn [measureRows]. split; [reflexivity|]. split; [exact Hp|].
    do 3 (split; [reflexivity|]). split; [lia|].
    split; [intros r Hin; inversion Hin | intros old Ho; exact Ho].
  - cbn [measureRows].
    destruct (measure_covers (strippedCell row colIdx) column width Hp)
      as (c1 & w1 & -> & Hp1 & Et1 & Ea1 & Ec1 & Hw1 & Hcell & Hold1).
    destruct (IH c1 w1 Hp1) as (c2 & w2 & -> & Hp2 & Et2 & Ea2 & Ec2 & Hw2 & Hrows & Hold2).
    exists c2, w2. split; [reflexivity|]. split; [exact Hp2|].
    split; [congruence|]. split; [congruence|]. split; [congruence|]. split; [lia|].
    split.
    + intros r [->|Hin]%elem_of_cons; [apply Hold2, Hcell | apply Hrows, Hin].
    + intros old Ho. apply Hold2, Hold1, Ho.
Qed.

Lemma measureColumns_covers (rows : list (list string)) (columns : list Column) (k : nat) :
  Forall paired columns ->
  exists measured,
    measureColumns rows k columns = Some measured
    /\ length measured = length columns
    /\ forall i column width,
         measured !! i = Some (column, width) ->
         (exists before,
             columns !! i = Some before
             /\ title column = title before /\ align column = align before
             /\ centerChar column = centerChar before)
         /\ paired column
         /\ len (title column) <= width
         /\ forall row, row ∈ rows -> covers column width (strippedCell row (k + i)).
Proof.
  revert k. induction columns as [|column columns IH]; intros k Hp.
  - exists []. repeat split; intros; discriminate.
  - apply Forall_cons in Hp as [Hp Hps]. cbn [measureColumns].
    destruct (measureRows_covers rows k column (len (title column)) Hp)
      as (c1 & w1 & -> & Hp1 & Et & Ea & Ec & Hw & Hrows & _).
    destruct (IH (S k) Hps) as (measured & -> & Hlen & Hrest).
    exists ((c1, w1) :: measured). split; [reflexivity|].
    split; [cbn; rewrite Hlen; reflexivity|].
    intros [|i] c w Hi.
    + injection Hi as <- <-. split; [exists column; repeat split; assumption|].
      split; [exact Hp1|].
      split; [rewrite Et; exact Hw|]. rewrite Nat.add_0_r. exact Hrows.
    + cbn in Hi. destruct (Hrest i c w Hi) as (Hb & Hq & Ht & Hr).
      split; [exact Hb|]. split; [exact Hq|]. split; [exact Ht|].
      replace (k + S i)%nat with (S k + i)%nat by lia. exact Hr.
Qed.

Lemma alignCell_covers (cell : string) (column : Column) (width : Z) :
  Ansi.plain cell = true ->
  covers column width cell ->
  exists a b,
    alignCell cell column width = Some (spaces a +:+ cell +:+ spaces b)
    /\ 0 <= a /\ 0 <= b /\ a + len cell + b = width
    /\ match align column with
       | LEFT => a = 0
       | RIGHT => b = 0
       | CENTER => a <= b <= a + 1
       | CENTER_ON => True
       end
    /\ forall char charIndex,
         align column = CENTER_ON -> centerChar column = Some char ->
         truthy (Some char) = true ->
         findUniqueChar cell char = Some charIndex ->
         a + Z.of_nat charIndex = position column width.
Proof.
  intros Hplain [Hlen Hc]. unfold alignCell.
  rewrite (strip_plain cell Hplain).
  rewrite repeat_spaces by lia. cbn [mbind option_bind].
  replace (Z.max 0 (width - len cell)) with (width - len cell) by lia.
  destruct (centerPlain_spec cell width) as (a0 & b0 & Ecp & Ha0 & Hb0 & Hsum & _).
  replace (Z.max width (len cell)) with width in Hsum by lia.
  destruct (align column) eqn:Ea.
  - exists 0, (width - len cell). change (spaces 0) with EmptyString.
    change (EmptyString +:+ cell) with cell.
    repeat split; try lia. intros; discriminate.
  - exists (width - len cell), 0. change (spaces 0) with EmptyString.
    rewrite app_nil_right. repeat split; try lia. intros; discriminate.
  - exists a0, b0. rewrite Ecp. repeat split; try lia. intros; discriminate.
  - destruct (truthy (centerChar column)) eqn:Et; cbn [negb].
    2:{ exists a0, b0. rewrite Ecp. repeat split; try lia.
        intros char i _ Ec Ht _. rewrite Ec, Ht in Et. discriminate Et. }
    destruct (centerChar column) as [char|] eqn:Ec; [|discriminate Et].
    cbn [default from_option id].
    destruct (findUniqueChar cell char) as [i|] eqn:Ei.
    2:{ exists a0, b0. rewrite Ecp. repeat split; try lia.
        intros char' i' _ [= <-] _ Ei'. rewrite Ei in Ei'. discriminate Ei'. }
    destruct (Hc char i eq_refl eq_refl Et Ei) as (l & r & El & Er & Hl & Hr & Hw).
    rewrite El, Er. rewrite !repeat_spaces by lia. cbn [mbind option_bind].
    destruct (centerPlain_spec (spaces (l - Z.of_nat i) +:+ cell
                                +:+ spaces (r - (len cell - Z.of_nat i - 1))) width)
      as (a1 & b1 & -> & Ha1 & Hb1 & Hsum1 & Ea1).
    rewrite !len_app, !len_spaces in Hsum1, Ea1 by lia.
    replace (Z.max width (l - Z.of_nat i + (len cell + (r - (len cell - Z.of_nat i - 1)))))
      with width in Hsum1, Ea1 by lia.
    exists (a1 + (l - Z.of_nat i)), (r - (len cell - Z.of_nat i - 1) + b1).
    split.
    { rewrite <- !spaces_add by lia. rewrite !app_assoc_string. reflexivity. }
    repeat split; try lia.
    intros char' i' _ [= <-] _ Ei'. rewrite Ei in Ei'. injection Ei' as <-.
    unfold position. rewrite El, Er. rewrite Ea1.
    replace (width - (l - Z.of_nat i + (len cell + (r - (len cell - Z.of_nat i - 1)))))
      with (width - (l + 1 + r)) by lia.
    lia.
Qed.

Lemma constructor_paired (headers : list string) :
  Forall paired (constructor headers).
Proof. unfold constructor. apply Forall_map, Forall_true. intros h. exact I. Qed.

Lemma setColumnAlignment_paired (columns columns' : list Column) (sel : Selector)
      (a : string) (c : option string) :
  Forall paired columns ->
  setColumnAlignment columns sel a c = Returned columns' ->
  Forall paired columns'.
Proof.
  intros Hp. unfold setColumnAlignment.
  destruct (align_of a) as [al|]; [|discriminate].
  destruct (match al with CENTER_ON => negb (truthy c) | _ => false end); [discriminate|].
  destruct (getColumnIndex columns sel) as [idx| |]; try discriminate.
  destruct (idx <? 0); [discriminate|].
  destruct (columns !! Z.to_nat idx) as [column|] eqn:E; [|discriminate].
  intros [= <-]. apply Forall_insert; [exact Hp|].
  pose proof (Forall_lookup_1 _ _ _ _ Hp E) as Hc.
  destruct (truthy c); exact Hc.
Qed.

Lemma substring_length (s : string) (i n : nat) :
  String.length (substring i n s) = Nat.min n (String.length s - i).
Proof.
  revert i n. induction s as [|c s IH]; intros [|i] [|n]; cbn; try reflexivity.
  - rewrite IH. rewrite Nat.sub_0_r. reflexivity.
  - apply IH.
  - apply IH.
Qed.

Lemma substring_skip (pre s : string) (i n : nat) :
  substring (String.length pre + i) n (pre +:+ s) = substring i n s.
Proof. induction pre as [|c pre IH]; [reflexivity|]. rewrite app_cons. exact IH. Qed.

Lemma substring_within (s post : string) (i n : nat) :
  (i + n <= String.length s)%nat -> substring i n (s +:+ post) = substring i n s.
Proof.
  revert i n. induction s as [|c s IH]; intros i n H.
  - cbn in H. assert (i = 0%nat) as -> by lia. assert (n = 0%nat) as -> by lia.
    destruct post; reflexivity.
  - rewrite app_cons. destruct i as [|i].
    + destruct n as [|n]; [reflexivity|]. cbn. f_equal. apply IH. cbn in H. lia.
    + cbn. apply IH. cbn in H. lia.
Qed.

(** What [#findUniqueChar] finds is the one place of [char] in the text. *)
Lemma findUniqueChar_spec (text char : string) (charIndex : nat) :
  truthy (Some char) = true ->
  findUniqueChar text char = Some charIndex ->
  substring charIndex (String.length char) text = char
  /\ (charIndex + String.length char <= String.length text)%nat
  /\ forall j, substring j (String.length char) text = char -> j = charIndex.
Proof.
  intros Ht. unfold findUniqueChar, indexOf.
  assert (char <> EmptyString) as Hne by (destruct char; [discriminate Ht | discriminate]).
  assert (1 <= String.length char)%nat as Hpos by (destruct char; [congruence | cbn; lia]).
  cbn [Nat.min].
  destruct (String.index 0 char text) as [firstPos|] eqn:E1; [|intros E; discriminate E].
  pose proof (index_correct1 _ _ _ _ E1) as Hat.
  assert (firstPos + String.length char <= String.length text)%nat as Hin.
  { pose proof (substring_length text firstPos (String.length char)) as Hl.
    rewrite Hat in Hl. lia. }
  destruct (String.index (Nat.min (firstPos + 1) (String.length text)) char text)
    as [nextPos|] eqn:E2; [intros E; discriminate E|].
  intros [= <-]. split; [exact Hat|]. split; [exact Hin|].
  intros j Hj.
  destruct (Nat.lt_trichotomy j firstPos) as [Hlt|[Heq|Hgt]]; [|exact Heq|].
  - destruct (index_correct2 _ _ _ _ E1 j); [lia | exact Hlt | exact Hj].
  - rewrite Nat.min_l in E2 by lia.
    destruct (index_correct3 _ j _ _ E2 Hne); [lia | exact Hj].
Qed.

(** X27.  Every cell comes out as wide as its column.  For columns whose
    [maxLeft] and [maxRight] are both there or both not (as the constructor
    and [setColumnAlignment] leave them) and cells that hold no escape
    character, [#calculateColumnWidths] returns a width for every column
    that is at least the length of the title, leaves the columns as such
    columns again, and [#alignCell], called as [render] calls it, throws
    for no cell: it gives the cell between spaces, of exactly the width of
    the column.  The spaces are behind the cell in a
    column aligned ['left'], in front of it in one aligned ['right'], and
    for ['center'] as many behind as in front, or one more. *)
Theorem aligned_cells_fill_column (columns : list Column) (rows : list (list string)) :
  Forall paired columns ->
  Forall (Forall (fun cell => Ansi.plain cell = true)) rows ->
  exists measured,
    calculateColumnWidths columns rows = Some measured
    /\ length measured = length columns
    /\ forall i column width,
         measured !! i = Some (column, width) ->
         (exists before,
             columns !! i = Some before
             /\ title column = title before /\ align column = align before
             /\ centerChar column = centerChar before)
         /\ paired column
         /\ len (title column) <= width
         /\ forall row cell,
              row ∈ rows -> row !! i = Some cell ->
              exists a b,
                alignCell cell column width = Some (spaces a +:+ cell +:+ spaces b)
                /\ 0 <= a /\ 0 <= b /\ a + len cell + b = width
                /\ match align column with
                   | LEFT => a = 0
                   | RIGHT => b = 0
                   | CENTER => a <= b <= a + 1
                   | CENTER_ON => True
                   end.
Proof.
  intros Hp Hplain. unfold calculateColumnWidths.
  destruct (measureColumns_covers rows columns 0 Hp) as (measured & -> & Hlen & Hm).
  exists measured. split; [reflexivity|]. split; [exact Hlen|].
  intros i column width Hi. destruct (Hm i column width Hi) as (Hb & Hq & Ht & Hc).
  split; [exact Hb|]. split; [exact Hq|]. split; [exact Ht|].
  intros row cell Hrow Hcell.
  assert (Ansi.plain cell = true) as Hpl.
  { rewrite Forall_forall in Hplain. pose proof (Hplain row Hrow) as Hr.
    rewrite Forall_forall in Hr. apply Hr. eapply list_elem_of_lookup_2, Hcell. }
  pose proof (Hc row Hrow) as Hcov. unfold strippedCell in Hcov. cbn [Nat.add] in Hcov.
  rewrite Hcell, (strip_plain cell Hpl) in Hcov.
  destruct (alignCell_covers cell column width Hpl Hcov)
    as (a & b & E & Ha & Hb' & Hsum & Hal & _).
  exists a, b. repeat split; assumption.
Qed.

(** X28.  In a column aligned ['center-on'] the centre characters stand
    one below the other.  For columns and cells as in X27 there is one
    position in the column where, for every cell that holds the centre
    character exactly once, the aligned cell holds this character; it is
    the only place of the character in the cell that [#findUniqueChar]
    tells, shifted by the spaces in front. *)
Theorem center_on_lines_up (columns : list Column) (rows : list (list string))
        (measured : list (Column * Z)) (i : nat) (column : Column) (width : Z)
        (char : string) :
  Forall paired columns ->
  Forall (Forall (fun cell => Ansi.plain cell = true)) rows ->
  calculateColumnWidths columns rows = Some measured ->
  measured !! i = Some (column, width) ->
  align column = CENTER_ON ->
  centerChar column = Some char ->
  char <> EmptyString ->
  exists p : nat,
    forall row cell charIndex,
      row ∈ rows -> row !! i = Some cell ->
      findUniqueChar cell char = Some charIndex ->
      (forall j, substring j (String.length char) cell = char <-> j = charIndex)
      /\ exists s a b,
           alignCell cell column width = Some s
           /\ s = spaces a +:+ cell +:+ spaces b /\ 0 <= a /\ 0 <= b
           /\ len s = width
           /\ (Z.to_nat a + charIndex = p)%nat
           /\ substring p (String.length char) s = char.
Proof.
  intros Hp Hplain Hcalc Hi Ha Hc Hne. unfold calculateColumnWidths in Hcalc.
  destruct (measureColumns_covers rows columns 0 Hp) as (measured' & E & _ & Hm).
  rewrite Hcalc in E. injection E as <-.
  destruct (Hm i column width Hi) as (_ & _ & _ & Hcov).
  assert (truthy (Some char) = true) as Ht by (destruct char; [congruence | reflexivity]).
  exists (Z.to_nat (position column width)).
  intros row cell charIndex Hrow Hcell Hu.
  assert (Ansi.plain cell = true) as Hpl.
  { rewrite Forall_forall in Hplain. pose proof (Hplain row Hrow) as Hr.
    rewrite Forall_forall in Hr. apply Hr. eapply list_elem_of_lookup_2, Hcell. }
  pose proof (Hcov row Hrow) as Hcv. unfold strippedCell in Hcv. cbn [Nat.add] in Hcv.
  rewrite Hcell, (strip_plain cell Hpl) in Hcv.
  destruct (findUniqueChar_spec cell char charIndex Ht Hu) as (Hat & Hin & Honly).
  split.
  { intros j. split; [apply Honly | intros ->; exact Hat]. }
  destruct (alignCell_covers cell column width Hpl Hcv)
    as (a & b & E & Ha0 & Hb0 & Hsum & _ & Hpos).
  specialize (Hpos char charIndex Ha Hc Ht Hu).
  exists (spaces a +:+ cell +:+ spaces b), a, b.
  split; [exact E|]. split; [reflexivity|]. split; [exact Ha0|]. split; [exact Hb0|].
  split; [rewrite !len_app, !len_spaces by lia; lia|].
  split; [lia|].
  replace (Z.to_nat (position column width))
    with (String.length (spaces a) + charIndex)%nat
    by (unfold spaces; rewrite length_repeat_string; lia).
  rewrite substring_skip, substring_within by exact Hin. exact Hat.
Qed.

End ColumnsFacts.

Lemma aligned_cells_fill_column_prices :
  Forall Columns.paired Columns.prices_columns
  /\ Forall (Forall (fun cell => Ansi.plain cell = true)) Columns.prices_rows
  /\ exists measured,
       Columns.calculateColumnWidths Columns.prices_columns Columns.prices_rows
       = Some measured
       /\ length measured = length Columns.prices_columns
       /\ forall i column width,
            measured !! i = Some (column, width) ->
            (exists before,
                Columns.prices_columns !! i = Some before
                /\ Columns.title column = Columns.title before
                /\ Columns.align column = Columns.align before
                /\ Columns.centerChar column = Columns.centerChar before)
            /\ Columns.paired column
            /\ Columns.len (Columns.title column) <= width
            /\ forall row cell,
                 row ∈ Columns.prices_rows -> row !! i = Some cell ->
                 exists a b,
                   Columns.alignCell cell column width
                   = Some (Columns.spaces a +:+ cell +:+ Columns.spaces b)
                   /\ 0 <= a /\ 0 <= b /\ a + Columns.len cell + b = width
                   /\ match Columns.align column with
                      | Columns.LEFT => a = 0
                      | Columns.RIGHT => b = 0
                      | Columns.CENTER => a <= b <= a + 1
                      | Columns.CENTER_ON => True
                      end.
Proof.
  assert (Forall Columns.paired Columns.prices_columns) as Hp
    by (repeat constructor).
  assert (Forall (Forall (fun cell => Ansi.plain cell = true)) Columns.prices_rows) as Hr
    by (repeat constructor).
  split; [exact Hp|]. split; [exact Hr|].
  apply (aligned_cells_fill_column Columns.prices_columns Columns.prices_rows Hp Hr).
Defined.

Lemma center_on_lines_up_prices :
  Forall Columns.paired Columns.prices_columns
  /\ Forall (Forall (fun cell => Ansi.plain cell = true)) Columns.prices_rows
  /\ exists p : nat,
       forall row cell charIndex,
         row ∈ Columns.prices_rows -> row !! 1%nat = Some cell ->
         Columns.findUniqueChar cell "." = Some charIndex ->
         (forall j, substring j (String.length ".") cell = "." <-> j = charIndex)
         /\ exists s a b,
              Columns.alignCell cell
                {| Columns.title := "price"; Columns.align := Columns.CENTER_ON;
                   Columns.centerChar := Some "."; Columns.maxLeft := Some 2;
                   Columns.maxRight := Some 2 |} 5
              = Some s
              /\ s = Columns.spaces a +:+ cell +:+ Columns.spaces b /\ 0 <= a /\ 0 <= b
              /\ Columns.len s = 5
              /\ (Z.to_nat a + charIndex = p)%nat
              /\ substring p (String.length ".") s = ".".
Proof.
  assert (Forall Columns.paired Columns.prices_columns) as Hp
    by (repeat constructor).
  assert (Forall (Forall (fun cell => Ansi.plain cell = true)) Columns.prices_rows) as Hr
    by (repeat constructor).
  split; [exact Hp|]. split; [exact Hr|].
  apply (center_on_lines_up Columns.prices_columns Columns.prices_rows
           [({| Columns.title := "item"; Columns.align := Columns.LEFT;
                Columns.centerChar := None; Columns.maxLeft := None;
                Columns.maxRight := None |}, 6);
            ({| Columns.title := "price"; Columns.align := Columns.CENTER_ON;
                Columns.centerChar := Some "."; Columns.maxLeft := Some 2;
                Columns.maxRight := Some 2 |}, 5)]
           1%nat _ 5 "." Hp Hr).
  - vm_compute. reflexivity.
  - reflexivity.
  - reflexivity.
  - reflexivity.
  - discriminate.
Defined.

(** The prices, aligned: the points stand at the third place. *)
Example prices_aligned :
  (measured ← Columns.calculateColumnWidths Columns.prices_columns Columns.prices_rows;
   '(column, width) ← measured !! 1%nat;
   Some (map (fun row => cell ← row !! 1%nat; Columns.alignCell cell column width)
             Columns.prices_rows))
  = Some [Some " 1.5 "; Some "12.25"; Some "free "].
Proof. vm_compute. reflexivity. Qed.

(** A cell in colour in a column aligned ['center-on']: the widths are
    taken of the stripped cell, the place of the centre character of the
    cell as it is, and [repeat] is called with a negative count. *)
Example center_on_coloured_cell :
  let rows := [[Ansi.formatter [Ansi.Str (Ansi.fg 1)] "1.5"]] in
  (measured ← Columns.calculateColumnWidths Columns.prices_columns
                (map (cons "tea") rows);
   '(column, width) ← measured !! 1%nat;
   Some (width, Columns.alignCell (Ansi.formatter [Ansi.Str (Ansi.fg 1)] "1.5")
                                  column width))
  = Some (5, None).
Proof. vm_compute. reflexivity. Qed.

(** A cell in colour in a column aligned ['center']: it is centred by the
    length it has with its escape sequences, and comes out three
    characters wide in a column of five. *)
Example center_coloured_cell :
  let column := {| Columns.title := "price"; Columns.align := Columns.CENTER;
                   Columns.centerChar := None; Columns.maxLeft := None;
                   Columns.maxRight := None |} in
  let cell := Ansi.formatter [Ansi.Str (Ansi.fg 1)] "1.5" in
  Columns.calculateColumnWidths [column] [[cell]] = Some [(column, 5)]
  /\ option_map (fun s => String.length (Ansi.stripFormatting s))
                (Columns.alignCell cell column 5) = Some 3%nat.
Proof. vm_compute. split; reflexivity. Qed.
